(** * Agents2: zone store, road-network builder and agent simulation

    A shallow embedding of the simulation core of the Agents2 city builder
    (zoneManager.js, roadNetwork.js, agentManager.js and the tick of
    core/game.js) together with the properties its specification states
    about it.

    Numbers.  Every JavaScript number of the engine is a binary64 float.
    The embedding is written once over an interface [Arith] of the numeric
    operations the code uses, and is read at two instances:
    - [FloatArith]: Rocq's primitive binary64 floats, the arithmetic the
      engine really runs on; concrete runs are computed with it;
    - [RArith]: the real numbers, the arithmetic the code would have
      without rounding.
    Theorems stated for every [Arith] hold for both.

    Effects.  The engine mutates one shared [Game] object.  Functions that
    only edit zones are state transformers [Game -> Game]; the road-network
    builder and the agent simulation run in a small monad [M] with the game
    as state, JavaScript exceptions as an outcome, and fuel for the loops
    whose trip count is not fixed in advance. *)

From Stdlib Require Import String.
From Stdlib Require Import ZArith List Bool Lia Arith.
From Stdlib Require Import Floats.
From Stdlib Require Import Reals Lra.
From Stdlib Require Import Permutation.
Import ListNotations.

Set Implicit Arguments.

(* ===================================================================== *)
(** ** Numbers *)
(* ===================================================================== *)

(** The operations of JavaScript numbers the engine uses. [nltb] and [nleb]
    are [<] and [<=]; [a > b] is [b < a] and [a >= b] is [b <= a]. *)
Class Arith : Type := {
  num : Type;
  nadd : num -> num -> num;
  nsub : num -> num -> num;
  nmul : num -> num -> num;
  ndiv : num -> num -> num;
  nltb : num -> num -> bool;
  nleb : num -> num -> bool;
  neqb : num -> num -> bool;
  nsqrt : num -> num;                 (* Math.sqrt *)
  nhypot : num -> num -> num;         (* Math.hypot *)
  nfloor : num -> num;                (* Math.floor *)
  nceil : num -> num;                 (* Math.ceil *)
  nround : num -> num;                (* Math.round *)
  ncos : num -> num;                  (* Math.cos *)
  nsin : num -> num;                  (* Math.sin *)
  natan2 : num -> num -> num;         (* Math.atan2(y, x) *)
  nmin : num -> num -> num;           (* Math.min *)
  nmax : num -> num -> num;           (* Math.max *)
  nPI : num;                          (* Math.PI *)
  of_Z : Z -> num;                    (* an integer literal or counter *)
  lt_infinity : num -> bool;          (* d < Infinity *)
  to_index : num -> option nat        (* arr[v]: the index v denotes, if any *)
}.

Declare Scope num_scope.
Delimit Scope num_scope with num.
Bind Scope num_scope with num.
Notation "a + b" := (nadd a b) : num_scope.
Notation "a - b" := (nsub a b) : num_scope.
Notation "a * b" := (nmul a b) : num_scope.
Notation "a / b" := (ndiv a b) : num_scope.
Notation "a <? b" := (nltb a b) : num_scope.
Notation "a <=? b" := (nleb a b) : num_scope.
Notation "a >? b" := (nltb b a) : num_scope.
Notation "a >=? b" := (nleb b a) : num_scope.

Section Engine.

Context {A : Arith}.
Local Open Scope num_scope.

Definition of_nat (n : nat) : num := of_Z (Z.of_nat n).

(** A decimal literal [n/d] (0.8 is [dec 8 10]): binary64 division is
    correctly rounded, so the quotient of the two integers is the double the
    literal denotes. *)
Definition dec (n d : Z) : num := of_Z n / of_Z d.

(** Truthiness of a number: neither 0 nor NaN. *)
Definition truthy (v : num) : bool := (of_Z 0 <? v) || (v <? of_Z 0).

(** Constants of the [Game] constructor (core/game.js). *)
Definition WORLD_WIDTH : num := of_Z 10000.
Definition WORLD_HEIGHT : num := of_Z 10000.
Definition MIN_POINT_DISTANCE : num := of_Z 20.
Definition CONNECTION_RADIUS : num := of_Z 60.
Definition MAX_AGENTS_PER_ZONE : num := of_Z 10.
Definition PACKING_EFFICIENCY : num := dec 8 10.
Definition MIN_AGENT_DISTANCE : num := of_Z 100.
Definition PATHFINDING_STEP_SIZE : num := of_Z 25.
Definition EDGE_THRESHOLD : num := of_Z 30.
Definition MAX_PATHFINDING_ATTEMPTS : nat := 100.

(* ===================================================================== *)
(** ** Data model *)
(* ===================================================================== *)

(** Any object read through its [x] and [y] only: a grid cell, a spawn
    point, a path element, a settle position. *)
Record Point : Type := mkPoint { px : num; py : num }.

(** An element of [zone.points]: one painted circle. *)
Record Circle : Type := mkCircle { cx : num; cy : num; radius : num }.

(** A zone is the union of its circles ([type] and the colours are not
    read by the engine). *)
Record Zone : Type := mkZone { zpoints : list Circle }.

Record Waypoint : Type := mkWaypoint {
  id : nat;
  wx : num;
  wy : num;
  roadRadius : option num;
  segmentIndex : option num;
  isRoadCenter : bool;
  isIntermediate : bool;
  isIntersection : bool;
  isApproach : bool;
  parentIntersection : option nat
}.

Record RoadNetwork : Type := mkRoadNetwork {
  points : list Waypoint;
  connections : list (list nat);
  edgePoints : list nat;
  zoneEntries : list (nat * list nat);   (* Map: first binding of a key wins *)
  needsRebuild : bool
}.

Inductive Phase : Type :=
| traveling_to_node
| traveling_to_area
| settling
| settled.

Record Lot : Type := mkLot {
  lot_points : list Point;
  lot_center : Point;
  lot_area : num
}.

Record Agent : Type := mkAgent {
  ax : num;
  ay : num;
  targetZoneIndex : nat;
  finalPosition : Point;
  closestNodeToFinalPosition : option nat;   (* None is the id -1 *)
  pathToNode : list Point;
  pathToNodeIndex : nat;
  phase : Phase;
  speed : num;
  aradius : num;
  lotPolygon : option Lot
}.

Record BuildMode : Type := mkBuildMode {
  active : bool;
  selectedType : option string;     (* None is null *)
  brushSize : num;
  lastPaintX : option num;          (* None is null *)
  lastPaintY : option num
}.

Record Game : Type := mkGame {
  residentialZones : list Zone;
  roadZones : list Zone;
  buildMode : BuildMode;
  needsConnectionUpdate : bool;
  roadNetwork : RoadNetwork;
  zoneConnections : list (nat * bool);    (* Map: first binding of a key wins *)
  agents : list Agent;
  agentSpawnQueue : list Agent;
  lastSpawnTime : num;
  spawnDelay : num;
  (* the variable [pointIdCounter] that the closure [addWaypoint] of
     buildRoadNetwork captures and increments *)
  pointIdCounter : nat;
  (* the values the coming calls of Math.random() return, in order *)
  randoms : list num
}.

(** Field updates. *)
Definition set_residentialZones (v : list Zone) (g : Game) : Game :=
  mkGame v (roadZones g) (buildMode g) (needsConnectionUpdate g) (roadNetwork g)
    (zoneConnections g) (agents g) (agentSpawnQueue g) (lastSpawnTime g)
    (spawnDelay g) (pointIdCounter g) (randoms g).
Definition set_roadZones (v : list Zone) (g : Game) : Game :=
  mkGame (residentialZones g) v (buildMode g) (needsConnectionUpdate g) (roadNetwork g)
    (zoneConnections g) (agents g) (agentSpawnQueue g) (lastSpawnTime g)
    (spawnDelay g) (pointIdCounter g) (randoms g).
Definition set_buildMode (v : BuildMode) (g : Game) : Game :=
  mkGame (residentialZones g) (roadZones g) v (needsConnectionUpdate g) (roadNetwork g)
    (zoneConnections g) (agents g) (agentSpawnQueue g) (lastSpawnTime g)
    (spawnDelay g) (pointIdCounter g) (randoms g).
Definition set_needsConnectionUpdate (v : bool) (g : Game) : Game :=
  mkGame (residentialZones g) (roadZones g) (buildMode g) v (roadNetwork g)
    (zoneConnections g) (agents g) (agentSpawnQueue g) (lastSpawnTime g)
    (spawnDelay g) (pointIdCounter g) (randoms g).
Definition set_roadNetwork (v : RoadNetwork) (g : Game) : Game :=
  mkGame (residentialZones g) (roadZones g) (buildMode g) (needsConnectionUpdate g) v
    (zoneConnections g) (agents g) (agentSpawnQueue g) (lastSpawnTime g)
    (spawnDelay g) (pointIdCounter g) (randoms g).
Definition set_zoneConnections (v : list (nat * bool)) (g : Game) : Game :=
  mkGame (residentialZones g) (roadZones g) (buildMode g) (needsConnectionUpdate g)
    (roadNetwork g) v (agents g) (agentSpawnQueue g) (lastSpawnTime g)
    (spawnDelay g) (pointIdCounter g) (randoms g).
Definition set_agents (v : list Agent) (g : Game) : Game :=
  mkGame (residentialZones g) (roadZones g) (buildMode g) (needsConnectionUpdate g)
    (roadNetwork g) (zoneConnections g) v (agentSpawnQueue g) (lastSpawnTime g)
    (spawnDelay g) (pointIdCounter g) (randoms g).
Definition set_agentSpawnQueue (v : list Agent) (g : Game) : Game :=
  mkGame (residentialZones g) (roadZones g) (buildMode g) (needsConnectionUpdate g)
    (roadNetwork g) (zoneConnections g) (agents g) v (lastSpawnTime g)
    (spawnDelay g) (pointIdCounter g) (randoms g).
Definition set_lastSpawnTime (v : num) (g : Game) : Game :=
  mkGame (residentialZones g) (roadZones g) (buildMode g) (needsConnectionUpdate g)
    (roadNetwork g) (zoneConnections g) (agents g) (agentSpawnQueue g) v
    (spawnDelay g) (pointIdCounter g) (randoms g).
Definition set_pointIdCounter (v : nat) (g : Game) : Game :=
  mkGame (residentialZones g) (roadZones g) (buildMode g) (needsConnectionUpdate g)
    (roadNetwork g) (zoneConnections g) (agents g) (agentSpawnQueue g) (lastSpawnTime g)
    (spawnDelay g) v (randoms g).
Definition set_randoms (v : list num) (g : Game) : Game :=
  mkGame (residentialZones g) (roadZones g) (buildMode g) (needsConnectionUpdate g)
    (roadNetwork g) (zoneConnections g) (agents g) (agentSpawnQueue g) (lastSpawnTime g)
    (spawnDelay g) (pointIdCounter g) v.

Definition set_lastPaint (x y : num) (b : BuildMode) : BuildMode :=
  mkBuildMode (active b) (selectedType b) (brushSize b) (Some x) (Some y).
Definition set_brushSize (v : num) (b : BuildMode) : BuildMode :=
  mkBuildMode (active b) (selectedType b) v (lastPaintX b) (lastPaintY b).

Definition set_points (v : list Waypoint) (r : RoadNetwork) : RoadNetwork :=
  mkRoadNetwork v (connections r) (edgePoints r) (zoneEntries r) (needsRebuild r).
Definition set_connections (v : list (list nat)) (r : RoadNetwork) : RoadNetwork :=
  mkRoadNetwork (points r) v (edgePoints r) (zoneEntries r) (needsRebuild r).
Definition set_edgePoints (v : list nat) (r : RoadNetwork) : RoadNetwork :=
  mkRoadNetwork (points r) (connections r) v (zoneEntries r) (needsRebuild r).
Definition set_zoneEntries (v : list (nat * list nat)) (r : RoadNetwork) : RoadNetwork :=
  mkRoadNetwork (points r) (connections r) (edgePoints r) v (needsRebuild r).
Definition set_needsRebuild (v : bool) (r : RoadNetwork) : RoadNetwork :=
  mkRoadNetwork (points r) (connections r) (edgePoints r) (zoneEntries r) v.

Definition set_isIntersection (v : bool) (w : Waypoint) : Waypoint :=
  mkWaypoint (id w) (wx w) (wy w) (roadRadius w) (segmentIndex w) (isRoadCenter w)
    (isIntermediate w) v (isApproach w) (parentIntersection w).

Definition set_pos (x y : num) (a : Agent) : Agent :=
  mkAgent x y (targetZoneIndex a) (finalPosition a) (closestNodeToFinalPosition a)
    (pathToNode a) (pathToNodeIndex a) (phase a) (speed a) (aradius a) (lotPolygon a).
Definition set_phase (p : Phase) (a : Agent) : Agent :=
  mkAgent (ax a) (ay a) (targetZoneIndex a) (finalPosition a) (closestNodeToFinalPosition a)
    (pathToNode a) (pathToNodeIndex a) p (speed a) (aradius a) (lotPolygon a).
Definition set_pathToNodeIndex (i : nat) (a : Agent) : Agent :=
  mkAgent (ax a) (ay a) (targetZoneIndex a) (finalPosition a) (closestNodeToFinalPosition a)
    (pathToNode a) i (phase a) (speed a) (aradius a) (lotPolygon a).
Definition set_lotPolygon (l : option Lot) (a : Agent) : Agent :=
  mkAgent (ax a) (ay a) (targetZoneIndex a) (finalPosition a) (closestNodeToFinalPosition a)
    (pathToNode a) (pathToNodeIndex a) (phase a) (speed a) (aradius a) l.

(** [arr[i] = v] on an existing index; out of range the list is returned
    unchanged (every caller reads [arr[i]] first and throws when it is
    undefined). *)
Fixpoint list_set {X : Type} (i : nat) (v : X) (l : list X) : list X :=
  match l, i with
  | [], _ => []
  | _ :: t, O => v :: t
  | h :: t, S i' => h :: list_set i' v t
  end.

(** [arr.splice(i, 1)]. *)
Fixpoint list_remove {X : Type} (i : nat) (l : list X) : list X :=
  match l, i with
  | [], _ => []
  | _ :: t, O => t
  | h :: t, S i' => h :: list_remove i' t
  end.

(** [Map.get]. *)
Fixpoint map_get {V : Type} (k : nat) (m : list (nat * V)) : option V :=
  match m with
  | [] => None
  | (k', v) :: t => if Nat.eqb k k' then Some v else map_get k t
  end.

(** [Map.set]. *)
Definition map_set {V : Type} (k : nat) (v : V) (m : list (nat * V)) : list (nat * V) :=
  (k, v) :: filter (fun kv => negb (Nat.eqb k (fst kv))) m.

(* ===================================================================== *)
(** ** Geometry shared by the components *)
(* ===================================================================== *)

(** roadNetwork.js, isOnRoad. *)
Definition isOnRoad (g : Game) (x y : num) : bool :=
  existsb (fun zone =>
    existsb (fun point => nhypot (x - cx point) (y - cy point) <=? radius point)
            (zpoints zone))
    (roadZones g).

(** agentManager.js, isPointInZone. *)
Definition isPointInZone (point : Point) (zone : Zone) : bool :=
  existsb (fun zonePoint =>
    nhypot (px point - cx zonePoint) (py point - cy zonePoint) <=? radius zonePoint)
    (zpoints zone).

(* ===================================================================== *)
(** ** Zone store (zoneManager.js) *)
(* ===================================================================== *)

(** The dabbing guard of eraseZone and paintZone: the call is dropped when
    it is not forced and lies closer than 15% of the brush size to the last
    recorded position. [dist] is the distance function the caller uses. *)
Definition tooCloseToLast (dist : num -> num -> num) (x y : num) (force : bool)
    (b : BuildMode) : bool :=
  if force then false else
  match lastPaintX b, lastPaintY b with
  | Some lx, Some ly =>
      let distance := dist (x - lx) (y - ly) in
      let samplingDistance := brushSize b * dec 15 100 in
      distance <? samplingDistance
  | _, _ => false
  end.

(** The loop [for (i = zones.length - 1; i >= 0; i--)] of eraseZone and of
    the road branch of paintZone: every zone keeps the circles whose centre
    is at least [r] away from (x, y), and a zone left without circles is
    spliced out. *)
Definition keepCircle (x y r : num) (p : Circle) : bool :=
  nhypot (x - cx p) (y - cy p) >=? r.

Definition eraseCircles (x y r : num) (zones : list Zone) : list Zone :=
  fold_right (fun zone rest =>
      let zone' := mkZone (filter (keepCircle x y r) (zpoints zone)) in
      match zpoints zone' with
      | [] => rest
      | _ :: _ => zone' :: rest
      end)
    [] zones.

Definition eraseZone (x y : num) (forceErase : bool) (g : Game) : Game :=
  if negb (active (buildMode g)) then g else
  if tooCloseToLast nhypot x y forceErase (buildMode g) then g else
  let g := set_buildMode (set_lastPaint x y (buildMode g)) g in
  let r := brushSize (buildMode g) in
  let g := set_residentialZones (eraseCircles x y r (residentialZones g)) g in
  let g := set_roadZones (eraseCircles x y r (roadZones g)) g in
  let g := set_needsConnectionUpdate true g in
  set_roadNetwork (set_needsRebuild true (roadNetwork g)) g.

(** [Math.sqrt(dx ** 2 + dy ** 2)], the distance paintZone uses in its guard. *)
Definition sqrtDist (dx dy : num) : num := nsqrt (dx * dx + dy * dy).

(** Indices of the zones with a circle closer than [mergeDistance] to (x, y). *)
Definition matchZones (x y mergeDistance : num) (zones : list Zone) : list nat :=
  filter (fun i =>
      match nth_error zones i with
      | Some zone =>
          existsb (fun point => nhypot (x - cx point) (y - cy point) <? mergeDistance)
                  (zpoints zone)
      | None => false
      end)
    (seq 0 (length zones)).

(** [toRemove.forEach(idx => { primary.points.push(...z.points);
    zones.splice(idx, 1) })] for the matched indices after the first, taken
    in descending order; [primary] stays at [primaryIndex] because every
    removed index is larger. *)
Fixpoint consolidate (primaryIndex : nat) (toRemove : list nat) (zones : list Zone)
    : list Zone :=
  match toRemove with
  | [] => zones
  | idx :: rest =>
      match nth_error zones primaryIndex, nth_error zones idx with
      | Some primary, Some z =>
          consolidate primaryIndex rest
            (list_remove idx
               (list_set primaryIndex (mkZone (zpoints primary ++ zpoints z)) zones))
      | _, _ => consolidate primaryIndex rest zones
      end
  end.

(** Painting one circle into a zone collection: a new zone when no zone is
    within merge distance, otherwise the circle joins the first matched zone
    and the other matched zones are folded into it. *)
Definition mergeInto (newZonePoint : Circle) (x y mergeDistance : num)
    (zones : list Zone) : list Zone :=
  match matchZones x y mergeDistance zones with
  | [] => zones ++ [mkZone [newZonePoint]]
  | primaryIndex :: others =>
      match nth_error zones primaryIndex with
      | Some primary =>
          let zones := list_set primaryIndex
                         (mkZone (zpoints primary ++ [newZonePoint])) zones in
          consolidate primaryIndex (rev others) zones
      | None => zones
      end
  end.

Definition overlapsWithRoad (x y overlapRadius : num) (g : Game) : bool :=
  existsb (fun zone =>
      existsb (fun point => nhypot (x - cx point) (y - cy point) <? overlapRadius)
              (zpoints zone))
    (roadZones g).

Definition isResidentialType (t : string) : bool := String.prefix "residential" t.
Definition isRoadType (t : string) : bool := String.eqb t "road".

Definition paintResidential (x y : num) (g : Game) : Game :=
  let b := brushSize (buildMode g) in
  let newZonePoint := mkCircle x y b in
  let mergeDistance := b * dec 12 10 in
  let g := set_residentialZones
             (mergeInto newZonePoint x y mergeDistance (residentialZones g)) g in
  let g := set_needsConnectionUpdate true g in
  set_roadNetwork (set_needsRebuild true (roadNetwork g)) g.

Definition paintRoad (x y : num) (g : Game) : Game :=
  let b := brushSize (buildMode g) in
  let newZonePoint := mkCircle x y b in
  let overlapRadius := b in
  let g := set_residentialZones (eraseCircles x y overlapRadius (residentialZones g)) g in
  let mergeDistance := b * dec 12 10 in
  let g := set_roadZones (mergeInto newZonePoint x y mergeDistance (roadZones g)) g in
  let g := set_needsConnectionUpdate true g in
  set_roadNetwork (set_needsRebuild true (roadNetwork g)) g.

Definition paintZone (x y : num) (forcePaint : bool) (g : Game) : Game :=
  if negb (active (buildMode g)) then g else
  match selectedType (buildMode g) with
  | None => g
  | Some ty =>
      if String.eqb ty EmptyString then g else
      if tooCloseToLast sqrtDist x y forcePaint (buildMode g) then g else
      let g := set_buildMode (set_lastPaint x y (buildMode g)) g in
      if isResidentialType ty then
        if overlapsWithRoad x y (brushSize (buildMode g)) g then g
        else paintResidential x y g
      else if isRoadType ty then paintRoad x y g
      else g
  end.

(** uiManager.js, activateBuildMode: the build item the user selected. *)
Definition activateBuildMode (buildType : string) (size : num) (g : Game) : Game :=
  set_buildMode
    (mkBuildMode true (Some buildType) size
       (lastPaintX (buildMode g)) (lastPaintY (buildMode g))) g.

(** paintZoneAtPoint: paint with a custom brush size, then restore it. *)
Definition paintZoneAtPoint (x y : num) (customBrushSize : option num) (g : Game) : Game :=
  let originalBrushSize := brushSize (buildMode g) in
  let g := match customBrushSize with
           | Some s => if truthy s then set_buildMode (set_brushSize s (buildMode g)) g else g
           | None => g
           end in
  let g := paintZone x y true g in
  set_buildMode (set_brushSize originalBrushSize (buildMode g)) g.

(* ===================================================================== *)
(** ** The engine monad *)
(* ===================================================================== *)

(** How a call ends: it returns [x] leaving the game [g]; it throws, the
    game keeping the mutations done before the throw; or it is still running
    when the fuel of one of its loops is used up, [g] being the game at that
    moment. *)
Inductive Outcome (X : Type) : Type :=
| Ret (x : X) (g : Game)
| Throw (e : string) (g : Game)
| Spin (g : Game).
Arguments Ret {X} x g.
Arguments Throw {X} e g.
Arguments Spin {X} g.

(** The game an outcome leaves. *)
Definition gameOf {X : Type} (o : Outcome X) : Game :=
  match o with
  | Ret _ g => g
  | Throw _ g => g
  | Spin g => g
  end.

Definition M (X : Type) : Type := Game -> Outcome X.

Definition ret {X : Type} (x : X) : M X := fun g => Ret x g.
Definition bind {X Y : Type} (m : M X) (k : X -> M Y) : M Y :=
  fun g => match m g with
           | Ret x g' => k x g'
           | Throw e g' => Throw e g'
           | Spin g' => Spin g'
           end.
Definition throw {X : Type} (e : string) : M X := fun g => Throw e g.
Definition spin {X : Type} : M X := fun g => Spin g.
Definition get : M Game := fun g => Ret g g.
Definition modify (f : Game -> Game) : M unit := fun g => Ret tt (f g).

(** [try { body } catch (error) { handler }]. *)
Definition tryCatch (body : M unit) (handler : string -> M unit) : M unit :=
  fun g => match body g with
           | Ret x g' => Ret x g'
           | Throw e g' => handler e g'
           | Spin g' => Spin g'
           end.

Notation "x <- m ;; k" := (bind m (fun x => k))
  (at level 100, m at next level, right associativity).
Notation "m ;;; k" := (bind m (fun _ => k))
  (at level 100, right associativity).

(** A loop over a list that the body does not change. *)
Fixpoint forEach {B : Type} (l : list B) (body : B -> M unit) : M unit :=
  match l with
  | [] => ret tt
  | b :: t => body b ;;; forEach t body
  end.

(** Reading a property of [arr[i]]: a TypeError when [arr[i]] is undefined. *)
Definition TypeError : string := "TypeError".
Definition nthOrThrow {X : Type} (l : list X) (i : nat) : M X :=
  match nth_error l i with
  | Some v => ret v
  | None => throw TypeError
  end.

Definition mem (n : nat) (l : list nat) : bool := existsb (Nat.eqb n) l.

(* ===================================================================== *)
(** ** Road-network builder (roadNetwork.js) *)
(* ===================================================================== *)

Record Metadata : Type := mkMetadata {
  m_roadRadius : option num;
  m_segmentIndex : option num;
  m_isRoadCenter : bool;
  m_isIntermediate : bool
}.

(** The closure [addWaypoint] of buildRoadNetwork. *)
Definition addWaypoint (x y : num) (metadata : Metadata) : M nat :=
  fun g =>
    let x := nround x in
    let y := nround y in
    let rn := roadNetwork g in
    match find (fun existingPoint =>
                  nhypot (x - wx existingPoint) (y - wy existingPoint) <? MIN_POINT_DISTANCE)
               (points rn) with
    | Some existingPoint => Ret (id existingPoint) g
    | None =>
        let pointId := pointIdCounter g in
        let point := mkWaypoint pointId x y (m_roadRadius metadata)
                       (m_segmentIndex metadata) (m_isRoadCenter metadata)
                       (m_isIntermediate metadata) false false None in
        let rn := set_connections (connections rn ++ [[]])
                    (set_points (points rn ++ [point]) rn) in
        Ret pointId (set_roadNetwork rn (set_pointIdCounter (S pointId) g))
    end.

(** traceRoadSegment: breadth-first grouping of the circles of a zone that
    are chained by centre distances of at most CONNECTION_RADIUS. Returns
    the segment and the updated [processedPoints]. *)
Fixpoint traceRoadSegment (fuel : nat) (roadPoints : list Circle) (queue : list nat)
    (processedPoints : list nat) (segment : list Circle)
    : M (list Circle * list nat) :=
  match fuel with
  | O => spin
  | S fuel' =>
      match queue with
      | [] => ret (segment, processedPoints)
      | currentIndex :: queue =>
          if mem currentIndex processedPoints
          then traceRoadSegment fuel' roadPoints queue processedPoints segment
          else
            current <- nthOrThrow roadPoints currentIndex ;;
            let processedPoints := currentIndex :: processedPoints in
            let segment := segment ++ [current] in
            let near :=
              filter (fun i =>
                  negb (mem i processedPoints) &&
                  match nth_error roadPoints i with
                  | Some other =>
                      nhypot (cx current - cx other) (cy current - cy other)
                        <=? CONNECTION_RADIUS
                  | None => false
                  end)
                (seq 0 (List.length roadPoints)) in
            traceRoadSegment fuel' roadPoints (queue ++ near) processedPoints segment
      end
  end.

(** The inner loop of sortPointsForFlow: index of the first remaining point
    at the least distance from [lastPoint]; [closestDistance] starts at
    Infinity ([None]). *)
Fixpoint closestRemaining (lastPoint : Circle) (remaining : list Circle) (i : nat)
    (closestIndex : nat) (closestDistance : option num) : nat :=
  match remaining with
  | [] => closestIndex
  | r :: rest =>
      let distance := nhypot (cx lastPoint - cx r) (cy lastPoint - cy r) in
      let closer := match closestDistance with
                    | None => lt_infinity distance
                    | Some d => distance <? d
                    end in
      if closer then closestRemaining lastPoint rest (S i) i (Some distance)
      else closestRemaining lastPoint rest (S i) closestIndex closestDistance
  end.

(** The while loop of sortPointsForFlow; [n] is [remaining.length]. *)
Fixpoint flowLoop (n : nat) (lastPoint : Circle) (sorted remaining : list Circle)
    : list Circle :=
  match n with
  | O => sorted
  | S n' =>
      let closestIndex := closestRemaining lastPoint remaining 0 0 None in
      match nth_error remaining closestIndex with
      | Some next =>
          flowLoop n' next (sorted ++ [next]) (list_remove closestIndex remaining)
      | None => sorted
      end
  end.

Definition sortPointsForFlow (pts : list Circle) : list Circle :=
  match pts with
  | [] => pts
  | [_] => pts
  | first :: remaining => flowLoop (List.length remaining) first [first] remaining
  end.

(** The loop [for (step = 1; step < steps; step++)] of
    createWaypointsForSegment, from [step] on. *)
Fixpoint interpolate (fuel : nat) (point nextPoint : Circle) (i : nat) (steps : num)
    (step : nat) : M unit :=
  match fuel with
  | O => spin
  | S fuel' =>
      if of_nat step <? steps then
        let t := of_nat step / steps in
        let interpX := cx point + (cx nextPoint - cx point) * t in
        let interpY := cy point + (cy nextPoint - cy point) * t in
        g <- get ;;
        (if isOnRoad g interpX interpY
         then
           _ <- addWaypoint interpX interpY
                  (mkMetadata (Some (nmin (radius point) (radius nextPoint)))
                              (Some (of_nat i + t)) false true) ;;
           ret tt
         else ret tt) ;;;
        interpolate fuel' point nextPoint i steps (S step)
      else ret tt
  end.

(** The body of the loop of createWaypointsForSegment for index [i]. *)
Definition waypointsAt (fuel : nat) (sortedSegment : list Circle) (i : nat) : M unit :=
  point <- nthOrThrow sortedSegment i ;;
  _ <- addWaypoint (cx point) (cy point)
         (mkMetadata (Some (radius point)) (Some (of_nat i)) true false) ;;
  if Nat.ltb i (List.length sortedSegment - 1) then
    nextPoint <- nthOrThrow sortedSegment (i + 1) ;;
    let distance := nhypot (cx nextPoint - cx point) (cy nextPoint - cy point) in
    if distance >? of_Z 50 then
      let steps := nceil (distance / of_Z 30) in
      interpolate fuel point nextPoint i steps 1
    else ret tt
  else ret tt.

Definition createWaypointsForSegment (fuel : nat) (segment : list Circle) : M unit :=
  match segment with
  | [] => ret tt
  | _ :: _ =>
      let sortedSegment := sortPointsForFlow segment in
      forEach (seq 0 (List.length sortedSegment)) (waypointsAt fuel sortedSegment)
  end.

(** The first loop of extractRoadCenterline: the segments of a zone. *)
Fixpoint roadSegmentsOf (fuel : nat) (roadPoints : list Circle) (indices : list nat)
    (processedPoints : list nat) (roadSegments : list (list Circle))
    : M (list (list Circle)) :=
  match indices with
  | [] => ret roadSegments
  | i :: rest =>
      if mem i processedPoints
      then roadSegmentsOf fuel roadPoints rest processedPoints roadSegments
      else
        r <- traceRoadSegment fuel roadPoints [i] processedPoints [] ;;
        let (segment, processedPoints) := r in
        match segment with
        | [] => roadSegmentsOf fuel roadPoints rest processedPoints roadSegments
        | _ :: _ =>
            roadSegmentsOf fuel roadPoints rest processedPoints (roadSegments ++ [segment])
        end
  end.

Definition extractRoadCenterline (fuel : nat) (zone : Zone) : M unit :=
  match zpoints zone with
  | [] => ret tt
  | _ :: _ =>
      roadSegments <- roadSegmentsOf fuel (zpoints zone)
                        (seq 0 (List.length (zpoints zone))) [] [] ;;
      forEach roadSegments (createWaypointsForSegment fuel)
  end.

(** hasRoadPathBetween: eleven evenly spaced samples, all on a road. *)
Definition hasRoadPathBetween (g : Game) (pointA pointB : Waypoint) : bool :=
  forallb (fun i =>
      let t := of_nat i / of_Z 10 in
      let x := wx pointA + (wx pointB - wx pointA) * t in
      let y := wy pointA + (wy pointB - wy pointA) * t in
      isOnRoad g x y)
    (seq 0 11).

(** [this.roadNetwork.connections[i].push(j)]. *)
Definition pushConnection (i j : nat) : M unit :=
  g <- get ;;
  ci <- nthOrThrow (connections (roadNetwork g)) i ;;
  modify (fun g =>
    let rn := roadNetwork g in
    set_roadNetwork (set_connections (list_set i (ci ++ [j]) (connections rn)) rn) g).

(** The body of the double loop of connectNearbyWaypoints for the pair i < j. *)
Definition connectPair (i j : nat) : M unit :=
  g <- get ;;
  pointA <- nthOrThrow (points (roadNetwork g)) i ;;
  pointB <- nthOrThrow (points (roadNetwork g)) j ;;
  let distance := nhypot (wx pointA - wx pointB) (wy pointA - wy pointB) in
  if distance <=? CONNECTION_RADIUS then
    if hasRoadPathBetween g pointA pointB then
      ci <- nthOrThrow (connections (roadNetwork g)) i ;;
      if mem j ci then ret tt
      else pushConnection i j ;;; pushConnection j i
    else ret tt
  else ret tt.

(** The approach waypoint enhanceIntersection may add for one connection
    of the intersection. *)
Definition addApproach (intersectionIndex connectionId : nat) : M unit :=
  g <- get ;;
  intersection <- nthOrThrow (points (roadNetwork g)) intersectionIndex ;;
  connectedPoint <- nthOrThrow (points (roadNetwork g)) connectionId ;;
  let approachDistance := of_Z 25 in
  let dx := wx intersection - wx connectedPoint in
  let dy := wy intersection - wy connectedPoint in
  let distance := nhypot dx dy in
  if distance >? approachDistance * of_Z 2 then
    let normalizedDx := dx / distance in
    let normalizedDy := dy / distance in
    let approachX := wx intersection - normalizedDx * approachDistance in
    let approachY := wy intersection - normalizedDy * approachDistance in
    if isOnRoad g approachX approachY then
      let tooClose :=
        existsb (fun existingPoint =>
            nhypot (approachX - wx existingPoint) (approachY - wy existingPoint)
              <? of_Z 15)
          (points (roadNetwork g)) in
      if tooClose then ret tt
      else
        let approachId := List.length (points (roadNetwork g)) in
        modify (fun g =>
          let rn := roadNetwork g in
          let point := mkWaypoint approachId (nround approachX) (nround approachY)
                         None None false false false true (Some intersectionIndex) in
          set_roadNetwork
            (set_connections (connections rn ++ [[intersectionIndex; connectionId]])
               (set_points (points rn ++ [point]) rn)) g) ;;;
        pushConnection intersectionIndex approachId ;;;
        pushConnection connectionId approachId
    else ret tt
  else ret tt.

(** The loop [for (let connectionId of connections)] of enhanceIntersection,
    from position [k] on. [connections] is the live adjacency list of the
    intersection, which the body appends to: the iteration also visits the
    approach ids it has added. *)
Fixpoint enhanceLoop (fuel : nat) (intersectionIndex k : nat) : M unit :=
  match fuel with
  | O => spin
  | S fuel' =>
      g <- get ;;
      conns <- nthOrThrow (connections (roadNetwork g)) intersectionIndex ;;
      match nth_error conns k with
      | None => ret tt
      | Some connectionId =>
          addApproach intersectionIndex connectionId ;;;
          enhanceLoop fuel' intersectionIndex (S k)
      end
  end.

Definition enhanceIntersection (fuel : nat) (intersectionIndex : nat) : M unit :=
  g <- get ;;
  conns <- nthOrThrow (connections (roadNetwork g)) intersectionIndex ;;
  if Nat.leb 4 (List.length conns) then enhanceLoop fuel intersectionIndex 0
  else ret tt.

(** [this.roadNetwork.points[i].isIntersection = true]. *)
Definition markIntersection (i : nat) : M unit :=
  g <- get ;;
  point <- nthOrThrow (points (roadNetwork g)) i ;;
  modify (fun g =>
    let rn := roadNetwork g in
    set_roadNetwork
      (set_points (list_set i (set_isIntersection true point) (points rn)) rn) g).

(** identifyIntersections from index [i] on; [points.length] is read at
    every turn and grows with the approach waypoints. *)
Fixpoint identifyIntersections (fuel : nat) (i : nat) : M unit :=
  match fuel with
  | O => spin
  | S fuel' =>
      g <- get ;;
      if Nat.ltb i (List.length (points (roadNetwork g))) then
        conns <- nthOrThrow (connections (roadNetwork g)) i ;;
        (if Nat.leb 3 (List.length conns)
         then markIntersection i ;;; enhanceIntersection fuel i
         else ret tt) ;;;
        identifyIntersections fuel' (S i)
      else ret tt
  end.

(** [connections.sort((a, b) => angleA - angleB)]: the stable ascending
    order of the keys (V8 sorts stably); a key is the angle of the neighbour
    seen from the intersection. *)
Fixpoint insertByAngle (x : nat * num) (l : list (nat * num)) : list (nat * num) :=
  match l with
  | [] => [x]
  | y :: t =>
      if (snd x - snd y) <? of_Z 0 then x :: y :: t
      else y :: insertByAngle x t
  end.

Definition sortByAngle (l : list (nat * num)) : list (nat * num) :=
  fold_left (fun sorted x => insertByAngle x sorted) l [].

(** The neighbours with their angles; the comparator reads
    [this.roadNetwork.points[a]] and throws when it is undefined. *)
Fixpoint angles (pts : list Waypoint) (point : Waypoint) (conns : list nat)
    : option (list (nat * num)) :=
  match conns with
  | [] => Some []
  | a :: rest =>
      match nth_error pts a, angles pts point rest with
      | Some pointA, Some l =>
          Some ((a, natan2 (wy pointA - wy point) (wx pointA - wx point)) :: l)
      | _, _ => None
      end
  end.

Definition sortConnections (i : nat) : M unit :=
  g <- get ;;
  point <- nthOrThrow (points (roadNetwork g)) i ;;
  if isIntersection point then
    conns <- nthOrThrow (connections (roadNetwork g)) i ;;
    match conns with
    | [] | [_] => ret tt      (* the comparator is never called *)
    | _ =>
        match angles (points (roadNetwork g)) point conns with
        | None => throw TypeError
        | Some keyed =>
            modify (fun g =>
              let rn := roadNetwork g in
              set_roadNetwork
                (set_connections
                   (list_set i (map fst (sortByAngle keyed)) (connections rn)) rn) g)
        end
    end
  else ret tt.

Definition optimizeIntersectionConnections : M unit :=
  g <- get ;;
  forEach (seq 0 (List.length (points (roadNetwork g)))) sortConnections.

Definition connectNearbyWaypoints (fuel : nat) : M unit :=
  g <- get ;;
  let n := List.length (points (roadNetwork g)) in
  forEach (seq 0 n) (fun i =>
    forEach (seq (S i) (n - S i)) (fun j => connectPair i j)) ;;;
  identifyIntersections fuel 0 ;;;
  optimizeIntersectionConnections.

Definition isEdgePoint (point : Waypoint) : bool :=
  (wx point <=? EDGE_THRESHOLD) || (wx point >=? WORLD_WIDTH - EDGE_THRESHOLD) ||
  (wy point <=? EDGE_THRESHOLD) || (wy point >=? WORLD_HEIGHT - EDGE_THRESHOLD).

Definition indicesWhere {X : Type} (f : X -> bool) (l : list X) : list nat :=
  filter (fun i => match nth_error l i with Some v => f v | None => false end)
         (seq 0 (List.length l)).

Definition identifyEdgePoints : M unit :=
  modify (fun g =>
    let rn := roadNetwork g in
    set_roadNetwork
      (set_edgePoints (edgePoints rn ++ indicesWhere isEdgePoint (points rn)) rn) g).

(** A waypoint is an entry of a zone when it lies in the annulus from
    [radius - 20] to [radius + 40] around one of the circles of the zone. *)
Definition isZoneEntry (zone : Zone) (waypoint : Waypoint) : bool :=
  existsb (fun zonePoint =>
      let distance := nhypot (wx waypoint - cx zonePoint) (wy waypoint - cy zonePoint) in
      let proximityThreshold := radius zonePoint + of_Z 40 in
      (distance <=? proximityThreshold) && (distance >=? radius zonePoint - of_Z 20))
    (zpoints zone).

Definition findZoneEntryPoints : M unit :=
  g <- get ;;
  forEach (seq 0 (List.length (residentialZones g))) (fun zoneIndex =>
    g <- get ;;
    zone <- nthOrThrow (residentialZones g) zoneIndex ;;
    let entryPoints := indicesWhere (isZoneEntry zone) (points (roadNetwork g)) in
    modify (fun g =>
      let rn := roadNetwork g in
      set_roadNetwork
        (set_zoneEntries (map_set zoneIndex entryPoints (zoneEntries rn)) rn) g)).

Definition clearNeedsRebuild : M unit :=
  modify (fun g => set_roadNetwork (set_needsRebuild false (roadNetwork g)) g).

(** The statements of the [try] block of buildRoadNetwork. *)
Definition rebuildSteps (fuel : nat) : M unit :=
  modify (fun g =>
    let rn := roadNetwork g in
    set_pointIdCounter 0
      (set_roadNetwork (mkRoadNetwork [] [] [] [] (needsRebuild rn)) g)) ;;;
  g <- get ;;
  forEach (roadZones g) (extractRoadCenterline fuel) ;;;
  connectNearbyWaypoints fuel ;;;
  identifyEdgePoints ;;;
  findZoneEntryPoints ;;;
  clearNeedsRebuild.

(** buildRoadNetwork: [try { ... } catch (error) { needsRebuild = false }],
    with the body left open so that the wrapper can be read for any way the
    rebuild may fail. *)
Definition buildRoadNetworkWith (body : M unit) : M unit :=
  tryCatch body (fun _ => clearNeedsRebuild).

Definition buildRoadNetwork (fuel : nat) : M unit :=
  buildRoadNetworkWith (rebuildSteps fuel).

(* ===================================================================== *)
(** ** Lot geometry (agentManager.js, roadNetwork.js) *)
(* ===================================================================== *)

Definition allRoadPoints (g : Game) : list Circle :=
  flat_map zpoints (roadZones g).

(** calculateRoadDirection: the normalised, distance-weighted mean offset
    to the road circles within 40 of (x, y). *)
Definition calculateRoadDirection (g : Game) (x y : num) : Point :=
  let sampleRadius := of_Z 40 in
  let roadPoints :=
    filter (fun point =>
        let distance := nhypot (x - cx point) (y - cy point) in
        (distance <=? sampleRadius) && (distance >? of_Z 0))
      (allRoadPoints g) in
  match roadPoints with
  | [] => mkPoint (of_Z 0) (of_Z 1)
  | _ :: _ =>
      let sum :=
        fold_left (fun (acc : num * num) point =>
            let distance := nhypot (x - cx point) (y - cy point) in
            let dx := cx point - x in
            let dy := cy point - y in
            let weight := of_Z 1 / (distance + of_Z 1) in
            (fst acc + dx * weight, snd acc + dy * weight))
          roadPoints (of_Z 0, of_Z 0) in
      let len := nhypot (fst sum) (snd sum) in
      if len >? of_Z 0 then mkPoint (fst sum / len) (snd sum / len)
      else mkPoint (of_Z 0) (of_Z 1)
  end.

(** The closest road circle of findNearestRoadSegment. *)
Fixpoint closestCircle (x y : num) (l : list Circle) (closestPoint : option Circle)
    (closestDistance : option num) : option Circle :=
  match l with
  | [] => closestPoint
  | point :: rest =>
      let distance := nhypot (x - cx point) (y - cy point) in
      let closer := match closestDistance with
                    | None => lt_infinity distance
                    | Some d => distance <? d
                    end in
      if closer then closestCircle x y rest (Some point) (Some distance)
      else closestCircle x y rest closestPoint closestDistance
  end.

(** findNearestRoadSegment: the position and the direction it returns. *)
Definition findNearestRoadSegment (g : Game) (x y : num) : option Circle * Point :=
  match closestCircle x y (allRoadPoints g) None None with
  | Some closestPoint =>
      (Some closestPoint, calculateRoadDirection g (cx closestPoint) (cy closestPoint))
  | None => (None, mkPoint (of_Z 0) (of_Z 1))
  end.

Definition calculatePerpendicularDirection (roadDirection : Point) : Point :=
  mkPoint (of_Z 0 - py roadDirection) (px roadDirection).

Definition isPositionInResidentialZone (g : Game) (x y : num) : bool :=
  existsb (fun zone =>
      existsb (fun point => nhypot (x - cx point) (y - cy point) <=? radius point)
              (zpoints zone))
    (residentialZones g).

Definition isPositionOccupiedByOtherAgent (g : Game) (x y : num) : bool :=
  existsb (fun agent => nhypot (x - ax agent) (y - ay agent) <? MIN_AGENT_DISTANCE)
          (agents g).

(** The marching loops [for (d = 5; d <= max; d += 5)] with a break: the
    last of the values 5, 10, ... up to [max] reached before the first
    position that is outside the residential zones or occupied. The bounds
    are the literals 50 and 60 / 2, so the values of [d] are listed. *)
Fixpoint march (g : Game) (startX startY : num) (direction : Point) (ds : list Z)
    (reached : num) : num :=
  match ds with
  | [] => reached
  | d :: rest =>
      let checkX := startX + px direction * of_Z d in
      let checkY := startY + py direction * of_Z d in
      if isPositionInResidentialZone g checkX checkY &&
         negb (isPositionOccupiedByOtherAgent g checkX checkY)
      then march g startX startY direction rest (of_Z d)
      else reached
  end.

Definition calculateAvailableDepth (g : Game) (startX startY : num) (direction : Point)
    : num :=
  march g startX startY direction [5; 10; 15; 20; 25; 30; 35; 40; 45; 50]%Z (of_Z 0).

Definition calculateAvailableWidth (g : Game) (centerX centerY : num)
    (roadDirection : Point) : num :=
  let steps := [5; 10; 15; 20; 25; 30]%Z in
  let leftWidth := march g centerX centerY roadDirection steps (of_Z 0) in
  let opposite := mkPoint (of_Z 0 - px roadDirection) (of_Z 0 - py roadDirection) in
  let rightWidth := march g centerX centerY opposite steps (of_Z 0) in
  leftWidth + rightWidth.

Definition generateCircularLot (x y r : num) : Lot :=
  let segments := 8%nat in
  let pts :=
    map (fun i =>
        let angle := (nPI * of_Z 2 * of_nat i) / of_nat segments in
        mkPoint (x + ncos angle * r) (y + nsin angle * r))
      (seq 0 segments) in
  mkLot pts (mkPoint x y) (nPI * r * r).

Definition generateAdaptiveLot (g : Game) (agent : Agent) : Lot :=
  let fx := px (finalPosition agent) in
  let fy := py (finalPosition agent) in
  match findNearestRoadSegment g fx fy with
  | (None, _) => generateCircularLot fx fy (of_Z 30)
  | (Some _, roadDirection) =>
      let perpDirection := calculatePerpendicularDirection roadDirection in
      let minLotDepth := of_Z 25 in
      let minLotWidth := of_Z 20 in
      let streetFrontDistance := of_Z 5 in
      let streetFrontX := fx - px perpDirection * streetFrontDistance in
      let streetFrontY := fy - py perpDirection * streetFrontDistance in
      let availableDepth :=
        calculateAvailableDepth g streetFrontX streetFrontY perpDirection in
      let lotDepth := nmax minLotDepth availableDepth in
      let availableWidth :=
        calculateAvailableWidth g streetFrontX streetFrontY roadDirection in
      let lotWidth := nmax minLotWidth availableWidth in
      let halfWidth := lotWidth / of_Z 2 in
      let frontLeft := mkPoint (streetFrontX + px roadDirection * halfWidth)
                               (streetFrontY + py roadDirection * halfWidth) in
      let frontRight := mkPoint (streetFrontX - px roadDirection * halfWidth)
                                (streetFrontY - py roadDirection * halfWidth) in
      let backLeft := mkPoint (px frontLeft + px perpDirection * lotDepth)
                              (py frontLeft + py perpDirection * lotDepth) in
      let backRight := mkPoint (px frontRight + px perpDirection * lotDepth)
                               (py frontRight + py perpDirection * lotDepth) in
      mkLot [frontLeft; frontRight; backRight; backLeft] (finalPosition agent)
            (lotWidth * lotDepth)
  end.

(* ===================================================================== *)
(** ** Agent state machine (agentManager.js) *)
(* ===================================================================== *)

(** One step of length [speed] from the agent towards (tx, ty). *)
Definition moveTowards (tx ty : num) (agent : Agent) : Agent :=
  let dx := tx - ax agent in
  let dy := ty - ay agent in
  let distance := nhypot dx dy in
  let moveX := (dx / distance) * speed agent in
  let moveY := (dy / distance) * speed agent in
  set_pos (ax agent + moveX) (ay agent + moveY) agent.

Definition distanceTo (tx ty : num) (agent : Agent) : num :=
  nhypot (tx - ax agent) (ty - ay agent).

Definition updateAgentTravelingToNode (agent : Agent) : Agent :=
  match pathToNode agent with
  | [] => set_phase traveling_to_area agent
  | _ :: _ =>
      match nth_error (pathToNode agent) (pathToNodeIndex agent) with
      | None => set_phase traveling_to_area agent      (* index >= length *)
      | Some targetPoint =>
          if distanceTo (px targetPoint) (py targetPoint) agent <? speed agent
          then set_pathToNodeIndex (S (pathToNodeIndex agent))
                 (set_pos (px targetPoint) (py targetPoint) agent)
          else moveTowards (px targetPoint) (py targetPoint) agent
      end
  end.

Definition updateAgentTravelingToArea (agent : Agent) : Agent :=
  let target := finalPosition agent in
  if distanceTo (px target) (py target) agent <? speed agent
  then set_phase settling agent
  else moveTowards (px target) (py target) agent.

(** [lotOf] is [this.generateAdaptiveLot], applied to the agent once its
    position and phase are written. *)
Definition updateAgentSettling (lotOf : Agent -> Lot) (agent : Agent) : Agent :=
  let target := finalPosition agent in
  if distanceTo (px target) (py target) agent <? speed agent
  then
    let agent := set_phase settled (set_pos (px target) (py target) agent) in
    set_lotPolygon (Some (lotOf agent)) agent
  else moveTowards (px target) (py target) agent.

(** The dispatch of updateAgents on the phase of one agent. *)
Definition updateAgent (lotOf : Agent -> Lot) (agent : Agent) : Agent :=
  match phase agent with
  | traveling_to_node => updateAgentTravelingToNode agent
  | traveling_to_area => updateAgentTravelingToArea agent
  | settling => updateAgentSettling lotOf agent
  | settled => agent
  end.

(** The order of the phases, and an agent followed over [n] ticks; [lotOf k]
    is generateAdaptiveLot on the game of tick [k]. *)
Definition phaseRank (p : Phase) : nat :=
  match p with
  | traveling_to_node => 0
  | traveling_to_area => 1
  | settling => 2
  | settled => 3
  end.

Fixpoint trajectory (lotOf : nat -> Agent -> Lot) (agent : Agent) (n : nat) : Agent :=
  match n with
  | O => agent
  | S n' => updateAgent (lotOf n') (trajectory lotOf agent n')
  end.

Definition setAgent (i : nat) (agent : Agent) (g : Game) : Game :=
  set_agents (list_set i agent (agents g)) g.

(** updateAgents: the agents are objects of the array [this.agents], updated
    in place one after the other; the lot of an agent that settles is
    computed on the game as it is at that moment. *)
Definition updateAgentAt (g : Game) (i : nat) : Game :=
  match nth_error (agents g) i with
  | Some agent =>
      setAgent i
        (updateAgent (fun agent' => generateAdaptiveLot (setAgent i agent' g) agent') agent)
        g
  | None => g
  end.

Definition updateAgents (g : Game) : Game :=
  fold_left updateAgentAt (seq 0 (List.length (agents g))) g.

(* ===================================================================== *)
(** ** Capacity, placement and spawning (agentManager.js) *)
(* ===================================================================== *)

Definition calculateMaxAgents (zone : Zone) : num :=
  let totalArea :=
    fold_left (fun totalArea point => totalArea + nPI * radius point * radius point)
              (zpoints zone) (of_Z 0) in
  let agentArea := nPI * of_Z 50 * of_Z 50 in
  let packingEfficiency := PACKING_EFFICIENCY in
  let maxAgents := nfloor ((totalArea / agentArea) * packingEfficiency) in
  nmax (of_Z 0) (nmin maxAgents MAX_AGENTS_PER_ZONE).

(** Math.random(): the next value of the stream (0 once it is used up). *)
Definition random : M num :=
  fun g => match randoms g with
           | [] => Ret (of_Z 0) g
           | r :: rest => Ret r (set_randoms rest g)
           end.

(** [arr[Math.floor(Math.random() * arr.length)]], undefined as [None]. *)
Definition randomElement {X : Type} (arr : list X) : M (option X) :=
  r <- random ;;
  ret (match to_index (nfloor (r * of_nat (List.length arr))) with
       | Some i => nth_error arr i
       | None => None
       end).

Definition isFree (x y : num) (existingAgents : list Point) : bool :=
  forallb (fun reserved =>
      negb (nhypot (x - px reserved) (y - py reserved) <? MIN_AGENT_DISTANCE))
    existingAgents.

(** findFreePositionInZone, with [attempts] attempts left. Every element of
    [existingAgents] carries a [finalPosition] in the source, so the list is
    given by those positions. *)
Fixpoint findFreePositionInZone (attempts : nat) (zone : Zone)
    (existingAgents : list Point) : M (option Point) :=
  match attempts with
  | O => ret None
  | S attempts' =>
      chosen <- randomElement (zpoints zone) ;;
      match chosen with
      | None => throw TypeError               (* randomPoint.radius of undefined *)
      | Some randomPoint =>
          r <- random ;;
          let angle := r * nPI * of_Z 2 in
          r' <- random ;;
          let distance := r' * (radius randomPoint - of_Z 55) in
          let x := cx randomPoint + ncos angle * distance in
          let y := cy randomPoint + nsin angle * distance in
          if isFree x y existingAgents then ret (Some (mkPoint x y))
          else findFreePositionInZone attempts' zone existingAgents
      end
  end.

(** The loop variable of the edge scans takes the values 0, 50, ..., 10000. *)
Definition scanValues : list num :=
  map (fun k => of_Z (50 * Z.of_nat k)) (seq 0 201).

Definition findRoadConnectionsAtEdge (g : Game) : list Point :=
  let horizontal (y : num) :=
    map (fun x => mkPoint x y) (filter (fun x => isOnRoad g x y) scanValues) in
  let vertical (x : num) :=
    map (fun y => mkPoint x y) (filter (fun y => isOnRoad g x y) scanValues) in
  horizontal (of_Z 0) ++ horizontal WORLD_HEIGHT ++
  vertical (of_Z 0) ++ vertical WORLD_WIDTH.

Definition pointOf (w : Waypoint) : Point := mkPoint (wx w) (wy w).

Definition findRandomEdgeConnection : M (option Point) :=
  g <- get ;;
  match edgePoints (roadNetwork g) with
  | _ :: _ =>
      randomEdgeId <- randomElement (edgePoints (roadNetwork g)) ;;
      ret (match randomEdgeId with
           | Some i => option_map pointOf (nth_error (points (roadNetwork g)) i)
           | None => None
           end)
  | [] =>
      match findRoadConnectionsAtEdge g with
      | [] => ret None
      | edgeConnections => randomElement edgeConnections
      end
  end.

(** findClosestNetworkPoint; [None] is the id -1. *)
Fixpoint closestWaypoint (x y : num) (l : list Waypoint) (i : nat)
    (closestId : option nat) (closestDistance : option num) : option nat :=
  match l with
  | [] => closestId
  | point :: rest =>
      let distance := nhypot (x - wx point) (y - wy point) in
      let closer := match closestDistance with
                    | None => lt_infinity distance
                    | Some d => distance <? d
                    end in
      if closer then closestWaypoint x y rest (S i) (Some i) (Some distance)
      else closestWaypoint x y rest (S i) closestId closestDistance
  end.

Definition findClosestNetworkPoint (g : Game) (x y : num) : option nat :=
  closestWaypoint x y (points (roadNetwork g)) 0 None None.

(** [path.map(id => this.roadNetwork.points[id])]; an id without a waypoint
    is reported as the TypeError its first use by the agent would raise. *)
Fixpoint pathPoints (pts : list Waypoint) (path : list nat) : option (list Point) :=
  match path with
  | [] => Some []
  | i :: rest =>
      match nth_error pts i, pathPoints pts rest with
      | Some w, Some l => Some (pointOf w :: l)
      | _, _ => None
      end
  end.

Definition resolvePath (path : list nat) : M (list Point) :=
  g <- get ;;
  match pathPoints (points (roadNetwork g)) path with
  | Some l => ret l
  | None => throw TypeError
  end.

(** The breadth-first search of findNetworkPathBetweenNodes. *)
Fixpoint networkSearch (fuel : nat) (targetPointId : nat)
    (queue : list (nat * list nat)) (visited : list nat) : M (list Point) :=
  match fuel with
  | O => spin
  | S fuel' =>
      match queue with
      | [] => ret []
      | (pointId, path) :: queue =>
          if mem pointId visited
          then networkSearch fuel' targetPointId queue visited
          else
            let visited := pointId :: visited in
            if Nat.eqb pointId targetPointId then resolvePath path
            else
              g <- get ;;
              let neighbors :=
                match nth_error (connections (roadNetwork g)) pointId with
                | Some l => l
                | None => []
                end in
              let next :=
                map (fun neighborId => (neighborId, path ++ [neighborId]))
                    (filter (fun neighborId => negb (mem neighborId visited)) neighbors) in
              networkSearch fuel' targetPointId (queue ++ next) visited
      end
  end.

Definition findNetworkPathBetweenNodes (fuel : nat) (startPointId targetPointId : nat)
    : M (list Point) :=
  if Nat.eqb startPointId targetPointId then resolvePath [startPointId]
  else networkSearch fuel targetPointId [(startPointId, [startPointId])] [].

(** The key of a grid cell, [`${Math.floor(x / step)},${Math.floor(y / step)}`]. *)
Definition cellKey (p : Point) : num * num :=
  (nfloor (px p / PATHFINDING_STEP_SIZE), nfloor (py p / PATHFINDING_STEP_SIZE)).

Definition hasKey (k : num * num) (visited : list (num * num)) : bool :=
  existsb (fun k' => neqb (fst k) (fst k') && neqb (snd k) (snd k')) visited.

Definition inWorld (p : Point) : bool :=
  negb ((px p <? of_Z 0) || (px p >? WORLD_WIDTH) ||
        (py p <? of_Z 0) || (py p >? WORLD_HEIGHT)).

(** The neighbours of a cell that the grid searches enqueue. *)
Definition gridNeighbors (g : Game) (targetZone : Zone) (visited : list (num * num))
    (current : Point) : list Point :=
  let step := PATHFINDING_STEP_SIZE in
  filter (fun neighbor =>
      inWorld neighbor && negb (hasKey (cellKey neighbor) visited) &&
      (isOnRoad g (px neighbor) (py neighbor) || isPointInZone neighbor targetZone))
    [ mkPoint (px current + step) (py current);
      mkPoint (px current - step) (py current);
      mkPoint (px current) (py current + step);
      mkPoint (px current) (py current - step) ].

(** findPathToZone: the grid search that records the path. *)
Fixpoint gridSearch (fuel : nat) (g : Game) (startPoint : Point) (targetZone : Zone)
    (queue : list (Point * list Point)) (visited : list (num * num))
    : option (list Point) :=
  match fuel with
  | O => None
  | S fuel' =>
      match queue with
      | [] => Some [startPoint]
      | (current, path) :: queue =>
          if hasKey (cellKey current) visited
          then gridSearch fuel' g startPoint targetZone queue visited
          else
            let visited := cellKey current :: visited in
            if isPointInZone current targetZone then Some (path ++ [current])
            else
              let next := map (fun neighbor => (neighbor, path ++ [neighbor]))
                              (gridNeighbors g targetZone visited current) in
              gridSearch fuel' g startPoint targetZone (queue ++ next) visited
      end
  end.

Definition findPathToZone (fuel : nat) (startPoint : Point) (targetZone : Zone)
    : M (list Point) :=
  g <- get ;;
  match gridSearch fuel g startPoint targetZone [(startPoint, [startPoint])] [] with
  | Some path => ret path
  | None => spin
  end.

(** pathExistsToZone: the same search without the path. *)
Fixpoint gridReach (fuel : nat) (g : Game) (targetZone : Zone)
    (queue : list Point) (visited : list (num * num)) : option bool :=
  match fuel with
  | O => None
  | S fuel' =>
      match queue with
      | [] => Some false
      | current :: queue =>
          if hasKey (cellKey current) visited
          then gridReach fuel' g targetZone queue visited
          else
            let visited := cellKey current :: visited in
            if isPointInZone current targetZone then Some true
            else gridReach fuel' g targetZone
                   (queue ++ gridNeighbors g targetZone visited current) visited
      end
  end.

Definition pathExistsToZone (fuel : nat) (startPoint : Point) (targetZone : Zone)
    : M bool :=
  g <- get ;;
  match gridReach fuel g targetZone [startPoint] [] with
  | Some b => ret b
  | None => spin
  end.

Fixpoint anyPathExists (fuel : nat) (edgeConnections : list Point) (zone : Zone)
    : M bool :=
  match edgeConnections with
  | [] => ret false
  | startPoint :: rest =>
      found <- pathExistsToZone fuel startPoint zone ;;
      if found then ret true else anyPathExists fuel rest zone
  end.

Definition checkZoneConnection (fuel : nat) (zoneIndex : nat) : M bool :=
  g <- get ;;
  match nth_error (residentialZones g) zoneIndex with
  | None => ret false
  | Some zone => anyPathExists fuel (findRoadConnectionsAtEdge g) zone
  end.

(** The agent record that both spawn procedures build. *)
Definition newAgent (spawnPoint : Point) (zoneIndex : nat) (finalPosition : Point)
    (closestNodeToFinalPosition : option nat) (pathToNode : list Point) : Agent :=
  mkAgent (px spawnPoint) (py spawnPoint) zoneIndex finalPosition
    closestNodeToFinalPosition pathToNode 0 traveling_to_node (of_Z 2) (of_Z 10) None.

(** The loop [for (i = 0; i < agentsToSpawn; i++)] shared by
    spawnAgentsForZone and updateAgentsForZone, from [i] on; [commit] is what
    the procedure does with the finished record. *)
Fixpoint spawnLoop (fuel : nat) (commit : Agent -> Game -> Game) (zoneIndex : nat)
    (zone : Zone) (agentsToSpawn : num) (i : nat) (existingAgents : list Point)
    : M unit :=
  match fuel with
  | O => spin
  | S fuel' =>
      if of_nat i <? agentsToSpawn then
        found <- findFreePositionInZone MAX_PATHFINDING_ATTEMPTS zone existingAgents ;;
        match found with
        | None => ret tt
        | Some finalPosition =>
            origin <- findRandomEdgeConnection ;;
            match origin with
            | None => ret tt
            | Some spawnPoint =>
                g <- get ;;
                let closestNodeToFinalPosition :=
                  findClosestNetworkPoint g (px finalPosition) (py finalPosition) in
                pathToNode <-
                  match points (roadNetwork g) with
                  | [] => ret []
                  | _ :: _ =>
                      match findClosestNetworkPoint g (px spawnPoint) (py spawnPoint),
                            closestNodeToFinalPosition with
                      | Some startPointId, Some target =>
                          findNetworkPathBetweenNodes fuel startPointId target
                      | _, _ => ret []
                      end
                  end ;;
                pathToNode <-
                  match pathToNode with
                  | [] => findPathToZone fuel spawnPoint zone
                  | _ :: _ => ret pathToNode
                  end ;;
                modify (commit (newAgent spawnPoint zoneIndex finalPosition
                                  closestNodeToFinalPosition pathToNode)) ;;;
                spawnLoop fuel' commit zoneIndex zone agentsToSpawn (S i)
                  (existingAgents ++ [finalPosition])
            end
        end
      else ret tt
  end.

Definition agentsOfZone (zoneIndex : nat) (l : list Agent) : list Agent :=
  filter (fun agent => Nat.eqb (targetZoneIndex agent) zoneIndex) l.

Definition spawnFor (fuel : nat) (commit : Agent -> Game -> Game) (zoneIndex : nat)
    : M unit :=
  g <- get ;;
  zone <- nthOrThrow (residentialZones g) zoneIndex ;;
  let maxAgents := calculateMaxAgents zone in
  let existingAgents := agentsOfZone zoneIndex (agents g) in
  let agentsToSpawn := maxAgents - of_nat (List.length existingAgents) in
  spawnLoop fuel commit zoneIndex zone agentsToSpawn 0 (map finalPosition existingAgents).

(** spawnAgentsForZone: the new agents go to the spawn queue. *)
Definition spawnAgentsForZone (fuel : nat) (zoneIndex : nat) : M unit :=
  spawnFor fuel (fun agentConfig g =>
                   set_agentSpawnQueue (agentSpawnQueue g ++ [agentConfig]) g)
           zoneIndex.

(** updateAgentsForZone: the new agents are live at once. *)
Definition updateAgentsForZone (fuel : nat) (zoneIndex : nat) : M unit :=
  spawnFor fuel (fun agent g => set_agents (agents g ++ [agent]) g) zoneIndex.

Definition removeAgentsFromZone (zoneIndex : nat) (g : Game) : Game :=
  set_agents
    (filter (fun agent => negb (Nat.eqb (targetZoneIndex agent) zoneIndex)) (agents g)) g.

(** processAgentSpawnQueue; [currentTime] is the value of performance.now(). *)
Definition processAgentSpawnQueue (currentTime : num) (g : Game) : Game :=
  if currentTime - lastSpawnTime g >=? spawnDelay g then
    match agentSpawnQueue g with
    | agentConfig :: rest =>
        set_lastSpawnTime currentTime
          (set_agents (agents g ++ [agentConfig]) (set_agentSpawnQueue rest g))
    | [] => g
    end
  else g.

Definition updateZoneConnection (fuel : nat) (i : nat) : M unit :=
  g <- get ;;
  let wasConnected := match map_get i (zoneConnections g) with
                      | Some b => b
                      | None => false
                      end in
  isConnected <- checkZoneConnection fuel i ;;
  modify (fun g => set_zoneConnections (map_set i isConnected (zoneConnections g)) g) ;;;
  if negb wasConnected && isConnected then spawnAgentsForZone fuel i
  else if wasConnected && negb isConnected then modify (removeAgentsFromZone i)
  else if isConnected then updateAgentsForZone fuel i
  else ret tt.

Definition updateAllConnections (fuel : nat) : M unit :=
  g <- get ;;
  forEach (seq 0 (List.length (residentialZones g))) (updateZoneConnection fuel).

(** The simulation part of gameLoop (core/game.js); metrics, rendering and
    the on-screen readouts are left out. *)
Definition gameLoop (fuel : nat) (currentTime : num) : M unit :=
  tryCatch
    (g <- get ;;
     (if needsRebuild (roadNetwork g) then buildRoadNetwork fuel else ret tt) ;;;
     g <- get ;;
     (if needsConnectionUpdate g
      then updateAllConnections fuel ;;; modify (set_needsConnectionUpdate false)
      else ret tt) ;;;
     modify (processAgentSpawnQueue currentTime) ;;;
     modify updateAgents)
    (fun _ => ret tt).

(* ===================================================================== *)
(** ** zoneManager.js: smooth strokes *)
(* ===================================================================== *)

(** An element of [buildMode.strokeHistory]. The history is read and
    written by smoothPaintZone, paintSmoothStroke and the mouse handlers
    only; it is passed beside the game. *)
Record StrokePoint : Type := mkStrokePoint {
  sx : num;
  sy : num;
  stime : num;
  sbrushSize : num
}.

(** Constants of [buildMode] (core/game.js) that nothing writes. *)
Definition maxHistoryLength : nat := 4.
Definition smoothingEnabled : bool := true.

Definition calculateVelocity (p1 p2 : StrokePoint) : num :=
  let distance := nhypot (sx p2 - sx p1) (sy p2 - sy p1) in
  let timeDelta := nmax (of_Z 1) (stime p2 - stime p1) in
  distance / timeDelta * of_Z 1000.

Definition calculateQuadraticBezier (p0 p1 p2 : StrokePoint) (t : num) : Point :=
  let oneMinusT := of_Z 1 - t in
  mkPoint
    (oneMinusT * oneMinusT * sx p0 + of_Z 2 * oneMinusT * t * sx p1 + t * t * sx p2)
    (oneMinusT * oneMinusT * sy p0 + of_Z 2 * oneMinusT * t * sy p1 + t * t * sy p2).

(** The loop [for (i = 0; i <= steps; i++)] of paintSmoothStroke, from [i]
    on. *)
Fixpoint strokeLoop (fuel : nat) (p0 p1 p2 : StrokePoint) (velocity steps : num)
    (i : nat) : M unit :=
  match fuel with
  | O => spin
  | S fuel' =>
      if of_nat i <=? steps then
        let t := of_nat i / steps in
        let curvePoint := calculateQuadraticBezier p0 p1 p2 t in
        let velocityVariation :=
          of_Z 1 + nsin (velocity * dec 1 100 + t * nPI * of_Z 2) * dec 1 10 in
        g <- get ;;
        let variableBrushSize := brushSize (buildMode g) * velocityVariation in
        modify (paintZoneAtPoint (px curvePoint) (py curvePoint) (Some variableBrushSize)) ;;;
        strokeLoop fuel' p0 p1 p2 velocity steps (S i)
      else ret tt
  end.

Definition paintSmoothStroke (fuel : nat) (history : list StrokePoint) : M unit :=
  let historyLength := List.length history in
  if Nat.ltb historyLength 3 then ret tt
  else
    p0 <- nthOrThrow history (historyLength - 3) ;;
    p1 <- nthOrThrow history (historyLength - 2) ;;
    p2 <- nthOrThrow history (historyLength - 1) ;;
    let velocity := calculateVelocity p1 p2 in
    let adaptiveSampling := nmax (dec 1 10) (nmin (of_Z 1) (velocity / of_Z 100)) in
    let distance := nhypot (sx p2 - sx p0) (sy p2 - sy p0) in
    g <- get ;;
    let baseSteps := nceil (distance / (brushSize (buildMode g) * dec 3 10)) in
    let steps := nmax (of_Z 3) (nfloor (baseSteps * adaptiveSampling)) in
    strokeLoop fuel p0 p1 p2 velocity steps 0.

(** smoothPaintZone; [currentTime] is what performance.now() returns,
    [strokeHistory] the history before the call; the result is the history
    after it. [lastPaintTime], which nothing reads, is left out. *)
Definition smoothPaintZone (fuel : nat) (x y : num) (forcePaint : bool) (currentTime : num)
    (strokeHistory : list StrokePoint) : M (list StrokePoint) :=
  g <- get ;;
  let selected := match selectedType (buildMode g) with
                  | Some ty => negb (String.eqb ty EmptyString)
                  | None => false
                  end in
  if negb (active (buildMode g)) || negb selected then ret strokeHistory
  else
    let newPoint := mkStrokePoint x y currentTime (brushSize (buildMode g)) in
    let strokeHistory := strokeHistory ++ [newPoint] in
    let strokeHistory :=
      if Nat.ltb maxHistoryLength (List.length strokeHistory)
      then tl strokeHistory else strokeHistory in
    (if Nat.leb 3 (List.length strokeHistory) && smoothingEnabled
     then paintSmoothStroke fuel strokeHistory
     else modify (paintZone x y forcePaint)) ;;;
    ret strokeHistory.

(* ===================================================================== *)
(** ** uiManager.js and core/game.js: the build mode and the new game *)
(* ===================================================================== *)

(** deactivateBuildMode, on the fields the engine reads. *)
Definition deactivateBuildMode (g : Game) : Game :=
  set_buildMode (mkBuildMode false None (of_Z 50) None None) g.

(** The game the constructor of core/game.js builds; [rs] is what
    Math.random() is going to return. *)
Definition initialGame (rs : list num) : Game :=
  mkGame [] [] (mkBuildMode false None (of_Z 50) None None) false
    (mkRoadNetwork [] [] [] [] true) [] [] [] (of_Z 0) (of_Z 1000) 0 rs.

(* ===================================================================== *)
(** ** agentManager.js: polygons *)
(* ===================================================================== *)

(** The loop of isPointInPolygon from vertex [pointI] on; [pointJ] is the
    vertex before it. *)
Fixpoint crossings (x y : num) (pointJ : Point) (rest : list Point) (isInside : bool)
    : bool :=
  match rest with
  | [] => isInside
  | pointI :: rest' =>
      let intersects :=
        negb (Bool.eqb (py pointI >? y) (py pointJ >? y)) &&
        (x <? (px pointJ - px pointI) * (y - py pointI) / (py pointJ - py pointI)
              + px pointI) in
      crossings x y pointI rest' (if intersects then negb isInside else isInside)
  end.

Definition isPointInPolygon (x y : num) (polygonPoints : list Point) : bool :=
  match polygonPoints with
  | [] => false
  | first :: _ => crossings x y (last polygonPoints first) polygonPoints false
  end.

Definition doPolygonsOverlap (poly1Points poly2Points : list Point) : bool :=
  existsb (fun point => isPointInPolygon (px point) (py point) poly2Points) poly1Points ||
  existsb (fun point => isPointInPolygon (px point) (py point) poly1Points) poly2Points.

(* ===================================================================== *)
(** ** roadNetwork.js: the path to a zone entry *)
(* ===================================================================== *)

(** The breadth-first search of findNetworkPath; the path returned is
    [current.path.map(id => this.roadNetwork.points[id])], [None] standing
    for undefined. *)
Fixpoint entrySearch (fuel : nat) (entryPoints : list nat)
    (queue : list (nat * list nat)) (visited : list nat) : M (list (option Waypoint)) :=
  match fuel with
  | O => spin
  | S fuel' =>
      match queue with
      | [] => ret []
      | (pointId, path) :: queue =>
          if mem pointId visited
          then entrySearch fuel' entryPoints queue visited
          else
            let visited := pointId :: visited in
            g <- get ;;
            if mem pointId entryPoints
            then ret (map (fun id => nth_error (points (roadNetwork g)) id) path)
            else
              let neighbors :=
                match nth_error (connections (roadNetwork g)) pointId with
                | Some l => l
                | None => []
                end in
              let next :=
                map (fun neighborId => (neighborId, path ++ [neighborId]))
                    (filter (fun neighborId => negb (mem neighborId visited)) neighbors) in
              entrySearch fuel' entryPoints (queue ++ next) visited
      end
  end.

Definition findNetworkPath (fuel : nat) (startPointId targetZoneIndex : nat)
    : M (list (option Waypoint)) :=
  g <- get ;;
  match map_get targetZoneIndex (zoneEntries (roadNetwork g)) with
  | None => ret []
  | Some [] => ret []
  | Some entryPoints => entrySearch fuel entryPoints [(startPointId, [startPointId])] []
  end.

End Engine.

Arguments Ret {A X} x g.
Arguments Throw {A X} e g.
Arguments Spin {A X} g.

(* ===================================================================== *)
(** ** The arithmetic of the engine: binary64 floats *)
(* ===================================================================== *)

Module FloatNum.

Local Open Scope float_scope.

Definition two52 : float := 4503599627370496.

(** The nearest integer (ties to even), exact below 2^52 in magnitude. *)
Definition rint (x : float) : float :=
  if PrimFloat.ltb (PrimFloat.abs x) two52 then
    if PrimFloat.leb 0 x then (x + two52) - two52 else (x - two52) + two52
  else x.

Definition floor (x : float) : float :=
  let r := rint x in if PrimFloat.ltb x r then r - 1 else r.

Definition ceil (x : float) : float := - floor (- x).

(** Math.round: the nearest integer, a tie going up. *)
Definition round (x : float) : float :=
  let r := floor x in if PrimFloat.leb 0.5 (x - r) then r + 1 else r.

(** Math.hypot is implementation-approximated in ECMAScript but for its
    special cases: an infinite argument gives Infinity, also beside NaN;
    otherwise NaN gives NaN; zeros give 0. The finite case is computed as V8
    computes it: the magnitudes are divided by the larger one, squared and
    summed, and the square root is scaled back, which neither overflows nor
    underflows. *)
Definition hypot (x y : float) : float :=
  let ax := PrimFloat.abs x in
  let ay := PrimFloat.abs y in
  if PrimFloat.is_infinity ax || PrimFloat.is_infinity ay then infinity
  else if PrimFloat.is_nan x || PrimFloat.is_nan y then nan
  else
    let max := if PrimFloat.ltb ax ay then ay else ax in
    if PrimFloat.eqb max 0 then 0
    else
      let rx := ax / max in
      let ry := ay / max in
      PrimFloat.sqrt (rx * rx + ry * ry) * max.

Definition min (a b : float) : float :=
  if PrimFloat.is_nan a then a else if PrimFloat.is_nan b then b
  else if PrimFloat.ltb a b then a else if PrimFloat.ltb b a then b
  else if PrimFloat.get_sign a then a else b.

Definition max (a b : float) : float :=
  if PrimFloat.is_nan a then a else if PrimFloat.is_nan b then b
  else if PrimFloat.ltb a b then b else if PrimFloat.ltb b a then a
  else if PrimFloat.get_sign a then b else a.

Definition PI : float := 0x1.921fb54442d18p+1.

Definition of_Z (z : Z) : float :=
  if (z <? 0)%Z then - PrimFloat.of_uint63 (Uint63.of_Z (- z))
  else PrimFloat.of_uint63 (Uint63.of_Z z).

(** The integer a float is, if it is one. *)
Definition to_Z (v : float) : option Z :=
  match Prim2SF v with
  | S754_zero _ => Some 0%Z
  | S754_finite s m e =>
      let signed (z : Z) := if s then (- z)%Z else z in
      if (0 <=? e)%Z then Some (signed (Z.pos m * 2 ^ e)%Z)
      else if (Z.pos m mod 2 ^ (- e) =? 0)%Z then Some (signed (Z.pos m / 2 ^ (- e))%Z)
      else None
  | _ => None
  end.

(** Array indices are the integers from 0 to 2^32 - 2. *)
Definition to_index (v : float) : option nat :=
  match to_Z v with
  | Some z => if ((0 <=? z) && (z <? 4294967295))%Z then Some (Z.to_nat z) else None
  | None => None
  end.

(** Math.cos, Math.sin and Math.atan2 are implementation-approximated in
    ECMAScript. They are computed here by argument reduction and Taylor
    sums, accurate to about 1e-15 on the engine's arguments and exact at 0
    (cos 0 = 1, sin 0 = 0); signed zeros are not told apart. *)
Fixpoint taylor (n : nat) (k : Z) (x2 term acc : float) : float :=
  match n with
  | O => acc
  | S n' =>
      let term := - term * x2 / (of_Z (k + 1) * of_Z (k + 2)) in
      taylor n' (k + 2) x2 term (acc + term)
  end.

Definition reduce (x : float) : float :=
  x - rint (x / (2 * PI)) * (2 * PI).

Definition cos (x : float) : float :=
  let x := reduce x in taylor 18 0 (x * x) 1 1.

Definition sin (x : float) : float :=
  let x := reduce x in taylor 18 1 (x * x) x x.

Fixpoint atanSeries (n : nat) (k : Z) (z2 power acc : float) : float :=
  match n with
  | O => acc
  | S n' =>
      let power := - power * z2 in
      atanSeries n' (k + 2) z2 power (acc + power / of_Z (k + 2))
  end.

Definition halve (z : float) : float := z / (1 + PrimFloat.sqrt (1 + z * z)).

Definition atanSmall (z : float) : float :=
  let w := halve (halve (halve z)) in
  8 * atanSeries 14 1 (w * w) w w.

Definition atan (z : float) : float :=
  if PrimFloat.ltb 1 z then PI / 2 - atanSmall (1 / z)
  else if PrimFloat.ltb z (-1) then - (PI / 2) - atanSmall (1 / z)
  else atanSmall z.

Definition atan2 (y x : float) : float :=
  if PrimFloat.ltb 0 x then atan (y / x)
  else if PrimFloat.ltb x 0 then
    if PrimFloat.ltb y 0 then atan (y / x) - PI else atan (y / x) + PI
  else if PrimFloat.ltb 0 y then PI / 2
  else if PrimFloat.ltb y 0 then - (PI / 2)
  else y + x.

End FloatNum.

Definition FloatArith : Arith := {|
  num := float;
  nadd := PrimFloat.add;
  nsub := PrimFloat.sub;
  nmul := PrimFloat.mul;
  ndiv := PrimFloat.div;
  nltb := PrimFloat.ltb;
  nleb := PrimFloat.leb;
  neqb := PrimFloat.eqb;
  nsqrt := PrimFloat.sqrt;
  nhypot := FloatNum.hypot;
  nfloor := FloatNum.floor;
  nceil := FloatNum.ceil;
  nround := FloatNum.round;
  ncos := FloatNum.cos;
  nsin := FloatNum.sin;
  natan2 := FloatNum.atan2;
  nmin := FloatNum.min;
  nmax := FloatNum.max;
  nPI := FloatNum.PI;
  of_Z := FloatNum.of_Z;
  lt_infinity := fun d => PrimFloat.ltb d PrimFloat.infinity;
  to_index := FloatNum.to_index
|}.

(* ===================================================================== *)
(** ** The arithmetic without rounding: real numbers *)
(* ===================================================================== *)

Module RealNum.

Local Open Scope R_scope.

Definition ltb (a b : R) : bool := if Rlt_dec a b then true else false.
Definition leb (a b : R) : bool := if Rle_dec a b then true else false.
Definition eqb (a b : R) : bool := if Req_dec_T a b then true else false.
Definition hypot (x y : R) : R := sqrt (x * x + y * y).
Definition floor (x : R) : R := IZR (Int_part x).
Definition ceil (x : R) : R := - floor (- x).
Definition round (x : R) : R := floor (x + / 2).

Definition atan2 (y x : R) : R :=
  if Rlt_dec 0 x then atan (y / x)
  else if Rlt_dec x 0 then
    if Rlt_dec y 0 then atan (y / x) - PI else atan (y / x) + PI
  else if Rlt_dec 0 y then PI / 2
  else if Rlt_dec y 0 then - (PI / 2)
  else 0.

Definition to_index (v : R) : option nat :=
  if Req_dec_T v (IZR (Int_part v)) then
    if Rle_dec 0 v then Some (Z.to_nat (Int_part v)) else None
  else None.

End RealNum.

Definition RArith : Arith := {|
  num := R;
  nadd := Rplus;
  nsub := Rminus;
  nmul := Rmult;
  ndiv := Rdiv;
  nltb := RealNum.ltb;
  nleb := RealNum.leb;
  neqb := RealNum.eqb;
  nsqrt := sqrt;
  nhypot := RealNum.hypot;
  nfloor := RealNum.floor;
  nceil := RealNum.ceil;
  nround := RealNum.round;
  ncos := cos;
  nsin := sin;
  natan2 := RealNum.atan2;
  nmin := Rmin;
  nmax := Rmax;
  nPI := PI;
  of_Z := IZR;
  lt_infinity := fun _ => true;
  to_index := RealNum.to_index
|}.

(* ===================================================================== *)
(** ** Concrete games on binary64 floats *)
(* ===================================================================== *)

Module Scenario.

Local Open Scope float_scope.

Definition F : Arith := FloatArith.

Definition circle (x y r : float) : @Circle F := @mkCircle F x y r.
Definition zone (l : list (@Circle F)) : @Zone F := @mkZone F l.

(** The game the constructor of core/game.js builds; [rs] is what
    Math.random() is going to return. *)
Definition newGame (rs : list float) : @Game F :=
  @mkGame F [] [] (@mkBuildMode F false None 50 None None) false
    (@mkRoadNetwork F [] [] [] [] true) [] [] [] 0 1000 0 rs.

Definition paint (x y : float) (g : @Game F) : @Game F := @paintZone F x y true g.
Definition select (buildType : string) (size : float) (g : @Game F) : @Game F :=
  @activateBuildMode F buildType size g.

(** A residential circle of radius 50 at (150.5, 100), then the eraser
    pressed at (100, 100): the circle is 50.5 away and stays. *)
Definition erasePressed : @Game F :=
  @eraseZone F 100 100 true (paint 150.5 100 (select "residential" 50 (newGame []))).

(** The circles of a zone collection as triples (x, y, radius). *)
Definition circlesOf (zones : list (@Zone F)) : list (list (float * float * float)) :=
  map (fun z => map (fun c => (cx c, cy c, radius c)) (zpoints z)) zones.

(** Two circles overlap when their centres are closer than the sum of
    their radii; [overlapByRadii g] tells whether some residential circle of
    [g] overlaps some road circle of [g]. *)
Definition circlesOverlap (p q : @Circle F) : bool :=
  PrimFloat.ltb (FloatNum.hypot (cx p - cx q) (cy p - cy q)) (radius p + radius q).

Definition overlapByRadii (g : @Game F) : bool :=
  existsb (fun z =>
      existsb (fun p =>
          existsb (fun r => existsb (fun q => circlesOverlap p q) (zpoints r))
                  (roadZones g))
        (zpoints z))
    (residentialZones g).

(** Residential circles of radius 50 at (150.5, 100) and (260, 100), two
    zones, then the eraser pressed at (100, 100). *)
Definition twoHomesErasing : @Game F :=
  @eraseZone F 100 100 true
    (paint 260 100 (paint 150.5 100 (select "residential" 50 (newGame [])))).

(** A residential circle of radius 50 at (1060, 1000), the road brush of
    size 50 selected. *)
Definition roadBrushNearHome : @Game F :=
  select "road" 50 (paint 1060 1000 (select "residential" 50 (newGame []))).

(** A road circle of radius 50 at (1060, 1000), the residential brush of
    size 50 selected. *)
Definition homeBrushNearRoad : @Game F :=
  select "residential" 50 (paint 1060 1000 (select "road" 50 (newGame []))).

(** A road circle of radius 50 at (1030, 1000), the residential brush of
    size 50 selected: the road centre is 30 from (1000, 1000). *)
Definition homeBrushOnRoad : @Game F :=
  select "residential" 50 (paint 1030 1000 (select "road" 50 (newGame []))).

(** Five road circles of radius 40 painted in one stroke: (1055, 1000),
    (1025, 1018), (1000, 1000), (960, 1000) and (980, 965). They merge into
    one road zone; the waypoint at (1000, 1000) gets four neighbours, one of
    them 55 away. *)
Definition crossing : @Game F :=
  paint 980 965 (paint 960 1000 (paint 1000 1000 (paint 1025 1018 (paint 1055 1000
    (select "road" 40 (newGame [])))))).

Definition rebuiltCrossing : @Game F := gameOf (@buildRoadNetwork F 50 crossing).

Definition returned {X : Type} (o : @Outcome F X) : bool :=
  match o with
  | Ret _ _ => true
  | _ => false
  end.

(** The waypoints of a game as (x, y, isApproach). *)
Definition waypointsOf (g : @Game F) : list (float * float * bool) :=
  map (fun w => (wx w, wy w, isApproach w)) (points (roadNetwork g)).

(** The distance between waypoints [i] and [j] of a game, as addWaypoint
    measures it ([None] when one of them does not exist). *)
Definition waypointDistance (g : @Game F) (i j : nat) : option float :=
  match nth_error (points (roadNetwork g)) i, nth_error (points (roadNetwork g)) j with
  | Some wi, Some wj => Some (FloatNum.hypot (wx wj - wx wi) (wy wj - wy wi))
  | _, _ => None
  end.

(** An agent 5 from its settle position (5, 0), walking at speed 2 in
    phase traveling_to_area. *)
Definition walker : @Agent F :=
  @mkAgent F 0 0 0 (@mkPoint F 5 0) None [] 0 traveling_to_area 2 10 None.

Definition noLots (k : nat) (agent : @Agent F) : @Lot F :=
  @generateAdaptiveLot F (newGame []) agent.

(** Position and phase of an agent. *)
Definition whereabouts (agent : @Agent F) : float * float * Phase :=
  (ax agent, ay agent, phase agent).

(** A residential zone painted with brush size 50 at (1000, 1000), with
    brush size 15 at (1015, 1000) and with brush size 20 at (1030, 1000);
    each stroke lies within merge distance of the previous circle, so they
    form one zone. Its area is (2500 + 225 + 400) pi = 3125 pi, which is one
    agent footprint 2500 pi divided by the packing efficiency 0.8. *)
Definition boundaryHome : @Game F :=
  paint 1030 1000 (select "residential" 20
    (paint 1015 1000 (select "residential" 15
      (paint 1000 1000 (select "residential" 50 (newGame [])))))).

Definition boundaryZone : @Zone F :=
  zone [circle 1000 1000 50; circle 1015 1000 15; circle 1030 1000 20].

(** The same zone with real numbers. *)
Definition boundaryZoneR : @Zone RArith :=
  @mkZone RArith [@mkCircle RArith 1000 1000 50; @mkCircle RArith 1015 1000 15;
                  @mkCircle RArith 1030 1000 20]%R.

(** A residential zone painted with brush size 60 at (1000, 1000) and then
    with brush size 10 at (989, 1000) and (978, 1000); each stroke lies
    within merge distance of the previous circle, so they form one zone. *)
Definition tailedHome : @Game F :=
  paint 978 1000 (paint 989 1000 (select "residential" 10
    (paint 1000 1000 (select "residential" 60 (newGame [0.75; 0; 0.875]))))).

Definition tailedZone : @Zone F :=
  zone [circle 1000 1000 60; circle 989 1000 10; circle 978 1000 10].

Definition placement (o : @Outcome F (option (@Point F))) : option (float * float) :=
  match o with
  | Ret (Some p) _ => Some (px p, py p)
  | _ => None
  end.

(** A road circle of radius 50 on the left world edge at (0, 100) and a
    residential circle of radius 60 at (110, 100); capacity 1. *)
Definition village (rs : list float) : @Game F :=
  paint 110 100 (select "residential" 60 (paint 0 100 (select "road" 50 (newGame rs)))).

(** Three ticks at 500 ms, 900 ms and 1100 ms after page load, with one
    zone edit (the eraser pressed on empty ground at (5000, 5000)) between
    the first and the second. *)
Definition villageRandoms : list float := [0; 0; 0.5; 0; 0; 0; 0.5; 0].
Definition villageTick1 : @Outcome F unit := @gameLoop F 400 500 (village villageRandoms).
Definition villageEdited : @Game F := @eraseZone F 5000 5000 true (gameOf villageTick1).
Definition villageTick2 : @Outcome F unit := @gameLoop F 400 900 villageEdited.
Definition villageTick3 : @Outcome F unit := @gameLoop F 400 1100 (gameOf villageTick2).

(** Live agents of zone 0, queued agents, and the connectivity of zone 0. *)
Definition census (g : @Game F) : nat * nat * option bool :=
  (List.length (agentsOfZone 0 (agents g)), List.length (agentSpawnQueue g),
   map_get 0 (zoneConnections g)).

Definition capacities (g : @Game F) : list float :=
  map (@calculateMaxAgents F) (residentialZones g).

Definition settleTargets (g : @Game F) : list (float * float) :=
  map (fun agent => (px (finalPosition agent), py (finalPosition agent))) (agents g).

(** The village after a rebuild that ran to its end. *)
Definition rebuiltVillage : @Game F := gameOf (@rebuildSteps F 50 (village [])).

(** The positions of a path. *)
Definition positions (o : @Outcome F (list (@Point F))) : option (list (float * float)) :=
  match o with
  | Ret path _ => Some (map (fun p => (px p, py p)) path)
  | _ => None
  end.

(** The new game in real arithmetic with a brush selected. *)
Definition newGameR (buildType : string) (size : R) : @Game RArith :=
  @mkGame RArith [] [] (@mkBuildMode RArith true (Some buildType) size None None) false
    (@mkRoadNetwork RArith [] [] [] [] true) [] [] [] 0%R 1000%R 0 [].

End Scenario.

(* ===================================================================== *)
(** * Properties *)
(* ===================================================================== *)

Unset Implicit Arguments.

Section ZoneStoreFacts.

Context {A : Arith}.
Local Open Scope num_scope.

Lemma eraseCircles_In : forall (x y r : num) (zones : list Zone) (zone : Zone),
  In zone (eraseCircles x y r zones) ->
  zpoints zone <> [] /\
  exists original, In original zones /\
    zpoints zone = filter (keepCircle x y r) (zpoints original).
Proof.
  intros x y r zones zone. induction zones as [|z zs IH]; simpl.
  - intros [].
  - destruct (filter (keepCircle x y r) (zpoints z)) as [|c cs] eqn:E.
    + intros H. destruct (IH H) as [Hne [o [Ho Hz]]]. split; [exact Hne|].
      exists o. split; [right; exact Ho | exact Hz].
    + intros [H|H].
      * subst zone. simpl. split; [discriminate|].
        exists z. split; [left; reflexivity | symmetry; exact E].
      * destruct (IH H) as [Hne [o [Ho Hz]]]. split; [exact Hne|].
        exists o. split; [right; exact Ho | exact Hz].
Qed.

Lemma eraseCircles_kept : forall (x y r : num) (zones : list Zone) (zone : Zone) (p : Circle),
  In zone (eraseCircles x y r zones) -> In p (zpoints zone) ->
  (nhypot (x - cx p) (y - cy p) >=? r) = true.
Proof.
  intros x y r zones zone p Hz Hp.
  destruct (eraseCircles_In _ _ _ _ _ Hz) as [_ [o [_ E]]].
  rewrite E in Hp. apply filter_In in Hp. exact (proj2 Hp).
Qed.

Lemma eraseZone_run : forall (x y : num) (forceErase : bool) (g : Game),
  active (buildMode g) = true ->
  tooCloseToLast nhypot x y forceErase (buildMode g) = false ->
  residentialZones (eraseZone x y forceErase g)
    = eraseCircles x y (brushSize (buildMode g)) (residentialZones g) /\
  roadZones (eraseZone x y forceErase g)
    = eraseCircles x y (brushSize (buildMode g)) (roadZones g).
Proof.
  intros x y f g Ha Hs. unfold eraseZone. rewrite Ha, Hs. simpl. split; reflexivity.
Qed.

(** C8, amended: an erase call that is executed (build mode active, and
    the call forced or not closer than 15% of the brush size to the last
    recorded position) leaves, in both zone collections, only circles whose
    centre is at least the brush size away from the erase point, and no zone
    without circles. A call that is not forced and finds a recorded position
    closer than 15% of the brush size is dropped: the game is left exactly
    as it was, the recorded position included. *)
Theorem eraseZone_clears_brush : forall (x y : num) (forceErase : bool) (g : Game),
  active (buildMode g) = true ->
  (tooCloseToLast nhypot x y forceErase (buildMode g) = false ->
   forall zone : Zone,
     In zone (residentialZones (eraseZone x y forceErase g)) \/
     In zone (roadZones (eraseZone x y forceErase g)) ->
     zpoints zone <> [] /\
     forall p : Circle, In p (zpoints zone) ->
       (nhypot (x - cx p) (y - cy p) >=? brushSize (buildMode g)) = true) /\
  (forall lastX lastY : num,
     forceErase = false ->
     lastPaintX (buildMode g) = Some lastX ->
     lastPaintY (buildMode g) = Some lastY ->
     (nhypot (x - lastX) (y - lastY) <? brushSize (buildMode g) * dec 15 100) = true ->
     eraseZone x y forceErase g = g).
Proof.
  intros x y f g Ha. split.
  - intros Hs zone Hz.
    destruct (eraseZone_run x y f g Ha Hs) as [Er Eo].
    rewrite Er, Eo in Hz.
    destruct Hz as [Hz|Hz].
    + split; [exact (proj1 (eraseCircles_In _ _ _ _ _ Hz))|].
      intros p Hp. exact (eraseCircles_kept _ _ _ _ _ _ Hz Hp).
    + split; [exact (proj1 (eraseCircles_In _ _ _ _ _ Hz))|].
      intros p Hp. exact (eraseCircles_kept _ _ _ _ _ _ Hz Hp).
  - intros lastX lastY Hf Hx Hy Hd. unfold eraseZone, tooCloseToLast.
    rewrite Ha, Hf, Hx, Hy, Hd. reflexivity.
Qed.

Lemma road_type_not_residential : forall ty : string,
  isRoadType ty = true -> String.eqb ty EmptyString = false /\ isResidentialType ty = false.
Proof.
  intros ty H. unfold isRoadType in H. apply String.eqb_eq in H. subst ty.
  split; reflexivity.
Qed.

Lemma residential_type_not_empty : forall ty : string,
  isResidentialType ty = true -> String.eqb ty EmptyString = false.
Proof.
  intros ty H. destruct ty; [discriminate H | reflexivity].
Qed.

End ZoneStoreFacts.

Module ZoneStoreRuns.

Import Scenario.
Local Open Scope float_scope.

(** An executed erase, and the dragged erase that is dropped. *)
Lemma eraseZone_clears_brush_witness :
  (active (buildMode twoHomesErasing) = true /\
   tooCloseToLast (@nhypot F) 120 100 false (buildMode twoHomesErasing) = false /\
   forall zone : @Zone F,
     In zone (residentialZones (@eraseZone F 120 100 false twoHomesErasing)) \/
     In zone (roadZones (@eraseZone F 120 100 false twoHomesErasing)) ->
     zpoints zone <> [] /\
     forall p : @Circle F, In p (zpoints zone) ->
       @nleb F (brushSize (buildMode twoHomesErasing))
               (@nhypot F (@nsub F 120 (cx p)) (@nsub F 100 (cy p))) = true) /\
  (active (buildMode erasePressed) = true /\
   lastPaintX (buildMode erasePressed) = Some 100 /\
   lastPaintY (buildMode erasePressed) = Some 100 /\
   @nltb F (@nhypot F (@nsub F 101 100) (@nsub F 100 100))
           (@nmul F (brushSize (buildMode erasePressed)) (@dec F 15 100)) = true /\
   @eraseZone F 101 100 false erasePressed = erasePressed).
Proof.
  split.
  - split; [vm_compute; reflexivity|].
    split; [vm_compute; reflexivity|].
    apply (proj1 (@eraseZone_clears_brush F 120 100 false twoHomesErasing
                    ltac:(vm_compute; reflexivity))).
    vm_compute. reflexivity.
  - split; [vm_compute; reflexivity|].
    split; [reflexivity|]. split; [reflexivity|].
    split; [vm_compute; reflexivity|].
    apply (proj2 (@eraseZone_clears_brush F 101 100 false erasePressed
                    ltac:(vm_compute; reflexivity)) 100 100).
    + reflexivity.
    + reflexivity.
    + reflexivity.
    + vm_compute. reflexivity.
Defined.

(** The erase at (120, 100) removes the circle at (150.5, 100), 30.5 from
    the erase point, with its zone, and keeps the one at (260, 100). *)
Example eraseZone_removes_and_keeps :
  circlesOf (residentialZones twoHomesErasing)
    = [[(150.5, 100, 50)]; [(260, 100, 50)]] /\
  circlesOf (residentialZones (@eraseZone F 120 100 false twoHomesErasing))
    = [[(260, 100, 50)]].
Proof. vm_compute. split; reflexivity. Qed.

(** C8 as stated fails: the eraser was pressed at (100, 100) with brush
    size 50 and then dragged to (101, 100). The second call is closer than
    7.5 to the recorded position and is dropped: the zones are as before,
    and the residential circle centred at (150.5, 100), which is 49.5 from
    (101, 100), is still there. *)
Lemma eraseZone_dragged_call_dropped :
  brushSize (buildMode erasePressed) = 50 /\
  circlesOf (residentialZones (@eraseZone F 101 100 false erasePressed))
    = [[(150.5, 100, 50)]] /\
  existsb (fun zone =>
      existsb (fun p =>
          @nltb F (@nhypot F (@nsub F 101 (cx p)) (@nsub F 100 (cy p))) 50)
        (zpoints zone))
    (residentialZones (@eraseZone F 101 100 false erasePressed)) = true.
Proof. vm_compute. repeat split; reflexivity. Qed.

(** The road brush of size 50 at (1030, 1000) removes the residential
    circle at (1060, 1000), whose centre is 30 from the painted point. *)
Example paintZone_road_removes_home :
  circlesOf (residentialZones roadBrushNearHome) = [[(1060, 1000, 50)]] /\
  circlesOf (residentialZones (@paintZone F 1030 1000 true roadBrushNearHome)) = [] /\
  circlesOf (roadZones (@paintZone F 1030 1000 true roadBrushNearHome))
    = [[(1030, 1000, 50)]].
Proof. vm_compute. repeat split; reflexivity. Qed.

(** The residential half of the amended C2 at work: the centre of the road
    circle at (1030, 1000) is 30 from the painted point, the brush size is
    50, and the stroke only records its position. *)
Example paintZone_residential_rejected :
  circlesOf (residentialZones (@paintZone F 1000 1000 true homeBrushOnRoad)) = [] /\
  needsConnectionUpdate (@paintZone F 1000 1000 true homeBrushOnRoad)
    = needsConnectionUpdate homeBrushOnRoad.
Proof. vm_compute. split; reflexivity. Qed.

(** C2 as stated fails, for both brushes, when overlap is read as "centre
    distance below the sum of the radii". Painting road of radius 50 at
    (1000, 1000) keeps the residential circle of radius 50 centred at
    (1060, 1000): 60 is not below the brush size, but it is below 50 + 50.
    Painting residential of radius 50 at (1000, 1000) next to the road
    circle of radius 50 centred at (1060, 1000) is accepted and creates a
    residential circle that overlaps the road circle in the same sense. *)
Lemma paintZone_overlap_by_radii_survives :
  (circlesOf (residentialZones (@paintZone F 1000 1000 true roadBrushNearHome))
     = [[(1060, 1000, 50)]] /\
   circlesOf (roadZones (@paintZone F 1000 1000 true roadBrushNearHome))
     = [[(1000, 1000, 50)]] /\
   overlapByRadii (@paintZone F 1000 1000 true roadBrushNearHome) = true) /\
  (circlesOf (residentialZones homeBrushNearRoad) = [] /\
   circlesOf (residentialZones (@paintZone F 1000 1000 true homeBrushNearRoad))
     = [[(1000, 1000, 50)]] /\
   circlesOf (roadZones (@paintZone F 1000 1000 true homeBrushNearRoad))
     = [[(1060, 1000, 50)]] /\
   overlapByRadii (@paintZone F 1000 1000 true homeBrushNearRoad) = true).
Proof. vm_compute. repeat split; reflexivity. Qed.

End ZoneStoreRuns.

(* ===================================================================== *)
(** ** Lists updated by index *)
(* ===================================================================== *)

Section ListFacts.

Variable X : Type.

Lemma nth_error_list_set : forall (l : list X) (i k : nat) (v : X),
  nth_error (list_set i v l) k =
  if Nat.eqb k i then (if Nat.ltb i (List.length l) then Some v else None)
  else nth_error l k.
Proof.
  induction l as [|h t IH]; intros i k v.
  - destruct i; destruct k; simpl; try reflexivity.
    destruct (Nat.eqb k i); reflexivity.
  - destruct i as [|i]; destruct k as [|k]; simpl; try reflexivity.
    rewrite IH. destruct (Nat.eqb k i); reflexivity.
Qed.

Lemma length_list_set : forall (l : list X) (i : nat) (v : X),
  List.length (list_set i v l) = List.length l.
Proof.
  induction l as [|h t IH]; intros [|i] v; simpl; try reflexivity.
  now rewrite IH.
Qed.

Lemma nth_error_app_last : forall (l : list X) (v : X) (k : nat),
  nth_error (l ++ [v]) k =
  if Nat.eqb k (List.length l) then Some v else nth_error l k.
Proof.
  induction l as [|h t IH]; intros v k.
  - destruct k as [|k]; simpl; [reflexivity|]. destruct k; reflexivity.
  - destruct k as [|k]; simpl; [reflexivity|]. apply IH.
Qed.

End ListFacts.
(* ===================================================================== *)
(** ** The phases of an agent *)
(* ===================================================================== *)

Section AgentFacts.

Context {A : Arith}.
Local Open Scope num_scope.

Lemma moveTowards_phase : forall (tx ty : num) (agent : Agent),
  phase (moveTowards tx ty agent) = phase agent.
Proof. reflexivity. Qed.

Lemma updateAgent_phase_monotone : forall (lotOf : Agent -> Lot) (agent : Agent),
  phaseRank (phase agent) <= phaseRank (phase (updateAgent lotOf agent)).
Proof.
  intros lotOf agent. unfold updateAgent.
  destruct (phase agent) eqn:E.
  - unfold updateAgentTravelingToNode.
    destruct (pathToNode agent); [simpl; lia|].
    destruct (nth_error _ _); [|simpl; lia].
    destruct (_ <? _); simpl; rewrite E; simpl; lia.
  - unfold updateAgentTravelingToArea.
    destruct (_ <? _); simpl; [|rewrite E; simpl]; lia.
  - unfold updateAgentSettling.
    destruct (_ <? _); simpl; [|rewrite E; simpl]; lia.
  - rewrite E. lia.
Qed.

Lemma trajectory_step_monotone : forall (lotOf : nat -> Agent -> Lot) (agent : Agent) (i k : nat),
  phaseRank (phase (trajectory lotOf agent i))
    <= phaseRank (phase (trajectory lotOf agent (k + i))).
Proof.
  intros lotOf agent i k. induction k as [|k IH]; simpl; [lia|].
  eapply Nat.le_trans; [exact IH | apply updateAgent_phase_monotone].
Qed.

(** After the first [k] turns of the loop of updateAgents, the agents below
    [k] have made one step each and the others are untouched. *)
Lemma updateAgents_prefix : forall (g : Game) (k : nat),
  let gk := fold_left updateAgentAt (seq 0 k) g in
  List.length (agents gk) = List.length (agents g) /\
  (forall i, k <= i -> nth_error (agents gk) i = nth_error (agents g) i) /\
  (forall i agent, i < k -> nth_error (agents g) i = Some agent ->
     exists lotOf, nth_error (agents gk) i = Some (updateAgent lotOf agent)).
Proof.
  intros g k. induction k as [|k IH].
  - simpl. split; [reflexivity|]. split; [reflexivity|]. intros i a Hi. lia.
  - cbv zeta in IH |- *. rewrite seq_S, fold_left_app. cbn [fold_left Nat.add].
    destruct IH as [Hlen [Hsame Hdone]].
    set (gk := fold_left updateAgentAt (seq 0 k) g) in *.
    unfold updateAgentAt.
    destruct (nth_error (agents gk) k) as [agent|] eqn:Ek.
    + unfold setAgent at 1 3 5. cbn [agents set_agents].
      split; [rewrite length_list_set; exact Hlen|].
      split.
      * intros i Hi. rewrite nth_error_list_set.
        replace (Nat.eqb i k) with false by (symmetry; apply Nat.eqb_neq; lia).
        apply Hsame. lia.
      * intros i a Hi Ha. rewrite nth_error_list_set.
        destruct (Nat.eqb i k) eqn:Eik.
        -- apply Nat.eqb_eq in Eik. subst i.
           assert (Hk : k < List.length (agents gk)).
           { apply nth_error_Some. rewrite Ek. discriminate. }
           apply Nat.ltb_lt in Hk. rewrite Hk.
           rewrite (Hsame k (Nat.le_refl k)), Ha in Ek. inversion Ek; subst agent.
           eexists. reflexivity.
        -- apply Nat.eqb_neq in Eik. apply Hdone; [lia | exact Ha].
    + split; [exact Hlen|]. split.
      * intros i Hi. apply Hsame. lia.
      * intros i a Hi Ha.
        destruct (Nat.eq_dec i k) as [->|Hne].
        -- rewrite (Hsame k (Nat.le_refl k)), Ha in Ek. discriminate.
        -- apply Hdone; [lia | exact Ha].
Qed.

Lemma updateAgents_pointwise : forall (g : Game) (i : nat) (agent : Agent),
  nth_error (agents g) i = Some agent ->
  exists lotOf, nth_error (agents (updateAgents g)) i = Some (updateAgent lotOf agent).
Proof.
  intros g i agent Ha. unfold updateAgents.
  destruct (updateAgents_prefix g (List.length (agents g))) as [_ [_ H]].
  apply H; [|exact Ha]. apply nth_error_Some. rewrite Ha. discriminate.
Qed.

Lemma updateAgents_length : forall g : Game,
  List.length (agents (updateAgents g)) = List.length (agents g).
Proof.
  intros g. unfold updateAgents.
  exact (proj1 (updateAgents_prefix g (List.length (agents g)))).
Qed.

(** C6: the phase of an agent never regresses. Sampled at two ticks
    [i <= j] of its life the rank of the phase has not decreased, whatever
    lots the ticks compute; and one pass of updateAgents over the game moves
    the agent at every index of the array forward or not at all. *)
Theorem agent_phase_never_regresses :
  (forall (lotOf : nat -> Agent -> Lot) (agent : Agent) (i j : nat),
     i <= j ->
     phaseRank (phase (trajectory lotOf agent i))
       <= phaseRank (phase (trajectory lotOf agent j))) /\
  (forall (g : Game) (i : nat) (agent : Agent),
     nth_error (agents g) i = Some agent ->
     exists agent', nth_error (agents (updateAgents g)) i = Some agent' /\
       phaseRank (phase agent) <= phaseRank (phase agent')).
Proof.
  split.
  - intros lotOf agent i j Hij.
    replace j with ((j - i) + i)%nat by lia. apply trajectory_step_monotone.
  - intros g i agent Ha.
    destruct (updateAgents_pointwise g i agent Ha) as [lotOf H].
    eexists. split; [exact H | apply updateAgent_phase_monotone].
Qed.

End AgentFacts.

(* ===================================================================== *)
(** ** Invariants of the engine monad *)
(* ===================================================================== *)

Section Preservation.

Context {A : Arith}.
Local Open Scope num_scope.

(** [m] keeps [I]: whatever way the call ends (return, throw, or still
    running), the game it leaves satisfies [I] when the game it started
    from does. *)
Definition preserves (I : Game -> Prop) {X : Type} (m : M X) : Prop :=
  forall g : Game, I g -> I (gameOf (m g)).

Variable I : Game -> Prop.

Lemma preserves_ret : forall (X : Type) (x : X), preserves I (ret x).
Proof. intros X x g Hg. exact Hg. Qed.

Lemma preserves_throw : forall (X : Type) (e : string), preserves I (@throw A X e).
Proof. intros X e g Hg. exact Hg. Qed.

Lemma preserves_spin : forall X : Type, preserves I (@spin A X).
Proof. intros X g Hg. exact Hg. Qed.

Lemma preserves_get : preserves I get.
Proof. intros g Hg. exact Hg. Qed.

Lemma preserves_modify : forall f : Game -> Game,
  (forall g, I g -> I (f g)) -> preserves I (modify f).
Proof. intros f Hf g Hg. exact (Hf g Hg). Qed.

Lemma preserves_bind : forall (X Y : Type) (m : M X) (k : X -> M Y),
  preserves I m -> (forall x, preserves I (k x)) -> preserves I (bind m k).
Proof.
  intros X Y m k Hm Hk g Hg. unfold bind.
  specialize (Hm g Hg). destruct (m g) as [x g'|e g'|g']; simpl in *.
  - exact (Hk x g' Hm).
  - exact Hm.
  - exact Hm.
Qed.

Lemma preserves_nthOrThrow : forall (X : Type) (l : list X) (i : nat),
  preserves I (nthOrThrow l i).
Proof.
  intros X l i. unfold nthOrThrow.
  destruct (nth_error l i); [apply preserves_ret | apply preserves_throw].
Qed.

Lemma preserves_forEach : forall (B : Type) (l : list B) (body : B -> M unit),
  (forall b, preserves I (body b)) -> preserves I (forEach l body).
Proof.
  intros B l body Hb. induction l as [|b t IH]; simpl.
  - apply preserves_ret.
  - apply preserves_bind; [apply Hb | intros _; exact IH].
Qed.

Lemma preserves_tryCatch : forall (body : M unit) (handler : string -> M unit),
  preserves I body -> (forall e, preserves I (handler e)) ->
  preserves I (tryCatch body handler).
Proof.
  intros body handler Hb Hh g Hg. unfold tryCatch.
  specialize (Hb g Hg). destruct (body g) as [x g'|e g'|g']; simpl in *.
  - exact Hb.
  - exact (Hh e g' Hb).
  - exact Hb.
Qed.

End Preservation.

(** One structural step of a preservation proof. *)
Ltac pres_step :=
  match goal with
  | |- preserves _ (bind _ _) => apply preserves_bind; [|intros]
  | |- preserves _ (ret _) => apply preserves_ret
  | |- preserves _ (throw _) => apply preserves_throw
  | |- preserves _ spin => apply preserves_spin
  | |- preserves _ get => apply preserves_get
  | |- preserves _ (nthOrThrow _ _) => apply preserves_nthOrThrow
  | |- preserves _ (forEach _ _) => apply preserves_forEach; intros
  | |- preserves _ (if ?b then _ else _) => destruct b
  | |- preserves _ (match ?x with _ => _ end) => destruct x
  | |- preserves _ (let (_, _) := ?x in _) => destruct x
  end.

Ltac pres := repeat (first [assumption | pres_step]).

(** The same, closing the leaves with a fact already proved. *)
Ltac pres_by lemma := repeat (first [assumption | apply lemma | pres_step]).

(* ===================================================================== *)
(** ** Invariants of the road-network rebuild *)
(* ===================================================================== *)

Section RebuildInvariant.

Context {A : Arith}.
Local Open Scope num_scope.

(** A property of the game that the five writes to the waypoint graph keep,
    that does not read the edge points, the zone entries, the dirty flag or
    the id counter, and that holds of the empty graph, holds wherever the
    rebuild stands. *)
Variable I : Game -> Prop.

Hypothesis I_addWaypoint : forall (x y : num) (metadata : Metadata),
  preserves I (addWaypoint x y metadata).
Hypothesis I_connectPair : forall i j : nat, preserves I (connectPair i j).
Hypothesis I_markIntersection : forall i : nat, preserves I (markIntersection i).
Hypothesis I_addApproach : forall i c : nat, preserves I (addApproach i c).
Hypothesis I_sortConnections : forall i : nat, preserves I (sortConnections i).
Hypothesis I_annotations :
  forall (g : Game) (e : list nat) (z : list (nat * list nat)) (b : bool),
    I g ->
    I (set_roadNetwork
         (mkRoadNetwork (points (roadNetwork g)) (connections (roadNetwork g)) e z b) g).
Hypothesis I_reset : forall g : Game,
  I (set_pointIdCounter 0
       (set_roadNetwork (mkRoadNetwork [] [] [] [] (needsRebuild (roadNetwork g))) g)).

Lemma I_traceRoadSegment :
  forall fuel roadPoints queue processedPoints segment,
    preserves I (traceRoadSegment fuel roadPoints queue processedPoints segment).
Proof.
  induction fuel as [|fuel IH]; intros; simpl; pres_by IH.
Qed.

Lemma I_interpolate : forall fuel point nextPoint i steps step,
  preserves I (interpolate fuel point nextPoint i steps step).
Proof.
  induction fuel as [|fuel IH]; intros; simpl; pres_by IH; pres_by I_addWaypoint.
Qed.

Lemma I_waypointsAt : forall fuel sortedSegment i,
  preserves I (waypointsAt fuel sortedSegment i).
Proof.
  intros. unfold waypointsAt. pres_by I_addWaypoint; pres_by I_interpolate.
Qed.

Lemma I_createWaypointsForSegment : forall fuel segment,
  preserves I (createWaypointsForSegment fuel segment).
Proof.
  intros. unfold createWaypointsForSegment. pres_by I_waypointsAt.
Qed.

Lemma I_roadSegmentsOf : forall fuel roadPoints indices processedPoints roadSegments,
  preserves I (roadSegmentsOf fuel roadPoints indices processedPoints roadSegments).
Proof.
  intros fuel roadPoints indices. induction indices as [|i rest IH]; intros; simpl;
    pres_by IH; pres_by I_traceRoadSegment.
Qed.

Lemma I_extractRoadCenterline : forall fuel zone,
  preserves I (extractRoadCenterline fuel zone).
Proof.
  intros. unfold extractRoadCenterline.
  pres_by I_roadSegmentsOf; pres_by I_createWaypointsForSegment.
Qed.

Lemma I_enhanceLoop : forall fuel intersectionIndex k,
  preserves I (enhanceLoop fuel intersectionIndex k).
Proof.
  induction fuel as [|fuel IH]; intros; simpl; pres_by IH; pres_by I_addApproach.
Qed.

Lemma I_enhanceIntersection : forall fuel intersectionIndex,
  preserves I (enhanceIntersection fuel intersectionIndex).
Proof.
  intros. unfold enhanceIntersection. pres_by I_enhanceLoop.
Qed.

Lemma I_identifyIntersections : forall fuel i,
  preserves I (identifyIntersections fuel i).
Proof.
  induction fuel as [|fuel IH]; intros; simpl;
    pres_by IH; pres_by I_markIntersection; pres_by I_enhanceIntersection.
Qed.

Lemma I_connectNearbyWaypoints : forall fuel, preserves I (connectNearbyWaypoints fuel).
Proof.
  intros. unfold connectNearbyWaypoints, optimizeIntersectionConnections.
  pres_by I_connectPair; pres_by I_identifyIntersections; pres_by I_sortConnections.
Qed.

Lemma I_identifyEdgePoints : preserves I identifyEdgePoints.
Proof.
  unfold identifyEdgePoints. apply preserves_modify. intros g Hg.
  apply I_annotations; exact Hg.
Qed.

Lemma I_findZoneEntryPoints : preserves I findZoneEntryPoints.
Proof.
  unfold findZoneEntryPoints. pres.
  apply preserves_modify. intros g' Hg. apply I_annotations; exact Hg.
Qed.

Lemma I_clearNeedsRebuild : preserves I clearNeedsRebuild.
Proof.
  unfold clearNeedsRebuild. apply preserves_modify. intros g Hg.
  apply I_annotations; exact Hg.
Qed.

(** The rebuild establishes the invariant from any game. *)
Lemma I_rebuildSteps : forall (fuel : nat) (g : Game),
  I (gameOf (rebuildSteps fuel g)).
Proof.
  intros fuel g. unfold rebuildSteps.
  unfold bind at 1. unfold modify at 1.
  match goal with
  | |- I (gameOf (?m ?g1)) => assert (H : preserves I m); [|apply H; apply I_reset]
  end.
  pres_by I_extractRoadCenterline; pres_by I_connectNearbyWaypoints;
    pres_by I_identifyEdgePoints; pres_by I_findZoneEntryPoints;
    pres_by I_clearNeedsRebuild.
Qed.

Lemma I_buildRoadNetwork : forall (fuel : nat) (g : Game),
  I (gameOf (buildRoadNetwork fuel g)).
Proof.
  intros fuel g. unfold buildRoadNetwork, buildRoadNetworkWith, tryCatch.
  pose proof (I_rebuildSteps fuel g) as H.
  destruct (rebuildSteps fuel g) as [x g'|e g'|g']; simpl in *.
  - exact H.
  - apply I_clearNeedsRebuild. exact H.
  - exact H.
Qed.

End RebuildInvariant.

(* ===================================================================== *)
(** ** The adjacency lists are symmetric *)
(* ===================================================================== *)

Section AdjacencyFacts.

Context {A : Arith}.
Local Open Scope num_scope.

(** [j] is an element of [connections[i]]. *)
Definition adjacent (conns : list (list nat)) (i j : nat) : Prop :=
  exists ci, nth_error conns i = Some ci /\ In j ci.

Definition symmetricAdjacency (conns : list (list nat)) : Prop :=
  forall i j, adjacent conns i j -> adjacent conns j i.

(** The arrays [points] and [connections] are parallel, and the adjacency
    is symmetric. *)
Definition graphShape (g : Game) : Prop :=
  List.length (connections (roadNetwork g)) = List.length (points (roadNetwork g)) /\
  symmetricAdjacency (connections (roadNetwork g)).

Lemma adjacent_push : forall conns i ci b k c,
  nth_error conns i = Some ci ->
  (adjacent (list_set i (ci ++ [b]) conns) k c <->
   adjacent conns k c \/ (k = i /\ c = b)).
Proof.
  intros conns i ci b k c Hi.
  assert (Hlt : Nat.ltb i (List.length conns) = true).
  { apply Nat.ltb_lt. apply nth_error_Some. rewrite Hi. discriminate. }
  unfold adjacent. rewrite nth_error_list_set, Hlt.
  destruct (Nat.eqb k i) eqn:E.
  - apply Nat.eqb_eq in E. subst k. split.
    + intros [l [Hl Hc]]. inversion Hl; subst l. apply in_app_or in Hc.
      destruct Hc as [Hc|[Hc|[]]]; [left; eauto | right; auto].
    + intros [[l [Hl Hc]]|[_ Hc]].
      * rewrite Hi in Hl. inversion Hl; subst l.
        eexists. split; [reflexivity | apply in_or_app; left; exact Hc].
      * subst c. eexists. split; [reflexivity | apply in_or_app; right; left; reflexivity].
  - apply Nat.eqb_neq in E. split.
    + intros H. left. exact H.
    + intros [H|[H _]]; [exact H | contradiction].
Qed.

Lemma adjacent_app : forall conns l k c,
  adjacent (conns ++ [l]) k c <->
  adjacent conns k c \/ (k = List.length conns /\ In c l).
Proof.
  intros conns l k c. unfold adjacent. rewrite nth_error_app_last.
  destruct (Nat.eqb k (List.length conns)) eqn:E.
  - apply Nat.eqb_eq in E. split.
    + intros [ci [Hc Hin]]. inversion Hc; subst ci. right. auto.
    + intros [[ci [Hc Hin]]|[_ Hin]].
      * exfalso. assert (k < List.length conns).
        { apply nth_error_Some. rewrite Hc. discriminate. }
        lia.
      * eauto.
  - apply Nat.eqb_neq in E. split.
    + intros H. left. exact H.
    + intros [H|[H _]]; [exact H | contradiction].
Qed.

Lemma adjacent_permuted : forall conns i ci ci' k c,
  nth_error conns i = Some ci ->
  (forall x, In x ci' <-> In x ci) ->
  (adjacent (list_set i ci' conns) k c <-> adjacent conns k c).
Proof.
  intros conns i ci ci' k c Hi Hp.
  assert (Hlt : Nat.ltb i (List.length conns) = true).
  { apply Nat.ltb_lt. apply nth_error_Some. rewrite Hi. discriminate. }
  unfold adjacent. rewrite nth_error_list_set, Hlt.
  destruct (Nat.eqb k i) eqn:E; [|reflexivity].
  apply Nat.eqb_eq in E. subst k. split.
  - intros [l [Hl Hc]]. inversion Hl; subst l. exists ci. split; [exact Hi | apply Hp, Hc].
  - intros [l [Hl Hc]]. rewrite Hi in Hl. inversion Hl; subst l.
    exists ci'. split; [reflexivity | apply Hp, Hc].
Qed.

Lemma pushConnection_run : forall (i j : nat) (g : Game) (ci : list nat),
  nth_error (connections (roadNetwork g)) i = Some ci ->
  pushConnection i j g =
  Ret tt (set_roadNetwork
            (set_connections (list_set i (ci ++ [j]) (connections (roadNetwork g)))
               (roadNetwork g)) g).
Proof.
  intros i j g ci H. unfold pushConnection, bind, get, nthOrThrow. rewrite H. reflexivity.
Qed.

Lemma pushConnection_throws : forall (i j : nat) (g : Game),
  nth_error (connections (roadNetwork g)) i = None ->
  pushConnection i j g = Throw TypeError g.
Proof.
  intros i j g H. unfold pushConnection, bind, get, nthOrThrow. rewrite H. reflexivity.
Qed.

End AdjacencyFacts.

Section ShapeFacts.

Context {A : Arith}.
Local Open Scope num_scope.

Lemma nth_error_in_range : forall (X Y : Type) (l : list X) (l' : list Y) (i : nat) (v : X),
  List.length l' = List.length l -> nth_error l i = Some v ->
  exists v', nth_error l' i = Some v'.
Proof.
  intros X Y l l' i v Hlen Hv.
  assert (Hi : i < List.length l') by (rewrite Hlen; apply nth_error_Some; rewrite Hv; discriminate).
  apply nth_error_Some in Hi. destruct (nth_error l' i) as [v'|]; [eauto | contradiction].
Qed.

(** Adding the pair of entries [i -> j], [j -> i] keeps the adjacency
    symmetric. *)
Lemma addEdge_symmetric : forall conns i j ci cj,
  symmetricAdjacency conns ->
  nth_error conns i = Some ci ->
  nth_error (list_set i (ci ++ [j]) conns) j = Some cj ->
  symmetricAdjacency (list_set j (cj ++ [i]) (list_set i (ci ++ [j]) conns)).
Proof.
  intros conns i j ci cj Hsym Hi Hj k c H.
  apply (adjacent_push _ _ _ i k c Hj) in H. apply (adjacent_push _ _ _ i c k Hj).
  rewrite (adjacent_push _ _ _ j k c Hi) in H. rewrite (adjacent_push _ _ _ j c k Hi).
  destruct H as [[H|[-> ->]]|[-> ->]].
  - left. left. apply Hsym. exact H.
  - right. split; reflexivity.
  - left. right. split; reflexivity.
Qed.

Lemma graphShape_connectPair : forall i j : nat, preserves graphShape (connectPair i j).
Proof.
  intros i j g [Hlen Hsym].
  unfold connectPair, bind, get, nthOrThrow, ret, throw.
  destruct (nth_error (points (roadNetwork g)) i) as [pa|] eqn:Ea; [|split; assumption].
  destruct (nth_error (points (roadNetwork g)) j) as [pb|] eqn:Eb; [|split; assumption].
  destruct (_ <=? _); [|split; assumption].
  destruct (hasRoadPathBetween g pa pb); [|split; assumption].
  destruct (nth_error (connections (roadNetwork g)) i) as [ci|] eqn:Eci; [|split; assumption].
  destruct (mem j ci); [split; assumption|].
  rewrite (pushConnection_run i j g ci Eci).
  destruct (nth_error_in_range _ _ _ (connections (roadNetwork g)) j pb Hlen Eb) as [cj0 Hcj0].
  assert (Hj : exists cj, nth_error (list_set i (ci ++ [j]) (connections (roadNetwork g))) j
                          = Some cj).
  { rewrite nth_error_list_set. destruct (Nat.eqb j i).
    - assert (Hlt : Nat.ltb i (List.length (connections (roadNetwork g))) = true).
      { apply Nat.ltb_lt. apply nth_error_Some. rewrite Eci. discriminate. }
      rewrite Hlt. eauto.
    - eauto. }
  destruct Hj as [cj Hj].
  rewrite (pushConnection_run j i _ cj) by exact Hj.
  split; simpl.
  - rewrite !length_list_set. exact Hlen.
  - exact (addEdge_symmetric _ _ _ _ _ Hsym Eci Hj).
Qed.

Lemma graphShape_addWaypoint : forall (x y : num) (metadata : Metadata),
  preserves graphShape (addWaypoint x y metadata).
Proof.
  intros x y md g [Hlen Hsym]. unfold addWaypoint.
  destruct (find _ _); [split; assumption|]. split; simpl.
  - rewrite !length_app, Hlen. reflexivity.
  - intros k c H. apply adjacent_app in H. apply adjacent_app.
    destruct H as [H|[_ []]]. left. apply Hsym. exact H.
Qed.

Lemma graphShape_markIntersection : forall i : nat,
  preserves graphShape (markIntersection i).
Proof.
  intros i g [Hlen Hsym]. unfold markIntersection, bind, get, nthOrThrow, ret, throw, modify.
  destruct (nth_error (points (roadNetwork g)) i); [|split; assumption].
  split; simpl; [rewrite length_list_set; exact Hlen | exact Hsym].
Qed.

Lemma graphShape_addApproach : forall i c : nat, preserves graphShape (addApproach i c).
Proof.
  intros i c g [Hlen Hsym].
  unfold addApproach, bind, get, nthOrThrow, ret, throw.
  destruct (nth_error (points (roadNetwork g)) i) as [pi|] eqn:Ei; [|split; assumption].
  destruct (nth_error (points (roadNetwork g)) c) as [pc|] eqn:Ec; [|split; assumption].
  destruct (_ <? _); [|split; assumption].
  destruct (isOnRoad _ _ _); [|split; assumption].
  destruct (existsb _ _); [split; assumption|].
  unfold modify at 1.
  set (n := List.length (points (roadNetwork g))).
  set (conns := connections (roadNetwork g)) in *.
  assert (Hn : List.length conns = n) by exact Hlen.
  destruct (nth_error_in_range _ _ _ conns i pi Hlen Ei) as [ci Hci].
  destruct (nth_error_in_range _ _ _ conns c pc Hlen Ec) as [cc Hcc].
  assert (Hi1 : nth_error (conns ++ [[i; c]]) i = Some ci).
  { rewrite nth_error_app_last.
    replace (Nat.eqb i (List.length conns)) with false; [exact Hci|].
    symmetry. apply Nat.eqb_neq. intros E.
    assert (i < List.length conns) by (apply nth_error_Some; rewrite Hci; discriminate). lia. }
  match goal with
  | |- context [pushConnection i n ?g1] =>
      rewrite (pushConnection_run i n g1 ci) by exact Hi1
  end.
  cbn [connections roadNetwork set_roadNetwork set_connections set_points].
  assert (Hc1 : exists cc', nth_error (list_set i (ci ++ [n]) (conns ++ [[i; c]])) c = Some cc').
  { rewrite nth_error_list_set. destruct (Nat.eqb c i).
    - assert (Hlt : Nat.ltb i (List.length (conns ++ [[i; c]])) = true).
      { apply Nat.ltb_lt. apply nth_error_Some. rewrite Hi1. discriminate. }
      rewrite Hlt. eauto.
    - rewrite nth_error_app_last.
      replace (Nat.eqb c (List.length conns)) with false; [eauto|].
      symmetry. apply Nat.eqb_neq. intros E.
      assert (c < List.length conns) by (apply nth_error_Some; rewrite Hcc; discriminate). lia. }
  destruct Hc1 as [cc' Hc1].
  match goal with
  | |- context [pushConnection c n ?g1] =>
      rewrite (pushConnection_run c n g1 cc') by exact Hc1
  end.
  split; cbn [gameOf connections points roadNetwork set_roadNetwork set_connections set_points].
  - rewrite !length_list_set, !length_app. simpl. fold conns. rewrite Hn. reflexivity.
  - intros k b H.
    apply (adjacent_push _ _ _ n k b Hc1) in H. apply (adjacent_push _ _ _ n b k Hc1).
    rewrite (adjacent_push _ _ _ n k b Hi1) in H. rewrite (adjacent_push _ _ _ n b k Hi1).
    rewrite adjacent_app in H. rewrite adjacent_app. rewrite Hn in *.
    destruct H as [[[H|[-> Hin]]|[-> ->]]|[-> ->]].
    + left. left. left. apply Hsym. exact H.
    + destruct Hin as [<-|[<-|[]]].
      * left. right. split; reflexivity.
      * right. split; reflexivity.
    + left. left. right. split; [reflexivity | left; reflexivity].
    + left. left. right. split; [reflexivity | right; left; reflexivity].
Qed.

Lemma insertByAngle_In : forall (x y : nat * num) (l : list (nat * num)),
  In x (insertByAngle y l) <-> x = y \/ In x l.
Proof.
  intros x y l. induction l as [|h t IH]; simpl.
  - split; intros [H|[]]; auto.
  - destruct (_ <? _); simpl.
    + split; intros [H|[H|H]]; auto.
    + rewrite IH. split; intros [H|[H|H]]; auto.
Qed.

Lemma sortByAngle_In : forall (x : nat * num) (l : list (nat * num)),
  In x (sortByAngle l) <-> In x l.
Proof.
  intros x l. unfold sortByAngle.
  assert (H : forall acc, In x (fold_left (fun sorted y => insertByAngle y sorted) l acc)
                          <-> In x l \/ In x acc).
  { induction l as [|h t IH]; intros acc; simpl.
    - split; [auto | intros [[]|H]; exact H].
    - rewrite IH, insertByAngle_In.
      split; intro H0; decompose [or] H0; subst; auto. }
  rewrite H. simpl. split; [intros [H0|[]]; exact H0 | auto].
Qed.

Lemma angles_fst : forall (pts : list Waypoint) (point : Waypoint) (conns : list nat)
    (keyed : list (nat * num)),
  angles pts point conns = Some keyed -> map fst keyed = conns.
Proof.
  intros pts point conns. induction conns as [|a rest IH]; intros keyed; simpl.
  - intros H. inversion H. reflexivity.
  - destruct (nth_error pts a); [|discriminate].
    destruct (angles pts point rest) as [l|]; [|discriminate].
    intros H. inversion H. simpl. rewrite (IH l eq_refl). reflexivity.
Qed.

Lemma sorted_same_elements : forall (pts : list Waypoint) (point : Waypoint)
    (conns : list nat) (keyed : list (nat * num)) (x : nat),
  angles pts point conns = Some keyed ->
  (In x (map fst (sortByAngle keyed)) <-> In x conns).
Proof.
  intros pts point conns keyed x H. rewrite <- (angles_fst _ _ _ _ H).
  rewrite !in_map_iff. split; intros [p [Hp Hin]]; exists p; split; auto;
    apply sortByAngle_In; exact Hin.
Qed.

Lemma graphShape_sortConnections : forall i : nat, preserves graphShape (sortConnections i).
Proof.
  intros i g [Hlen Hsym].
  unfold sortConnections, bind, get, nthOrThrow, ret, throw, modify.
  destruct (nth_error (points (roadNetwork g)) i) as [p|]; [|split; assumption].
  destruct (isIntersection p); [|split; assumption].
  destruct (nth_error (connections (roadNetwork g)) i) as [ci|] eqn:Eci; [|split; assumption].
  destruct ci as [|a [|b rest]]; try (split; assumption).
  destruct (angles _ _ _) as [keyed|] eqn:Ek; [|split; assumption].
  split; simpl.
  - rewrite length_list_set. exact Hlen.
  - intros k c H.
    apply (adjacent_permuted _ _ _ _ k c Eci
             (fun x => sorted_same_elements _ _ _ _ x Ek)) in H.
    apply (adjacent_permuted _ _ _ _ c k Eci
             (fun x => sorted_same_elements _ _ _ _ x Ek)).
    apply Hsym. exact H.
Qed.

Lemma graphShape_rebuilt : forall (fuel : nat) (g : Game),
  graphShape (gameOf (buildRoadNetwork fuel g)).
Proof.
  intros fuel g. apply I_buildRoadNetwork.
  - exact graphShape_addWaypoint.
  - exact graphShape_connectPair.
  - exact graphShape_markIntersection.
  - exact graphShape_addApproach.
  - exact graphShape_sortConnections.
  - intros g0 e z b H. exact H.
  - intros g0. split; [reflexivity|]. intros k c [ci [Hk _]]. destruct k; discriminate.
Qed.

(** C4: wherever a rebuild stands, and so after every completed rebuild, the
    adjacency lists are symmetric: [j] is an element of [connections[i]]
    exactly when [i] is an element of [connections[j]]. *)
Theorem rebuild_adjacency_symmetric : forall (fuel : nat) (g : Game) (i j : nat),
  (exists ci, nth_error (connections (roadNetwork (gameOf (buildRoadNetwork fuel g)))) i
              = Some ci /\ In j ci) <->
  (exists cj, nth_error (connections (roadNetwork (gameOf (buildRoadNetwork fuel g)))) j
              = Some cj /\ In i cj).
Proof.
  intros fuel g i j. destruct (graphShape_rebuilt fuel g) as [_ Hsym].
  split; intros H; apply Hsym; exact H.
Qed.

End ShapeFacts.

(* ===================================================================== *)
(** ** Waypoint spacing *)
(* ===================================================================== *)

Section SpacingFacts.

Context {A : Arith}.
Local Open Scope num_scope.

(** How every waypoint was tested against the waypoints there before it.
    A waypoint that addWaypoint created passed its test
    [Math.hypot(x - existingPoint.x, y - existingPoint.y) < minPointDistance]
    against each of them, approach waypoints included. An approach waypoint
    of enhanceIntersection is the rounding of a position (approachX,
    approachY) that passed the test
    [Math.hypot(approachX - existingPoint.x, approachY - existingPoint.y) < 15]
    against each of them. *)
Definition spacedWaypoints (pts : list Waypoint) : Prop :=
  forall (j : nat) (wj : Waypoint),
    nth_error pts j = Some wj ->
    (isApproach wj = false ->
     forall (i : nat) (wi : Waypoint),
       i < j -> nth_error pts i = Some wi ->
       (nhypot (wx wj - wx wi) (wy wj - wy wi) <? MIN_POINT_DISTANCE) = false) /\
    (isApproach wj = true ->
     exists approachX approachY : num,
       wx wj = nround approachX /\ wy wj = nround approachY /\
       forall (i : nat) (wi : Waypoint),
         i < j -> nth_error pts i = Some wi ->
         (nhypot (approachX - wx wi) (approachY - wy wi) <? of_Z 15) = false).

Definition spaced (g : Game) : Prop := spacedWaypoints (points (roadNetwork g)).

Definition samePoints (pts : list Waypoint) (g : Game) : Prop :=
  points (roadNetwork g) = pts.

Lemma samePoints_pushConnection : forall (pts : list Waypoint) (i j : nat),
  preserves (samePoints pts) (pushConnection i j).
Proof.
  intros pts i j. unfold pushConnection. pres.
  apply preserves_modify. intros g H. exact H.
Qed.

Lemma samePoints_connectPair : forall (pts : list Waypoint) (i j : nat),
  preserves (samePoints pts) (connectPair i j).
Proof.
  intros pts i j. unfold connectPair. pres_by samePoints_pushConnection.
Qed.

Lemma samePoints_sortConnections : forall (pts : list Waypoint) (i : nat),
  preserves (samePoints pts) (sortConnections i).
Proof.
  intros pts i. unfold sortConnections. pres.
  apply preserves_modify. intros g H. exact H.
Qed.

Lemma spaced_of_samePoints : forall (X : Type) (m : M X),
  (forall pts, preserves (samePoints pts) m) -> preserves spaced m.
Proof.
  intros X m H g Hg. unfold spaced.
  rewrite (H (points (roadNetwork g)) g eq_refl). exact Hg.
Qed.

Lemma spacedWaypoints_snoc : forall (pts : list Waypoint) (w : Waypoint),
  spacedWaypoints pts ->
  ((isApproach w = false ->
    forall wi : Waypoint, In wi pts ->
      (nhypot (wx w - wx wi) (wy w - wy wi) <? MIN_POINT_DISTANCE) = false) /\
   (isApproach w = true ->
    exists approachX approachY : num,
      wx w = nround approachX /\ wy w = nround approachY /\
      forall wi : Waypoint, In wi pts ->
        (nhypot (approachX - wx wi) (approachY - wy wi) <? of_Z 15) = false)) ->
  spacedWaypoints (pts ++ [w]).
Proof.
  intros pts w Hg [Hnew1 Hnew2] j wj Hj.
  assert (Hearlier : forall i wi, i < j -> nth_error (pts ++ [w]) i = Some wi ->
            j <= List.length pts -> nth_error pts i = Some wi).
  { intros i wi Hij Hi Hle. rewrite nth_error_app1 in Hi by lia. exact Hi. }
  assert (Hjle : j <= List.length pts).
  { assert (j < List.length (pts ++ [w])) by (apply nth_error_Some; rewrite Hj; discriminate).
    rewrite length_app in H. simpl in H. lia. }
  rewrite nth_error_app_last in Hj.
  destruct (Nat.eqb j (List.length pts)) eqn:Ej.
  - inversion Hj; subst wj. split.
    + intros Ha i wi Hij Hi. apply (Hnew1 Ha).
      exact (nth_error_In _ _ (Hearlier i wi Hij Hi Hjle)).
    + intros Ha. destruct (Hnew2 Ha) as [aX [aY [Ex [Ey Hall]]]].
      exists aX, aY. split; [exact Ex|]. split; [exact Ey|].
      intros i wi Hij Hi. apply Hall.
      exact (nth_error_In _ _ (Hearlier i wi Hij Hi Hjle)).
  - destruct (Hg j wj Hj) as [H1 H2]. split.
    + intros Ha i wi Hij Hi. exact (H1 Ha i wi Hij (Hearlier i wi Hij Hi Hjle)).
    + intros Ha. destruct (H2 Ha) as [aX [aY [Ex [Ey Hall]]]].
      exists aX, aY. split; [exact Ex|]. split; [exact Ey|].
      intros i wi Hij Hi. exact (Hall i wi Hij (Hearlier i wi Hij Hi Hjle)).
Qed.

Lemma spaced_addWaypoint : forall (x y : num) (metadata : Metadata),
  preserves spaced (addWaypoint x y metadata).
Proof.
  intros x y md g Hg. unfold addWaypoint.
  destruct (find _ _) eqn:Ef; [exact Hg|].
  unfold spaced. simpl. apply spacedWaypoints_snoc; [exact Hg|]. split.
  - intros _ wi Hin. simpl. exact (find_none _ _ Ef wi Hin).
  - intros Ha. discriminate Ha.
Qed.

Lemma spaced_markIntersection : forall i : nat, preserves spaced (markIntersection i).
Proof.
  intros i g Hg. unfold markIntersection, bind, get, nthOrThrow, ret, throw, modify.
  destruct (nth_error (points (roadNetwork g)) i) as [p|] eqn:Ep; [|exact Hg].
  unfold spaced. simpl.
  assert (Hold : forall k w,
            nth_error (list_set i (set_isIntersection true p) (points (roadNetwork g))) k
              = Some w ->
            exists w0, nth_error (points (roadNetwork g)) k = Some w0 /\
                       wx w0 = wx w /\ wy w0 = wy w /\ isApproach w0 = isApproach w).
  { intros k w. rewrite nth_error_list_set.
    destruct (Nat.eqb k i) eqn:E.
    - apply Nat.eqb_eq in E. subst k.
      destruct (Nat.ltb i _); [|discriminate].
      intros H. inversion H. exists p. repeat split; [exact Ep].
    - intros H. exists w. repeat split; exact H. }
  intros b wb Hb.
  destruct (Hold b wb Hb) as [wb0 [Hb0 [Exb [Eyb Eab]]]].
  destruct (Hg b wb0 Hb0) as [H1 H2]. split.
  - intros Ha a wa Hab Hwa.
    destruct (Hold a wa Hwa) as [wa0 [Ha0 [Exa [Eya _]]]].
    rewrite <- Exa, <- Eya, <- Exb, <- Eyb.
    apply (H1 ltac:(congruence) a wa0 Hab Ha0).
  - intros Ha. destruct (H2 ltac:(congruence)) as [aX [aY [Ex [Ey Hall]]]].
    exists aX, aY. split; [congruence|]. split; [congruence|].
    intros a wa Hab Hwa.
    destruct (Hold a wa Hwa) as [wa0 [Ha0 [Exa [Eya _]]]].
    rewrite <- Exa, <- Eya. exact (Hall a wa0 Hab Ha0).
Qed.

Lemma existsb_false_In : forall (X : Type) (f : X -> bool) (l : list X) (x : X),
  existsb f l = false -> In x l -> f x = false.
Proof.
  intros X f l x H Hin. destruct (f x) eqn:E; [|reflexivity].
  assert (Ht : existsb f l = true) by (apply existsb_exists; exists x; split; assumption).
  rewrite H in Ht. discriminate Ht.
Qed.

Lemma spaced_addApproach : forall i c : nat, preserves spaced (addApproach i c).
Proof.
  intros i c g Hg.
  unfold addApproach, bind, get, nthOrThrow, ret, throw.
  destruct (nth_error (points (roadNetwork g)) i) as [pi|]; [|exact Hg].
  destruct (nth_error (points (roadNetwork g)) c) as [pc|]; [|exact Hg].
  destruct (_ <? _); [|exact Hg].
  destruct (isOnRoad _ _ _); [|exact Hg].
  destruct (existsb _ _) eqn:Eclose; [exact Hg|].
  unfold modify at 1.
  match goal with
  | |- spaced (gameOf (match pushConnection i ?n ?g1 with _ => _ end)) =>
      assert (Hp : preserves (samePoints (points (roadNetwork g1)))
                     (bind (pushConnection i n) (fun _ => pushConnection c n)));
      [ pres_by samePoints_pushConnection
      | pose proof (Hp g1 eq_refl) as Hq; unfold bind in Hq ]
  end.
  unfold spaced. unfold samePoints in Hq. rewrite Hq. simpl.
  apply spacedWaypoints_snoc; [exact Hg|]. split.
  - intros Ha. discriminate Ha.
  - intros _. eexists. eexists. split; [reflexivity|]. split; [reflexivity|].
    intros wi Hin.
    exact (existsb_false_In _ _ _ wi Eclose Hin).
Qed.

Lemma spaced_rebuilt : forall (fuel : nat) (g : Game),
  spaced (gameOf (buildRoadNetwork fuel g)).
Proof.
  intros fuel g. apply I_buildRoadNetwork.
  - exact spaced_addWaypoint.
  - intros i j. apply spaced_of_samePoints. intros pts. apply samePoints_connectPair.
  - exact spaced_markIntersection.
  - exact spaced_addApproach.
  - intros i. apply spaced_of_samePoints. intros pts. apply samePoints_sortConnections.
  - intros g0 e z b H. exact H.
  - intros g0 j wj Hj. destruct j; discriminate Hj.
Qed.

(** C3, amended: wherever a rebuild stands, and so after every completed
    rebuild, every waypoint passed the spacing test of the procedure that
    created it against every waypoint before it in [points]. A waypoint that
    is not an approach waypoint (the road-centre and intermediate waypoints,
    which addWaypoint creates) is not closer than MIN_POINT_DISTANCE to any
    of them, approach waypoints included: the test
    [Math.hypot(x - existingPoint.x, y - existingPoint.y) < 20] fails. An
    approach waypoint of enhanceIntersection is the rounding of a position
    that is not closer than 15 to any of them: the test
    [Math.hypot(approachX - existingPoint.x, approachY - existingPoint.y) < 15]
    fails for the position before rounding. *)
Theorem rebuild_waypoints_spaced :
  forall (fuel : nat) (g : Game) (j : nat) (wj : Waypoint),
  nth_error (points (roadNetwork (gameOf (buildRoadNetwork fuel g)))) j = Some wj ->
  (isApproach wj = false ->
   forall (i : nat) (wi : Waypoint),
     i < j ->
     nth_error (points (roadNetwork (gameOf (buildRoadNetwork fuel g)))) i = Some wi ->
     (nhypot (wx wj - wx wi) (wy wj - wy wi) <? of_Z 20) = false) /\
  (isApproach wj = true ->
   exists approachX approachY : num,
     wx wj = nround approachX /\ wy wj = nround approachY /\
     forall (i : nat) (wi : Waypoint),
       i < j ->
       nth_error (points (roadNetwork (gameOf (buildRoadNetwork fuel g)))) i = Some wi ->
       (nhypot (approachX - wx wi) (approachY - wy wi) <? of_Z 15) = false).
Proof.
  intros fuel g j wj Hj.
  exact (spaced_rebuilt fuel g j wj Hj).
Qed.

End SpacingFacts.

(* ===================================================================== *)
(** ** The rebuild is fail-soft *)
(* ===================================================================== *)

Section FailSoftFacts.

Context {A : Arith}.
Local Open Scope num_scope.

(** [m] returns only into games that satisfy [Q]. *)
Definition returnsInto (Q : Game -> Prop) {X : Type} (m : M X) : Prop :=
  forall g : Game, match m g with
                   | Ret _ g' => Q g'
                   | Throw _ _ => True
                   | Spin _ => True
                   end.

Lemma returnsInto_bind : forall (Q : Game -> Prop) (X Y : Type) (m : M X) (k : X -> M Y),
  (forall x, returnsInto Q (k x)) -> returnsInto Q (bind m k).
Proof.
  intros Q X Y m k Hk g. unfold bind.
  destruct (m g) as [x g'|e g'|g']; [apply Hk | exact I | exact I].
Qed.

Lemma rebuildSteps_clears_flag : forall fuel : nat,
  returnsInto (fun g => needsRebuild (roadNetwork g) = false) (rebuildSteps fuel).
Proof.
  intros fuel. unfold rebuildSteps.
  repeat (apply returnsInto_bind; intros).
  intros g. reflexivity.
Qed.

End FailSoftFacts.

Module RebuildRuns.

Import Scenario.
Local Open Scope float_scope.

(** The rebuild of [crossing] completes. The waypoint at (1000, 1000) has
    the four neighbours 0, 1, 3 and 4 and is 55 from waypoint 0, so
    enhanceIntersection adds the approach waypoint 5 at (1025, 1000). *)
Example crossing_rebuilt :
  returned (@buildRoadNetwork F 50 crossing) = true /\
  waypointsOf rebuiltCrossing
    = [(1055, 1000, false); (1025, 1018, false); (1000, 1000, false);
       (960, 1000, false); (980, 965, false); (1025, 1000, true)] /\
  connections (roadNetwork rebuiltCrossing)
    = [[1; 2; 5]; [0; 2]; [4; 0; 5; 1; 3]; [2; 4]; [2; 3]; [2; 0]]%nat /\
  needsRebuild (roadNetwork rebuiltCrossing) = false.
Proof. vm_compute. repeat split; reflexivity. Qed.

(** C3 as stated fails: after the completed rebuild of [crossing] the
    approach waypoint 5 at (1025, 1000) is 18 from waypoint 1 at
    (1025, 1018), closer than MIN_POINT_DISTANCE = 20. enhanceIntersection
    only kept it 15 away from the waypoints present. *)
Lemma approach_waypoint_within_min_distance :
  returned (@buildRoadNetwork F 50 crossing) = true /\
  waypointDistance rebuiltCrossing 1 5 = Some 18 /\
  @nltb F 18 (@MIN_POINT_DISTANCE F) = true.
Proof. vm_compute. repeat split; reflexivity. Qed.

(** Waypoint 1 of the rebuilt crossing, which addWaypoint created, and its
    approach waypoint 5. *)
Lemma rebuild_waypoints_spaced_witness :
  (nth_error (points (roadNetwork (gameOf (@buildRoadNetwork F 50 crossing)))) 1
     = Some (@mkWaypoint F 1 1025 1018 (Some 40) (Some 1) true false false false None) /\
   forall (i : nat) (wi : @Waypoint F),
     (i < 1)%nat ->
     nth_error (points (roadNetwork (gameOf (@buildRoadNetwork F 50 crossing)))) i = Some wi ->
     @nltb F (@nhypot F (@nsub F 1025 (wx wi)) (@nsub F 1018 (wy wi))) (@of_Z F 20)
       = false) /\
  (nth_error (points (roadNetwork (gameOf (@buildRoadNetwork F 50 crossing)))) 5
     = Some (@mkWaypoint F 5 1025 1000 None None false false false true (Some 2%nat)) /\
   exists approachX approachY : float,
     1025 = @nround F approachX /\ 1000 = @nround F approachY /\
     forall (i : nat) (wi : @Waypoint F),
       (i < 5)%nat ->
       nth_error (points (roadNetwork (gameOf (@buildRoadNetwork F 50 crossing)))) i
         = Some wi ->
       @nltb F (@nhypot F (@nsub F approachX (wx wi)) (@nsub F approachY (wy wi)))
               (@of_Z F 15) = false).
Proof.
  split.
  - split; [reflexivity|].
    apply (proj1 (@rebuild_waypoints_spaced F 50 crossing 1
                    (@mkWaypoint F 1 1025 1018 (Some 40) (Some 1) true false false false None)
                    ltac:(reflexivity))).
    reflexivity.
  - split; [reflexivity|].
    apply (proj2 (@rebuild_waypoints_spaced F 50 crossing 5
                    (@mkWaypoint F 5 1025 1000 None None false false false true (Some 2%nat))
                    ltac:(reflexivity))).
    reflexivity.
Defined.

End RebuildRuns.

(* ===================================================================== *)
(** ** Travel to the settle position, in real arithmetic *)
(* ===================================================================== *)

Section RealAgentFacts.

Local Open Scope R_scope.

Lemma ltb_true : forall a b : R, RealNum.ltb a b = true <-> a < b.
Proof.
  intros a b. unfold RealNum.ltb. destruct (Rlt_dec a b); split; intros H;
    try reflexivity; try assumption; try discriminate; contradiction.
Qed.

Lemma ltb_false : forall a b : R, RealNum.ltb a b = false <-> b <= a.
Proof.
  intros a b. unfold RealNum.ltb. destruct (Rlt_dec a b); split; intros H;
    try reflexivity; try discriminate; lra.
Qed.

Lemma hypot_nonneg : forall x y : R, 0 <= RealNum.hypot x y.
Proof. intros x y. apply sqrt_pos. Qed.

Lemma sum_sqr_nonneg : forall a b : R, 0 <= a * a + b * b.
Proof. intros a b. nra. Qed.

Lemma hypot_sqr : forall x y : R,
  RealNum.hypot x y * RealNum.hypot x y = x * x + y * y.
Proof. intros x y. apply sqrt_sqrt. apply sum_sqr_nonneg. Qed.

(** A step of length [s] from (x, y) towards (tx, ty), at least [s] away,
    ends exactly [s] closer and is [s] long. *)
Lemma step_towards : forall x y tx ty s : R,
  0 < s -> s <= RealNum.hypot (tx - x) (ty - y) ->
  let d := RealNum.hypot (tx - x) (ty - y) in
  let x' := x + (tx - x) / d * s in
  let y' := y + (ty - y) / d * s in
  RealNum.hypot (tx - x') (ty - y') = d - s /\
  RealNum.hypot (x' - x) (y' - y) = s.
Proof.
  intros x y tx ty s Hs Hd d x' y'.
  assert (Hd0 : 0 < d) by (unfold d; lra).
  assert (Hdd : d * d = (tx - x) * (tx - x) + (ty - y) * (ty - y)) by apply hypot_sqr.
  split.
  - unfold RealNum.hypot at 1. apply sqrt_lem_1.
    + apply sum_sqr_nonneg.
    + unfold d in *. lra.
    + replace ((tx - x') * (tx - x') + (ty - y') * (ty - y'))
        with (((tx - x) * (tx - x) + (ty - y) * (ty - y)) * ((d - s) / d) * ((d - s) / d))
        by (unfold x', y'; field; lra).
      rewrite <- Hdd. field. lra.
  - unfold RealNum.hypot at 1. apply sqrt_lem_1.
    + apply sum_sqr_nonneg.
    + lra.
    + replace ((x' - x) * (x' - x) + (y' - y) * (y' - y))
        with (((tx - x) * (tx - x) + (ty - y) * (ty - y)) * (s / d) * (s / d))
        by (unfold x', y'; field; lra).
      rewrite <- Hdd. field. lra.
Qed.

Lemma trajectory_add : forall (lotOf : nat -> @Agent RArith -> @Lot RArith)
    (agent : @Agent RArith) (n m : nat),
  trajectory lotOf agent (n + m)
    = trajectory (fun k => lotOf (n + k)%nat) (trajectory lotOf agent n) m.
Proof.
  intros lotOf agent n m. induction m as [|m IH].
  - rewrite Nat.add_0_r. reflexivity.
  - rewrite Nat.add_succ_r. simpl. rewrite IH. reflexivity.
Qed.

(** [P] comes to hold of the agent after finitely many ticks, whatever lots
    the ticks compute. *)
Definition eventually (P : @Agent RArith -> Prop) (agent : @Agent RArith) : Prop :=
  forall lotOf : nat -> @Agent RArith -> @Lot RArith,
    exists n : nat, P (trajectory lotOf agent n).

Lemma eventually_now : forall (P : @Agent RArith -> Prop) (agent : @Agent RArith),
  P agent -> eventually P agent.
Proof. intros P agent H lotOf. exists 0%nat. exact H. Qed.

Lemma eventually_trans : forall (P Q : @Agent RArith -> Prop) (agent : @Agent RArith),
  eventually P agent ->
  (forall agent', P agent' -> eventually Q agent') ->
  eventually Q agent.
Proof.
  intros P Q agent HP HQ lotOf.
  destruct (HP lotOf) as [n Hn].
  destruct (HQ _ Hn (fun k => lotOf (n + k)%nat)) as [m Hm].
  exists (n + m)%nat. rewrite trajectory_add. exact Hm.
Qed.

Lemma eventually_step : forall (P : @Agent RArith -> Prop) (agent : @Agent RArith),
  (forall lot, eventually P (updateAgent lot agent)) -> eventually P agent.
Proof.
  intros P agent H lotOf.
  destruct (H (lotOf 0%nat) (fun k => lotOf (1 + k)%nat)) as [m Hm].
  exists (1 + m)%nat. rewrite trajectory_add. exact Hm.
Qed.

(** The distance of the agent to its settle position. *)
Definition remaining (agent : @Agent RArith) : R :=
  RealNum.hypot (px (finalPosition agent) - ax agent) (py (finalPosition agent) - ay agent).

(** One tick of an agent in traveling_to_area or settling that is at least
    one step away: a step of length [speed] straight towards the settle
    position, the phase unchanged. *)
Lemma tick_far : forall (lot : @Agent RArith -> @Lot RArith) (agent : @Agent RArith),
  phase agent = traveling_to_area \/ phase agent = settling ->
  0 < speed agent -> speed agent <= remaining agent ->
  let agent' := updateAgent lot agent in
  phase agent' = phase agent /\
  speed agent' = speed agent /\
  finalPosition agent' = finalPosition agent /\
  ax agent' = ax agent
              + (px (finalPosition agent) - ax agent) / remaining agent * speed agent /\
  ay agent' = ay agent
              + (py (finalPosition agent) - ay agent) / remaining agent * speed agent /\
  RealNum.hypot (ax agent' - ax agent) (ay agent' - ay agent) = speed agent /\
  remaining agent' = remaining agent - speed agent.
Proof.
  intros lot agent Hph Hs Hd.
  assert (Hlt : RealNum.ltb (remaining agent) (speed agent) = false)
    by (apply ltb_false; exact Hd).
  destruct (step_towards (ax agent) (ay agent) (px (finalPosition agent))
              (py (finalPosition agent)) (speed agent) Hs Hd) as [H1 H2].
  assert (Hmove : updateAgent lot agent
                  = moveTowards (px (finalPosition agent)) (py (finalPosition agent)) agent).
  { unfold updateAgent.
    destruct Hph as [E|E]; rewrite E;
      unfold updateAgentTravelingToArea, updateAgentSettling;
      change (RealNum.ltb (remaining agent) (speed agent)) with
        (nltb (distanceTo (px (finalPosition agent)) (py (finalPosition agent)) agent)
              (speed agent)) in Hlt;
      rewrite Hlt; reflexivity. }
  cbv zeta. rewrite Hmove.
  repeat split; try reflexivity; [exact H2 | exact H1].
Qed.

(** One tick of an agent closer than one step: a traveling_to_area agent
    switches to settling where it stands, a settling agent is put on its
    settle position and is settled. *)
Lemma tick_near : forall (lot : @Agent RArith -> @Lot RArith) (agent : @Agent RArith),
  remaining agent < speed agent ->
  (phase agent = traveling_to_area ->
   updateAgent lot agent = set_phase settling agent) /\
  (phase agent = settling ->
   phase (updateAgent lot agent) = settled /\
   ax (updateAgent lot agent) = px (finalPosition agent) /\
   ay (updateAgent lot agent) = py (finalPosition agent)).
Proof.
  intros lot agent Hd.
  assert (Hlt : nltb (distanceTo (px (finalPosition agent)) (py (finalPosition agent)) agent)
                     (speed agent) = true)
    by (apply ltb_true; exact Hd).
  split; intros E; unfold updateAgent; rewrite E.
  - unfold updateAgentTravelingToArea. rewrite Hlt. reflexivity.
  - unfold updateAgentSettling. rewrite Hlt. repeat split.
Qed.

Lemma settling_settles : forall (k : nat) (agent : @Agent RArith),
  phase agent = settling -> 0 < speed agent ->
  remaining agent < INR k * speed agent ->
  eventually (fun agent' => phase agent' = settled) agent.
Proof.
  induction k as [|k IH]; intros agent Hph Hs Hk.
  - simpl in Hk. pose proof (hypot_nonneg (px (finalPosition agent) - ax agent)
                               (py (finalPosition agent) - ay agent)) as H0.
    unfold remaining in Hk. lra.
  - apply eventually_step. intros lot.
    destruct (Rlt_dec (remaining agent) (speed agent)) as [Hnear|Hfar].
    + apply eventually_now. exact (proj1 (proj2 (tick_near lot agent Hnear) Hph)).
    + destruct (tick_far lot agent (or_intror Hph) Hs) as [E1 [E2 [E3 [_ [_ [_ E4]]]]]];
        [lra|].
      apply IH.
      * rewrite E1. exact Hph.
      * rewrite E2. exact Hs.
      * rewrite E4, E2. rewrite S_INR in Hk. lra.
Qed.

Lemma area_reaches_settling : forall (k : nat) (agent : @Agent RArith),
  phase agent = traveling_to_area -> 0 < speed agent ->
  remaining agent < INR k * speed agent ->
  eventually (fun agent' => phase agent' = settling /\ 0 < speed agent') agent.
Proof.
  induction k as [|k IH]; intros agent Hph Hs Hk.
  - simpl in Hk. pose proof (hypot_nonneg (px (finalPosition agent) - ax agent)
                               (py (finalPosition agent) - ay agent)) as H0.
    unfold remaining in Hk. lra.
  - apply eventually_step. intros lot.
    destruct (Rlt_dec (remaining agent) (speed agent)) as [Hnear|Hfar].
    + apply eventually_now.
      rewrite (proj1 (tick_near lot agent Hnear) Hph). split; [reflexivity | exact Hs].
    + destruct (tick_far lot agent (or_introl Hph) Hs) as [E1 [E2 [E3 [_ [_ [_ E4]]]]]];
        [lra|].
      apply IH.
      * rewrite E1. exact Hph.
      * rewrite E2. exact Hs.
      * rewrite E4, E2. rewrite S_INR in Hk. lra.
Qed.

Lemma bounded_by_steps : forall d s : R, 0 < s -> exists k : nat, d < INR k * s.
Proof.
  intros d s Hs. destruct (INR_unbounded (d / s)) as [k Hk].
  exists k. apply Rmult_lt_compat_r with (r := s) in Hk; [|exact Hs].
  unfold Rdiv in Hk. rewrite Rmult_assoc, Rinv_l, Rmult_1_r in Hk; lra.
Qed.

(** The distance of the agent to the waypoint of its path it is heading for. *)
Definition toWaypoint (target : @Point RArith) (agent : @Agent RArith) : R :=
  RealNum.hypot (px target - ax agent) (py target - ay agent).

Lemma node_reaches_waypoint : forall (k : nat) (agent : @Agent RArith) (target : @Point RArith),
  phase agent = traveling_to_node -> 0 < speed agent ->
  nth_error (pathToNode agent) (pathToNodeIndex agent) = Some target ->
  toWaypoint target agent < INR k * speed agent ->
  eventually (fun agent' =>
      phase agent' = traveling_to_node /\ speed agent' = speed agent /\
      pathToNode agent' = pathToNode agent /\
      pathToNodeIndex agent' = S (pathToNodeIndex agent)) agent.
Proof.
  induction k as [|k IH]; intros agent target Hph Hs Ht Hk.
  - simpl in Hk. pose proof (hypot_nonneg (px target - ax agent) (py target - ay agent)) as H0.
    unfold toWaypoint in Hk. lra.
  - apply eventually_step. intros lot.
    assert (Hup : updateAgent lot agent =
                  if nltb (distanceTo (px target) (py target) agent) (speed agent)
                  then set_pathToNodeIndex (S (pathToNodeIndex agent))
                         (set_pos (px target) (py target) agent)
                  else moveTowards (px target) (py target) agent).
    { unfold updateAgent. rewrite Hph. unfold updateAgentTravelingToNode. rewrite Ht.
      destruct (pathToNode agent); [destruct (pathToNodeIndex agent); discriminate Ht|].
      reflexivity. }
    rewrite Hup.
    destruct (Rlt_dec (toWaypoint target agent) (speed agent)) as [Hnear|Hfar].
    + assert (Hlt : nltb (distanceTo (px target) (py target) agent) (speed agent) = true)
        by (apply ltb_true; exact Hnear).
      rewrite Hlt. apply eventually_now. repeat split. exact Hph.
    + assert (Hlt : nltb (distanceTo (px target) (py target) agent) (speed agent) = false)
        by (apply ltb_false; change (speed agent <= toWaypoint target agent); lra).
      rewrite Hlt.
      destruct (step_towards (ax agent) (ay agent) (px target) (py target) (speed agent) Hs)
        as [H1 _]; [fold (toWaypoint target agent); lra|].
      eapply eventually_trans.
      * apply (IH (moveTowards (px target) (py target) agent) target Hph Hs Ht).
        unfold toWaypoint. simpl. unfold toWaypoint in Hk.
        simpl in H1. rewrite H1. rewrite S_INR in Hk. lra.
      * intros agent' [E1 [E2 [E3 E4]]]. apply eventually_now.
        repeat split; assumption.
Qed.

Lemma node_reaches_area : forall (m : nat) (agent : @Agent RArith),
  phase agent = traveling_to_node -> 0 < speed agent ->
  (List.length (pathToNode agent) - pathToNodeIndex agent = m)%nat ->
  eventually (fun agent' => phase agent' = traveling_to_area /\ 0 < speed agent') agent.
Proof.
  induction m as [|m IH]; intros agent Hph Hs Hm.
  - apply eventually_step. intros lot. apply eventually_now.
    unfold updateAgent. rewrite Hph. unfold updateAgentTravelingToNode.
    destruct (pathToNode agent) as [|p rest] eqn:Ep; [split; [reflexivity | exact Hs]|].
    destruct (nth_error (p :: rest) (pathToNodeIndex agent)) eqn:En.
    + exfalso. assert (pathToNodeIndex agent < List.length (p :: rest))%nat.
      { apply nth_error_Some. rewrite En. discriminate. }
      lia.
    + split; [reflexivity | exact Hs].
  - destruct (nth_error (pathToNode agent) (pathToNodeIndex agent)) as [target|] eqn:Et.
    + destruct (bounded_by_steps (toWaypoint target agent) (speed agent) Hs) as [k Hk].
      eapply eventually_trans.
      * exact (node_reaches_waypoint k agent target Hph Hs Et Hk).
      * intros agent' [E1 [E2 [E3 E4]]]. apply IH.
        -- exact E1.
        -- rewrite E2. exact Hs.
        -- rewrite E3, E4. lia.
    + apply nth_error_None in Et. lia.
Qed.

Lemma agent_settles : forall agent : @Agent RArith,
  0 < speed agent -> eventually (fun agent' => phase agent' = settled) agent.
Proof.
  intros agent Hs.
  assert (Hsettling : forall a : @Agent RArith,
            phase a = settling /\ 0 < speed a ->
            eventually (fun agent' => phase agent' = settled) a).
  { intros a [Hph Hsa].
    destruct (bounded_by_steps (remaining a) (speed a) Hsa) as [k Hk].
    exact (settling_settles k a Hph Hsa Hk). }
  assert (Harea : forall a : @Agent RArith,
            phase a = traveling_to_area /\ 0 < speed a ->
            eventually (fun agent' => phase agent' = settled) a).
  { intros a [Hph Hsa].
    destruct (bounded_by_steps (remaining a) (speed a) Hsa) as [k Hk].
    eapply eventually_trans; [exact (area_reaches_settling k a Hph Hsa Hk) | exact Hsettling]. }
  destruct (phase agent) eqn:Hph.
  - eapply eventually_trans; [exact (node_reaches_area _ agent Hph Hs eq_refl) | exact Harea].
  - apply Harea. split; [exact Hph | exact Hs].
  - apply Hsettling. split; [exact Hph | exact Hs].
  - apply eventually_now. exact Hph.
Qed.

End RealAgentFacts.

(* ===================================================================== *)
(** ** The grid path is never empty *)
(* ===================================================================== *)

Section GridPathFacts.

Context {A : Arith}.

Lemma gridSearch_nonempty :
  forall (fuel : nat) (g : Game) (startPoint : Point) (targetZone : Zone)
         (queue : list (Point * list Point)) (visited : list (num * num))
         (path : list Point),
  gridSearch fuel g startPoint targetZone queue visited = Some path ->
  path = [startPoint] \/
  exists (before : list Point) (arrival : Point),
    path = before ++ [arrival] /\ isPointInZone arrival targetZone = true.
Proof.
  induction fuel as [|fuel IH]; intros g startPoint targetZone queue visited path; simpl.
  - discriminate.
  - destruct queue as [|[current p] queue].
    + intros H. inversion H. left. reflexivity.
    + destruct (hasKey (cellKey current) visited); [apply IH|].
      destruct (isPointInZone current targetZone) eqn:E.
      * intros H. inversion H. right. exists p, current. split; [reflexivity | exact E].
      * apply IH.
Qed.

Lemma findPathToZone_nonempty :
  forall (fuel : nat) (startPoint : Point) (targetZone : Zone) (g g' : Game)
         (path : list Point),
  findPathToZone fuel startPoint targetZone g = Ret path g' ->
  path <> [].
Proof.
  intros fuel startPoint targetZone g g' path. unfold findPathToZone, bind, get.
  destruct (gridSearch _ _ _ _ _ _) as [p|] eqn:E; [|discriminate].
  intros H. inversion H; subst p.
  destruct (gridSearch_nonempty _ _ _ _ _ _ _ E) as [->|[before [arrival [-> _]]]].
  - discriminate.
  - destruct before; discriminate.
Qed.

End GridPathFacts.


(* ===================================================================== *)
(** ** The grid search returns, in real arithmetic *)
(* ===================================================================== *)

Section GridTermination.

Local Open Scope R_scope.

(** The cell keys of the points inside the world: 401 by 401 cells. *)
Definition worldKeys : list (@num RArith * @num RArith) :=
  list_prod (map (fun i => IZR (Z.of_nat i)) (seq 0 401))
            (map (fun i => IZR (Z.of_nat i)) (seq 0 401)).

Lemma world_coordinate_key : forall x : R,
  0 <= x <= 10000 ->
  In (RealNum.floor (x / 25)) (map (fun i => IZR (Z.of_nat i)) (seq 0 401)).
Proof.
  intros x [H0 H1]. unfold RealNum.floor.
  destruct (base_Int_part (x / 25)) as [Hlo Hhi].
  assert (Hz : (0 <= Int_part (x / 25) <= 400)%Z).
  { split.
    - assert (H : (-1 < Int_part (x / 25))%Z) by (apply lt_IZR; lra). lia.
    - apply le_IZR. lra. }
  apply in_map_iff. exists (Z.to_nat (Int_part (x / 25))). split.
  - rewrite Z2Nat.id by lia. reflexivity.
  - apply in_seq. lia.
Qed.

Lemma inWorld_key : forall p : @Point RArith,
  inWorld p = true -> In (cellKey p) worldKeys.
Proof.
  intros p H. unfold inWorld in H. apply negb_true_iff in H.
  apply orb_false_iff in H. destruct H as [H Hd].
  apply orb_false_iff in H. destruct H as [H Hc].
  apply orb_false_iff in H. destruct H as [Ha Hb].
  change (RealNum.ltb (px p) 0 = false) in Ha.
  change (RealNum.ltb 10000 (px p) = false) in Hb.
  change (RealNum.ltb (py p) 0 = false) in Hc.
  change (RealNum.ltb 10000 (py p) = false) in Hd.
  apply ltb_false in Ha, Hb, Hc, Hd.
  change (cellKey p) with (RealNum.floor (px p / 25), RealNum.floor (py p / 25)).
  apply in_prod; apply world_coordinate_key; lra.
Qed.

Opaque worldKeys.

Lemma eqb_true : forall a b : R, RealNum.eqb a b = true <-> a = b.
Proof.
  intros a b. unfold RealNum.eqb. destruct (Req_dec_T a b); split; intros H;
    try reflexivity; try assumption; try discriminate; contradiction.
Qed.

Lemma hasKey_In : forall (k : R * R) (visited : list (R * R)),
  @hasKey RArith k visited = true <-> In k visited.
Proof.
  intros [a b] visited. unfold hasKey. rewrite existsb_exists. split.
  - intros [[a' b'] [Hin H]]. apply andb_true_iff in H. destruct H as [Ha Hb].
    simpl in Ha, Hb. apply eqb_true in Ha, Hb. subst. exact Hin.
  - intros Hin. exists (a, b). split; [exact Hin|].
    apply andb_true_iff. simpl. split; apply eqb_true; reflexivity.
Qed.

Lemma gridNeighbors_keys :
  forall (g : @Game RArith) (targetZone : @Zone RArith) (visited : list (R * R))
         (current neighbor : @Point RArith),
  In neighbor (gridNeighbors g targetZone visited current) ->
  In (cellKey neighbor) worldKeys.
Proof.
  intros g targetZone visited current neighbor H. unfold gridNeighbors in H.
  apply filter_In in H. destruct H as [_ H].
  apply andb_true_iff in H. destruct H as [H _].
  apply andb_true_iff in H. destruct H as [H _].
  apply inWorld_key. exact H.
Qed.

Lemma gridNeighbors_length :
  forall (g : @Game RArith) (targetZone : @Zone RArith) (visited : list (R * R))
         (current : @Point RArith),
  (List.length (gridNeighbors g targetZone visited current) <= 4)%nat.
Proof.
  intros g targetZone visited current. unfold gridNeighbors.
  match goal with |- (List.length (filter ?f ?l) <= 4)%nat =>
    change 4%nat with (List.length l); apply filter_length_le
  end.
Qed.

(** The search returns when the fuel exceeds the queue length plus four
    dequeues for every cell not yet visited. *)
Lemma gridSearch_returns :
  forall (g : @Game RArith) (startPoint : @Point RArith) (targetZone : @Zone RArith)
         (fuel : nat) (queue : list (@Point RArith * list (@Point RArith)))
         (visited : list (@num RArith * @num RArith)),
  NoDup visited ->
  incl visited (cellKey startPoint :: worldKeys) ->
  (forall entry, In entry queue ->
     In (cellKey (fst entry)) (cellKey startPoint :: worldKeys)) ->
  (List.length queue
     + 4 * (S (List.length worldKeys) - List.length visited) < fuel)%nat ->
  exists path, gridSearch fuel g startPoint targetZone queue visited = Some path.
Proof.
  intros g startPoint targetZone.
  induction fuel as [|fuel IH]; intros queue visited Hnd Hincl Hq Hfuel; [lia|].
  simpl. destruct queue as [|[current path] queue].
  - exists [startPoint]. reflexivity.
  - destruct (hasKey (cellKey current) visited) eqn:Hk.
    + apply IH; try assumption.
      * intros entry Hin. apply Hq. right. exact Hin.
      * cbn [List.length] in Hfuel. lia.
    + assert (Hnot : ~ In (cellKey current) visited).
      { intros Hin. apply hasKey_In in Hin. congruence. }
      assert (Hnd' : NoDup (cellKey current :: visited)) by (constructor; assumption).
      assert (Hincl' : incl (cellKey current :: visited) (cellKey startPoint :: worldKeys)).
      { intros k [<-|Hin]; [apply (Hq (current, path)); left; reflexivity|].
        apply Hincl. exact Hin. }
      pose proof (NoDup_incl_length Hnd' Hincl') as Hlen. cbn [List.length] in Hlen.
      destruct (isPointInZone current targetZone).
      * eexists. reflexivity.
      * apply IH; try assumption.
        -- intros entry Hin. apply in_app_or in Hin. destruct Hin as [Hin|Hin].
           ++ apply Hq. right. exact Hin.
           ++ apply in_map_iff in Hin. destruct Hin as [neighbor [<- Hin]].
              right. simpl. apply (gridNeighbors_keys _ _ _ _ _ Hin).
        -- rewrite length_app, length_map.
           match goal with
           | |- context [List.length (gridNeighbors ?a ?b ?c ?d)] =>
               pose proof (gridNeighbors_length a b c d) as H4
           end.
           cbn [List.length] in Hfuel |- *. lia.
Qed.

(** findPathToZone returns a path, and the game unchanged, once the fuel
    covers every cell of the world. *)
Lemma findPathToZone_returns :
  forall (startPoint : @Point RArith) (targetZone : @Zone RArith) (g : @Game RArith)
         (fuel : nat),
  (1 + 4 * S (List.length worldKeys) < fuel)%nat ->
  exists path, findPathToZone fuel startPoint targetZone g = Ret path g /\ path <> [].
Proof.
  intros startPoint targetZone g fuel Hfuel.
  destruct (gridSearch_returns g startPoint targetZone fuel
              [(startPoint, [startPoint])] []) as [path Hp].
  - constructor.
  - intros k [].
  - intros entry [<-|[]]. left. reflexivity.
  - cbn [List.length]. lia.
  - exists path. assert (E : findPathToZone fuel startPoint targetZone g = Ret path g).
    { unfold findPathToZone, bind, get, ret. rewrite Hp. reflexivity. }
    split; [exact E|]. exact (findPathToZone_nonempty _ _ _ _ _ _ E).
Qed.

End GridTermination.

(* ===================================================================== *)
(** ** Agents travel straight and settle *)
(* ===================================================================== *)

Section TravelFacts.

Context {A : Arith}.
Local Open Scope num_scope.

(** The test [distance < agent.speed] of updateAgentTravelingToArea and of
    updateAgentSettling. *)
Definition withinOneStep (agent : Agent) : bool :=
  nhypot (px (finalPosition agent) - ax agent) (py (finalPosition agent) - ay agent)
    <? speed agent.

(** A tick that finds the agent not closer than one step moves it by the
    quotient of the offset and the distance, times the speed, and changes
    nothing else. *)
Lemma travel_far : forall (lot : Agent -> Lot) (agent : Agent),
  phase agent = traveling_to_area \/ phase agent = settling ->
  withinOneStep agent = false ->
  updateAgent lot agent
    = set_pos
        (ax agent + (px (finalPosition agent) - ax agent)
                    / nhypot (px (finalPosition agent) - ax agent)
                             (py (finalPosition agent) - ay agent)
                    * speed agent)
        (ay agent + (py (finalPosition agent) - ay agent)
                    / nhypot (px (finalPosition agent) - ax agent)
                             (py (finalPosition agent) - ay agent)
                    * speed agent)
        agent.
Proof.
  intros lot agent Hph Hfar. unfold withinOneStep in Hfar. unfold updateAgent.
  destruct Hph as [E|E]; rewrite E;
    unfold updateAgentTravelingToArea, updateAgentSettling, distanceTo;
    cbv zeta; rewrite Hfar; reflexivity.
Qed.

Lemma travel_near : forall (lot : Agent -> Lot) (agent : Agent),
  withinOneStep agent = true ->
  (phase agent = traveling_to_area ->
   updateAgent lot agent = set_phase settling agent) /\
  (phase agent = settling ->
   phase (updateAgent lot agent) = settled /\
   ax (updateAgent lot agent) = px (finalPosition agent) /\
   ay (updateAgent lot agent) = py (finalPosition agent)).
Proof.
  intros lot agent Hnear. unfold withinOneStep in Hnear.
  split; intros E; unfold updateAgent; rewrite E.
  - unfold updateAgentTravelingToArea, distanceTo. cbv zeta. rewrite Hnear. reflexivity.
  - unfold updateAgentSettling, distanceTo. cbv zeta. rewrite Hnear. repeat split.
Qed.

(** An agent in traveling_to_area or settling that a tick finds closer than
    one step is settled on its settle position two ticks later at the
    latest. *)
Lemma travel_arrives : forall (lotOf : nat -> Agent -> Lot) (agent : Agent) (n : nat),
  phase (trajectory lotOf agent n) = traveling_to_area \/
  phase (trajectory lotOf agent n) = settling ->
  withinOneStep (trajectory lotOf agent n) = true ->
  phase (trajectory lotOf agent (n + 2)) = settled /\
  ax (trajectory lotOf agent (n + 2)) = px (finalPosition (trajectory lotOf agent n)) /\
  ay (trajectory lotOf agent (n + 2)) = py (finalPosition (trajectory lotOf agent n)).
Proof.
  intros lotOf agent n Hph Hnear.
  replace (n + 2)%nat with (S (S n)) by lia. cbn [trajectory].
  set (a := trajectory lotOf agent n) in *.
  destruct Hph as [E|E].
  - rewrite (proj1 (travel_near (lotOf n) a Hnear) E).
    assert (Hnear' : withinOneStep (set_phase settling a) = true) by exact Hnear.
    destruct (proj2 (travel_near (lotOf (S n)) (set_phase settling a) Hnear') eq_refl)
      as [H1 [H2 H3]].
    split; [exact H1|]. split; [exact H2 | exact H3].
  - destruct (proj2 (travel_near (lotOf n) a Hnear) E) as [H1 [H2 H3]].
    assert (E2 : updateAgent (lotOf (S n)) (updateAgent (lotOf n) a)
                 = updateAgent (lotOf n) a)
      by (unfold updateAgent at 1; rewrite H1; reflexivity).
    rewrite E2. split; [exact H1|]. split; [exact H2 | exact H3].
Qed.

End TravelFacts.

Section SettlingTheorem.

Local Open Scope R_scope.


End SettlingTheorem.

Module TravelRuns.

Import Scenario.
Local Open Scope float_scope.

(** An agent at (0, 0) in traveling_to_area, 50 from its finalPosition
    (30, 40), with speed 2. *)
Definition climber : @Agent F :=
  @mkAgent F 0 0 0 (@mkPoint F 30 40) None [] 0 traveling_to_area 2 10 None.

(** An agent at (2^54, 0) in traveling_to_area, heading for (2^55, 0) with
    speed 2. *)
Definition stranded : @Agent F :=
  @mkAgent F 0x1p+54 0 0 (@mkPoint F 0x1p+55 0) None [] 0 traveling_to_area 2 10 None.

Lemma stranded_stays : forall lot : @Agent F -> @Lot F,
  @updateAgent F lot stranded = stranded.
Proof.
  intros lot.
  rewrite (@travel_far F lot stranded (or_introl eq_refl))
    by (vm_compute; reflexivity).
  match goal with
  | |- set_pos ?X ?Y _ = _ =>
      assert (HX : X = 0x1p+54) by (vm_compute; reflexivity);
      assert (HY : Y = 0) by (vm_compute; reflexivity);
      rewrite HX, HY
  end.
  reflexivity.
Qed.



End TravelRuns.

(* ===================================================================== *)
(** ** Capacity at the boundary *)
(* ===================================================================== *)

Section CapacityFacts.

Local Open Scope R_scope.

Lemma floor_of_integer : forall z : Z, RealNum.floor (IZR z) = IZR z.
Proof.
  intros z. unfold RealNum.floor. f_equal. symmetry. apply Int_part_spec. lra.
Qed.

(** In real arithmetic the zone of radii 50, 15 and 20 has exactly the
    area of one agent footprint divided by the packing efficiency, and
    capacity 1. *)
Lemma boundary_capacity_real :
  PI * 50 * 50 + PI * 15 * 15 + PI * 20 * 20 = PI * 50 * 50 / (8 / 10) /\
  @calculateMaxAgents RArith Scenario.boundaryZoneR = 1.
Proof.
  assert (Hpi : PI <> 0) by (pose proof PI_RGT_0; lra).
  split; [field; exact Hpi|].
  unfold calculateMaxAgents, Scenario.boundaryZoneR, PACKING_EFFICIENCY,
    MAX_AGENTS_PER_ZONE, dec. simpl.
  replace ((0 + PI * 50 * 50 + PI * 15 * 15 + PI * 20 * 20) / (PI * 50 * 50) * (8 / 10))
    with (IZR 1) by (field; exact Hpi).
  rewrite floor_of_integer.
  rewrite Rmin_left by lra. rewrite Rmax_right by lra. reflexivity.
Qed.

End CapacityFacts.

Module CapacityRuns.

Import Scenario.
Local Open Scope float_scope.

(** C5 on the engine's arithmetic. The zone painted with brush sizes 50,
    15 and 20 has area 3125 pi, one footprint divided by the packing
    efficiency; calculateMaxAgents returns 0 for it. The running sum of the
    three areas is 9817.477042468103, which is also what the footprint
    7853.981633974483 divided by 0.8 gives in doubles; the quotient by the
    footprint rounds to 1.2499999999999998, the product with 0.8 to
    0.9999999999999999, and Math.floor gives 0. Radii 50 and 25, with the
    same exact area, give 1. *)
Lemma boundary_capacity_float :
  circlesOf (residentialZones boundaryHome)
    = [[(1000, 1000, 50); (1015, 1000, 15); (1030, 1000, 20)]] /\
  capacities boundaryHome = [0] /\
  @calculateMaxAgents F boundaryZone = 0 /\
  0 + FloatNum.PI * 50 * 50 + FloatNum.PI * 15 * 15 + FloatNum.PI * 20 * 20
    = 0x1.32cbd0fba43a7p+13 /\
  FloatNum.PI * 50 * 50 = 0x1.eadfb4c5d390cp+12 /\
  FloatNum.PI * 50 * 50 / (8 / 10) = 0x1.32cbd0fba43a7p+13 /\
  0x1.32cbd0fba43a7p+13 / 0x1.eadfb4c5d390cp+12 = 0x1.3ffffffffffffp+0 /\
  0x1.3ffffffffffffp+0 * (8 / 10) = 0x1.fffffffffffffp-1 /\
  FloatNum.floor 0x1.fffffffffffffp-1 = 0 /\
  @calculateMaxAgents F (zone [circle 500 500 50; circle 530 500 25]) = 1.
Proof. vm_compute. repeat split; reflexivity. Qed.

End CapacityRuns.

(* ===================================================================== *)
(** ** Placement and population *)
(* ===================================================================== *)

Section PlacementFacts.

Context {A : Arith}.
Local Open Scope num_scope.

(** [m] returns only values that satisfy [Q]. *)
Definition yields {X : Type} (Q : X -> Prop) (m : M X) : Prop :=
  forall g : Game, match m g with
                   | Ret x _ => Q x
                   | Throw _ _ => True
                   | Spin _ => True
                   end.

Lemma yields_bind : forall (X Y : Type) (Q : Y -> Prop) (m : M X) (k : X -> M Y),
  (forall x, yields Q (k x)) -> yields Q (bind m k).
Proof.
  intros X Y Q m k Hk g. unfold bind.
  destruct (m g) as [x g'|e g'|g']; [apply Hk | exact I | exact I].
Qed.

Lemma findFreePositionInZone_free :
  forall (attempts : nat) (zone : Zone) (existingAgents : list Point),
  yields (fun found => match found with
                       | Some p => isFree (px p) (py p) existingAgents = true
                       | None => True
                       end)
         (findFreePositionInZone attempts zone existingAgents).
Proof.
  induction attempts as [|attempts IH]; intros zone existing; simpl.
  - intros g. exact I.
  - apply yields_bind. intros [randomPoint|]; [|intros g; exact I].
    apply yields_bind. intros r. apply yields_bind. intros r'.
    destruct (isFree _ _ existing) eqn:E.
    + intros g. exact E.
    + apply IH.
Qed.

(** A position returned by findFreePositionInZone is not closer than
    MIN_AGENT_DISTANCE to any reserved position it was given. *)
Lemma findFreePositionInZone_separated :
  forall (attempts : nat) (zone : Zone) (existingAgents : list Point)
         (g g' : Game) (p reserved : Point),
  findFreePositionInZone attempts zone existingAgents g = Ret (Some p) g' ->
  In reserved existingAgents ->
  (nhypot (px p - px reserved) (py p - py reserved) <? MIN_AGENT_DISTANCE) = false.
Proof.
  intros attempts zone existing g g' p reserved H Hin.
  pose proof (findFreePositionInZone_free attempts zone existing g) as Hf.
  rewrite H in Hf. unfold isFree in Hf. rewrite forallb_forall in Hf.
  apply negb_true_iff. exact (Hf reserved Hin).
Qed.

End PlacementFacts.

Module PopulationRuns.

Import Scenario.
Local Open Scope float_scope.

(** C7 on a zone the engine builds: one circle of radius 60 and two of
    radius 10, capacity 1. With Math.random() returning 0.75, 0 and 0.875
    the third circle, centred at (978, 1000), is chosen, the angle is 0 and
    the distance is 0.875 * (10 - 55) = -39.375, so the position returned is
    (938.625, 1000): 39.375 from the centre of that circle of radius 10,
    61.375 from the centre of the circle of radius 60, inside no circle of
    the zone. *)
Lemma free_position_outside_zone :
  circlesOf (residentialZones tailedHome)
    = [[(1000, 1000, 60); (989, 1000, 10); (978, 1000, 10)]] /\
  capacities tailedHome = [1] /\
  placement (@findFreePositionInZone F 100 tailedZone [] tailedHome)
    = Some (938.625, 1000) /\
  @isPointInZone F (@mkPoint F 938.625 1000) tailedZone = false.
Proof. vm_compute. repeat split; reflexivity. Qed.

(** C1 on a village of one road circle and one residential zone of
    capacity 1. The first tick finds the zone connected and queues one
    agent; the queue is not drained, one second has not yet passed. A zone
    edit marks the connectivity stale. The second tick re-counts the zone:
    no live agent, so updateAgentsForZone spawns one live agent, the queued
    one being overlooked. The third tick drains the queue: two live agents
    target zone 0, whose capacity is 1, both with the settle position
    (112.5, 100). *)
Lemma population_exceeds_capacity :
  capacities (village villageRandoms) = [1] /\
  returned villageTick1 = true /\
  census (gameOf villageTick1) = (0, 1, Some true)%nat /\
  returned villageTick2 = true /\
  census (gameOf villageTick2) = (1, 1, Some true)%nat /\
  returned villageTick3 = true /\
  census (gameOf villageTick3) = (2, 0, Some true)%nat /\
  capacities (gameOf villageTick3) = [1] /\
  settleTargets (gameOf villageTick3) = [(112.5, 100); (112.5, 100)].
Proof. vm_compute. repeat split; reflexivity. Qed.

End PopulationRuns.

(* ===================================================================== *)
(** ** The loops of the rebuild come to an end *)
(* ===================================================================== *)

Section FuelFacts.

Context {A : Arith}.
Local Open Scope num_scope.

(** The call has come to an end: it returned or it threw. *)
Definition ended {X : Type} (o : Outcome X) : Prop :=
  match o with
  | Spin _ => False
  | _ => True
  end.

(** A bound on the turns of the loops of [f] that was enough stays enough:
    a call that ended under the bound [n] ends in the same way under every
    larger bound. *)
Definition monotone {X : Type} (f : nat -> M X) : Prop :=
  forall (n m : nat) (g : Game), n <= m -> ended (f n g) -> f m g = f n g.

(** [m] has no unbounded loop. *)
Definition halts {X : Type} (m : M X) : Prop := forall g : Game, ended (m g).

(** From [g], [f] ends under every bound that is large enough. *)
Definition settles {X : Type} (f : nat -> M X) (g : Game) : Prop :=
  exists enough : nat, forall n : nat, enough <= n -> ended (f n g).

Lemma monotone_const : forall (X : Type) (m : M X), monotone (fun _ => m).
Proof. intros X m n n' g _ _. reflexivity. Qed.

Lemma monotone_bind : forall (X Y : Type) (f : nat -> M X) (k : nat -> X -> M Y),
  monotone f -> (forall x, monotone (fun n => k n x)) ->
  monotone (fun n => bind (f n) (k n)).
Proof.
  intros X Y f k Hf Hk n m g Hnm He. unfold bind in *.
  destruct (f n g) as [x g1|e g1|g1] eqn:E.
  - rewrite (Hf n m g Hnm) by (rewrite E; exact I). rewrite E.
    exact (Hk x n m g1 Hnm He).
  - rewrite (Hf n m g Hnm) by (rewrite E; exact I). rewrite E. reflexivity.
  - destruct He.
Qed.

Lemma monotone_forEach : forall (B : Type) (l : list B) (body : nat -> B -> M unit),
  (forall b, monotone (fun n => body n b)) ->
  monotone (fun n => forEach l (body n)).
Proof.
  intros B l body Hb. induction l as [|b t IH]; simpl.
  - apply monotone_const.
  - apply (monotone_bind _ _ (fun n => body n b) (fun n _ => forEach t (body n))).
    + apply Hb.
    + intros _. exact IH.
Qed.

Lemma monotone_tryCatch : forall (body : nat -> M unit) (handler : string -> M unit),
  monotone body -> monotone (fun n => tryCatch (body n) handler).
Proof.
  intros body handler Hb n m g Hnm He. unfold tryCatch in *.
  destruct (body n g) as [x g1|e g1|g1] eqn:E.
  - rewrite (Hb n m g Hnm) by (rewrite E; exact I). rewrite E. reflexivity.
  - rewrite (Hb n m g Hnm) by (rewrite E; exact I). rewrite E. reflexivity.
  - destruct He.
Qed.

Lemma halts_ret : forall (X : Type) (x : X), halts (ret x).
Proof. intros X x g. exact I. Qed.

Lemma halts_throw : forall (X : Type) (e : string), halts (@throw A X e).
Proof. intros X e g. exact I. Qed.

Lemma halts_get : halts get.
Proof. intros g. exact I. Qed.

Lemma halts_modify : forall f : Game -> Game, halts (modify f).
Proof. intros f g. exact I. Qed.

Lemma halts_bind : forall (X Y : Type) (m : M X) (k : X -> M Y),
  halts m -> (forall x, halts (k x)) -> halts (bind m k).
Proof.
  intros X Y m k Hm Hk g. unfold bind. specialize (Hm g).
  destruct (m g) as [x g1|e g1|g1]; [apply Hk | exact I | exact Hm].
Qed.

Lemma halts_nthOrThrow : forall (X : Type) (l : list X) (i : nat), halts (nthOrThrow l i).
Proof.
  intros X l i. unfold nthOrThrow.
  destruct (nth_error l i); [apply halts_ret | apply halts_throw].
Qed.

Lemma halts_forEach : forall (B : Type) (l : list B) (body : B -> M unit),
  (forall b, halts (body b)) -> halts (forEach l body).
Proof.
  intros B l body Hb. induction l as [|b t IH]; simpl.
  - apply halts_ret.
  - apply halts_bind; [apply Hb | intros _; exact IH].
Qed.

Lemma bind_modify : forall (X : Type) (f : Game -> Game) (k : unit -> M X) (g : Game),
  bind (modify f) k g = k tt (f g).
Proof. reflexivity. Qed.

Lemma settles_halts : forall (X : Type) (m : M X) (g : Game),
  halts m -> settles (fun _ => m) g.
Proof. intros X m g H. exists 0. intros n _. apply H. Qed.

(** Sequencing: once the first part has ended under some bound, it ends in
    the same way under every larger one, and the rest is run from there. *)
Lemma settles_bind : forall (X Y : Type) (f : nat -> M X) (k : nat -> X -> M Y) (g : Game),
  monotone f -> settles f g ->
  (forall (x : X) (g1 : Game) (n : nat), f n g = Ret x g1 -> settles (fun n => k n x) g1) ->
  settles (fun n => bind (f n) (k n)) g.
Proof.
  intros X Y f k g Hf [N1 H1] Hk.
  pose proof (H1 N1 (Nat.le_refl N1)) as He.
  destruct (f N1 g) as [x g1|e g1|g1] eqn:E.
  - destruct (Hk x g1 N1 E) as [N2 H2].
    exists (Nat.max N1 N2). intros n Hn. unfold bind.
    rewrite (Hf N1 n g) by (try rewrite E; first [exact I | lia]).
    rewrite E. apply H2. lia.
  - exists N1. intros n Hn. unfold bind.
    rewrite (Hf N1 n g) by (try rewrite E; first [exact I | lia]).
    rewrite E. exact I.
  - destruct He.
Qed.

Lemma settles_forEach : forall (B : Type) (l : list B) (body : nat -> B -> M unit)
    (P : Game -> Prop),
  (forall b, monotone (fun n => body n b)) ->
  (forall b n, preserves P (body n b)) ->
  (forall b g, P g -> settles (fun n => body n b) g) ->
  forall g, P g -> settles (fun n => forEach l (body n)) g.
Proof.
  intros B l body P Hm Hp Hs. induction l as [|b t IH]; intros g Hg; simpl.
  - apply settles_halts, halts_ret.
  - apply (settles_bind _ _ (fun n => body n b) (fun n _ => forEach t (body n))).
    + apply Hm.
    + apply Hs. exact Hg.
    + intros x g1 n E. apply IH.
      pose proof (Hp b n g Hg) as H. rewrite E in H. exact H.
Qed.

End FuelFacts.

(** One structural step of a proof that a bound stays enough. *)
Ltac mono_step :=
  match goal with
  | |- monotone (fun _ => ?m) => apply monotone_const
  | |- monotone (fun n => bind _ _) => apply monotone_bind; [|intros]
  | |- monotone (fun n => forEach _ _) => apply monotone_forEach; intros
  | |- monotone (fun n => if ?b then _ else _) => destruct b
  | |- monotone (fun n => match ?x with _ => _ end) => destruct x
  | |- monotone (fun n => let (_, _) := ?x in _) => destruct x
  end.

Ltac mono_by lemma := repeat (first [assumption | apply lemma | mono_step]).

(** One structural step of a proof that a program without bounded loops
    ends. *)
Ltac halts_step :=
  match goal with
  | |- halts (bind _ _) => apply halts_bind; [|intros]
  | |- halts (ret _) => apply halts_ret
  | |- halts (throw _) => apply halts_throw
  | |- halts get => apply halts_get
  | |- halts (modify _) => apply halts_modify
  | |- halts (nthOrThrow _ _) => apply halts_nthOrThrow
  | |- halts (forEach _ _) => apply halts_forEach; intros
  | |- halts (if ?b then _ else _) => destruct b
  | |- halts (match ?x with _ => _ end) => destruct x
  | |- halts (let (_, _) := ?x in _) => destruct x
  end.

Ltac halts_by lemma := repeat (first [assumption | apply lemma | halts_step]).

Section FuelOfTheRebuild.

Context {A : Arith}.
Local Open Scope num_scope.

Lemma halts_addWaypoint : forall (x y : num) (metadata : Metadata),
  halts (addWaypoint x y metadata).
Proof.
  intros x y metadata g. unfold addWaypoint. destruct (find _ _); exact I.
Qed.

Lemma halts_pushConnection : forall i j : nat, halts (pushConnection i j).
Proof. intros. unfold pushConnection. halts_by halts_ret. Qed.

Lemma halts_connectPair : forall i j : nat, halts (connectPair i j).
Proof. intros. unfold connectPair. halts_by halts_pushConnection. Qed.

Lemma halts_addApproach : forall i c : nat, halts (addApproach i c).
Proof. intros. unfold addApproach. halts_by halts_pushConnection. Qed.

Lemma halts_markIntersection : forall i : nat, halts (markIntersection i).
Proof. intros. unfold markIntersection. halts_by halts_ret. Qed.

Lemma halts_sortConnections : forall i : nat, halts (sortConnections i).
Proof. intros. unfold sortConnections. halts_by halts_ret. Qed.

Lemma halts_optimizeIntersectionConnections : halts optimizeIntersectionConnections.
Proof. unfold optimizeIntersectionConnections. halts_by halts_sortConnections. Qed.

Lemma halts_findZoneEntryPoints : halts findZoneEntryPoints.
Proof. unfold findZoneEntryPoints. halts_by halts_ret. Qed.

(** The sequel of the loops of the rebuild. *)
Lemma halts_annotations :
  halts (bind identifyEdgePoints
           (fun _ => bind findZoneEntryPoints (fun _ => clearNeedsRebuild))).
Proof.
  unfold identifyEdgePoints, clearNeedsRebuild. halts_by halts_findZoneEntryPoints.
Qed.

Lemma monotone_traceRoadSegment : forall roadPoints queue processedPoints segment,
  monotone (fun n => traceRoadSegment n roadPoints queue processedPoints segment).
Proof.
  intros roadPoints queue processedPoints segment n. revert queue processedPoints segment.
  induction n as [|n IH]; intros queue processedPoints segment m g Hnm He.
  - destruct He.
  - destruct m as [|m]; [lia|]. simpl in *.
    destruct queue as [|currentIndex queue]; [reflexivity|].
    destruct (mem currentIndex processedPoints).
    + apply IH; [lia | exact He].
    + unfold bind in *. destruct (nthOrThrow roadPoints currentIndex g) as [x g1|e g1|g1];
        [|reflexivity|destruct He].
      apply IH; [lia | exact He].
Qed.

Lemma monotone_interpolate : forall point nextPoint i steps step,
  monotone (fun n => interpolate n point nextPoint i steps step).
Proof.
  intros point nextPoint i steps step n. revert step.
  induction n as [|n IH]; intros step m g Hnm He.
  - destruct He.
  - destruct m as [|m]; [lia|]. simpl in *.
    destruct (of_nat step <? steps); [|reflexivity].
    unfold bind in *. unfold get in *.
    destruct (isOnRoad g _ _).
    + destruct (addWaypoint _ _ _ g) as [x g1|e g1|g1]; simpl in *;
        [|reflexivity|destruct He].
      apply IH; [lia | exact He].
    + simpl in *. apply IH; [lia | exact He].
Qed.

Lemma monotone_waypointsAt : forall sortedSegment i,
  monotone (fun n => waypointsAt n sortedSegment i).
Proof. intros. unfold waypointsAt. mono_by monotone_interpolate. Qed.

Lemma monotone_createWaypointsForSegment : forall segment,
  monotone (fun n => createWaypointsForSegment n segment).
Proof. intros. unfold createWaypointsForSegment. mono_by monotone_waypointsAt. Qed.

Lemma monotone_roadSegmentsOf : forall roadPoints indices processedPoints roadSegments,
  monotone (fun n => roadSegmentsOf n roadPoints indices processedPoints roadSegments).
Proof.
  intros roadPoints indices. induction indices as [|i rest IH]; intros; simpl;
    mono_by IH; mono_by monotone_traceRoadSegment.
Qed.

Lemma monotone_extractRoadCenterline : forall zone,
  monotone (fun n => extractRoadCenterline n zone).
Proof.
  intros. unfold extractRoadCenterline.
  mono_by monotone_roadSegmentsOf; mono_by monotone_createWaypointsForSegment.
Qed.

Lemma monotone_enhanceLoop : forall intersectionIndex k,
  monotone (fun n => enhanceLoop n intersectionIndex k).
Proof.
  intros intersectionIndex k n. revert k.
  induction n as [|n IH]; intros k m g Hnm He.
  - destruct He.
  - destruct m as [|m]; [lia|]. simpl in *.
    unfold bind in *. unfold get in *.
    destruct (nthOrThrow _ intersectionIndex g) as [conns g1|e g1|g1];
      [|reflexivity|destruct He].
    destruct (nth_error conns k); [|reflexivity].
    destruct (addApproach _ _ g1) as [x g2|e g2|g2]; [|reflexivity|destruct He].
    apply IH; [lia | exact He].
Qed.

Lemma monotone_enhanceIntersection : forall intersectionIndex,
  monotone (fun n => enhanceIntersection n intersectionIndex).
Proof. intros. unfold enhanceIntersection. mono_by monotone_enhanceLoop. Qed.

Lemma monotone_identifyIntersections : forall i,
  monotone (fun n => identifyIntersections n i).
Proof.
  intros i n. revert i.
  induction n as [|n IH]; intros i m g Hnm He.
  - destruct He.
  - destruct m as [|m]; [lia|]. cbn [identifyIntersections] in *.
    unfold bind, get in *.
    destruct (Nat.ltb i _); [|reflexivity].
    destruct (nthOrThrow _ i g) as [conns g1|e g1|g1]; [|reflexivity|destruct He].
    destruct (Nat.leb 3 _).
    + destruct (markIntersection i g1) as [x g2|e g2|g2]; [|reflexivity|destruct He].
      pose proof (monotone_enhanceIntersection i (S n) (S m) g2) as Hi.
      destruct (enhanceIntersection (S n) i g2) as [y g3|e g3|g3] eqn:E.
      * rewrite Hi by (first [lia | exact I]). apply IH; [lia | exact He].
      * rewrite Hi by (first [lia | exact I]). reflexivity.
      * destruct He.
    + simpl in *. apply IH; [lia | exact He].
Qed.

Lemma monotone_connectNearbyWaypoints : monotone (fun n => connectNearbyWaypoints n).
Proof.
  unfold connectNearbyWaypoints. mono_by monotone_identifyIntersections.
Qed.

Lemma monotone_rebuildSteps : monotone (fun n => rebuildSteps n).
Proof.
  unfold rebuildSteps.
  mono_by monotone_extractRoadCenterline; mono_by monotone_connectNearbyWaypoints.
Qed.

Lemma monotone_buildRoadNetwork : monotone (fun n => buildRoadNetwork n).
Proof.
  unfold buildRoadNetwork, buildRoadNetworkWith.
  apply monotone_tryCatch, monotone_rebuildSteps.
Qed.

End FuelOfTheRebuild.

Section TraceEnds.

Context {A : Arith}.
Local Open Scope num_scope.

Lemma filter_length_mono : forall (X : Type) (f f' : X -> bool) (l : list X),
  (forall x, f' x = true -> f x = true) ->
  List.length (filter f' l) <= List.length (filter f l).
Proof.
  intros X f f' l H. induction l as [|a l IH]; simpl; [lia|].
  destruct (f' a) eqn:E'.
  - rewrite (H a E'). simpl. lia.
  - destruct (f a); simpl; lia.
Qed.

Lemma filter_length_lt : forall (X : Type) (f f' : X -> bool) (l : list X) (c : X),
  (forall x, f' x = true -> f x = true) ->
  In c l -> f c = true -> f' c = false ->
  List.length (filter f' l) < List.length (filter f l).
Proof.
  intros X f f' l c H. induction l as [|a l IH]; intros Hin Hc Hc'; [destruct Hin|].
  simpl. destruct Hin as [->|Hin].
  - rewrite Hc, Hc'. simpl. pose proof (filter_length_mono X f f' l H). lia.
  - specialize (IH Hin Hc Hc'). destruct (f' a) eqn:E'.
    + rewrite (H a E'). simpl. lia.
    + destruct (f a); simpl; lia.
Qed.

(** The circles of the zone that no segment holds yet. *)
Definition unprocessed (n : nat) (processedPoints : list nat) : nat :=
  List.length (filter (fun i => negb (mem i processedPoints)) (seq 0 n)).

(** traceRoadSegment ends: a turn of its loop either drops an index that
    is processed already, or processes a new circle and queues at most
    [roadPoints.length] indices. *)
Lemma traceRoadSegment_ends :
  forall (fuel : nat) (roadPoints : list Circle) (queue processedPoints : list nat)
         (segment : list Circle) (g : Game),
    List.length queue
      + S (List.length roadPoints) * unprocessed (List.length roadPoints) processedPoints
      < fuel ->
    ended (traceRoadSegment fuel roadPoints queue processedPoints segment g).
Proof.
  induction fuel as [|fuel IH]; intros roadPoints queue processedPoints segment g H; [lia|].
  cbn [traceRoadSegment].
  destruct queue as [|currentIndex queue]; [exact I|].
  destruct (mem currentIndex processedPoints) eqn:Em.
  - apply IH. simpl in H. lia.
  - unfold bind, nthOrThrow.
    destruct (nth_error roadPoints currentIndex) as [current|] eqn:En; [|exact I].
    unfold ret. apply IH.
    set (n := List.length roadPoints) in *.
    assert (Hc : currentIndex < n).
    { apply nth_error_Some. rewrite En. discriminate. }
    assert (Hlt : unprocessed n (currentIndex :: processedPoints)
                  < unprocessed n processedPoints).
    { unfold unprocessed. apply (filter_length_lt _ _ _ _ currentIndex).
      - intros x Hx. unfold mem in *. simpl in Hx.
        destruct (Nat.eqb x currentIndex); [discriminate Hx | exact Hx].
      - apply in_seq. lia.
      - rewrite Em. reflexivity.
      - unfold mem. simpl. rewrite Nat.eqb_refl. reflexivity. }
    rewrite length_app.
    match goal with
    | |- context [List.length (filter ?f (seq 0 n))] =>
        assert (Hnear : List.length (filter f (seq 0 n)) <= n)
    end.
    { rewrite <- (length_seq n 0) at 2. apply List.filter_length_le. }
    simpl in H. nia.
Qed.

Lemma traceRoadSegment_settles :
  forall (roadPoints : list Circle) (queue processedPoints : list nat)
         (segment : list Circle) (g : Game),
    settles (fun n => traceRoadSegment n roadPoints queue processedPoints segment) g.
Proof.
  intros roadPoints queue processedPoints segment g.
  exists (S (List.length queue
             + S (List.length roadPoints)
               * unprocessed (List.length roadPoints) processedPoints)).
  intros n Hn. apply traceRoadSegment_ends. lia.
Qed.

Lemma roadSegmentsOf_settles :
  forall (roadPoints : list Circle) (indices processedPoints : list nat)
         (roadSegments : list (list Circle)) (g : Game),
    settles (fun n => roadSegmentsOf n roadPoints indices processedPoints roadSegments) g.
Proof.
  intros roadPoints indices.
  induction indices as [|i rest IH]; intros processedPoints roadSegments g; simpl.
  - apply settles_halts, halts_ret.
  - destruct (mem i processedPoints); [apply IH|].
    apply (settles_bind _ _
             (fun n => traceRoadSegment n roadPoints [i] processedPoints [])
             (fun n r =>
                let (segment, processedPoints) := r in
                match segment with
                | [] => roadSegmentsOf n roadPoints rest processedPoints roadSegments
                | _ :: _ =>
                    roadSegmentsOf n roadPoints rest processedPoints
                      (roadSegments ++ [segment])
                end)).
    + apply monotone_traceRoadSegment.
    + apply traceRoadSegment_settles.
    + intros [segment processed] g1 n _. destruct segment; apply IH.
Qed.

End TraceEnds.

(** One structural step of a proof that a program ends under every bound
    that is large enough. *)
Ltac settles_step :=
  match goal with
  | |- settles (fun _ => ?m) _ => apply settles_halts
  | |- settles (fun n => bind _ _) _ => apply settles_bind; [| |intros]
  | |- settles (fun n => if ?b then _ else _) _ => destruct b
  | |- settles (fun n => match ?x with _ => _ end) _ => destruct x
  end.

Section RealCenterline.

Local Open Scope R_scope.

(** The interpolation loop ends in real arithmetic: its counter passes
    [steps] after finitely many turns. *)
Lemma interpolate_ends :
  forall (point nextPoint : @Circle RArith) (i : nat) (steps : R) (fuel step : nat)
         (g : @Game RArith),
    (Z.to_nat (up steps - Z.of_nat step) < fuel)%nat ->
    ended (@interpolate RArith fuel point nextPoint i steps step g).
Proof.
  intros point nextPoint i steps. induction fuel as [|fuel IH]; intros step g H; [lia|].
  cbn [interpolate].
  destruct (@nltb RArith (@of_nat RArith step) steps) eqn:E; [|exact I].
  change (RealNum.ltb (IZR (Z.of_nat step)) steps = true) in E. apply ltb_true in E.
  assert (Hs : (Z.to_nat (up steps - Z.of_nat (S step)) < fuel)%nat).
  { destruct (archimed steps) as [Hu _].
    assert (Hlt : IZR (Z.of_nat step) < IZR (up steps)) by lra.
    apply lt_IZR in Hlt. lia. }
  unfold bind, get.
  destruct (isOnRoad g _ _).
  - match goal with
    | |- context [addWaypoint ?x ?y ?md g] =>
        pose proof (@halts_addWaypoint RArith x y md g) as Hh;
        destruct (addWaypoint x y md g) as [w g1|e g1|g1]
    end.
    + apply IH. exact Hs.
    + exact I.
    + destruct Hh.
  - apply IH. exact Hs.
Qed.

Lemma interpolate_settles :
  forall (point nextPoint : @Circle RArith) (i : nat) (steps : R) (step : nat)
         (g : @Game RArith),
    settles (fun n => @interpolate RArith n point nextPoint i steps step) g.
Proof.
  intros point nextPoint i steps step g.
  exists (S (Z.to_nat (up steps - Z.of_nat step))).
  intros n Hn. apply interpolate_ends. lia.
Qed.

Lemma waypointsAt_settles :
  forall (sortedSegment : list (@Circle RArith)) (i : nat) (g : @Game RArith),
    settles (fun n => @waypointsAt RArith n sortedSegment i) g.
Proof.
  intros sortedSegment i g. unfold waypointsAt.
  repeat (first [ apply interpolate_settles
                | settles_step
                | apply halts_nthOrThrow | apply halts_addWaypoint | apply halts_ret
                | apply monotone_const ]).
Qed.

Lemma createWaypointsForSegment_settles :
  forall (segment : list (@Circle RArith)) (g : @Game RArith),
    settles (fun n => @createWaypointsForSegment RArith n segment) g.
Proof.
  intros segment g. unfold createWaypointsForSegment.
  destruct segment as [|c segment]; [apply settles_halts, halts_ret|].
  apply (settles_forEach _ _ (fun n => @waypointsAt RArith n _) (fun _ => True)).
  - intros b. apply monotone_waypointsAt.
  - intros b n g0 _. exact I.
  - intros b g0 _. apply waypointsAt_settles.
  - exact I.
Qed.

Lemma extractRoadCenterline_settles :
  forall (zone : @Zone RArith) (g : @Game RArith),
    settles (fun n => @extractRoadCenterline RArith n zone) g.
Proof.
  intros zone g. unfold extractRoadCenterline.
  destruct (zpoints zone) as [|c l]; [apply settles_halts, halts_ret|].
  apply settles_bind.
  - apply monotone_roadSegmentsOf.
  - apply roadSegmentsOf_settles.
  - intros roadSegments g1 n _.
    apply (settles_forEach _ _ (fun n => @createWaypointsForSegment RArith n)
             (fun _ => True)).
    + intros b. apply monotone_createWaypointsForSegment.
    + intros b n0 g0 _. exact I.
    + intros b g0 _. apply createWaypointsForSegment_settles.
    + exact I.
Qed.

End RealCenterline.

Section RealIntersections.

Local Open Scope R_scope.

(** The square of side 10 of the plane that holds a waypoint. *)
Definition cell (w : @Waypoint RArith) : Z * Z :=
  (Int_part (wx w / 10), Int_part (wy w / 10)).

Definition approachCells (pts : list (@Waypoint RArith)) : list (Z * Z) :=
  map cell (filter isApproach pts).

(** A bound on the coordinates of the points of the road circles. *)
Fixpoint extent (cs : list (@Circle RArith)) : R :=
  match cs with
  | [] => 0
  | c :: t => Rabs (cx c) + Rabs (cy c) + Rabs (radius c) + extent t
  end.

Definition span (roads : list (@Zone RArith)) : Z :=
  (up (extent (flat_map zpoints roads)) + 2)%Z.

Definition range (m : Z) : list Z :=
  map (fun k => (Z.of_nat k - m)%Z) (seq 0 (Z.to_nat (2 * m + 1))).

(** The squares that meet the road circles. *)
Definition cells (m : Z) : list (Z * Z) := list_prod (range m) (range m).

Definition capacity (roads : list (@Zone RArith)) : nat :=
  List.length (cells (span roads)).

Lemma in_range : forall m a : Z, (- m <= a <= m)%Z -> In a (range m).
Proof.
  intros m a H. unfold range. apply in_map_iff. exists (Z.to_nat (a + m)). split.
  - lia.
  - apply in_seq. lia.
Qed.

Lemma in_cells : forall m a b : Z,
  (- m <= a <= m)%Z -> (- m <= b <= m)%Z -> In (a, b) (cells m).
Proof. intros m a b Ha Hb. apply in_prod; apply in_range; assumption. Qed.

Lemma extent_nonneg : forall cs : list (@Circle RArith), 0 <= extent cs.
Proof.
  induction cs as [|c t IH]; simpl; [lra|].
  pose proof (Rabs_pos (cx c)). pose proof (Rabs_pos (cy c)).
  pose proof (Rabs_pos (radius c)). lra.
Qed.

Lemma extent_bound : forall (cs : list (@Circle RArith)) (c : @Circle RArith),
  In c cs -> Rabs (cx c) + Rabs (cy c) + Rabs (radius c) <= extent cs.
Proof.
  induction cs as [|c0 t IH]; intros c Hin; [destruct Hin|]. simpl.
  destruct Hin as [->|Hin].
  - pose proof (extent_nonneg t). lra.
  - specialize (IH c Hin).
    pose proof (Rabs_pos (cx c0)). pose proof (Rabs_pos (cy c0)).
    pose proof (Rabs_pos (radius c0)). lra.
Qed.

Lemma Rabs_le_bounds : forall x a : R, Rabs x <= a -> - a <= x <= a.
Proof. intros x a H. unfold Rabs in H. destruct (Rcase_abs x); lra. Qed.

Lemma hypot_ge_abs : forall x y : R, Rabs x <= RealNum.hypot x y.
Proof.
  intros x y. pose proof (hypot_nonneg x y) as H0. pose proof (hypot_sqr x y) as H2.
  apply Rabs_le. split; nra.
Qed.

Lemma hypot_swap : forall x y : R, RealNum.hypot x y = RealNum.hypot y x.
Proof. intros x y. unfold RealNum.hypot. f_equal. ring. Qed.

Lemma round_near : forall x : R, Rabs (RealNum.round x - x) <= / 2.
Proof.
  intros x. unfold RealNum.round, RealNum.floor.
  destruct (base_Int_part (x + / 2)) as [H1 H2]. apply Rabs_le. split; lra.
Qed.

Lemma cell_in_span : forall (v e : R),
  0 <= e -> Rabs v <= e + / 2 ->
  (- (up e + 2) <= Int_part (v / 10) <= up e + 2)%Z.
Proof.
  intros v e He Hv. destruct (base_Int_part (v / 10)) as [H1 H2].
  destruct (archimed e) as [Hu _].
  apply Rabs_le_bounds in Hv. destruct Hv as [Hv1 Hv2].
  split.
  - assert (H : IZR (- (up e + 2) - 1) < IZR (Int_part (v / 10))).
    { rewrite minus_IZR, opp_IZR, plus_IZR. lra. }
    apply lt_IZR in H. lia.
  - assert (H : IZR (Int_part (v / 10)) < IZR (up e + 2)).
    { rewrite plus_IZR. lra. }
    apply lt_IZR in H. lia.
Qed.

(** Two points whose roundings fall into the same square are less than 15
    apart. *)
Lemma same_cell_close : forall (approachX approachY x y : R),
  Int_part (RealNum.round approachX / 10) = Int_part (x / 10) ->
  Int_part (RealNum.round approachY / 10) = Int_part (y / 10) ->
  RealNum.hypot (approachX - x) (approachY - y) < 15.
Proof.
  intros aX aY x y Hx Hy.
  pose proof (round_near aX) as Rx. pose proof (round_near aY) as Ry.
  apply Rabs_le_bounds in Rx. apply Rabs_le_bounds in Ry.
  destruct (base_Int_part (RealNum.round aX / 10)) as [A1 A2].
  destruct (base_Int_part (x / 10)) as [B1 B2].
  destruct (base_Int_part (RealNum.round aY / 10)) as [C1 C2].
  destruct (base_Int_part (y / 10)) as [D1 D2].
  rewrite Hx in *. rewrite Hy in *.
  pose proof (hypot_nonneg (aX - x) (aY - y)) as H0.
  pose proof (hypot_sqr (aX - x) (aY - y)) as H2.
  assert (Hdx : -(21 / 2) < aX - x < 21 / 2) by lra.
  assert (Hdy : -(21 / 2) < aY - y < 21 / 2) by lra.
  assert (Hxx : (aX - x) * (aX - x) < 21 / 2 * (21 / 2)) by nra.
  assert (Hyy : (aY - y) * (aY - y) < 21 / 2 * (21 / 2)) by nra.
  destruct (Rlt_dec (RealNum.hypot (aX - x) (aY - y)) 15) as [Hlt|Hge]; [exact Hlt|].
  exfalso. nra.
Qed.

Lemma approachCells_snoc : forall (pts : list (@Waypoint RArith)) (w : @Waypoint RArith),
  approachCells (pts ++ [w])
    = if isApproach w then approachCells pts ++ [cell w] else approachCells pts.
Proof.
  intros pts w. unfold approachCells. rewrite filter_app. simpl.
  destruct (isApproach w); [rewrite map_app; reflexivity | rewrite app_nil_r; reflexivity].
Qed.

Lemma approachCells_marked :
  forall (pts : list (@Waypoint RArith)) (i : nat) (point : @Waypoint RArith),
    nth_error pts i = Some point ->
    approachCells (list_set i (set_isIntersection true point) pts) = approachCells pts.
Proof.
  unfold approachCells.
  induction pts as [|p pts IH]; intros i point H; [destruct i; discriminate H|].
  destruct i as [|i]; simpl in *.
  - inversion H; subst p. destruct (isApproach point); reflexivity.
  - destruct (isApproach p); simpl; rewrite (IH i point H); reflexivity.
Qed.

Lemma NoDup_snoc : forall (X : Type) (l : list X) (x : X),
  NoDup l -> ~ In x l -> NoDup (l ++ [x]).
Proof.
  intros X l x Hl Hx.
  apply (Permutation_NoDup (l := x :: l)).
  - apply Permutation_cons_append.
  - constructor; assumption.
Qed.

Lemma list_set_elements : forall (X : Type) (l : list X) (i : nat) (v x : X),
  In x (list_set i v l) -> x = v \/ In x l.
Proof.
  induction l as [|h t IH]; intros i v x H; [destruct i; destruct H|].
  destruct i as [|i]; simpl in H.
  - destruct H as [<-|H]; [left; reflexivity | right; right; exact H].
  - destruct H as [<-|H]; [right; left; reflexivity|].
    destruct (IH i v x H) as [E|E]; [left; exact E | right; right; exact E].
Qed.

(** What bounds the loops of identifyIntersections: the approach waypoints
    lie in distinct squares of the road circles, every other waypoint was
    there before the first of them, and an adjacency list grows by at most
    two entries with each of them. [slack] is the number of entries that
    may still be pushed for the last approach waypoint. *)
Definition packed (roads : list (@Zone RArith)) (P0 L0 slack : nat)
    (g : @Game RArith) : Prop :=
  roadZones g = roads /\
  NoDup (approachCells (points (roadNetwork g))) /\
  incl (approachCells (points (roadNetwork g))) (cells (span roads)) /\
  (List.length (points (roadNetwork g))
   <= P0 + List.length (approachCells (points (roadNetwork g))))%nat /\
  forall ci : list nat, In ci (connections (roadNetwork g)) ->
    (List.length ci + slack
     <= 2 + L0 + 2 * List.length (approachCells (points (roadNetwork g))))%nat.

Lemma packed_weaken : forall roads P0 L0 slack slack' g,
  (slack' <= slack)%nat -> packed roads P0 L0 slack g -> packed roads P0 L0 slack' g.
Proof.
  intros roads P0 L0 slack slack' g Hs (H1 & H2 & H3 & H4 & H5).
  repeat split; try assumption. intros ci Hci. specialize (H5 ci Hci). lia.
Qed.

Lemma packed_approaches : forall roads P0 L0 slack g,
  packed roads P0 L0 slack g ->
  (List.length (approachCells (points (roadNetwork g))) <= capacity roads)%nat.
Proof.
  intros roads P0 L0 slack g (H1 & H2 & H3 & H4 & H5).
  unfold capacity. apply NoDup_incl_length; assumption.
Qed.

Lemma packed_pushConnection : forall roads P0 L0 slack i j g,
  packed roads P0 L0 (S slack) g ->
  packed roads P0 L0 slack (gameOf (@pushConnection RArith i j g)).
Proof.
  intros roads P0 L0 slack i j g H.
  unfold pushConnection, bind, get, nthOrThrow.
  destruct (nth_error (connections (roadNetwork g)) i) as [ci|] eqn:E.
  - destruct H as (H1 & H2 & H3 & H4 & H5). unfold ret, modify, packed.
    cbn [gameOf roadZones points connections roadNetwork set_roadNetwork set_connections].
    repeat split; try assumption.
    intros l Hl. apply list_set_elements in Hl. destruct Hl as [->|Hl].
    + rewrite length_app. cbn [List.length].
      specialize (H5 ci (nth_error_In _ _ E)). lia.
    + specialize (H5 l Hl). lia.
  - simpl. apply (packed_weaken roads P0 L0 (S slack)); [lia | exact H].
Qed.

Lemma on_road_in_span : forall (g : @Game RArith) (x y : R),
  @isOnRoad RArith g x y = true ->
  In (Int_part (RealNum.round x / 10), Int_part (RealNum.round y / 10))
     (cells (span (roadZones g))).
Proof.
  intros g x y H. unfold isOnRoad in H.
  apply existsb_exists in H. destruct H as [zone [Hz H]].
  apply existsb_exists in H. destruct H as [c [Hc H]].
  change (RealNum.leb (RealNum.hypot (x - cx c) (y - cy c)) (radius c) = true) in H.
  unfold RealNum.leb in H. destruct (Rle_dec _ _) as [Hle|]; [|discriminate H].
  assert (Hin : In c (flat_map zpoints (roadZones g))).
  { apply in_flat_map. exists zone. split; assumption. }
  pose proof (extent_bound _ c Hin) as Hb.
  pose proof (extent_nonneg (flat_map zpoints (roadZones g))) as He.
  pose proof (hypot_ge_abs (x - cx c) (y - cy c)) as Hx.
  pose proof (hypot_ge_abs (y - cy c) (x - cx c)) as Hy.
  rewrite (hypot_swap (y - cy c)) in Hy.
  pose proof (Rabs_pos (cx c)). pose proof (Rabs_pos (cy c)).
  pose proof (Rle_abs (radius c)) as Hr.
  pose proof (round_near x) as Rx. pose proof (round_near y) as Ry.
  assert (Ax : Rabs (RealNum.round x) <= extent (flat_map zpoints (roadZones g)) + / 2).
  { replace (RealNum.round x) with ((RealNum.round x - x) + (x - cx c) + cx c) by ring.
    eapply Rle_trans; [apply Rabs_triang|].
    eapply Rle_trans; [apply Rplus_le_compat_r, Rabs_triang|]. lra. }
  assert (Ay : Rabs (RealNum.round y) <= extent (flat_map zpoints (roadZones g)) + / 2).
  { replace (RealNum.round y) with ((RealNum.round y - y) + (y - cy c) + cy c) by ring.
    eapply Rle_trans; [apply Rabs_triang|].
    eapply Rle_trans; [apply Rplus_le_compat_r, Rabs_triang|]. lra. }
  apply in_cells; unfold span; apply cell_in_span; assumption.
Qed.

Lemma packed_addApproach : forall roads P0 L0 i c,
  preserves (packed roads P0 L0 0) (@addApproach RArith i c).
Proof.
  intros roads P0 L0 i c g H.
  unfold addApproach. unfold bind at 1, get. unfold bind at 1, nthOrThrow.
  destruct (nth_error (points (roadNetwork g)) i) as [intersection|]; [|exact H].
  unfold ret. unfold bind at 1.
  destruct (nth_error (points (roadNetwork g)) c) as [connectedPoint|]; [|exact H].
  cbv zeta.
  destruct (@nltb RArith _ _); [|exact H].
  destruct (isOnRoad g _ _) eqn:Eon; [|exact H].
  destruct (existsb _ _) eqn:Eclose; [exact H|].
  rewrite bind_modify.
  match goal with
  | |- packed _ _ _ _ (gameOf (bind (pushConnection ?a ?b) ?k ?g1)) =>
      assert (H2 : packed roads P0 L0 2 g1);
      [| unfold bind;
         pose proof (packed_pushConnection roads P0 L0 1 a b g1 H2) as H1;
         destruct (pushConnection a b g1) as [u g2|e g2|g2]; simpl in H1 |- *;
         [ apply packed_pushConnection; exact H1
         | apply (packed_weaken roads P0 L0 1); [lia | exact H1]
         | apply (packed_weaken roads P0 L0 1); [lia | exact H1] ] ]
  end.
  destruct H as (H1 & H2 & H3 & H4 & H5).
  unfold packed.
  cbn [roadZones points connections roadNetwork set_roadNetwork set_connections set_points].
  rewrite approachCells_snoc. cbn [isApproach].
  match goal with
  | |- context [cell (mkWaypoint _ (nround ?aX) (nround ?aY) _ _ _ _ _ _ _)] =>
      set (approachX := aX) in *; set (approachY := aY) in *
  end.
  assert (Hcell : cell (mkWaypoint (List.length (points (roadNetwork g)))
                          (nround approachX) (nround approachY)
                          None None false false false true (Some i))
                  = (Int_part (RealNum.round approachX / 10),
                     Int_part (RealNum.round approachY / 10))) by reflexivity.
  rewrite Hcell.
  split; [exact H1|]. split; [|split; [|split]].
  - apply NoDup_snoc; [exact H2|].
    intros Hin. unfold approachCells in Hin. apply in_map_iff in Hin.
    destruct Hin as [p [Hp Hin]]. apply filter_In in Hin. destruct Hin as [Hin _].
    pose proof (existsb_false_In _ _ _ p Eclose Hin) as Hfar. cbv beta in Hfar.
    change (RealNum.ltb (RealNum.hypot (approachX - wx p) (approachY - wy p)) 15 = false)
      in Hfar.
    apply ltb_false in Hfar.
    unfold cell in Hp. inversion Hp as [[Hx Hy]].
    pose proof (same_cell_close approachX approachY (wx p) (wy p)
                  (eq_sym Hx) (eq_sym Hy)).
    lra.
  - apply incl_app; [exact H3|].
    intros x [<-|[]]. rewrite <- H1. apply on_road_in_span. exact Eon.
  - rewrite !length_app. simpl. lia.
  - intros ci Hci. rewrite length_app. simpl. apply in_app_or in Hci.
    destruct Hci as [Hci|[<-|[]]].
    + specialize (H5 ci Hci). lia.
    + simpl. lia.
Qed.

Lemma packed_markIntersection : forall roads P0 L0 i,
  preserves (packed roads P0 L0 0) (@markIntersection RArith i).
Proof.
  intros roads P0 L0 i g H.
  unfold markIntersection, bind, get, nthOrThrow.
  destruct (nth_error (points (roadNetwork g)) i) as [point|] eqn:E; [|exact H].
  destruct H as (H1 & H2 & H3 & H4 & H5).
  unfold ret, modify, packed.
  cbn [gameOf roadZones points connections roadNetwork set_roadNetwork set_points].
  rewrite (approachCells_marked _ _ _ E), length_list_set.
  repeat split; assumption.
Qed.

Lemma enhanceLoop_ends : forall roads P0 L0 fuel intersectionIndex k g,
  packed roads P0 L0 0 g ->
  (k <= 2 + L0 + 2 * capacity roads)%nat ->
  (2 + L0 + 2 * capacity roads < fuel + k)%nat ->
  ended (@enhanceLoop RArith fuel intersectionIndex k g).
Proof.
  intros roads P0 L0.
  induction fuel as [|fuel IH]; intros intersectionIndex k g H Hk Hf; [lia|].
  cbn [enhanceLoop]. unfold bind at 1, get. unfold bind at 1, nthOrThrow.
  destruct (nth_error (connections (roadNetwork g)) intersectionIndex) as [conns|] eqn:Ec;
    [|exact I].
  unfold ret.
  destruct (nth_error conns k) as [connectionId|] eqn:Ek; [|exact I].
  assert (Hlen : (k < 2 + L0 + 2 * capacity roads)%nat).
  { assert (k < List.length conns)%nat by (apply nth_error_Some; rewrite Ek; discriminate).
    pose proof (packed_approaches _ _ _ _ _ H) as Ha.
    destruct H as (H1 & H2 & H3 & H4 & H5).
    specialize (H5 conns (nth_error_In _ _ Ec)). lia. }
  unfold bind.
  pose proof (packed_addApproach roads P0 L0 intersectionIndex connectionId g H) as Hp.
  pose proof (@halts_addApproach RArith intersectionIndex connectionId g) as Hh.
  destruct (addApproach intersectionIndex connectionId g) as [u g1|e g1|g1];
    simpl in Hp, Hh.
  - apply IH; [exact Hp | lia | lia].
  - exact I.
  - destruct Hh.
Qed.

Lemma enhanceIntersection_ends : forall roads P0 L0 fuel intersectionIndex g,
  packed roads P0 L0 0 g ->
  (2 + L0 + 2 * capacity roads < fuel)%nat ->
  ended (@enhanceIntersection RArith fuel intersectionIndex g).
Proof.
  intros roads P0 L0 fuel intersectionIndex g H Hf.
  unfold enhanceIntersection, bind, get, nthOrThrow.
  destruct (nth_error _ intersectionIndex); [|exact I].
  unfold ret. destruct (Nat.leb 4 _); [|exact I].
  apply (enhanceLoop_ends roads P0 L0); [exact H | lia | lia].
Qed.

Lemma identifyIntersections_ends : forall roads P0 L0 fuel i g,
  packed roads P0 L0 0 g ->
  (2 + L0 + 2 * capacity roads + (P0 + capacity roads + 1 - i) < fuel)%nat ->
  ended (@identifyIntersections RArith fuel i g).
Proof.
  intros roads P0 L0.
  induction fuel as [|fuel IH]; intros i g H Hf; [lia|].
  cbn [identifyIntersections]. unfold bind at 1, get.
  destruct (Nat.ltb i _) eqn:Ei; [|exact I].
  apply Nat.ltb_lt in Ei.
  assert (Hi : (i < P0 + capacity roads)%nat).
  { pose proof (packed_approaches _ _ _ _ _ H) as Ha.
    destruct H as (H1 & H2 & H3 & H4 & H5). lia. }
  unfold bind at 1, nthOrThrow.
  destruct (nth_error _ i) as [conns|]; [|exact I].
  unfold ret. unfold bind at 1.
  destruct (Nat.leb 3 _).
  - unfold bind.
    pose proof (packed_markIntersection roads P0 L0 i g H) as Hp.
    pose proof (@halts_markIntersection RArith i g) as Hh.
    destruct (markIntersection i g) as [u g1|e g1|g1]; simpl in Hp, Hh;
      [|exact I|destruct Hh].
    pose proof (@I_enhanceIntersection RArith (packed roads P0 L0 0)
                  (packed_addApproach roads P0 L0) (S fuel) i g1 Hp) as Hp2.
    pose proof (enhanceIntersection_ends roads P0 L0 (S fuel) i g1 Hp) as He.
    destruct (enhanceIntersection (S fuel) i g1) as [v g2|e g2|g2]; simpl in Hp2, He.
    + apply IH; [exact Hp2 | lia].
    + exact I.
    + apply He. lia.
  - unfold ret. apply IH; [exact H | lia].
Qed.

(** identifyIntersections ends wherever no approach waypoint exists yet. *)
Lemma identifyIntersections_settles : forall g : @Game RArith,
  approachCells (points (roadNetwork g)) = [] ->
  settles (fun n => @identifyIntersections RArith n 0) g.
Proof.
  intros g H.
  set (roads := roadZones g).
  set (P0 := List.length (points (roadNetwork g))).
  set (L0 := list_max (map (@List.length nat) (connections (roadNetwork g)))).
  assert (Hp : packed roads P0 L0 0 g).
  { unfold packed. rewrite H. repeat split.
    - constructor.
    - intros x [].
    - simpl. unfold P0. lia.
    - intros ci Hci. simpl.
      assert (Hall : Forall (fun k => (k <= L0)%nat)
                       (map (@List.length nat) (connections (roadNetwork g)))).
      { apply list_max_le. apply Nat.le_refl. }
      rewrite Forall_forall in Hall.
      specialize (Hall (List.length ci) (in_map _ _ _ Hci)). lia. }
  exists (S (2 + L0 + 2 * capacity roads + (P0 + capacity roads + 1))).
  intros n Hn. apply (identifyIntersections_ends roads P0 L0); [exact Hp | lia].
Qed.

End RealIntersections.

Section RealRebuildEnds.

Local Open Scope R_scope.

(** No approach waypoint exists yet. *)
Definition noApproach (g : @Game RArith) : Prop :=
  approachCells (points (roadNetwork g)) = [].

Lemma noApproach_addWaypoint : forall (x y : R) (metadata : @Metadata RArith),
  preserves noApproach (@addWaypoint RArith x y metadata).
Proof.
  intros x y metadata g H. unfold addWaypoint.
  destruct (find _ _); [exact H|].
  unfold noApproach.
  cbn [gameOf points roadNetwork set_roadNetwork set_connections set_points].
  rewrite approachCells_snoc. exact H.
Qed.

Lemma noApproach_connectPair : forall i j : nat,
  preserves noApproach (@connectPair RArith i j).
Proof.
  intros i j g H. unfold noApproach.
  pose proof (@samePoints_connectPair RArith (points (roadNetwork g)) i j g eq_refl) as E.
  unfold samePoints in E. rewrite E. exact H.
Qed.

Lemma connectNearbyWaypoints_settles : forall g : @Game RArith,
  noApproach g -> settles (fun n => @connectNearbyWaypoints RArith n) g.
Proof.
  intros g H. unfold connectNearbyWaypoints.
  apply settles_bind; [apply monotone_const | apply settles_halts, halts_get |].
  intros g0 g1 n E. unfold get in E. inversion E; subst g0 g1; clear E. cbv zeta.
  apply settles_bind.
  - apply monotone_const.
  - apply settles_halts. halts_by (@halts_connectPair RArith).
  - intros u g2 _ E.
    assert (H2 : noApproach g2).
    { match type of E with
      | ?m g = _ => assert (Hp : preserves noApproach m) by (pres_by noApproach_connectPair);
                    specialize (Hp g H); rewrite E in Hp; exact Hp
      end. }
    apply settles_bind.
    + apply monotone_identifyIntersections.
    + apply identifyIntersections_settles. exact H2.
    + intros. apply settles_halts, halts_optimizeIntersectionConnections.
Qed.

(** In real arithmetic the statements of the rebuild end from every game,
    under every bound that is large enough. *)
Lemma rebuildSteps_settles : forall g : @Game RArith,
  settles (fun n => @rebuildSteps RArith n) g.
Proof.
  intros g. unfold rebuildSteps.
  apply settles_bind; [apply monotone_const | apply settles_halts, halts_modify |].
  intros u g1 n E. unfold modify in E. injection E as _ E1.
  assert (H1 : noApproach g1) by (rewrite <- E1; reflexivity). clear E1.
  apply settles_bind; [apply monotone_const | apply settles_halts, halts_get |].
  intros g0 g2 n0 E. unfold get in E. inversion E; subst g0 g2; clear E.
  apply settles_bind.
  - apply monotone_forEach. intros zone. apply monotone_extractRoadCenterline.
  - apply (settles_forEach _ _ (fun n => @extractRoadCenterline RArith n) (fun _ => True)).
    + intros zone. apply monotone_extractRoadCenterline.
    + intros zone n1 g0 _. exact I.
    + intros zone g0 _. apply extractRoadCenterline_settles.
    + exact I.
  - intros u2 g3 n3 E.
    assert (H3 : noApproach g3).
    { match type of E with
      | ?m g1 = _ =>
          assert (Hp : preserves noApproach m)
            by (apply preserves_forEach; intros zone;
                apply I_extractRoadCenterline; apply noApproach_addWaypoint);
          specialize (Hp g1 H1); rewrite E in Hp; exact Hp
      end. }
    apply settles_bind.
    + apply monotone_connectNearbyWaypoints.
    + apply connectNearbyWaypoints_settles. exact H3.
    + intros. apply settles_halts, halts_annotations.
Qed.

End RealRebuildEnds.

(* ===================================================================== *)
(** ** The statements of the rebuild read no undefined element *)
(* ===================================================================== *)

Section RebuildNeverThrows.

Context {A : Arith}.
Local Open Scope num_scope.

(** The call did not throw. *)
Definition quiet {X : Type} (o : Outcome X) : Prop :=
  match o with
  | Throw _ _ => False
  | _ => True
  end.

Lemma quiet_bind : forall (X Y : Type) (m : M X) (k : X -> M Y) (g : Game),
  quiet (m g) -> (forall x g1, m g = Ret x g1 -> quiet (k x g1)) -> quiet (bind m k g).
Proof.
  intros X Y m k g Hm Hk. unfold bind.
  destruct (m g) as [x g1|e g1|g1]; [apply Hk; reflexivity | exact Hm | exact I].
Qed.

(** What [m] keeps holds where [m] returns. *)
Lemma kept : forall (P : Game -> Prop) (X : Type) (m : M X) (g g1 : Game) (x : X),
  preserves P m -> P g -> m g = Ret x g1 -> P g1.
Proof.
  intros P X m g g1 x Hp Hg E. specialize (Hp g Hg). rewrite E in Hp. exact Hp.
Qed.

Lemma quiet_forEach : forall (P : Game -> Prop) (B : Type) (l : list B) (body : B -> M unit),
  (forall b, preserves P (body b)) ->
  (forall b g, In b l -> P g -> quiet (body b g)) ->
  forall g, P g -> quiet (forEach l body g).
Proof.
  intros P B l body Hp. induction l as [|b t IH]; intros Hq g Hg; [exact I|].
  cbn [forEach]. apply quiet_bind.
  - apply Hq; [left; reflexivity | exact Hg].
  - intros u g1 E. apply IH.
    + intros b' g' Hb'. apply Hq. right. exact Hb'.
    + exact (kept P _ _ _ _ _ (Hp b) Hg E).
Qed.

Lemma traceRoadSegment_quiet :
  forall fuel roadPoints queue processedPoints segment g,
    (forall q, In q queue -> q < List.length roadPoints) ->
    quiet (traceRoadSegment fuel roadPoints queue processedPoints segment g).
Proof.
  induction fuel as [|fuel IH]; intros roadPoints queue processedPoints segment g H;
    [exact I|].
  cbn [traceRoadSegment]. destruct queue as [|c queue]; [exact I|].
  destruct (mem c processedPoints).
  - apply IH. intros q Hq. apply H. right. exact Hq.
  - unfold bind, nthOrThrow.
    destruct (nth_error roadPoints c) as [current|] eqn:E.
    + unfold ret. apply IH. intros q Hq. apply in_app_or in Hq. destruct Hq as [Hq|Hq].
      * apply H. right. exact Hq.
      * apply filter_In in Hq. destruct Hq as [Hq _]. apply in_seq in Hq. lia.
    + apply nth_error_None in E. specialize (H c (or_introl eq_refl)). lia.
Qed.

Lemma roadSegmentsOf_quiet :
  forall fuel roadPoints indices processedPoints roadSegments g,
    (forall i, In i indices -> i < List.length roadPoints) ->
    quiet (roadSegmentsOf fuel roadPoints indices processedPoints roadSegments g).
Proof.
  intros fuel roadPoints indices.
  induction indices as [|i rest IH]; intros processedPoints roadSegments g H; [exact I|].
  cbn [roadSegmentsOf]. destruct (mem i processedPoints).
  - apply IH. intros k Hk. apply H. right. exact Hk.
  - apply quiet_bind.
    + apply traceRoadSegment_quiet. intros q [<-|[]]. apply H. left. reflexivity.
    + intros [segment processed] g1 _.
      destruct segment; apply IH; intros k Hk; apply H; right; exact Hk.
Qed.

Lemma addWaypoint_returns : forall (x y : num) (metadata : Metadata) (g : Game),
  exists w g1, addWaypoint x y metadata g = Ret w g1.
Proof.
  intros x y metadata g. unfold addWaypoint. destruct (find _ _); eauto.
Qed.

Lemma interpolate_quiet : forall fuel point nextPoint i steps step g,
  quiet (interpolate fuel point nextPoint i steps step g).
Proof.
  induction fuel as [|fuel IH]; intros point nextPoint i steps step g; [exact I|].
  cbn [interpolate]. destruct (_ <? _); [|exact I].
  unfold bind, get. destruct (isOnRoad g _ _).
  - match goal with
    | |- context [addWaypoint ?x ?y ?md g] =>
        destruct (addWaypoint_returns x y md g) as [w [g1 E]]; rewrite E
    end.
    unfold ret. apply IH.
  - unfold ret. apply IH.
Qed.

Lemma waypointsAt_quiet : forall fuel sortedSegment i g,
  i < List.length sortedSegment -> quiet (waypointsAt fuel sortedSegment i g).
Proof.
  intros fuel sortedSegment i g H. unfold waypointsAt, bind, nthOrThrow.
  destruct (nth_error sortedSegment i) as [point|] eqn:E;
    [|apply nth_error_None in E; lia].
  unfold ret.
  match goal with
  | |- context [addWaypoint ?x ?y ?md g] =>
      destruct (addWaypoint_returns x y md g) as [w [g1 Ew]]; rewrite Ew
  end.
  destruct (Nat.ltb i (List.length sortedSegment - 1)) eqn:El; [|exact I].
  apply Nat.ltb_lt in El.
  destruct (nth_error sortedSegment (i + 1)) as [nextPoint|] eqn:En;
    [|apply nth_error_None in En; lia].
  cbv zeta. destruct (_ <? _); [apply interpolate_quiet | exact I].
Qed.

Lemma createWaypointsForSegment_quiet : forall fuel segment g,
  quiet (createWaypointsForSegment fuel segment g).
Proof.
  intros fuel segment g. unfold createWaypointsForSegment.
  destruct segment as [|c segment]; [exact I|]. cbv zeta.
  apply (quiet_forEach (fun _ => True)).
  - intros b g0 _. exact I.
  - intros b g0 Hb _. apply waypointsAt_quiet. apply in_seq in Hb. lia.
  - exact I.
Qed.

Lemma extractRoadCenterline_quiet : forall fuel zone g,
  quiet (extractRoadCenterline fuel zone g).
Proof.
  intros fuel zone g. unfold extractRoadCenterline.
  destruct (zpoints zone) as [|c l]; [exact I|].
  apply quiet_bind.
  - apply roadSegmentsOf_quiet. intros i Hi. apply in_seq in Hi. lia.
  - intros roadSegments g1 _. apply (quiet_forEach (fun _ => True)).
    + intros b g0 _. exact I.
    + intros b g0 _ _. apply createWaypointsForSegment_quiet.
    + exact I.
Qed.

Lemma pushConnection_returns : forall (i j : nat) (g : Game),
  i < List.length (connections (roadNetwork g)) ->
  exists ci,
    pushConnection i j g =
    Ret tt (set_roadNetwork
              (set_connections (list_set i (ci ++ [j]) (connections (roadNetwork g)))
                 (roadNetwork g)) g).
Proof.
  intros i j g H.
  destruct (nth_error (connections (roadNetwork g)) i) as [ci|] eqn:E.
  - exists ci. apply pushConnection_run. exact E.
  - apply nth_error_None in E. lia.
Qed.

Lemma connectPair_quiet : forall (i j : nat) (g : Game),
  graphShape g ->
  i < List.length (points (roadNetwork g)) -> j < List.length (points (roadNetwork g)) ->
  quiet (connectPair i j g).
Proof.
  intros i j g [Hlen Hsym] Hi Hj.
  unfold connectPair, bind, get, nthOrThrow, ret.
  destruct (nth_error (points (roadNetwork g)) i) as [pa|] eqn:Ea;
    [|apply nth_error_None in Ea; lia].
  destruct (nth_error (points (roadNetwork g)) j) as [pb|] eqn:Eb;
    [|apply nth_error_None in Eb; lia].
  destruct (_ <=? _); [|exact I].
  destruct (hasRoadPathBetween g pa pb); [|exact I].
  destruct (nth_error (connections (roadNetwork g)) i) as [ci|] eqn:Eci;
    [|apply nth_error_None in Eci; lia].
  destruct (mem j ci); [exact I|].
  rewrite (pushConnection_run i j g ci Eci).
  match goal with
  | |- context [pushConnection j i ?g1] =>
      destruct (pushConnection_returns j i g1) as [cj E]
  end.
  - cbn [connections roadNetwork set_roadNetwork set_connections].
    rewrite length_list_set. lia.
  - rewrite E. exact I.
Qed.

Lemma markIntersection_quiet : forall (i : nat) (g : Game),
  i < List.length (points (roadNetwork g)) -> quiet (markIntersection i g).
Proof.
  intros i g H. unfold markIntersection, bind, get, nthOrThrow.
  destruct (nth_error (points (roadNetwork g)) i) eqn:E; [exact I|].
  apply nth_error_None in E. lia.
Qed.

Lemma addApproach_quiet : forall (i c : nat) (g : Game),
  graphShape g ->
  i < List.length (points (roadNetwork g)) -> c < List.length (points (roadNetwork g)) ->
  quiet (addApproach i c g).
Proof.
  intros i c g [Hlen Hsym] Hi Hc.
  unfold addApproach, bind, get, nthOrThrow, ret.
  destruct (nth_error (points (roadNetwork g)) i) as [pi|] eqn:Ei;
    [|apply nth_error_None in Ei; lia].
  destruct (nth_error (points (roadNetwork g)) c) as [pc|] eqn:Ec;
    [|apply nth_error_None in Ec; lia].
  destruct (_ <? _); [|exact I].
  destruct (isOnRoad _ _ _); [|exact I].
  destruct (existsb _ _); [exact I|].
  unfold modify at 1.
  match goal with
  | |- context [pushConnection i ?n ?g1] =>
      destruct (pushConnection_returns i n g1) as [ci E]
  end.
  - cbn [connections roadNetwork set_roadNetwork set_connections set_points].
    rewrite length_app. lia.
  - rewrite E.
    match goal with
    | |- context [pushConnection c ?n ?g1] =>
        destruct (pushConnection_returns c n g1) as [cc E2]
    end.
    + cbn [connections roadNetwork set_roadNetwork set_connections set_points].
      rewrite length_list_set, length_app. lia.
    + rewrite E2. exact I.
Qed.

(** An element of an adjacency list is the index of a waypoint. *)
Lemma graphShape_neighbour : forall (g : Game) (i c : nat) (ci : list nat),
  graphShape g -> nth_error (connections (roadNetwork g)) i = Some ci -> In c ci ->
  c < List.length (points (roadNetwork g)).
Proof.
  intros g i c ci [Hlen Hsym] Hi Hc.
  destruct (Hsym i c) as [cc [Hcc _]]; [exists ci; split; assumption|].
  rewrite <- Hlen. apply nth_error_Some. rewrite Hcc. discriminate.
Qed.

Lemma grows_pushConnection : forall n i j : nat,
  preserves (fun g => n < List.length (points (roadNetwork g))) (pushConnection i j).
Proof.
  intros n i j. unfold pushConnection. pres.
  apply preserves_modify. intros g H. exact H.
Qed.

Lemma grows_addApproach : forall n i c : nat,
  preserves (fun g => n < List.length (points (roadNetwork g))) (addApproach i c).
Proof.
  intros n i c. unfold addApproach. pres_by grows_pushConnection.
  apply preserves_modify. intros g H.
  cbn [points roadNetwork set_roadNetwork set_connections set_points].
  rewrite length_app. lia.
Qed.

Lemma grows_markIntersection : forall n i : nat,
  preserves (fun g => n < List.length (points (roadNetwork g))) (markIntersection i).
Proof.
  intros n i. unfold markIntersection. pres.
  apply preserves_modify. intros g H.
  cbn [points roadNetwork set_roadNetwork set_points].
  rewrite length_list_set. exact H.
Qed.

Lemma enhanceLoop_quiet : forall (fuel intersectionIndex k : nat) (g : Game),
  graphShape g -> intersectionIndex < List.length (points (roadNetwork g)) ->
  quiet (enhanceLoop fuel intersectionIndex k g).
Proof.
  induction fuel as [|fuel IH]; intros intersectionIndex k g Hg Hi; [exact I|].
  cbn [enhanceLoop]. unfold bind at 1, get. unfold bind at 1, nthOrThrow.
  destruct (nth_error (connections (roadNetwork g)) intersectionIndex) as [conns|] eqn:Ec.
  - unfold ret. destruct (nth_error conns k) as [connectionId|] eqn:Ek; [|exact I].
    apply quiet_bind.
    + apply addApproach_quiet; [exact Hg | exact Hi |].
      exact (graphShape_neighbour g _ _ _ Hg Ec (nth_error_In _ _ Ek)).
    + intros u g1 E. apply IH.
      * exact (kept _ _ _ _ _ _ (graphShape_addApproach _ _) Hg E).
      * exact (kept _ _ _ _ _ _ (grows_addApproach _ _ _) Hi E).
  - apply nth_error_None in Ec. destruct Hg as [Hlen _]. lia.
Qed.

Lemma enhanceIntersection_quiet : forall (fuel intersectionIndex : nat) (g : Game),
  graphShape g -> intersectionIndex < List.length (points (roadNetwork g)) ->
  quiet (enhanceIntersection fuel intersectionIndex g).
Proof.
  intros fuel intersectionIndex g Hg Hi.
  unfold enhanceIntersection. unfold bind at 1, get. unfold bind at 1, nthOrThrow.
  destruct (nth_error (connections (roadNetwork g)) intersectionIndex) as [conns|] eqn:Ec.
  - unfold ret. destruct (Nat.leb 4 _); [|exact I].
    apply enhanceLoop_quiet; assumption.
  - apply nth_error_None in Ec. destruct Hg as [Hlen _]. lia.
Qed.

Lemma identifyIntersections_quiet : forall (fuel i : nat) (g : Game),
  graphShape g -> quiet (identifyIntersections fuel i g).
Proof.
  induction fuel as [|fuel IH]; intros i g Hg; [exact I|].
  cbn [identifyIntersections]. unfold bind at 1, get.
  destruct (Nat.ltb i _) eqn:Ei; [|exact I].
  apply Nat.ltb_lt in Ei.
  unfold bind at 1, nthOrThrow.
  destruct (nth_error (connections (roadNetwork g)) i) as [conns|] eqn:Ec.
  - unfold ret. apply quiet_bind.
    + destruct (Nat.leb 3 _); [|exact I].
      apply quiet_bind.
      * apply markIntersection_quiet. exact Ei.
      * intros u g1 E. apply enhanceIntersection_quiet.
        -- exact (kept _ _ _ _ _ _ (graphShape_markIntersection _) Hg E).
        -- exact (kept _ _ _ _ _ _ (grows_markIntersection _ _) Ei E).
    + intros u g1 E. apply IH.
      refine (kept graphShape _ _ _ _ _ _ Hg E).
      destruct (Nat.leb 3 _); [|apply preserves_ret].
      apply preserves_bind; [apply graphShape_markIntersection|].
      intros _. apply I_enhanceIntersection. exact graphShape_addApproach.
  - apply nth_error_None in Ec. destruct Hg as [Hlen _]. lia.
Qed.

Lemma angles_some : forall (pts : list Waypoint) (point : Waypoint) (conns : list nat),
  (forall a, In a conns -> a < List.length pts) ->
  exists keyed, angles pts point conns = Some keyed.
Proof.
  intros pts point conns. induction conns as [|a rest IH]; intros H; simpl.
  - eauto.
  - destruct (nth_error pts a) as [pointA|] eqn:E.
    + destruct IH as [l El]; [intros b Hb; apply H; right; exact Hb|].
      rewrite El. eauto.
    + apply nth_error_None in E. specialize (H a (or_introl eq_refl)). lia.
Qed.

Lemma sortConnections_quiet : forall (i : nat) (g : Game),
  graphShape g -> i < List.length (points (roadNetwork g)) ->
  quiet (sortConnections i g).
Proof.
  intros i g Hg Hi. pose proof Hg as [Hlen _].
  unfold sortConnections, bind, get, nthOrThrow, ret.
  destruct (nth_error (points (roadNetwork g)) i) as [point|] eqn:Ep;
    [|apply nth_error_None in Ep; lia].
  destruct (isIntersection point); [|exact I].
  destruct (nth_error (connections (roadNetwork g)) i) as [conns|] eqn:Ec;
    [|apply nth_error_None in Ec; lia].
  destruct conns as [|a [|b rest]]; try exact I.
  destruct (angles_some (points (roadNetwork g)) point (a :: b :: rest)) as [keyed Ek].
  - intros k Hk. exact (graphShape_neighbour g _ _ _ Hg Ec Hk).
  - rewrite Ek. exact I.
Qed.

(** A loop over indices of waypoints whose body keeps the shape of the
    graph and the waypoints. *)
Definition shapeOf (n : nat) (g : Game) : Prop :=
  graphShape g /\ List.length (points (roadNetwork g)) = n.

Lemma shapeOf_connectPair : forall n i j : nat, preserves (shapeOf n) (connectPair i j).
Proof.
  intros n i j g [Hg Hn]. split.
  - apply graphShape_connectPair. exact Hg.
  - rewrite (samePoints_connectPair (points (roadNetwork g)) i j g eq_refl). exact Hn.
Qed.

Lemma shapeOf_sortConnections : forall n i : nat, preserves (shapeOf n) (sortConnections i).
Proof.
  intros n i g [Hg Hn]. split.
  - apply graphShape_sortConnections. exact Hg.
  - rewrite (samePoints_sortConnections (points (roadNetwork g)) i g eq_refl). exact Hn.
Qed.

Lemma connectNearbyWaypoints_quiet : forall (fuel : nat) (g : Game),
  graphShape g -> quiet (connectNearbyWaypoints fuel g).
Proof.
  intros fuel g Hg. unfold connectNearbyWaypoints. unfold bind at 1, get. cbv zeta.
  set (n := List.length (points (roadNetwork g))).
  assert (Hs : shapeOf n g) by (split; [exact Hg | reflexivity]).
  assert (Hp : preserves (shapeOf n)
                 (forEach (seq 0 n)
                    (fun i => forEach (seq (S i) (n - S i)) (fun j => connectPair i j)))).
  { apply preserves_forEach. intros i. apply preserves_forEach. intros j.
    apply shapeOf_connectPair. }
  apply quiet_bind.
  - apply (quiet_forEach (shapeOf n)); [| |exact Hs].
    + intros i. apply preserves_forEach. intros j. apply shapeOf_connectPair.
    + intros i g1 Hin H1. apply in_seq in Hin.
      apply (quiet_forEach (shapeOf n)); [| |exact H1].
      * intros j. apply shapeOf_connectPair.
      * intros j g2 Hjn [H2 Hn2]. apply in_seq in Hjn.
        apply connectPair_quiet; [exact H2 | lia | lia].
  - intros u g1 E. destruct (kept _ _ _ _ _ _ Hp Hs E) as [H1 _].
    apply quiet_bind.
    + apply identifyIntersections_quiet. exact H1.
    + intros u2 g2 E2.
      assert (H2 : graphShape g2).
      { refine (kept graphShape _ _ _ _ _ _ H1 E2).
        apply I_identifyIntersections;
          [exact graphShape_markIntersection | exact graphShape_addApproach]. }
      unfold optimizeIntersectionConnections, bind, get.
      apply (quiet_forEach (shapeOf (List.length (points (roadNetwork g2))))).
      * intros i. apply shapeOf_sortConnections.
      * intros i g3 Hin [H3 Hn3]. apply in_seq in Hin.
        apply sortConnections_quiet; [exact H3 | lia].
      * split; [exact H2 | reflexivity].
Qed.

Lemma findZoneEntryPoints_quiet : forall g : Game, quiet (findZoneEntryPoints g).
Proof.
  intros g. unfold findZoneEntryPoints. unfold bind at 1, get.
  apply (quiet_forEach (fun g1 => residentialZones g1 = residentialZones g)).
  - intros zoneIndex. pres; apply preserves_modify; intros g1 H; exact H.
  - intros zoneIndex g1 Hin H. apply in_seq in Hin.
    unfold bind, get, nthOrThrow. rewrite H.
    destruct (nth_error (residentialZones g) zoneIndex) eqn:E; [exact I|].
    apply nth_error_None in E. lia.
  - reflexivity.
Qed.

(** The statements of the [try] block throw from no game: every array
    element they read exists. *)
Lemma rebuildSteps_quiet : forall (fuel : nat) (g : Game), quiet (rebuildSteps fuel g).
Proof.
  intros fuel g. unfold rebuildSteps. rewrite bind_modify.
  match goal with
  | |- quiet (bind get _ ?g0) => set (g1 := g0)
  end.
  assert (H1 : graphShape g1).
  { split; [reflexivity|]. intros k c [ci [Hk _]]. destruct k; discriminate. }
  unfold bind at 1, get.
  apply quiet_bind.
  - apply (quiet_forEach (fun _ => True)).
    + intros zone g0 _. exact I.
    + intros zone g0 _ _. apply extractRoadCenterline_quiet.
    + exact I.
  - intros u g2 E.
    assert (H2 : graphShape g2).
    { refine (kept graphShape _ _ _ _ _ _ H1 E).
      apply preserves_forEach. intros zone.
      apply I_extractRoadCenterline. exact graphShape_addWaypoint. }
    apply quiet_bind; [apply connectNearbyWaypoints_quiet; exact H2|].
    intros u3 g3 _. apply quiet_bind; [exact I|].
    intros u4 g4 _. apply quiet_bind; [apply findZoneEntryPoints_quiet|].
    intros u5 g5 _. exact I.
Qed.

End RebuildNeverThrows.

(* ===================================================================== *)
(** ** The rebuild is fail-soft *)
(* ===================================================================== *)


Module FailSoftRuns.

Import Scenario.

(** A road of two circles 100 apart, in real arithmetic. *)
Definition realRoad : @Game RArith :=
  @set_roadZones RArith
    [@mkZone RArith [@mkCircle RArith 0%R 0%R 50%R; @mkCircle RArith 100%R 0%R 50%R]]
    (newGameR "road" 50%R).

(** A call that returned, returned into the game it left. *)
Lemma returned_with : forall o : @Outcome F unit,
  returned o = true -> o = Ret tt (gameOf o).
Proof. intros [[] g|e g|g] H; [reflexivity | discriminate H | discriminate H]. Qed.


End FailSoftRuns.

(* ===================================================================== *)
(** ** Painting merges zones without losing circles *)
(* ===================================================================== *)

Section SplitFacts.

Variable X : Type.

Lemma list_set_split : forall (l1 l2 : list X) (old v : X),
  list_set (List.length l1) v (l1 ++ old :: l2) = l1 ++ v :: l2.
Proof.
  induction l1 as [|h t IH]; intros l2 old v; simpl; [reflexivity|].
  now rewrite IH.
Qed.

Lemma list_remove_split : forall (l1 l2 : list X) (old : X),
  list_remove (List.length l1) (l1 ++ old :: l2) = l1 ++ l2.
Proof.
  induction l1 as [|h t IH]; intros l2 old; simpl; [reflexivity|].
  now rewrite IH.
Qed.

Lemma In_list_set : forall (l : list X) (i : nat) (v z : X),
  In z (list_set i v l) -> z = v \/ In z l.
Proof.
  induction l as [|h t IH]; intros [|i] v z; simpl; try tauto.
  - intros [H|H]; auto.
  - intros [H|H]; [auto|]. destruct (IH i v z H); auto.
Qed.

Lemma In_list_remove : forall (l : list X) (i : nat) (z : X),
  In z (list_remove i l) -> In z l.
Proof.
  induction l as [|h t IH]; intros [|i] z; simpl; try tauto.
  intros [H|H]; [auto|]. right. exact (IH i z H).
Qed.

End SplitFacts.

Section MergeFacts.

Context {A : Arith}.

(** Strictly increasing indices from [lo] on, below [hi]. *)
Fixpoint ascending (lo hi : nat) (l : list nat) : Prop :=
  match l with
  | [] => True
  | h :: t => lo <= h < hi /\ ascending (S h) hi t
  end.

(** Strictly decreasing indices above [p], below [n]. *)
Fixpoint descendingAbove (p n : nat) (l : list nat) : Prop :=
  match l with
  | [] => True
  | idx :: rest => p < idx < n /\ descendingAbove p idx rest
  end.

Lemma ascending_from : forall (l : list nat) (lo lo' hi : nat),
  lo' <= lo -> ascending lo hi l -> ascending lo' hi l.
Proof.
  intros [|h t] lo lo' hi Hlo; simpl; [tauto|].
  intros [Hh Ht]. split; [lia | exact Ht].
Qed.

Lemma ascending_filter_seq : forall (f : nat -> bool) (k a : nat),
  ascending a (a + k) (filter f (seq a k)).
Proof.
  intros f k. induction k as [|k IH]; intros a; simpl; [exact I|].
  specialize (IH (S a)). replace (S a + k)%nat with (a + S k)%nat in IH by lia.
  destruct (f a); simpl.
  - split; [lia | exact IH].
  - apply (ascending_from _ (S a)); [lia | exact IH].
Qed.

Lemma ascending_bounds : forall (l : list nat) (lo hi x : nat),
  ascending lo hi l -> In x l -> lo <= x < hi.
Proof.
  induction l as [|h t IH]; intros lo hi x; simpl; [tauto|].
  intros [Hh Ht] [<-|Hx]; [exact Hh|].
  specialize (IH (S h) hi x Ht Hx). lia.
Qed.

Lemma descendingAbove_below : forall (l : list nat) (p n n' : nat),
  n <= n' -> descendingAbove p n l -> descendingAbove p n' l.
Proof.
  intros [|h t] p n n' Hn; simpl; [tauto|].
  intros [Hh Ht]. split; [lia | exact Ht].
Qed.

Lemma descendingAbove_snoc : forall (l : list nat) (p n h : nat),
  descendingAbove p n l -> (forall x, In x l -> h < x) -> p < h < n ->
  descendingAbove p n (l ++ [h]).
Proof.
  induction l as [|i t IH]; intros p n h; simpl.
  - intros _ _ Hh. split; [exact Hh | exact I].
  - intros [Hi Ht] Hall Hh. split; [exact Hi|].
    apply IH; [exact Ht | intros x Hx; apply Hall; right; exact Hx|].
    split; [lia | apply Hall; left; reflexivity].
Qed.

Lemma descendingAbove_rev : forall (l : list nat) (p n : nat),
  ascending (S p) n l -> descendingAbove p n (rev l).
Proof.
  induction l as [|h t IH]; intros p n; simpl; [tauto|].
  intros [Hh Ht]. apply descendingAbove_snoc.
  - apply IH. apply (ascending_from _ (S h)); [lia | exact Ht].
  - intros x Hx. apply in_rev in Hx.
    pose proof (ascending_bounds _ _ _ _ Ht Hx). lia.
  - lia.
Qed.

(** The circles of a zone collection, zone after zone. *)
Definition circlesIn (zones : list Zone) : list Circle := flat_map zpoints zones.

Definition noEmptyZone (zones : list Zone) : Prop :=
  forall zone : Zone, In zone zones -> zpoints zone <> [].

(** Folding the zone at [idx] into the zone at [p < idx]. *)
Lemma fold_zone_into : forall (zones : list Zone) (p idx : nat) (primary z : Zone),
  p < idx ->
  nth_error zones p = Some primary ->
  nth_error zones idx = Some z ->
  let zones' := list_remove idx
                  (list_set p (mkZone (zpoints primary ++ zpoints z)) zones) in
  Permutation (circlesIn zones') (circlesIn zones) /\
  S (List.length zones') = List.length zones /\
  nth_error zones' p = Some (mkZone (zpoints primary ++ zpoints z)) /\
  (forall zone, In zone zones' ->
     zone = mkZone (zpoints primary ++ zpoints z) \/ In zone zones).
Proof.
  intros zones p idx primary z Hlt Hp Hz zones'.
  destruct (nth_error_split zones p Hp) as [l1 [rest [E Hl1]]].
  assert (Hz' : nth_error rest (idx - S p) = Some z).
  { rewrite E in Hz. rewrite nth_error_app2 in Hz by lia.
    rewrite Hl1 in Hz. replace (idx - p)%nat with (S (idx - S p)) in Hz by lia.
    exact Hz. }
  destruct (nth_error_split rest (idx - S p) Hz') as [l2 [l3 [E2 Hl2]]].
  subst rest.
  assert (Ez : zones' = l1 ++ mkZone (zpoints primary ++ zpoints z) :: l2 ++ l3).
  { unfold zones'. rewrite E. rewrite <- Hl1 at 1. rewrite list_set_split.
    replace idx with (List.length (l1 ++ mkZone (zpoints primary ++ zpoints z) :: l2)).
    - change (l1 ++ mkZone (zpoints primary ++ zpoints z) :: l2 ++ z :: l3)
        with (l1 ++ (mkZone (zpoints primary ++ zpoints z) :: l2) ++ z :: l3).
      rewrite app_assoc, list_remove_split, <- app_assoc. reflexivity.
    - rewrite length_app. simpl. lia. }
  split; [|split; [|split]].
  - rewrite Ez, E. unfold circlesIn. rewrite !flat_map_app. simpl.
    rewrite !flat_map_app. simpl. apply Permutation_app_head.
    rewrite <- app_assoc. apply Permutation_app_head.
    apply Permutation_app_swap_app.
  - rewrite Ez, E. rewrite !length_app. simpl. rewrite !length_app. simpl. lia.
  - rewrite Ez. rewrite nth_error_app2 by lia. rewrite Hl1, Nat.sub_diag. reflexivity.
  - intros zone Hin. unfold zones' in Hin. apply In_list_remove in Hin.
    apply In_list_set in Hin. exact Hin.
Qed.

(** [toRemove.forEach(...)]: the circles are only moved, and the zones that
    remain are old zones or the primary zone grown. *)
Lemma consolidate_conserves : forall (toRemove : list nat) (p : nat) (zones : list Zone),
  p < List.length zones ->
  descendingAbove p (List.length zones) toRemove ->
  Permutation (circlesIn (consolidate p toRemove zones)) (circlesIn zones) /\
  (noEmptyZone zones -> noEmptyZone (consolidate p toRemove zones)) /\
  List.length (consolidate p toRemove zones) + List.length toRemove = List.length zones.
Proof.
  induction toRemove as [|idx rest IH]; intros p zones Hp Hd; simpl.
  - split; [apply Permutation_refl|]. split; [tauto | lia].
  - destruct Hd as [Hidx Hrest].
    destruct (nth_error zones p) as [primary|] eqn:Ep;
      [|apply nth_error_None in Ep; lia].
    destruct (nth_error zones idx) as [z|] eqn:Ez;
      [|apply nth_error_None in Ez; lia].
    destruct (fold_zone_into zones p idx primary z (proj1 Hidx) Ep Ez)
      as [Hperm [Hlen [_ Hin]]].
    set (zones' := list_remove idx
                     (list_set p (mkZone (zpoints primary ++ zpoints z)) zones)) in *.
    destruct (IH p zones') as [IH1 [IH2 IH3]].
    + lia.
    + apply (descendingAbove_below _ _ idx); [lia | exact Hrest].
    + split; [eapply Permutation_trans; [exact IH1 | exact Hperm]|].
      split; [|lia].
      intros Hne. apply IH2.
      intros zone Hz. destruct (Hin zone Hz) as [->|Hold]; [|exact (Hne zone Hold)].
      simpl. intros Hnil. apply app_eq_nil in Hnil.
      apply (Hne primary); [eapply nth_error_In; exact Ep | exact (proj1 Hnil)].
Qed.

Lemma matchZones_ascending : forall (x y mergeDistance : num) (zones : list Zone),
  ascending 0 (List.length zones) (matchZones x y mergeDistance zones).
Proof.
  intros x y d zones. unfold matchZones.
  exact (ascending_filter_seq _ (List.length zones) 0).
Qed.

(** Painting one circle into a zone collection adds that circle and moves
    the others at most from one zone to another; no zone is left empty, and
    the number of zones grows by one when no zone is within merge distance
    and shrinks by the number of zones folded into the first matched zone
    otherwise. *)
Lemma mergeInto_conserves :
  forall (newZonePoint : Circle) (x y mergeDistance : num) (zones : list Zone),
  Permutation (circlesIn (mergeInto newZonePoint x y mergeDistance zones))
              (newZonePoint :: circlesIn zones) /\
  (noEmptyZone zones -> noEmptyZone (mergeInto newZonePoint x y mergeDistance zones)) /\
  List.length (mergeInto newZonePoint x y mergeDistance zones)
    + List.length (matchZones x y mergeDistance zones) = S (List.length zones).
Proof.
  intros c x y d zones. unfold mergeInto.
  pose proof (matchZones_ascending x y d zones) as Hasc.
  destruct (matchZones x y d zones) as [|p others].
  - split; [|split].
    + unfold circlesIn. rewrite flat_map_app. simpl.
      apply Permutation_sym, Permutation_cons_append.
    + intros Hne zone Hz. apply in_app_or in Hz. destruct Hz as [Hz|[<-|[]]].
      * exact (Hne zone Hz).
      * discriminate.
    + rewrite length_app. simpl. lia.
  - simpl in Hasc. destruct Hasc as [Hp Hothers].
    destruct (nth_error zones p) as [primary|] eqn:Ep;
      [|apply nth_error_None in Ep; lia].
    destruct (nth_error_split zones p Ep) as [l1 [l2 [E Hl1]]].
    set (grown := mkZone (zpoints primary ++ [c])).
    assert (Eset : list_set p grown zones = l1 ++ grown :: l2).
    { rewrite E. rewrite <- Hl1. apply list_set_split. }
    assert (Hlen : List.length (list_set p grown zones) = List.length zones)
      by apply length_list_set.
    destruct (consolidate_conserves (rev others) p (list_set p grown zones))
      as [H1 [H2 H3]].
    + lia.
    + rewrite Hlen. apply descendingAbove_rev. exact Hothers.
    + split; [|split].
      * eapply Permutation_trans; [exact H1|].
        rewrite Eset, E. unfold circlesIn. rewrite !flat_map_app. simpl.
        rewrite <- app_assoc. simpl.
        apply Permutation_sym.
        rewrite (app_assoc (flat_map zpoints l1) (zpoints primary)
                   (c :: flat_map zpoints l2)).
        apply Permutation_cons_app. rewrite <- app_assoc. apply Permutation_refl.
      * intros Hne. apply H2.
        intros zone Hz. apply In_list_set in Hz. destruct Hz as [->|Hz].
        -- simpl. intros Hnil. apply app_eq_nil in Hnil. destruct Hnil as [_ Hnil].
           discriminate.
        -- exact (Hne zone Hz).
      * rewrite length_rev in H3. simpl. lia.
Qed.

Lemma eraseCircles_noEmptyZone : forall (x y r : num) (zones : list Zone),
  noEmptyZone (eraseCircles x y r zones).
Proof.
  intros x y r zones zone Hz. exact (proj1 (eraseCircles_In x y r zones zone Hz)).
Qed.

(** What a paint call leaves of the build mode: everything but the recorded
    position. *)
Lemma paintZone_buildMode : forall (x y : num) (forcePaint : bool) (g : Game),
  active (buildMode (paintZone x y forcePaint g)) = active (buildMode g) /\
  selectedType (buildMode (paintZone x y forcePaint g)) = selectedType (buildMode g) /\
  brushSize (buildMode (paintZone x y forcePaint g)) = brushSize (buildMode g).
Proof.
  intros x y f g. unfold paintZone.
  destruct (active (buildMode g)) eqn:Ea; simpl; [|rewrite Ea; tauto].
  destruct (selectedType (buildMode g)) as [ty|] eqn:Et; [|rewrite Ea; tauto].
  destruct (String.eqb ty EmptyString); [rewrite Ea, Et; tauto|].
  destruct (tooCloseToLast sqrtDist x y f (buildMode g)); [rewrite Ea, Et; tauto|].
  destruct (isResidentialType ty).
  - destruct (overlapsWithRoad _ _ _ _); simpl; rewrite Ea, Et; tauto.
  - destruct (isRoadType ty); simpl; rewrite Ea, Et; tauto.
Qed.

(** The circles of the drawn zone after an executed paint call. *)
Lemma paintZone_conserves :
  forall (x y : num) (forcePaint : bool) (g : Game) (ty : string),
  active (buildMode g) = true ->
  selectedType (buildMode g) = Some ty ->
  tooCloseToLast sqrtDist x y forcePaint (buildMode g) = false ->
  (isRoadType ty = true ->
   Permutation (circlesIn (roadZones (paintZone x y forcePaint g)))
               (mkCircle x y (brushSize (buildMode g)) :: circlesIn (roadZones g))) /\
  (isResidentialType ty = true ->
   overlapsWithRoad x y (brushSize (buildMode g)) g = false ->
   Permutation (circlesIn (residentialZones (paintZone x y forcePaint g)))
               (mkCircle x y (brushSize (buildMode g)) :: circlesIn (residentialZones g)) /\
   roadZones (paintZone x y forcePaint g) = roadZones g).
Proof.
  intros x y f g ty Ha Hty Hs. split.
  - intros Hroad. destruct (road_type_not_residential ty Hroad) as [Hne Hnr].
    unfold paintZone. rewrite Ha, Hty, Hne, Hs, Hnr, Hroad. simpl.
    exact (proj1 (mergeInto_conserves _ _ _ _ _)).
  - intros Hres Hov. pose proof (residential_type_not_empty ty Hres) as Hne.
    unfold paintZone. rewrite Ha, Hty, Hne, Hs, Hres.
    assert (Ho : overlapsWithRoad x y
                   (brushSize (buildMode (set_buildMode (set_lastPaint x y (buildMode g)) g)))
                   (set_buildMode (set_lastPaint x y (buildMode g)) g) = false)
      by exact Hov.
    rewrite Ho. simpl. split; [|reflexivity].
    exact (proj1 (mergeInto_conserves _ _ _ _ _)).
Qed.

(** X1: an executed paint call adds exactly the painted circle. With the
    road brush the circles of the road zones afterwards are the circle
    (x, y, brushSize) and the circles there before, none lost or doubled by
    the merge of zones; with a residential brush, when no road circle
    rejects the stroke, the same holds of the residential zones and the road
    zones are as they were. *)
Theorem paintZone_adds_the_painted_circle :
  forall (x y : num) (forcePaint : bool) (g : Game) (ty : string),
  active (buildMode g) = true ->
  selectedType (buildMode g) = Some ty ->
  tooCloseToLast sqrtDist x y forcePaint (buildMode g) = false ->
  (isRoadType ty = true ->
   Permutation (circlesIn (roadZones (paintZone x y forcePaint g)))
               (mkCircle x y (brushSize (buildMode g)) :: circlesIn (roadZones g))) /\
  (isResidentialType ty = true ->
   overlapsWithRoad x y (brushSize (buildMode g)) g = false ->
   Permutation (circlesIn (residentialZones (paintZone x y forcePaint g)))
               (mkCircle x y (brushSize (buildMode g)) :: circlesIn (residentialZones g)) /\
   roadZones (paintZone x y forcePaint g) = roadZones g).
Proof. exact paintZone_conserves. Qed.

Lemma noEmptyZone_paintZone : forall (x y : num) (force : bool) (g : Game),
  noEmptyZone (residentialZones g) -> noEmptyZone (roadZones g) ->
  noEmptyZone (residentialZones (paintZone x y force g)) /\
  noEmptyZone (roadZones (paintZone x y force g)).
Proof.
  intros x y f g Hres Hroad. unfold paintZone.
  destruct (active (buildMode g)); simpl; [|tauto].
  destruct (selectedType (buildMode g)) as [ty|]; [|tauto].
  destruct (String.eqb ty EmptyString); [tauto|].
  destruct (tooCloseToLast sqrtDist x y f (buildMode g)); [tauto|].
  destruct (isResidentialType ty).
  - destruct (overlapsWithRoad _ _ _ _); simpl; [tauto|]. split; [|exact Hroad].
    exact (proj1 (proj2 (mergeInto_conserves _ _ _ _ _)) Hres).
  - destruct (isRoadType ty); simpl; [|tauto]. split.
    + apply eraseCircles_noEmptyZone.
    + exact (proj1 (proj2 (mergeInto_conserves _ _ _ _ _)) Hroad).
Qed.

Lemma noEmptyZone_eraseZone : forall (x y : num) (force : bool) (g : Game),
  noEmptyZone (residentialZones g) -> noEmptyZone (roadZones g) ->
  noEmptyZone (residentialZones (eraseZone x y force g)) /\
  noEmptyZone (roadZones (eraseZone x y force g)).
Proof.
  intros x y f g Hres Hroad. unfold eraseZone.
  destruct (active (buildMode g)); simpl; [|tauto].
  destruct (tooCloseToLast nhypot x y f (buildMode g)); simpl; [tauto|].
  split; apply eraseCircles_noEmptyZone.
Qed.

(** X2: no call of paintZone or eraseZone leaves a zone without circles in
    a game that had none. *)
Theorem zone_edits_leave_no_empty_zone :
  forall (x y : num) (force : bool) (g : Game),
  noEmptyZone (residentialZones g) -> noEmptyZone (roadZones g) ->
  (noEmptyZone (residentialZones (paintZone x y force g)) /\
   noEmptyZone (roadZones (paintZone x y force g))) /\
  (noEmptyZone (residentialZones (eraseZone x y force g)) /\
   noEmptyZone (roadZones (eraseZone x y force g))).
Proof.
  intros x y f g Hres Hroad. split.
  - exact (noEmptyZone_paintZone x y f g Hres Hroad).
  - exact (noEmptyZone_eraseZone x y f g Hres Hroad).
Qed.

(** paintZoneAtPoint puts the brush size back. *)
Lemma paintZoneAtPoint_buildMode :
  forall (x y : num) (customBrushSize : option num) (g : Game),
  brushSize (buildMode (paintZoneAtPoint x y customBrushSize g)) = brushSize (buildMode g) /\
  selectedType (buildMode (paintZoneAtPoint x y customBrushSize g))
    = selectedType (buildMode g) /\
  active (buildMode (paintZoneAtPoint x y customBrushSize g)) = active (buildMode g).
Proof.
  intros x y c g. unfold paintZoneAtPoint. cbv zeta.
  set (g1 := match c with
             | Some s => if truthy s then set_buildMode (set_brushSize s (buildMode g)) g
                         else g
             | None => g
             end).
  destruct (paintZone_buildMode x y true g1) as [Ha [Ht _]].
  assert (H1 : selectedType (buildMode g1) = selectedType (buildMode g) /\
               active (buildMode g1) = active (buildMode g)).
  { unfold g1. destruct c as [s|]; [destruct (truthy s)|]; simpl; tauto. }
  simpl. rewrite Ha, Ht. split; [reflexivity | tauto].
Qed.


(** X3: on the residential zones the road brush is the eraser. A forced
    road paint leaves the residential zones exactly as a forced erase at the
    same point with the same brush size does. *)
Theorem road_paint_erases_homes_like_the_eraser :
  forall (x y : num) (g : Game) (ty : string),
  active (buildMode g) = true ->
  selectedType (buildMode g) = Some ty ->
  isRoadType ty = true ->
  residentialZones (paintZone x y true g) = residentialZones (eraseZone x y true g).
Proof.
  intros x y g ty Ha Hty Hroad.
  destruct (road_type_not_residential ty Hroad) as [Hne Hnr].
  unfold paintZone, eraseZone. rewrite Ha, Hty, Hne, Hnr, Hroad. reflexivity.
Qed.

End MergeFacts.

(* ===================================================================== *)
(** ** Road precedence *)
(* ===================================================================== *)

Section RoadPrecedence.

Context {A : Arith}.
Local Open Scope num_scope.

(** The circles the eraser loop leaves are the circles that pass its test,
    in their order. *)
Lemma eraseCircles_survivors : forall (x y r : num) (zones : list Zone),
  circlesIn (eraseCircles x y r zones)
    = filter (fun p => nhypot (x - cx p) (y - cy p) >=? r) (circlesIn zones).
Proof.
  intros x y r zones. induction zones as [|zone zones IH]; [reflexivity|].
  unfold circlesIn in *. cbn [eraseCircles fold_right flat_map]. rewrite filter_app.
  change (fold_right _ [] zones) with (eraseCircles x y r zones).
  change (filter (fun p => nhypot (x - cx p) (y - cy p) >=? r) (zpoints zone))
    with (filter (keepCircle x y r) (zpoints zone)).
  cbn [zpoints].
  destruct (filter (keepCircle x y r) (zpoints zone)) as [|c cs].
  - rewrite IH. reflexivity.
  - cbn [flat_map zpoints]. rewrite IH. reflexivity.
Qed.

Lemma overlapsWithRoad_false : forall (x y overlapRadius : num) (g : Game),
  overlapsWithRoad x y overlapRadius g = false <->
  forall (road : Zone) (p : Circle), In road (roadZones g) -> In p (zpoints road) ->
    (nhypot (x - cx p) (y - cy p) <? overlapRadius) = false.
Proof.
  intros x y r g. unfold overlapsWithRoad. split.
  - intros H road p Hr Hp.
    destruct (nhypot (x - cx p) (y - cy p) <? r) eqn:E; [|reflexivity].
    assert (Ht : existsb (fun zone =>
                   existsb (fun point => nhypot (x - cx point) (y - cy point) <? r)
                           (zpoints zone)) (roadZones g) = true).
    { apply existsb_exists. exists road. split; [exact Hr|].
      apply existsb_exists. exists p. split; [exact Hp | exact E]. }
    rewrite H in Ht. discriminate Ht.
  - intros H.
    match goal with |- ?e = false => destruct e eqn:E; [|reflexivity] end.
    apply existsb_exists in E. destruct E as [road [Hr E]].
    apply existsb_exists in E. destruct E as [p [Hp E]].
    rewrite (H road p Hr Hp) in E. discriminate E.
Qed.

Lemma overlapsWithRoad_true : forall (x y overlapRadius : num) (g : Game),
  overlapsWithRoad x y overlapRadius g = true <->
  exists (road : Zone) (p : Circle), In road (roadZones g) /\ In p (zpoints road) /\
    (nhypot (x - cx p) (y - cy p) <? overlapRadius) = true.
Proof.
  intros x y r g. unfold overlapsWithRoad. split.
  - intros E. apply existsb_exists in E. destruct E as [road [Hr E]].
    apply existsb_exists in E. destruct E as [p [Hp E]].
    exists road, p. repeat split; assumption.
  - intros [road [p [Hr [Hp E]]]]. apply existsb_exists. exists road. split; [exact Hr|].
    apply existsb_exists. exists p. split; [exact Hp | exact E].
Qed.

(** C2, amended: what an executed paint call does where roads and homes
    meet. The test is the distance of the centres against the brush size,
    the radius of the painted circle; the radius of the other circle is not
    read. With the road brush the residential circles left are exactly those
    whose centre is at least the brush size away from the painted point, and
    the painted circle joins the road circles. With a residential brush the
    stroke is rejected, nothing but the recorded position changing, when the
    centre of some road circle is closer to the painted point than the brush
    size; when none is, the painted circle joins the residential circles and
    the road zones stay as they are. So circles whose centres are at least
    the brush size apart are left overlapping, however large their radii. *)
Theorem paintZone_road_precedence :
  forall (x y : num) (forcePaint : bool) (g : Game) (ty : string),
  active (buildMode g) = true ->
  selectedType (buildMode g) = Some ty ->
  tooCloseToLast sqrtDist x y forcePaint (buildMode g) = false ->
  (isRoadType ty = true ->
   (forall (zone : Zone) (p : Circle),
      In zone (residentialZones (paintZone x y forcePaint g)) -> In p (zpoints zone) ->
      (nhypot (x - cx p) (y - cy p) >=? brushSize (buildMode g)) = true) /\
   circlesIn (residentialZones (paintZone x y forcePaint g))
     = filter (fun p => nhypot (x - cx p) (y - cy p) >=? brushSize (buildMode g))
              (circlesIn (residentialZones g)) /\
   Permutation (circlesIn (roadZones (paintZone x y forcePaint g)))
               (mkCircle x y (brushSize (buildMode g)) :: circlesIn (roadZones g))) /\
  (isResidentialType ty = true ->
   ((exists (road : Zone) (p : Circle),
       In road (roadZones g) /\ In p (zpoints road) /\
       (nhypot (x - cx p) (y - cy p) <? brushSize (buildMode g)) = true) ->
    paintZone x y forcePaint g = set_buildMode (set_lastPaint x y (buildMode g)) g) /\
   ((forall (road : Zone) (p : Circle),
       In road (roadZones g) -> In p (zpoints road) ->
       (nhypot (x - cx p) (y - cy p) <? brushSize (buildMode g)) = false) ->
    Permutation (circlesIn (residentialZones (paintZone x y forcePaint g)))
                (mkCircle x y (brushSize (buildMode g)) :: circlesIn (residentialZones g)) /\
    roadZones (paintZone x y forcePaint g) = roadZones g)).
Proof.
  intros x y f g ty Ha Hty Hs. split.
  - intros Hroad.
    destruct (road_type_not_residential ty Hroad) as [Hne Hnr].
    assert (E : paintZone x y f g
                = paintRoad x y (set_buildMode (set_lastPaint x y (buildMode g)) g)).
    { unfold paintZone. rewrite Ha, Hty, Hne, Hs, Hnr, Hroad. reflexivity. }
    rewrite E. unfold paintRoad. cbn [residentialZones roadZones set_roadNetwork
      set_needsConnectionUpdate set_roadZones set_residentialZones set_buildMode
      buildMode brushSize set_lastPaint].
    split; [|split].
    + intros zone p Hz Hp. exact (eraseCircles_kept _ _ _ _ _ _ Hz Hp).
    + apply eraseCircles_survivors.
    + exact (proj1 (mergeInto_conserves _ _ _ _ _)).
  - intros Hres.
    pose proof (residential_type_not_empty ty Hres) as Hne.
    assert (E : paintZone x y f g
                = if overlapsWithRoad x y (brushSize (buildMode g)) g
                  then set_buildMode (set_lastPaint x y (buildMode g)) g
                  else paintResidential x y
                         (set_buildMode (set_lastPaint x y (buildMode g)) g)).
    { unfold paintZone. rewrite Ha, Hty, Hne, Hs, Hres. reflexivity. }
    split.
    + intros Hex. apply overlapsWithRoad_true in Hex. rewrite E, Hex. reflexivity.
    + intros Hall. apply overlapsWithRoad_false in Hall. rewrite E, Hall.
      unfold paintResidential. cbn [residentialZones roadZones set_roadNetwork
        set_needsConnectionUpdate set_roadZones set_residentialZones set_buildMode
        buildMode brushSize set_lastPaint].
      split; [exact (proj1 (mergeInto_conserves _ _ _ _ _)) | reflexivity].
Qed.

End RoadPrecedence.

Module RoadPrecedenceRuns.

Import Scenario.
Local Open Scope float_scope.

Lemma overlapping_road : forall (x y : float) (g : @Game F),
  @overlapsWithRoad F x y (brushSize (buildMode g)) g = true ->
  exists (road : @Zone F) (p : @Circle F),
    In road (roadZones g) /\ In p (zpoints road) /\
    @nltb F (@nhypot F (@nsub F x (cx p)) (@nsub F y (cy p))) (brushSize (buildMode g)) = true.
Proof. intros x y g H. apply (@overlapsWithRoad_true F). exact H. Qed.

Lemma no_overlapping_road : forall (x y : float) (g : @Game F),
  @overlapsWithRoad F x y (brushSize (buildMode g)) g = false ->
  forall (road : @Zone F) (p : @Circle F), In road (roadZones g) -> In p (zpoints road) ->
    @nltb F (@nhypot F (@nsub F x (cx p)) (@nsub F y (cy p))) (brushSize (buildMode g)) = false.
Proof. intros x y g H. apply (@overlapsWithRoad_false F). exact H. Qed.

(** Four executed strokes with brush size 50. The road brush at
    (1030, 1000), 30 from the home at (1060, 1000); the road brush at
    (1000, 1000), 60 from it, which leaves the home where it is although the
    two circles overlap; a residential stroke at (1000, 1000), 30 from the
    road circle at (1030, 1000), which is rejected; and a residential stroke
    at (1000, 1000), 60 from the road circle at (1060, 1000), which is
    accepted although the two circles overlap. *)
Lemma paintZone_road_precedence_witness :
  (circlesIn (residentialZones (@paintZone F 1030 1000 true roadBrushNearHome))
     = filter (fun p => @nleb F (brushSize (buildMode roadBrushNearHome))
                              (@nhypot F (@nsub F 1030 (cx p)) (@nsub F 1000 (cy p))))
              (circlesIn (residentialZones roadBrushNearHome)) /\
   circlesOf (residentialZones (@paintZone F 1030 1000 true roadBrushNearHome)) = []) /\
  (circlesIn (residentialZones (@paintZone F 1000 1000 true roadBrushNearHome))
     = filter (fun p => @nleb F (brushSize (buildMode roadBrushNearHome))
                              (@nhypot F (@nsub F 1000 (cx p)) (@nsub F 1000 (cy p))))
              (circlesIn (residentialZones roadBrushNearHome)) /\
   circlesOf (residentialZones (@paintZone F 1000 1000 true roadBrushNearHome))
     = [[(1060, 1000, 50)]]) /\
  (@overlapsWithRoad F 1000 1000 (brushSize (buildMode homeBrushOnRoad)) homeBrushOnRoad
     = true /\
   @paintZone F 1000 1000 true homeBrushOnRoad
     = set_buildMode (set_lastPaint (1000 : @num F) (1000 : @num F)
                        (buildMode homeBrushOnRoad)) homeBrushOnRoad) /\
  (@overlapsWithRoad F 1000 1000 (brushSize (buildMode homeBrushNearRoad)) homeBrushNearRoad
     = false /\
   Permutation (circlesIn (residentialZones (@paintZone F 1000 1000 true homeBrushNearRoad)))
               (@mkCircle F 1000 1000 (brushSize (buildMode homeBrushNearRoad))
                  :: circlesIn (residentialZones homeBrushNearRoad)) /\
   roadZones (@paintZone F 1000 1000 true homeBrushNearRoad) = roadZones homeBrushNearRoad).
Proof.
  split; [|split; [|split]].
  - split; [|vm_compute; reflexivity].
    apply (@paintZone_road_precedence F 1030 1000 true roadBrushNearHome "road");
      vm_compute; reflexivity.
  - split; [|vm_compute; reflexivity].
    apply (@paintZone_road_precedence F 1000 1000 true roadBrushNearHome "road");
      vm_compute; reflexivity.
  - assert (H : @overlapsWithRoad F 1000 1000 (brushSize (buildMode homeBrushOnRoad))
                  homeBrushOnRoad = true) by (vm_compute; reflexivity).
    split; [exact H|].
    apply (proj1 (proj2 (@paintZone_road_precedence F 1000 1000 true homeBrushOnRoad
                           "residential"
                           ltac:(vm_compute; reflexivity) ltac:(vm_compute; reflexivity)
                           ltac:(vm_compute; reflexivity))
                    ltac:(vm_compute; reflexivity))).
    exact (overlapping_road 1000 1000 homeBrushOnRoad H).
  - assert (H : @overlapsWithRoad F 1000 1000 (brushSize (buildMode homeBrushNearRoad))
                  homeBrushNearRoad = false) by (vm_compute; reflexivity).
    split; [exact H|].
    apply (proj2 (proj2 (@paintZone_road_precedence F 1000 1000 true homeBrushNearRoad
                           "residential"
                           ltac:(vm_compute; reflexivity) ltac:(vm_compute; reflexivity)
                           ltac:(vm_compute; reflexivity))
                    ltac:(vm_compute; reflexivity))).
    exact (no_overlapping_road 1000 1000 homeBrushNearRoad H).
Defined.

End RoadPrecedenceRuns.

(* ===================================================================== *)
(** ** Erasing twice, painting twice *)
(* ===================================================================== *)

Section RepeatFacts.

Context {A : Arith}.

Lemma filter_idempotent : forall (X : Type) (f : X -> bool) (l : list X),
  filter f (filter f l) = filter f l.
Proof.
  intros X f l. induction l as [|h t IH]; simpl; [reflexivity|].
  destruct (f h) eqn:E; simpl; [rewrite E, IH; reflexivity | exact IH].
Qed.

Lemma eraseCircles_cons : forall (x y r : num) (z : Zone) (zs : list Zone),
  eraseCircles x y r (z :: zs) =
  match filter (keepCircle x y r) (zpoints z) with
  | [] => eraseCircles x y r zs
  | _ :: _ => mkZone (filter (keepCircle x y r) (zpoints z)) :: eraseCircles x y r zs
  end.
Proof. reflexivity. Qed.

Lemma eraseCircles_idempotent : forall (x y r : num) (zones : list Zone),
  eraseCircles x y r (eraseCircles x y r zones) = eraseCircles x y r zones.
Proof.
  intros x y r zones. induction zones as [|z zs IH]; [reflexivity|].
  rewrite eraseCircles_cons.
  destruct (filter (keepCircle x y r) (zpoints z)) as [|c cs] eqn:E; [exact IH|].
  rewrite eraseCircles_cons. cbn [zpoints].
  assert (E2 : filter (keepCircle x y r) (c :: cs) = c :: cs)
    by (rewrite <- E; apply filter_idempotent).
  rewrite E2, IH. reflexivity.
Qed.

(** X4: pressing the eraser twice at the same point is pressing it once:
    the second forced erase finds nothing left to remove and changes
    nothing. *)
Theorem eraseZone_twice_is_once : forall (x y : num) (g : Game),
  eraseZone x y true (eraseZone x y true g) = eraseZone x y true g.
Proof.
  intros x y g. unfold eraseZone.
  destruct (active (buildMode g)) eqn:Ea; simpl.
  - rewrite Ea. simpl. rewrite !eraseCircles_idempotent. reflexivity.
  - rewrite Ea. reflexivity.
Qed.

End RepeatFacts.

Section RealZoneFacts.

Local Open Scope R_scope.

Lemma leb_true : forall a b : R, RealNum.leb a b = true <-> a <= b.
Proof.
  intros a b. unfold RealNum.leb. destruct (Rle_dec a b); split; intros H;
    try reflexivity; try assumption; try discriminate; contradiction.
Qed.

Lemma hypot_zero : forall x y : R, RealNum.hypot (x - x) (y - y) = 0.
Proof.
  intros x y. unfold RealNum.hypot.
  replace ((x - x) * (x - x) + (y - y) * (y - y)) with 0 by ring. apply sqrt_0.
Qed.

Lemma sqrtDist_zero : forall x y : R, @sqrtDist RArith (x - x)%R (y - y)%R = 0.
Proof.
  intros x y. unfold sqrtDist. simpl.
  replace ((x - x) * (x - x) + (y - y) * (y - y)) with 0 by ring. apply sqrt_0.
Qed.

(** A non-forced paint at the recorded position is too close to it. *)
Lemma tooCloseToLast_same_point : forall (x y : @num RArith) (b : @BuildMode RArith),
  0 < brushSize b ->
  @tooCloseToLast RArith sqrtDist x y false (set_lastPaint x y b) = true.
Proof.
  intros x y b Hb. unfold tooCloseToLast, set_lastPaint. cbn [lastPaintX lastPaintY brushSize].
  change (RealNum.ltb (@sqrtDist RArith (x - x)%R (y - y)%R) (brushSize b * (15 / 100)) = true).
  rewrite sqrtDist_zero. apply ltb_true. lra.
Qed.

(** X5, in real arithmetic: the dabbing guard drops a repeated stroke. With
    a positive brush size, a non-forced paint at the point of the paint call
    just made, executed or not, changes nothing: no second circle is stacked
    on the first. *)
Theorem repeated_paint_is_dropped :
  forall (x y : @num RArith) (forcePaint : bool) (g : @Game RArith),
  0 < brushSize (buildMode g) ->
  @paintZone RArith x y false (@paintZone RArith x y forcePaint g)
    = @paintZone RArith x y forcePaint g.
Proof.
  intros x y f g Hb.
  assert (Hdrop : forall g1 : @Game RArith,
            buildMode g1 = set_lastPaint x y (buildMode g) ->
            @paintZone RArith x y false g1 = g1).
  { intros g1 E. unfold paintZone. rewrite E.
    rewrite (tooCloseToLast_same_point x y (buildMode g) Hb).
    destruct (negb (active (set_lastPaint x y (buildMode g)))); [reflexivity|].
    destruct (selectedType (set_lastPaint x y (buildMode g))) as [ty|]; [|reflexivity].
    destruct (String.eqb ty EmptyString); reflexivity. }
  unfold paintZone at 2 3.
  destruct (active (buildMode g)) eqn:Ea; simpl.
  2:{ unfold paintZone. rewrite Ea. reflexivity. }
  destruct (selectedType (buildMode g)) as [ty|] eqn:Et.
  2:{ unfold paintZone. rewrite Ea, Et. reflexivity. }
  destruct (String.eqb ty EmptyString) eqn:Ee.
  { unfold paintZone. rewrite Ea, Et, Ee. reflexivity. }
  destruct (tooCloseToLast sqrtDist x y f (buildMode g)) eqn:Es.
  { destruct f; [discriminate Es|].
    unfold paintZone. rewrite Ea, Et, Ee, Es. reflexivity. }
  destruct (isResidentialType ty).
  - destruct (overlapsWithRoad _ _ _ _); apply Hdrop; reflexivity.
  - destruct (isRoadType ty); apply Hdrop; reflexivity.
Qed.

(** X6, in real arithmetic: the painted point is covered. After an executed
    paint with the road brush of a size that is not negative, the painted
    point is on a road; after an executed paint with a residential brush that
    no road circle rejects, it is in a residential zone. *)
Theorem painted_point_is_covered :
  forall (x y : @num RArith) (forcePaint : bool) (g : @Game RArith) (ty : string),
  active (buildMode g) = true ->
  selectedType (buildMode g) = Some ty ->
  @tooCloseToLast RArith sqrtDist x y forcePaint (buildMode g) = false ->
  0 <= brushSize (buildMode g) ->
  (isRoadType ty = true -> @isOnRoad RArith (@paintZone RArith x y forcePaint g) x y = true) /\
  (isResidentialType ty = true ->
   @overlapsWithRoad RArith x y (brushSize (buildMode g)) g = false ->
   @isPositionInResidentialZone RArith (@paintZone RArith x y forcePaint g) x y = true).
Proof.
  intros x y f g ty Ha Hty Hs Hb.
  destruct (paintZone_conserves x y f g ty Ha Hty Hs) as [Hroad Hres].
  assert (Hcover : forall zones : list (@Zone RArith),
            In (mkCircle x y (brushSize (buildMode g))) (circlesIn zones) ->
            existsb (fun zone : @Zone RArith =>
              existsb (fun point : @Circle RArith =>
                         (nhypot (x - cx point) (y - cy point) <=? radius point)%num)
                      (zpoints zone)) zones = true).
  { intros zones Hin. apply in_flat_map in Hin. destruct Hin as [zone [Hz Hc]].
    apply existsb_exists. exists zone. split; [exact Hz|].
    apply existsb_exists. exists (mkCircle x y (brushSize (buildMode g))).
    split; [exact Hc|]. cbn [cx cy radius].
    change (RealNum.leb (RealNum.hypot (x - x) (y - y)) (brushSize (buildMode g)) = true).
    rewrite hypot_zero. apply leb_true. exact Hb. }
  split.
  - intros Hr. apply Hcover.
    apply (Permutation_in _ (Permutation_sym (Hroad Hr))). left. reflexivity.
  - intros Hr Ho. apply Hcover.
    apply (Permutation_in _ (Permutation_sym (proj1 (Hres Hr Ho)))). left. reflexivity.
Qed.

End RealZoneFacts.

Module ZoneEditRuns.

Import Scenario.
Local Open Scope float_scope.

(** A sixth road circle painted into [crossing], 15 from the circle at
    (1000, 1000): it joins the one road zone. *)
Lemma paintZone_adds_the_painted_circle_witness :
  active (buildMode crossing) = true /\
  selectedType (buildMode crossing) = Some "road"%string /\
  @tooCloseToLast F (@sqrtDist F) 1000 1015 true (buildMode crossing) = false /\
  Permutation (circlesIn (roadZones (@paintZone F 1000 1015 true crossing)))
              (@mkCircle F 1000 1015 (brushSize (buildMode crossing))
                 :: circlesIn (roadZones crossing)).
Proof.
  split; [reflexivity|]. split; [reflexivity|]. split; [reflexivity|].
  apply (proj1 (@paintZone_adds_the_painted_circle F 1000 1015 true crossing "road"%string
                  eq_refl eq_refl eq_refl)).
  reflexivity.
Defined.

(** Two homes painted 110 apart are two zones; a third circle between them
    is within merge distance of both and folds them into one zone of three
    circles. *)
Example paintZone_bridges_two_zones :
  circlesOf (residentialZones
    (paint 1110 1000 (paint 1000 1000 (select "residential" 50 (newGame [])))))
    = [[(1000, 1000, 50)]; [(1110, 1000, 50)]] /\
  circlesOf (residentialZones
    (paint 1055 1000
      (paint 1110 1000 (paint 1000 1000 (select "residential" 50 (newGame []))))))
    = [[(1000, 1000, 50); (1055, 1000, 50); (1110, 1000, 50)]].
Proof. vm_compute. split; reflexivity. Qed.

Lemma zone_edits_leave_no_empty_zone_witness :
  noEmptyZone (residentialZones roadBrushNearHome) /\
  noEmptyZone (roadZones roadBrushNearHome) /\
  noEmptyZone (residentialZones (@paintZone F 1030 1000 true roadBrushNearHome)) /\
  noEmptyZone (roadZones (@paintZone F 1030 1000 true roadBrushNearHome)).
Proof.
  assert (H1 : noEmptyZone (residentialZones roadBrushNearHome)).
  { intros zone H. hnf in H. destruct H as [<-|H]; [discriminate | destruct H]. }
  assert (H2 : noEmptyZone (roadZones roadBrushNearHome)).
  { intros zone H. destruct H. }
  split; [exact H1|]. split; [exact H2|].
  exact (proj1 (@zone_edits_leave_no_empty_zone F 1030 1000 true roadBrushNearHome H1 H2)).
Defined.

Lemma road_paint_erases_homes_like_the_eraser_witness :
  active (buildMode roadBrushNearHome) = true /\
  selectedType (buildMode roadBrushNearHome) = Some "road"%string /\
  isRoadType "road" = true /\
  residentialZones (@paintZone F 1030 1000 true roadBrushNearHome)
    = residentialZones (@eraseZone F 1030 1000 true roadBrushNearHome).
Proof.
  split; [reflexivity|]. split; [reflexivity|]. split; [reflexivity|].
  apply (@road_paint_erases_homes_like_the_eraser F 1030 1000 roadBrushNearHome
           "road"%string); reflexivity.
Defined.

Local Open Scope R_scope.

Lemma repeated_paint_is_dropped_witness :
  0 < brushSize (buildMode (newGameR "road" 50)) /\
  @paintZone RArith 10 20 false (@paintZone RArith 10 20 true (newGameR "road" 50))
    = @paintZone RArith 10 20 true (newGameR "road" 50).
Proof.
  split; [simpl; lra|].
  apply (repeated_paint_is_dropped 10 20 true (newGameR "road" 50)). simpl. lra.
Defined.

Lemma painted_point_is_covered_witness :
  active (buildMode (newGameR "road" 50)) = true /\
  selectedType (buildMode (newGameR "road" 50)) = Some "road"%string /\
  @tooCloseToLast RArith sqrtDist 10 20 true (buildMode (newGameR "road" 50)) = false /\
  0 <= brushSize (buildMode (newGameR "road" 50)) /\
  @isOnRoad RArith (@paintZone RArith 10 20 true (newGameR "road" 50)) 10 20 = true.
Proof.
  split; [reflexivity|]. split; [reflexivity|]. split; [reflexivity|].
  split; [simpl; lra|].
  apply (proj1 (painted_point_is_covered 10 20 true (newGameR "road" 50) "road"%string
                  eq_refl eq_refl eq_refl ltac:(simpl; lra))).
  reflexivity.
Defined.

End ZoneEditRuns.

(* ===================================================================== *)
(** ** The rebuilt graph is well formed *)
(* ===================================================================== *)

Section GraphFacts.

Context {A : Arith}.
Local Open Scope num_scope.

(** [m], started in a game that satisfies [P], leaves one that satisfies
    [Q], whatever way the call ends. *)
Definition leads (P : Game -> Prop) {X : Type} (m : M X) (Q : Game -> Prop) : Prop :=
  forall g : Game, P g -> Q (gameOf (m g)).

Lemma leads_bind : forall (P Q R : Game -> Prop) (X Y : Type) (m : M X) (k : X -> M Y),
  leads P m Q -> (forall g, Q g -> R g) -> (forall x, leads Q (k x) R) ->
  leads P (bind m k) R.
Proof.
  intros P Q R X Y m k Hm HQR Hk g Hg. unfold bind.
  specialize (Hm g Hg). destruct (m g) as [x g'|e g'|g']; simpl in *.
  - exact (Hk x g' Hm).
  - exact (HQR g' Hm).
  - exact (HQR g' Hm).
Qed.

(** The id of a waypoint is its index in [points]. *)
Definition idsAreIndices (g : Game) : Prop :=
  forall (i : nat) (w : Waypoint),
    nth_error (points (roadNetwork g)) i = Some w -> id w = i.

(** While addWaypoint is the only writer, the id counter is the number of
    waypoints. *)
Definition counterInStep (g : Game) : Prop :=
  idsAreIndices g /\ pointIdCounter g = List.length (points (roadNetwork g)).

Lemma counterInStep_addWaypoint : forall (x y : num) (metadata : Metadata),
  preserves counterInStep (addWaypoint x y metadata).
Proof.
  intros x y md g [Hids Hc]. unfold addWaypoint.
  destruct (find _ _); [split; assumption|]. split; simpl.
  - unfold idsAreIndices. simpl. intros i w. rewrite nth_error_app_last.
    destruct (Nat.eqb i (List.length (points (roadNetwork g)))) eqn:E.
    + apply Nat.eqb_eq in E. intros H. inversion H. simpl. congruence.
    + apply Hids.
  - rewrite length_app. simpl. lia.
Qed.

Lemma idsAreIndices_of_samePoints : forall (X : Type) (m : M X),
  (forall pts, preserves (samePoints pts) m) -> preserves idsAreIndices m.
Proof.
  intros X m H g Hg. unfold idsAreIndices.
  rewrite (H (points (roadNetwork g)) g eq_refl). exact Hg.
Qed.

Lemma idsAreIndices_markIntersection : forall i : nat,
  preserves idsAreIndices (markIntersection i).
Proof.
  intros i g Hg. unfold markIntersection, bind, get, nthOrThrow, ret, throw, modify.
  destruct (nth_error (points (roadNetwork g)) i) as [p|] eqn:Ep; [|exact Hg].
  unfold idsAreIndices. simpl. intros k w. rewrite nth_error_list_set.
  destruct (Nat.eqb k i) eqn:E.
  - apply Nat.eqb_eq in E. subst k. destruct (Nat.ltb i _); [|discriminate].
    intros H. inversion H. simpl. exact (Hg i p Ep).
  - apply Hg.
Qed.

Lemma idsAreIndices_addApproach : forall i c : nat,
  preserves idsAreIndices (addApproach i c).
Proof.
  intros i c g Hg.
  unfold addApproach, bind, get, nthOrThrow, ret, throw.
  destruct (nth_error (points (roadNetwork g)) i) as [pi|]; [|exact Hg].
  destruct (nth_error (points (roadNetwork g)) c) as [pc|]; [|exact Hg].
  destruct (_ <? _); [|exact Hg].
  destruct (isOnRoad _ _ _); [|exact Hg].
  destruct (existsb _ _); [exact Hg|].
  unfold modify at 1.
  match goal with
  | |- idsAreIndices (gameOf (match pushConnection i ?n ?g1 with _ => _ end)) =>
      assert (Hp : preserves (samePoints (points (roadNetwork g1)))
                     (bind (pushConnection i n) (fun _ => pushConnection c n)));
      [ pres_by samePoints_pushConnection
      | pose proof (Hp g1 eq_refl) as Hq; unfold bind in Hq ]
  end.
  unfold idsAreIndices. unfold samePoints in Hq. rewrite Hq. simpl.
  intros k w. rewrite nth_error_app_last.
  destruct (Nat.eqb k (List.length (points (roadNetwork g)))) eqn:E.
  - apply Nat.eqb_eq in E. intros H. inversion H. simpl. congruence.
  - apply Hg.
Qed.

Lemma idsAreIndices_annotations :
  forall (g : Game) (e : list nat) (z : list (nat * list nat)) (b : bool),
    idsAreIndices g ->
    idsAreIndices
      (set_roadNetwork
         (mkRoadNetwork (points (roadNetwork g)) (connections (roadNetwork g)) e z b) g).
Proof. intros g e z b H. exact H. Qed.

Lemma idsAreIndices_rebuildSteps : forall (fuel : nat) (g : Game),
  idsAreIndices (gameOf (rebuildSteps fuel g)).
Proof.
  intros fuel g. unfold rebuildSteps.
  assert (H : leads (fun _ => True)
                (bind (modify (fun g =>
                         set_pointIdCounter 0
                           (set_roadNetwork
                              (mkRoadNetwork [] [] [] [] (needsRebuild (roadNetwork g))) g)))
                   (fun _ => bind get (fun g =>
                      bind (forEach (roadZones g) (extractRoadCenterline fuel)) (fun _ =>
                      bind (connectNearbyWaypoints fuel) (fun _ =>
                      bind identifyEdgePoints (fun _ =>
                      bind findZoneEntryPoints (fun _ => clearNeedsRebuild)))))))
                idsAreIndices).
  { apply (leads_bind _ counterInStep).
    - intros g0 _. split; [|reflexivity]. intros i w Hi. destruct i; discriminate Hi.
    - intros g0 H0. exact (proj1 H0).
    - intros _. apply (leads_bind _ counterInStep).
      + apply preserves_get.
      + intros g0 H0. exact (proj1 H0).
      + intros g1. apply (leads_bind _ counterInStep).
        * apply preserves_forEach. intros zone.
          apply I_extractRoadCenterline. exact counterInStep_addWaypoint.
        * intros g0 H0. exact (proj1 H0).
        * intros _ g2 H2.
          assert (Hrest : preserves idsAreIndices
                    (bind (connectNearbyWaypoints fuel) (fun _ =>
                     bind identifyEdgePoints (fun _ =>
                     bind findZoneEntryPoints (fun _ => clearNeedsRebuild))))).
          { apply preserves_bind.
            - apply I_connectNearbyWaypoints.
              + intros i j. apply idsAreIndices_of_samePoints. intros pts.
                apply samePoints_connectPair.
              + exact idsAreIndices_markIntersection.
              + exact idsAreIndices_addApproach.
              + intros i. apply idsAreIndices_of_samePoints. intros pts.
                apply samePoints_sortConnections.
            - intros _. apply preserves_bind.
              + apply I_identifyEdgePoints. exact idsAreIndices_annotations.
              + intros _. apply preserves_bind.
                * apply I_findZoneEntryPoints. exact idsAreIndices_annotations.
                * intros _. apply I_clearNeedsRebuild. exact idsAreIndices_annotations. }
          exact (Hrest g2 (proj1 H2)). }
  exact (H g I).
Qed.

Lemma idsAreIndices_rebuilt : forall (fuel : nat) (g : Game),
  idsAreIndices (gameOf (buildRoadNetwork fuel g)).
Proof.
  intros fuel g. unfold buildRoadNetwork, buildRoadNetworkWith, tryCatch.
  pose proof (idsAreIndices_rebuildSteps fuel g) as H.
  destruct (rebuildSteps fuel g) as [x g'|e g'|g']; simpl in *; exact H.
Qed.

(** X7: wherever a rebuild stands, and so after every completed rebuild, the
    id of every waypoint is its index in [points]; the ids that addWaypoint
    hands out and the indices that the adjacency lists hold name the same
    waypoints. *)
Theorem rebuild_ids_are_indices : forall (fuel : nat) (g : Game) (i : nat) (w : Waypoint),
  nth_error (points (roadNetwork (gameOf (buildRoadNetwork fuel g)))) i = Some w ->
  id w = i.
Proof. intros fuel g. exact (idsAreIndices_rebuilt fuel g). Qed.

(** X8: wherever a rebuild stands, [connections] has one adjacency list per
    waypoint, and every entry of an adjacency list is the index of an
    existing waypoint with an adjacency list of its own: following
    connections never reads an undefined waypoint. *)
Theorem rebuild_neighbours_exist :
  forall (fuel : nat) (g : Game) (i j : nat) (ci : list nat),
  nth_error (connections (roadNetwork (gameOf (buildRoadNetwork fuel g)))) i = Some ci ->
  In j ci ->
  List.length (connections (roadNetwork (gameOf (buildRoadNetwork fuel g))))
    = List.length (points (roadNetwork (gameOf (buildRoadNetwork fuel g)))) /\
  (exists wj, nth_error (points (roadNetwork (gameOf (buildRoadNetwork fuel g)))) j
              = Some wj) /\
  (exists cj, nth_error (connections (roadNetwork (gameOf (buildRoadNetwork fuel g)))) j
              = Some cj).
Proof.
  intros fuel g i j ci Hi Hj.
  destruct (graphShape_rebuilt fuel g) as [Hlen Hsym].
  destruct (Hsym i j (ex_intro _ ci (conj Hi Hj))) as [cj [Hcj _]].
  split; [exact Hlen|]. split; [|exists cj; exact Hcj].
  destruct (nth_error_in_range _ _ _ (points (roadNetwork (gameOf (buildRoadNetwork fuel g))))
              j cj (eq_sym Hlen) Hcj) as [wj Hwj].
  exists wj. exact Hwj.
Qed.

End GraphFacts.

Module GraphRuns.

Import Scenario.
Local Open Scope float_scope.

Lemma rebuild_ids_are_indices_witness :
  nth_error (points (roadNetwork (gameOf (@buildRoadNetwork F 50 crossing)))) 1
    = Some (@mkWaypoint F 1 1025 1018 (Some 40) (Some 1) true false false false None) /\
  id (@mkWaypoint F 1 1025 1018 (Some 40) (Some 1) true false false false None) = 1%nat.
Proof.
  split; [reflexivity|].
  apply (@rebuild_ids_are_indices F 50 crossing 1). reflexivity.
Defined.

Lemma rebuild_neighbours_exist_witness :
  nth_error (connections (roadNetwork (gameOf (@buildRoadNetwork F 50 crossing)))) 2
    = Some [4; 0; 5; 1; 3]%nat /\
  In 5%nat [4; 0; 5; 1; 3]%nat /\
  exists wj, nth_error (points (roadNetwork (gameOf (@buildRoadNetwork F 50 crossing)))) 5
             = Some wj.
Proof.
  split; [reflexivity|]. split; [simpl; tauto|].
  apply (proj1 (proj2 (@rebuild_neighbours_exist F 50 crossing 2 5 [4; 0; 5; 1; 3]%nat
                         eq_refl ltac:(simpl; tauto)))).
Defined.

End GraphRuns.

(* ===================================================================== *)
(** ** Ordering the circles of a segment *)
(* ===================================================================== *)

Section FlowFacts.

Context {A : Arith}.

Lemma closestRemaining_range :
  forall (lastPoint : Circle) (remaining : list Circle) (i closestIndex : nat)
         (closestDistance : option num),
  closestRemaining lastPoint remaining i closestIndex closestDistance = closestIndex \/
  i <= closestRemaining lastPoint remaining i closestIndex closestDistance
    < i + List.length remaining.
Proof.
  intros lastPoint remaining. induction remaining as [|r rest IH];
    intros i c cd; simpl; [left; reflexivity|].
  match goal with |- context [if ?b then _ else _] => destruct b end.
  - destruct (IH (S i) i (Some (nhypot (nsub (cx lastPoint) (cx r))
                                       (nsub (cy lastPoint) (cy r))))) as [H|H].
    + right. rewrite H. lia.
    + right. lia.
  - destruct (IH (S i) c cd) as [H|H]; [left; exact H | right; lia].
Qed.

Lemma list_remove_perm : forall (X : Type) (l : list X) (i : nat) (v : X),
  nth_error l i = Some v -> Permutation (v :: list_remove i l) l.
Proof.
  intros X l i v H. destruct (nth_error_split l i H) as [l1 [l2 [E Hl]]].
  subst l. rewrite <- Hl. rewrite list_remove_split. apply Permutation_middle.
Qed.

Lemma length_list_remove : forall (X : Type) (l : list X) (i : nat) (v : X),
  nth_error l i = Some v -> S (List.length (list_remove i l)) = List.length l.
Proof.
  intros X l i v H. destruct (nth_error_split l i H) as [l1 [l2 [E Hl]]].
  subst l. rewrite <- Hl. rewrite list_remove_split. rewrite !length_app. simpl. lia.
Qed.

Lemma flowLoop_perm : forall (n : nat) (lastPoint : Circle) (sorted remaining : list Circle),
  n = List.length remaining ->
  Permutation (flowLoop n lastPoint sorted remaining) (sorted ++ remaining) /\
  (forall first, hd_error sorted = Some first ->
                 hd_error (flowLoop n lastPoint sorted remaining) = Some first).
Proof.
  induction n as [|n IH]; intros lastPoint sorted remaining Hn; simpl.
  - destruct remaining; [|discriminate Hn]. rewrite app_nil_r.
    split; [apply Permutation_refl | tauto].
  - assert (Hidx : closestRemaining lastPoint remaining 0 0 None < List.length remaining).
    { destruct (closestRemaining_range lastPoint remaining 0 0 None) as [H|H]; lia. }
    apply nth_error_Some in Hidx.
    destruct (nth_error remaining (closestRemaining lastPoint remaining 0 0 None))
      as [next|] eqn:E; [|contradiction].
    destruct (IH next (sorted ++ [next])
                (list_remove (closestRemaining lastPoint remaining 0 0 None) remaining))
      as [Hp Hh].
    + pose proof (length_list_remove _ _ _ _ E). lia.
    + split.
      * eapply Permutation_trans; [exact Hp|].
        rewrite <- app_assoc. apply Permutation_app_head. simpl.
        apply list_remove_perm. exact E.
      * intros first Hf. apply Hh. destruct sorted; [discriminate Hf | exact Hf].
Qed.

(** X9: sortPointsForFlow only reorders. Its result holds the circles of
    the segment, each as often as the segment does, and starts with the
    first circle of the segment. *)
Theorem sortPointsForFlow_reorders : forall pts : list Circle,
  Permutation (sortPointsForFlow pts) pts /\
  hd_error (sortPointsForFlow pts) = hd_error pts /\
  List.length (sortPointsForFlow pts) = List.length pts.
Proof.
  intros pts.
  assert (H : Permutation (sortPointsForFlow pts) pts /\
              hd_error (sortPointsForFlow pts) = hd_error pts).
  { unfold sortPointsForFlow. destruct pts as [|first [|second rest]].
    - split; [apply Permutation_refl | reflexivity].
    - split; [apply Permutation_refl | reflexivity].
    - destruct (flowLoop_perm (List.length (second :: rest)) first [first] (second :: rest)
                  eq_refl) as [Hp Hh].
      split; [exact Hp | exact (Hh first eq_refl)]. }
  destruct H as [Hp Hh]. split; [exact Hp|]. split; [exact Hh|].
  apply Permutation_length. exact Hp.
Qed.

End FlowFacts.

(* ===================================================================== *)
(** ** The closest waypoint, in real arithmetic *)
(* ===================================================================== *)

Section ClosestFacts.

Local Open Scope R_scope.

Variables x y : @num RArith.

(** The distance findClosestNetworkPoint measures. *)
Definition reach (w : @Waypoint RArith) : R := RealNum.hypot (x - wx w) (y - wy w).

Lemma closestWaypoint_spec :
  forall (l : list (@Waypoint RArith)) (i : nat) (closestId : option nat)
         (closestDistance : option (@num RArith)),
  (closestWaypoint x y l i closestId closestDistance = closestId /\
   forall w, In w l -> match closestDistance with
                       | Some d => d <= reach w
                       | None => False
                       end) \/
  (exists (k : nat) (w : @Waypoint RArith),
     closestWaypoint x y l i closestId closestDistance = Some (i + k)%nat /\
     nth_error l k = Some w /\
     match closestDistance with
     | Some d => reach w < d
     | None => True
     end /\
     forall (j : nat) (wj : @Waypoint RArith), nth_error l j = Some wj ->
       reach w <= reach wj /\ ((j < k)%nat -> reach w < reach wj)).
Proof.
  induction l as [|h t IH]; intros i cid cd.
  - left. split; [reflexivity | intros w []].
  - cbn [closestWaypoint]. cbv zeta.
    change (nhypot (x - wx h)%num (y - wy h)%num) with (reach h).
    assert (Hcases : (match cd with
                      | None => @lt_infinity RArith (reach h)
                      | Some d => @nltb RArith (reach h) d
                      end = true /\
                      match cd with Some d => reach h < d | None => True end) \/
                     (match cd with
                      | None => @lt_infinity RArith (reach h)
                      | Some d => @nltb RArith (reach h) d
                      end = false /\
                      exists d, cd = Some d /\ d <= reach h)).
    { destruct cd as [d|].
      - change (@nltb RArith (reach h) d) with (RealNum.ltb (reach h) d).
        destruct (RealNum.ltb (reach h) d) eqn:E.
        + left. split; [reflexivity | apply ltb_true; exact E].
        + right. split; [reflexivity|]. exists d. split; [reflexivity|].
          apply ltb_false. exact E.
      - left. split; reflexivity. }
    destruct Hcases as [[Hb Hlt]|[Hb [d [-> Hge]]]]; rewrite Hb.
    + right. destruct (IH (S i) (Some i) (@Some (@num RArith) (reach h))) as [[Hr Hall]|[k [w [Hr [Hk [Hw Hmin]]]]]].
      * exists 0%nat, h. rewrite Hr, Nat.add_0_r.
        split; [reflexivity|]. split; [reflexivity|]. split; [exact Hlt|].
        intros j wj Hj. destruct j as [|j].
        -- inversion Hj; subst wj. split; [lra | lia].
        -- split; [apply Hall; eapply nth_error_In; exact Hj | lia].
      * exists (S k), w. rewrite Hr.
        split; [f_equal; lia|]. split; [exact Hk|].
        split; [destruct cd; [lra | exact I]|].
        intros j wj Hj. destruct j as [|j].
        -- inversion Hj; subst wj. split; [lra | intros _; exact Hw].
        -- destruct (Hmin j wj Hj) as [H1 H2]. split; [exact H1 | intros; apply H2; lia].
    + destruct (IH (S i) cid (@Some (@num RArith) d)) as [[Hr Hall]|[k [w [Hr [Hk [Hw Hmin]]]]]].
      * left. split; [exact Hr|]. intros w [<-|Hw]; [exact Hge | exact (Hall w Hw)].
      * right. exists (S k), w. rewrite Hr.
        split; [f_equal; lia|]. split; [exact Hk|]. split; [exact Hw|].
        intros j wj Hj. destruct j as [|j].
        -- inversion Hj; subst wj. split; [lra | intros _; lra].
        -- destruct (Hmin j wj Hj) as [H1 H2]. split; [exact H1 | intros; apply H2; lia].
Qed.

(** X10, in real arithmetic: findClosestNetworkPoint returns -1 exactly
    when the network has no waypoint; otherwise it returns the index of a
    waypoint that no waypoint is closer to (x, y) than, the first such
    index. *)
Theorem findClosestNetworkPoint_is_closest : forall g : @Game RArith,
  (findClosestNetworkPoint g x y = None <-> points (roadNetwork g) = []) /\
  (forall k : nat, findClosestNetworkPoint g x y = Some k ->
     exists w, nth_error (points (roadNetwork g)) k = Some w /\
       forall (j : nat) (wj : @Waypoint RArith),
         nth_error (points (roadNetwork g)) j = Some wj ->
         reach w <= reach wj /\ ((j < k)%nat -> reach w < reach wj)).
Proof.
  intros g. unfold findClosestNetworkPoint.
  destruct (closestWaypoint_spec (points (roadNetwork g)) 0 None None)
    as [[Hr Hall]|[k [w [Hr [Hk [_ Hmin]]]]]].
  - assert (E : points (roadNetwork g) = []).
    { destruct (points (roadNetwork g)) as [|h t]; [reflexivity|].
      destruct (Hall h (or_introl eq_refl)). }
    split; [split; intros _; [exact E | exact Hr]|].
    intros k Hk. rewrite Hr in Hk. discriminate Hk.
  - rewrite Hr. split.
    + split; [discriminate|]. intros E. rewrite E in Hk. destruct k; discriminate Hk.
    + intros k' Hk'. inversion Hk'; subst k'. exists w. split; [exact Hk | exact Hmin].
Qed.

End ClosestFacts.

(* ===================================================================== *)
(** ** Paths on the waypoint graph *)
(* ===================================================================== *)

Section NetworkPathFacts.

Context {A : Arith}.

(** [path] leads from [s] to [p] along connections: it is [s] alone, or a
    path to a waypoint extended by one of its neighbours. *)
Inductive walkTo (conns : list (list nat)) (s : nat) : nat -> list nat -> Prop :=
| walk_start : walkTo conns s s [s]
| walk_step : forall (p n : nat) (path : list nat),
    walkTo conns s p path -> adjacent conns p n -> walkTo conns s n (path ++ [n]).

Lemma walkTo_ends : forall (conns : list (list nat)) (s p : nat) (path : list nat),
  walkTo conns s p path -> hd_error path = Some s /\ last path s = p.
Proof.
  intros conns s p path H. induction H as [|p n path H [IHh IHl] Hadj].
  - split; reflexivity.
  - split.
    + destruct path; [discriminate IHh | exact IHh].
    + apply last_last.
Qed.

Lemma walkTo_nonempty : forall (conns : list (list nat)) (s p : nat) (path : list nat),
  walkTo conns s p path -> path <> [].
Proof.
  intros conns s p path H. inversion H; [discriminate|].
  intros E. apply app_eq_nil in E. destruct E as [_ E]. discriminate E.
Qed.

Lemma walkTo_steps : forall (conns : list (list nat)) (s p : nat) (path : list nat),
  walkTo conns s p path ->
  forall (k a b : nat), nth_error path k = Some a -> nth_error path (S k) = Some b ->
    adjacent conns a b.
Proof.
  intros conns s p path H. induction H as [|p n path H IH Hadj]; intros k a b Ha Hb.
  - destruct k; discriminate Hb.
  - destruct (walkTo_ends _ _ _ _ H) as [_ Hlast].
    pose proof (walkTo_nonempty _ _ _ _ H) as Hne.
    destruct (Nat.lt_ge_cases (S k) (List.length path)) as [Hlt|Hge].
    + rewrite nth_error_app1 in Ha by lia. rewrite nth_error_app1 in Hb by lia.
      exact (IH k a b Ha Hb).
    + assert (Hk : S k = List.length path).
      { assert (S k < List.length (path ++ [n])) by (apply nth_error_Some; rewrite Hb; discriminate).
        rewrite length_app in H0. simpl in H0. lia. }
      rewrite nth_error_app2 in Hb by lia. rewrite Hk, Nat.sub_diag in Hb.
      inversion Hb; subst b.
      rewrite nth_error_app1 in Ha by lia.
      assert (Ea : a = p).
      { rewrite <- Hlast. destruct (exists_last Hne) as [front [z Ez]]. subst path.
        rewrite last_last. rewrite length_app in Hk. simpl in Hk.
        rewrite nth_error_app2 in Ha by lia.
        replace (k - List.length front)%nat with 0%nat in Ha by lia.
        inversion Ha. reflexivity. }
      subst a. exact Hadj.
Qed.

Variable g : Game.

Let conns : list (list nat) := connections (roadNetwork g).

(** The search does not change the game; what it returns is the empty path
    or the waypoints of a walk to the target. *)
Lemma networkSearch_sound :
  forall (s targetPointId fuel : nat) (queue : list (nat * list nat)) (visited : list nat)
         (pts : list Point) (g' : Game),
  (forall entry, In entry queue -> walkTo conns s (fst entry) (snd entry)) ->
  networkSearch fuel targetPointId queue visited g = Ret pts g' ->
  g' = g /\
  (pts = [] \/
   exists path, walkTo conns s targetPointId path /\
                pathPoints (points (roadNetwork g)) path = Some pts).
Proof.
  intros s t. induction fuel as [|fuel IH]; intros queue visited pts g' Hq; simpl.
  - discriminate.
  - destruct queue as [|[pointId path] queue].
    + intros H. inversion H. split; [reflexivity | left; reflexivity].
    + destruct (mem pointId visited).
      * apply IH. intros entry Hin. apply Hq. right. exact Hin.
      * destruct (Nat.eqb pointId t) eqn:Et.
        -- apply Nat.eqb_eq in Et. subst pointId.
           unfold resolvePath, bind, get, ret, throw.
           destruct (pathPoints (points (roadNetwork g)) path) as [l|] eqn:El;
             [|discriminate].
           intros H. inversion H; subst. split; [reflexivity|]. right.
           exists path. split; [exact (Hq (t, path) (or_introl eq_refl)) | exact El].
        -- unfold bind at 1, get at 1. apply IH.
           intros entry Hin. apply in_app_or in Hin. destruct Hin as [Hin|Hin].
           ++ apply Hq. right. exact Hin.
           ++ apply in_map_iff in Hin. destruct Hin as [n [<- Hn]].
              apply filter_In in Hn. destruct Hn as [Hn _]. simpl.
              apply (walk_step conns s pointId n path).
              ** exact (Hq (pointId, path) (or_introl eq_refl)).
              ** unfold adjacent, conns.
                 destruct (nth_error (connections (roadNetwork g)) pointId) as [l|];
                   [exists l; split; [reflexivity | exact Hn] | destruct Hn].
Qed.

(** The number of neighbours the waypoints of [l] not yet visited can still
    put on the queue. *)
Definition degree (p : nat) : nat :=
  List.length (match nth_error conns p with Some l => l | None => [] end).

Definition pending (visited l : list nat) : nat :=
  list_sum (map (fun p => if mem p visited then 0 else degree p) l).

Lemma pending_cons : forall (visited l : list nat) (q : nat),
  pending visited (q :: l) = (if mem q visited then 0 else degree q) + pending visited l.
Proof. reflexivity. Qed.

Lemma mem_cons : forall (q p : nat) (visited : list nat),
  mem q (p :: visited) = Nat.eqb q p || mem q visited.
Proof. reflexivity. Qed.

Lemma pending_visit_other : forall (p : nat) (visited l : list nat),
  ~ In p l -> pending (p :: visited) l = pending visited l.
Proof.
  intros p visited l. induction l as [|q l IH]; intros Hn; [reflexivity|].
  rewrite !pending_cons, mem_cons.
  replace (Nat.eqb q p) with false
    by (symmetry; apply Nat.eqb_neq; intros E; apply Hn; left; exact E).
  rewrite IH; [reflexivity|]. intros H. apply Hn. right. exact H.
Qed.

Lemma pending_visit : forall (p : nat) (visited l : list nat),
  NoDup l -> In p l -> mem p visited = false ->
  pending (p :: visited) l + degree p = pending visited l.
Proof.
  intros p visited l Hnd. induction Hnd as [|q l Hq Hnd IH]; intros Hin Hp; [destruct Hin|].
  rewrite !pending_cons, mem_cons. destruct Hin as [->|Hin].
  - rewrite Nat.eqb_refl, Hp. simpl.
    rewrite (pending_visit_other p visited l Hq). lia.
  - replace (Nat.eqb q p) with false
      by (symmetry; apply Nat.eqb_neq; intros E; subst q; contradiction).
    simpl. specialize (IH Hin Hp). lia.
Qed.

Lemma networkSearch_returns :
  forall (targetPointId fuel : nat) (queue : list (nat * list nat)) (visited : list nat),
  List.length queue + pending visited (seq 0 (List.length conns)) < fuel ->
  forall g', networkSearch fuel targetPointId queue visited g <> Spin g'.
Proof.
  intros t. induction fuel as [|fuel IH]; intros queue visited Hf g'; [lia|]. simpl.
  destruct queue as [|[pointId path] queue]; [discriminate|].
  destruct (mem pointId visited) eqn:Em.
  - apply IH. simpl in Hf. lia.
  - destruct (Nat.eqb pointId t).
    + unfold resolvePath, bind, get, ret, throw.
      destruct (pathPoints _ _); discriminate.
    + unfold bind at 1, get at 1. apply IH.
      rewrite length_app, length_map. cbn [List.length] in Hf.
      match goal with
      | |- context [List.length (filter ?f ?l)] => pose proof (filter_length_le f l) as Hnext
      end.
      destruct (Nat.lt_ge_cases pointId (List.length conns)) as [Hlt|Hge].
      * pose proof (pending_visit pointId visited (seq 0 (List.length conns))
                      (seq_NoDup _ _) ltac:(apply in_seq; lia) Em) as Hv.
        unfold degree, conns in *. lia.
      * rewrite pending_visit_other by (rewrite in_seq; lia).
        assert (Hnone : nth_error (connections (roadNetwork g)) pointId = None)
          by (apply nth_error_None; exact Hge).
        rewrite Hnone in *. cbn [List.length] in Hnext. unfold conns in *. lia.
Qed.

Lemma pathPoints_defined : forall (s p : nat) (path : list nat),
  walkTo conns s p path ->
  (forall i j, adjacent conns i j -> j < List.length (points (roadNetwork g))) ->
  s < List.length (points (roadNetwork g)) ->
  exists pts, pathPoints (points (roadNetwork g)) path = Some pts /\ pts <> [].
Proof.
  intros s p path Hw Hvalid Hs.
  assert (Hall : forall q, In q path -> q < List.length (points (roadNetwork g))).
  { induction Hw as [|p n path Hw IH Hadj]; intros q Hq.
    - destruct Hq as [<-|[]]. exact Hs.
    - apply in_app_or in Hq. destruct Hq as [Hq|[<-|[]]]; [exact (IH q Hq)|].
      exact (Hvalid p n Hadj). }
  pose proof (walkTo_nonempty _ _ _ _ Hw) as Hne.
  clear Hw. induction path as [|q rest IH]; [contradiction|].
  simpl. assert (Hq : q < List.length (points (roadNetwork g))) by (apply Hall; left; reflexivity).
  apply nth_error_Some in Hq.
  destruct (nth_error (points (roadNetwork g)) q) as [w|]; [|contradiction].
  destruct rest as [|q' rest'].
  - simpl. eexists. split; [reflexivity | discriminate].
  - destruct IH as [pts [E _]]; [intros q0 Hq0; apply Hall; right; exact Hq0 | discriminate|].
    rewrite E. eexists. split; [reflexivity | discriminate].
Qed.

End NetworkPathFacts.

Section NetworkPathTheorem.

Context {A : Arith}.

(** X11: findNetworkPathBetweenNodes follows connections. It never changes
    the game. What it returns is the empty path or the waypoints of a path
    of ids that starts at the start id, ends at the target id and goes from
    each id to one of its neighbours. It always ends: with fuel beyond the
    number of adjacency entries it returns or throws. It throws only on an
    id without waypoint: when every adjacency entry and the start id name
    waypoints, it returns. *)
Theorem findNetworkPathBetweenNodes_follows_connections :
  forall (g : Game) (startPointId targetPointId : nat),
  (forall (fuel : nat) (pts : list Point) (g' : Game),
     findNetworkPathBetweenNodes fuel startPointId targetPointId g = Ret pts g' ->
     g' = g /\
     (pts = [] \/
      exists path : list nat,
        pathPoints (points (roadNetwork g)) path = Some pts /\
        hd_error path = Some startPointId /\
        last path startPointId = targetPointId /\
        forall (k a b : nat), nth_error path k = Some a -> nth_error path (S k) = Some b ->
          adjacent (connections (roadNetwork g)) a b)) /\
  (exists enough : nat, forall fuel : nat, enough <= fuel ->
     (exists pts, findNetworkPathBetweenNodes fuel startPointId targetPointId g = Ret pts g) \/
     findNetworkPathBetweenNodes fuel startPointId targetPointId g = Throw TypeError g) /\
  ((forall i j, adjacent (connections (roadNetwork g)) i j ->
      j < List.length (points (roadNetwork g))) ->
   startPointId < List.length (points (roadNetwork g)) ->
   forall fuel : nat,
     findNetworkPathBetweenNodes fuel startPointId targetPointId g <> Throw TypeError g).
Proof.
  intros g s t.
  assert (Hsound : forall (fuel : nat) (pts : list Point) (g' : Game),
            findNetworkPathBetweenNodes fuel s t g = Ret pts g' ->
            g' = g /\
            (pts = [] \/
             exists path, walkTo (connections (roadNetwork g)) s t path /\
                          pathPoints (points (roadNetwork g)) path = Some pts)).
  { intros fuel pts g'. unfold findNetworkPathBetweenNodes.
    destruct (Nat.eqb s t) eqn:E.
    - apply Nat.eqb_eq in E. subst t. unfold resolvePath, bind, get, ret, throw.
      destruct (pathPoints (points (roadNetwork g)) [s]) as [l|] eqn:El; [|discriminate].
      intros H. inversion H; subst. split; [reflexivity|]. right.
      exists [s]. split; [apply walk_start | exact El].
    - apply (networkSearch_sound g s).
      intros entry [<-|[]]. apply walk_start. }
  split; [|split].
  - intros fuel pts g' H. destruct (Hsound fuel pts g' H) as [Eg [Hp|[path [Hw Hp]]]].
    + split; [exact Eg | left; exact Hp].
    + split; [exact Eg|]. right. exists path.
      destruct (walkTo_ends _ _ _ _ Hw) as [Hh Hl].
      split; [exact Hp|]. split; [exact Hh|]. split; [exact Hl|].
      exact (walkTo_steps _ _ _ _ Hw).
  - exists (2 + pending g [] (seq 0 (List.length (connections (roadNetwork g))))).
    intros fuel Hf.
    destruct (findNetworkPathBetweenNodes fuel s t g) as [pts g'|e g'|g'] eqn:E.
    + left. exists pts. destruct (Hsound fuel pts g' E) as [-> _]. reflexivity.
    + right. revert E. unfold findNetworkPathBetweenNodes.
      assert (Hthrow : forall (fuel : nat) queue visited,
                networkSearch fuel t queue visited g = Throw e g' ->
                e = TypeError /\ g' = g).
      { clear. induction fuel as [|fuel IH]; intros queue visited; simpl; [discriminate|].
        destruct queue as [|[pointId path] queue]; [discriminate|].
        destruct (mem pointId visited); [apply IH|].
        destruct (Nat.eqb pointId t).
        - unfold resolvePath, bind, get, ret, throw.
          destruct (pathPoints _ _); [discriminate|].
          intros H. inversion H. split; reflexivity.
        - unfold bind at 1, get at 1. apply IH. }
      destruct (Nat.eqb s t).
      * unfold resolvePath, bind, get, ret, throw.
        destruct (pathPoints _ _); [discriminate|].
        intros H. inversion H. reflexivity.
      * intros H. destruct (Hthrow _ _ _ H) as [-> ->]. reflexivity.
    + exfalso. revert E. unfold findNetworkPathBetweenNodes.
      destruct (Nat.eqb s t).
      * unfold resolvePath, bind, get, ret, throw. destruct (pathPoints _ _); discriminate.
      * apply networkSearch_returns. simpl. lia.
  - intros Hvalid Hs fuel. unfold findNetworkPathBetweenNodes.
    assert (Hnothrow : forall (fuel : nat) queue visited,
              (forall entry, In entry queue ->
                 walkTo (connections (roadNetwork g)) s (fst entry) (snd entry)) ->
              networkSearch fuel t queue visited g <> Throw TypeError g).
    { clear fuel. induction fuel as [|fuel IH]; intros queue visited Hq; simpl; [discriminate|].
      destruct queue as [|[pointId path] queue]; [discriminate|].
      destruct (mem pointId visited).
      - apply IH. intros entry Hin. apply Hq. right. exact Hin.
      - destruct (Nat.eqb pointId t).
        + unfold resolvePath, bind, get, ret, throw.
          destruct (pathPoints_defined g s pointId path
                      (Hq (pointId, path) (or_introl eq_refl)) Hvalid Hs) as [pts [E _]].
          rewrite E. discriminate.
        + unfold bind at 1, get at 1. apply IH.
          intros entry Hin. apply in_app_or in Hin. destruct Hin as [Hin|Hin].
          * apply Hq. right. exact Hin.
          * apply in_map_iff in Hin. destruct Hin as [n [<- Hn]].
            apply filter_In in Hn. destruct Hn as [Hn _]. simpl.
            apply (walk_step _ s pointId n path).
            -- exact (Hq (pointId, path) (or_introl eq_refl)).
            -- unfold adjacent.
               destruct (nth_error (connections (roadNetwork g)) pointId) as [l|];
                 [exists l; split; [reflexivity | exact Hn] | destruct Hn]. }
    destruct (Nat.eqb s t).
    + unfold resolvePath, bind, get, ret, throw.
      destruct (pathPoints_defined g s s [s] (walk_start _ s) Hvalid Hs) as [pts [E _]].
      rewrite E. discriminate.
    + apply Hnothrow. intros entry [<-|[]]. apply walk_start.
Qed.

End NetworkPathTheorem.

(* ===================================================================== *)
(** ** What a completed rebuild records *)
(* ===================================================================== *)

Section AnnotationFacts.

Context {A : Arith}.

Lemma bind_returns : forall (X Y : Type) (m : M X) (k : X -> M Y) (g g' : Game) (y : Y),
  bind m k g = Ret y g' ->
  exists (x : X) (g1 : Game), m g = Ret x g1 /\ k x g1 = Ret y g'.
Proof.
  intros X Y m k g g' y. unfold bind.
  destruct (m g) as [x g1|e g1|g1]; [|discriminate|discriminate].
  intros H. exists x, g1. split; [reflexivity | exact H].
Qed.

Lemma indicesWhere_In : forall (X : Type) (f : X -> bool) (l : list X) (i : nat),
  In i (indicesWhere f l) <-> exists v, nth_error l i = Some v /\ f v = true.
Proof.
  intros X f l i. unfold indicesWhere. rewrite filter_In, in_seq. split.
  - intros [_ H]. destruct (nth_error l i) as [v|]; [|discriminate].
    exists v. split; [reflexivity | exact H].
  - intros [v [Hv Hf]]. split.
    + split; [lia|]. simpl. apply nth_error_Some. rewrite Hv. discriminate.
    + rewrite Hv. exact Hf.
Qed.

Lemma indicesWhere_NoDup : forall (X : Type) (f : X -> bool) (l : list X),
  NoDup (indicesWhere f l).
Proof. intros X f l. unfold indicesWhere. apply NoDup_filter. apply seq_NoDup. Qed.

Lemma map_get_map_set : forall (V : Type) (k k' : nat) (v : V) (m : list (nat * V)),
  map_get k' (map_set k v m) = if Nat.eqb k' k then Some v else map_get k' m.
Proof.
  intros V k k' v m. unfold map_set. simpl.
  destruct (Nat.eqb k' k) eqn:E; [reflexivity|].
  induction m as [|[q w] m IH]; simpl; [reflexivity|].
  destruct (Nat.eqb k q) eqn:Ekq; simpl.
  - apply Nat.eqb_eq in Ekq. subst q. rewrite E. exact IH.
  - destruct (Nat.eqb k' q); [reflexivity | exact IH].
Qed.

(** What the waypoint phase of the rebuild leaves alone: the annotations,
    still empty, and the zones. *)
Definition untouched (res road : list Zone) (g : Game) : Prop :=
  edgePoints (roadNetwork g) = [] /\ zoneEntries (roadNetwork g) = [] /\
  residentialZones g = res /\ roadZones g = road.

Lemma untouched_pushConnection : forall res road i j,
  preserves (untouched res road) (pushConnection i j).
Proof.
  intros res road i j. unfold pushConnection. pres.
  apply preserves_modify. intros g H. exact H.
Qed.

Lemma untouched_addWaypoint : forall res road (x y : num) (metadata : Metadata),
  preserves (untouched res road) (addWaypoint x y metadata).
Proof.
  intros res road x y md g H. unfold addWaypoint.
  destruct (find _ _); exact H.
Qed.

Lemma untouched_connectPair : forall res road i j,
  preserves (untouched res road) (connectPair i j).
Proof.
  intros res road i j. unfold connectPair. pres_by untouched_pushConnection.
Qed.

Lemma untouched_markIntersection : forall res road i,
  preserves (untouched res road) (markIntersection i).
Proof.
  intros res road i. unfold markIntersection. pres.
  apply preserves_modify. intros g H. exact H.
Qed.

Lemma untouched_addApproach : forall res road i c,
  preserves (untouched res road) (addApproach i c).
Proof.
  intros res road i c. unfold addApproach. pres_by untouched_pushConnection.
  apply preserves_modify. intros g H. exact H.
Qed.

Lemma untouched_sortConnections : forall res road i,
  preserves (untouched res road) (sortConnections i).
Proof.
  intros res road i. unfold sortConnections. pres.
  apply preserves_modify. intros g H. exact H.
Qed.

(** The loop of findZoneEntryPoints from zone index [a] on. *)
Definition zoneEntryStep (zoneIndex : nat) : M unit :=
  bind get (fun g =>
    bind (nthOrThrow (residentialZones g) zoneIndex) (fun zone =>
      let entryPoints := indicesWhere (isZoneEntry zone) (points (roadNetwork g)) in
      modify (fun g =>
        let rn := roadNetwork g in
        set_roadNetwork
          (set_zoneEntries (map_set zoneIndex entryPoints (zoneEntries rn)) rn) g))).

Definition entriesUpTo (res : list Zone) (pts : list Waypoint) (e : list nat) (b : bool)
    (road : list Zone) (n : nat) (g : Game) : Prop :=
  residentialZones g = res /\ roadZones g = road /\
  points (roadNetwork g) = pts /\ edgePoints (roadNetwork g) = e /\
  needsRebuild (roadNetwork g) = b /\
  forall (k : nat) (zone : Zone), k < n -> nth_error res k = Some zone ->
    map_get k (zoneEntries (roadNetwork g)) = Some (indicesWhere (isZoneEntry zone) pts).

Lemma zoneEntryLoop : forall res pts e b road (len a : nat) (g g' : Game),
  forEach (seq a len) zoneEntryStep g = Ret tt g' ->
  entriesUpTo res pts e b road a g ->
  entriesUpTo res pts e b road (a + len) g'.
Proof.
  intros res pts e b road len. induction len as [|len IH]; intros a g g' H Hinv.
  - simpl in H. inversion H; subst g'. rewrite Nat.add_0_r. exact Hinv.
  - simpl in H. apply bind_returns in H. destruct H as [[] [g1 [H1 H2]]].
    replace (a + S len) with (S a + len) by lia.
    apply (IH (S a) g1 g' H2).
    destruct Hinv as [Hres [Hroad [Hpts [He [Hb Hent]]]]].
    unfold zoneEntryStep, bind, get, nthOrThrow, ret, throw, modify in H1.
    destruct (nth_error (residentialZones g) a) as [zone|] eqn:Ez; [|discriminate H1].
    inversion H1; subst g1. clear H1.
    split; [exact Hres|]. split; [exact Hroad|]. split; [exact Hpts|].
    split; [exact He|]. split; [exact Hb|].
    intros k zone' Hk Hz. cbn [zoneEntries roadNetwork set_roadNetwork set_zoneEntries].
    rewrite map_get_map_set. destruct (Nat.eqb k a) eqn:E.
    + apply Nat.eqb_eq in E. subst k. rewrite Hres in Ez. rewrite Ez in Hz.
      inversion Hz; subst zone'. rewrite Hpts. reflexivity.
    + apply Nat.eqb_neq in E. apply Hent; [lia | exact Hz].
Qed.

(** X12: what a rebuild that runs to its end records. The edge points are,
    each once, the indices of the waypoints within EDGE_THRESHOLD of the
    border of the world; the zone entries hold, for every residential zone,
    the indices of the waypoints in the annulus around one of its circles;
    the dirty flag is cleared, and the zones are as they were. *)
Theorem completed_rebuild_annotations : forall (fuel : nat) (g g' : Game),
  rebuildSteps fuel g = Ret tt g' ->
  (forall i : nat, In i (edgePoints (roadNetwork g')) <->
     exists w, nth_error (points (roadNetwork g')) i = Some w /\ isEdgePoint w = true) /\
  NoDup (edgePoints (roadNetwork g')) /\
  (forall (k : nat) (zone : Zone), nth_error (residentialZones g') k = Some zone ->
     exists entries, map_get k (zoneEntries (roadNetwork g')) = Some entries /\
       forall i : nat, In i entries <->
         exists w, nth_error (points (roadNetwork g')) i = Some w /\
                   isZoneEntry zone w = true) /\
  needsRebuild (roadNetwork g') = false /\
  residentialZones g' = residentialZones g /\
  roadZones g' = roadZones g.
Proof.
  intros fuel g g' H. unfold rebuildSteps in H.
  unfold bind at 1, modify at 1 in H.
  set (g0 := set_pointIdCounter 0
               (set_roadNetwork
                  (mkRoadNetwork [] [] [] [] (needsRebuild (roadNetwork g))) g)) in H.
  unfold bind at 1, get at 1 in H.
  assert (H0 : untouched (residentialZones g) (roadZones g) g0)
    by (repeat split; reflexivity).
  apply bind_returns in H. destruct H as [[] [g1 [H1 H]]].
  assert (Hg1 : untouched (residentialZones g) (roadZones g) g1).
  { assert (Hp : preserves (untouched (residentialZones g) (roadZones g))
                   (forEach (roadZones g0) (extractRoadCenterline fuel))).
    { apply preserves_forEach. intros zone. apply I_extractRoadCenterline.
      apply untouched_addWaypoint. }
    specialize (Hp g0 H0). rewrite H1 in Hp. exact Hp. }
  apply bind_returns in H. destruct H as [[] [g2 [H2 H]]].
  assert (Hg2 : untouched (residentialZones g) (roadZones g) g2).
  { assert (Hp : preserves (untouched (residentialZones g) (roadZones g))
                   (connectNearbyWaypoints fuel)).
    { apply I_connectNearbyWaypoints.
      - apply untouched_connectPair.
      - apply untouched_markIntersection.
      - apply untouched_addApproach.
      - apply untouched_sortConnections. }
    specialize (Hp g1 Hg1). rewrite H2 in Hp. exact Hp. }
  apply bind_returns in H. destruct H as [[] [g3 [H3 H]]].
  assert (Eg3 : g3 = set_roadNetwork
                      (set_edgePoints (edgePoints (roadNetwork g2)
                                         ++ indicesWhere isEdgePoint (points (roadNetwork g2)))
                         (roadNetwork g2)) g2)
    by (unfold identifyEdgePoints, modify in H3; inversion H3; reflexivity).
  clear H3.
  destruct Hg2 as [He2 [Hz2 [Hres2 Hroad2]]].
  apply bind_returns in H. destruct H as [[] [g4 [H4 H]]].
  assert (Eg' : g' = set_roadNetwork (set_needsRebuild false (roadNetwork g4)) g4)
    by (unfold clearNeedsRebuild, modify in H; inversion H; reflexivity).
  clear H.
  unfold findZoneEntryPoints in H4. unfold bind at 1, get at 1 in H4.
  assert (Hloop : entriesUpTo (residentialZones g) (points (roadNetwork g2))
                    (indicesWhere isEdgePoint (points (roadNetwork g2)))
                    (needsRebuild (roadNetwork g2)) (roadZones g)
                    (0 + List.length (residentialZones g3)) g4).
  { apply (zoneEntryLoop _ _ _ _ _ _ 0 g3 g4 H4).
    subst g3. cbn [residentialZones roadZones roadNetwork set_roadNetwork points
                   edgePoints set_edgePoints needsRebuild zoneEntries].
    rewrite He2. repeat split; try assumption. intros k zone Hk. lia. }
  destruct Hloop as [Hres [Hroad [Hpts [He [_ Hent]]]]].
  subst g'. cbn [residentialZones roadZones roadNetwork set_roadNetwork points
                 edgePoints set_needsRebuild needsRebuild zoneEntries].
  rewrite Hpts, He, Hres, Hroad.
  split; [intros i; apply indicesWhere_In|].
  split; [apply indicesWhere_NoDup|].
  split; [|repeat split; reflexivity].
  intros k zone Hz. exists (indicesWhere (isZoneEntry zone) (points (roadNetwork g2))).
  split; [|intros i; apply indicesWhere_In].
  apply Hent; [|exact Hz].
  assert (Hlen : residentialZones g3 = residentialZones g) by (subst g3; exact Hres2).
  rewrite Hlen. simpl. apply nth_error_Some. rewrite Hz. discriminate.
Qed.

End AnnotationFacts.

Module AnnotationRuns.

Import Scenario.
Local Open Scope float_scope.

(** The village: the road circle at (0, 100) gives the one waypoint
    (0, 100), which is an edge point and, 110 from the centre of the home
    circle of radius 60, none of its entries (the annulus ends at 100). *)
Example village_rebuilt :
  returned (@rebuildSteps F 50 (village [])) = true /\
  waypointsOf rebuiltVillage = [(0, 100, false)] /\
  edgePoints (roadNetwork rebuiltVillage) = [0%nat] /\
  zoneEntries (roadNetwork rebuiltVillage) = [(0%nat, [])] /\
  needsRebuild (roadNetwork rebuiltVillage) = false.
Proof. vm_compute. repeat split; reflexivity. Qed.

(** A call that returned, returned into the game it left. *)
Lemma returned_into : forall o : @Outcome F unit,
  returned o = true -> o = Ret tt (gameOf o).
Proof. intros [[] g|e g|g] H; [reflexivity | discriminate H | discriminate H]. Qed.

Lemma completed_rebuild_annotations_witness :
  @rebuildSteps F 50 (village []) = Ret tt rebuiltVillage /\
  NoDup (edgePoints (roadNetwork rebuiltVillage)) /\
  needsRebuild (roadNetwork rebuiltVillage) = false.
Proof.
  assert (H : @rebuildSteps F 50 (village []) = Ret tt rebuiltVillage).
  { apply returned_into. vm_compute. reflexivity. }
  split; [exact H|].
  pose proof (@completed_rebuild_annotations F 50 (village []) rebuiltVillage H) as T.
  split; [exact (proj1 (proj2 T)) | exact (proj1 (proj2 (proj2 (proj2 T))))].
Defined.

(** From waypoint 3 of the rebuilt crossing to waypoint 0: over the
    intersection and its approach waypoint. *)
Example crossing_path :
  positions (@findNetworkPathBetweenNodes F 20 3 0 rebuiltCrossing)
    = Some [(960, 1000); (1000, 1000); (1055, 1000)] /\
  positions (@findNetworkPathBetweenNodes F 20 3 3 rebuiltCrossing)
    = Some [(960, 1000)] /\
  positions (@findNetworkPathBetweenNodes F 20 3 7 rebuiltCrossing) = Some [].
Proof. vm_compute. repeat split; reflexivity. Qed.

End AnnotationRuns.

(* ===================================================================== *)
(** ** The path to a zone entry *)
(* ===================================================================== *)

Section EntryPathFacts.

Context {A : Arith}.

Variable g : Game.

Lemma mem_In : forall (n : nat) (l : list nat), mem n l = true <-> In n l.
Proof.
  intros n l. unfold mem. rewrite existsb_exists. split.
  - intros [m [Hm E]]. apply Nat.eqb_eq in E. subst m. exact Hm.
  - intros H. exists n. split; [exact H | apply Nat.eqb_refl].
Qed.

(** The search does not change the game; what it returns is the empty path
    or the waypoints of a walk to an entry point. *)
Lemma entrySearch_sound :
  forall (s : nat) (entryPoints : list nat) (fuel : nat) (queue : list (nat * list nat))
         (visited : list nat) (pts : list (option Waypoint)) (g' : Game),
  (forall entry, In entry queue ->
     walkTo (connections (roadNetwork g)) s (fst entry) (snd entry)) ->
  entrySearch fuel entryPoints queue visited g = Ret pts g' ->
  g' = g /\
  (pts = [] \/
   exists (path : list nat) (e : nat),
     walkTo (connections (roadNetwork g)) s e path /\ In e entryPoints /\
     pts = map (fun id => nth_error (points (roadNetwork g)) id) path).
Proof.
  intros s entryPoints. induction fuel as [|fuel IH]; intros queue visited pts g' Hq; simpl.
  - discriminate.
  - destruct queue as [|[pointId path] queue].
    + intros H. inversion H. split; [reflexivity | left; reflexivity].
    + destruct (mem pointId visited).
      * apply IH. intros entry Hin. apply Hq. right. exact Hin.
      * unfold bind at 1, get at 1.
        destruct (mem pointId entryPoints) eqn:Ee.
        -- intros H. inversion H; subst. split; [reflexivity|]. right.
           exists path, pointId. split; [exact (Hq (pointId, path) (or_introl eq_refl))|].
           split; [apply mem_In; exact Ee | reflexivity].
        -- apply IH.
           intros entry Hin. apply in_app_or in Hin. destruct Hin as [Hin|Hin].
           ++ apply Hq. right. exact Hin.
           ++ apply in_map_iff in Hin. destruct Hin as [n [<- Hn]].
              apply filter_In in Hn. destruct Hn as [Hn _]. simpl.
              apply (walk_step _ s pointId n path).
              ** exact (Hq (pointId, path) (or_introl eq_refl)).
              ** unfold adjacent.
                 destruct (nth_error (connections (roadNetwork g)) pointId) as [l|];
                   [exists l; split; [reflexivity | exact Hn] | destruct Hn].
Qed.

Lemma entrySearch_returns :
  forall (entryPoints : list nat) (fuel : nat) (queue : list (nat * list nat))
         (visited : list nat),
  List.length queue
    + pending g visited (seq 0 (List.length (connections (roadNetwork g)))) < fuel ->
  exists pts, entrySearch fuel entryPoints queue visited g = Ret pts g.
Proof.
  intros entryPoints. induction fuel as [|fuel IH]; intros queue visited Hf; [lia|]. simpl.
  destruct queue as [|[pointId path] queue]; [eexists; reflexivity|].
  destruct (mem pointId visited) eqn:Em.
  - apply IH. simpl in Hf. lia.
  - unfold bind at 1, get at 1.
    destruct (mem pointId entryPoints); [eexists; reflexivity|].
    apply IH.
    rewrite length_app, length_map. cbn [List.length] in Hf.
    match goal with
    | |- context [List.length (filter ?f ?l)] => pose proof (filter_length_le f l) as Hnext
    end.
    destruct (Nat.lt_ge_cases pointId (List.length (connections (roadNetwork g))))
      as [Hlt|Hge].
    + pose proof (pending_visit g pointId visited
                    (seq 0 (List.length (connections (roadNetwork g))))
                    (seq_NoDup _ _) ltac:(apply in_seq; lia) Em) as Hv.
      unfold degree in *. lia.
    + rewrite pending_visit_other by (rewrite in_seq; lia).
      assert (Hnone : nth_error (connections (roadNetwork g)) pointId = None)
        by (apply nth_error_None; exact Hge).
      rewrite Hnone in *. cbn [List.length] in Hnext. lia.
Qed.

End EntryPathFacts.

Section EntryPathTheorem.

Context {A : Arith}.

(** X13: findNetworkPath leads to an entry of the zone. It never changes
    the game and never throws; with fuel beyond the number of adjacency
    entries it returns. For a zone without recorded entries it returns the
    empty path. What it returns otherwise is the empty path or the
    waypoints of a path of ids that starts at the start id, goes from each id
    to one of its neighbours and ends at an entry point of the zone. *)
Theorem findNetworkPath_leads_to_an_entry :
  forall (g : Game) (startPointId targetZoneIndex : nat),
  (forall (fuel : nat) (pts : list (option Waypoint)) (g' : Game),
     findNetworkPath fuel startPointId targetZoneIndex g = Ret pts g' ->
     g' = g /\
     (pts = [] \/
      exists (path entryPoints : list nat),
        map_get targetZoneIndex (zoneEntries (roadNetwork g)) = Some entryPoints /\
        pts = map (fun id => nth_error (points (roadNetwork g)) id) path /\
        hd_error path = Some startPointId /\
        In (last path startPointId) entryPoints /\
        forall (k a b : nat), nth_error path k = Some a -> nth_error path (S k) = Some b ->
          adjacent (connections (roadNetwork g)) a b)) /\
  (exists enough : nat, forall fuel : nat, enough <= fuel ->
     exists pts, findNetworkPath fuel startPointId targetZoneIndex g = Ret pts g) /\
  (map_get targetZoneIndex (zoneEntries (roadNetwork g)) = None \/
   map_get targetZoneIndex (zoneEntries (roadNetwork g)) = Some [] ->
   forall fuel : nat, findNetworkPath fuel startPointId targetZoneIndex g = Ret [] g).
Proof.
  intros g s z. split; [|split].
  - intros fuel pts g'. unfold findNetworkPath, bind, get.
    destruct (map_get z (zoneEntries (roadNetwork g))) as [[|e0 entryPoints]|] eqn:Ez;
      try (intros H; inversion H; split; [reflexivity | left; reflexivity]).
    intros H.
    assert (Hq : forall entry : nat * list nat, In entry [(s, [s])] ->
              walkTo (connections (roadNetwork g)) s (fst entry) (snd entry))
      by (intros entry [<-|[]]; apply walk_start).
    destruct (entrySearch_sound g s (e0 :: entryPoints) fuel _ _ pts g' Hq H)
      as [Eg [Hp|[path [e [Hw [He Hp]]]]]].
    + split; [exact Eg | left; exact Hp].
    + split; [exact Eg|]. right. exists path, (e0 :: entryPoints).
      destruct (walkTo_ends _ _ _ _ Hw) as [Hh Hl].
      split; [reflexivity|]. split; [exact Hp|]. split; [exact Hh|].
      split; [rewrite Hl; exact He | exact (walkTo_steps _ _ _ _ Hw)].
  - exists (2 + pending g [] (seq 0 (List.length (connections (roadNetwork g))))).
    intros fuel Hf. unfold findNetworkPath, bind, get.
    destruct (map_get z (zoneEntries (roadNetwork g))) as [[|e0 entryPoints]|];
      try (eexists; reflexivity).
    apply entrySearch_returns. simpl. lia.
  - intros H fuel. unfold findNetworkPath, bind, get.
    destruct H as [H|H]; rewrite H; reflexivity.
Qed.

End EntryPathTheorem.

Module EntryPathRuns.

Import Scenario.

Local Open Scope float_scope.

(** The crossing with a home zone of radius 40 at (900, 1000), rebuilt: the
    waypoint 3 at (960, 1000) is the one entry of the zone. *)
Definition town : @Game F :=
  gameOf (@buildRoadNetwork F 50 (paint 900 1000 (select "residential" 40 crossing))).

Definition waypointsAlong (o : @Outcome F (list (option (@Waypoint F))))
    : option (list (option (float * float))) :=
  match o with
  | Ret l _ => Some (map (option_map (fun w => (wx w, wy w))) l)
  | _ => None
  end.

(** From waypoint 0 over the intersection to the entry; from the entry
    itself; to a zone that is not there; and from an id that is not there. *)
Example town_entry_paths :
  zoneEntries (roadNetwork town) = [(0%nat, [3%nat])] /\
  waypointsAlong (@findNetworkPath F 30 0 0 town)
    = Some [Some (1055, 1000); Some (1000, 1000); Some (960, 1000)] /\
  waypointsAlong (@findNetworkPath F 30 3 0 town) = Some [Some (960, 1000)] /\
  waypointsAlong (@findNetworkPath F 30 0 1 town) = Some [] /\
  waypointsAlong (@findNetworkPath F 30 9 0 town) = Some [].
Proof. vm_compute. repeat split; reflexivity. Qed.

End EntryPathRuns.

(* ===================================================================== *)
(** ** What moving, queueing and removing agents keep *)
(* ===================================================================== *)

Section PopulationFacts.

Context {A : Arith}.

(** What a tick never writes of an agent. *)
Definition sameIdentity (a a' : Agent) : Prop :=
  targetZoneIndex a' = targetZoneIndex a /\
  finalPosition a' = finalPosition a /\
  closestNodeToFinalPosition a' = closestNodeToFinalPosition a /\
  pathToNode a' = pathToNode a /\
  speed a' = speed a /\
  aradius a' = aradius a.

Lemma updateAgent_identity : forall (lotOf : Agent -> Lot) (agent : Agent),
  sameIdentity agent (updateAgent lotOf agent).
Proof.
  intros lotOf agent. unfold updateAgent, sameIdentity.
  destruct (phase agent).
  - unfold updateAgentTravelingToNode.
    destruct (pathToNode agent) eqn:Ep; [simpl; rewrite Ep; tauto|].
    destruct (nth_error _ _); [|simpl; rewrite Ep; tauto].
    destruct (nltb _ _); simpl; rewrite Ep; tauto.
  - unfold updateAgentTravelingToArea. destruct (nltb _ _); simpl; tauto.
  - unfold updateAgentSettling. destruct (nltb _ _); simpl; tauto.
  - tauto.
Qed.

Lemma updateAgentAt_frame : forall (g : Game) (i : nat),
  residentialZones (updateAgentAt g i) = residentialZones g /\
  roadZones (updateAgentAt g i) = roadZones g /\
  buildMode (updateAgentAt g i) = buildMode g /\
  roadNetwork (updateAgentAt g i) = roadNetwork g /\
  zoneConnections (updateAgentAt g i) = zoneConnections g /\
  agentSpawnQueue (updateAgentAt g i) = agentSpawnQueue g /\
  lastSpawnTime (updateAgentAt g i) = lastSpawnTime g /\
  randoms (updateAgentAt g i) = randoms g.
Proof.
  intros g i. unfold updateAgentAt. destruct (nth_error (agents g) i); simpl; tauto.
Qed.

Lemma updateAgents_frame : forall g : Game,
  residentialZones (updateAgents g) = residentialZones g /\
  roadZones (updateAgents g) = roadZones g /\
  buildMode (updateAgents g) = buildMode g /\
  roadNetwork (updateAgents g) = roadNetwork g /\
  zoneConnections (updateAgents g) = zoneConnections g /\
  agentSpawnQueue (updateAgents g) = agentSpawnQueue g /\
  lastSpawnTime (updateAgents g) = lastSpawnTime g /\
  randoms (updateAgents g) = randoms g.
Proof.
  intros g. unfold updateAgents. generalize (seq 0 (List.length (agents g))).
  intros l. revert g. induction l as [|i l IH]; intros g; simpl; [tauto|].
  destruct (IH (updateAgentAt g i)) as [H1 [H2 [H3 [H4 [H5 [H6 [H7 H8]]]]]]].
  destruct (updateAgentAt_frame g i) as [K1 [K2 [K3 [K4 [K5 [K6 [K7 K8]]]]]]].
  repeat split; congruence.
Qed.

Lemma nth_error_ext_map : forall (X Y : Type) (f : X -> Y) (l l' : list X),
  List.length l' = List.length l ->
  (forall i a, nth_error l i = Some a ->
     exists a', nth_error l' i = Some a' /\ f a' = f a) ->
  map f l' = map f l.
Proof.
  intros X Y f l. induction l as [|h t IH]; intros l' Hlen H.
  - destruct l'; [reflexivity | discriminate Hlen].
  - destruct l' as [|h' t']; [discriminate Hlen|]. simpl.
    destruct (H 0 h eq_refl) as [a' [Ha' Hf]]. inversion Ha'; subst a'.
    rewrite Hf. f_equal. apply IH; [simpl in Hlen; lia|].
    intros i a Hi. exact (H (S i) a Hi).
Qed.

Lemma agentsOfZone_by_targets : forall (zoneIndex : nat) (l : list Agent),
  List.length (agentsOfZone zoneIndex l)
    = List.length (filter (fun z => Nat.eqb z zoneIndex) (map targetZoneIndex l)).
Proof.
  intros z l. unfold agentsOfZone. induction l as [|a l IH]; simpl; [reflexivity|].
  destruct (Nat.eqb (targetZoneIndex a) z); simpl; rewrite IH; reflexivity.
Qed.

(** X14: updateAgents only moves agents. Every agent stays at its index
    with its target zone, settle position, path, speed and radius; the
    number of agents of every zone is what it was; and nothing of the game
    but the agents is written. *)
Theorem updateAgents_only_moves_agents : forall g : Game,
  (forall (i : nat) (agent : Agent), nth_error (agents g) i = Some agent ->
     exists agent', nth_error (agents (updateAgents g)) i = Some agent' /\
                    sameIdentity agent agent') /\
  List.length (agents (updateAgents g)) = List.length (agents g) /\
  (forall zoneIndex : nat,
     List.length (agentsOfZone zoneIndex (agents (updateAgents g)))
       = List.length (agentsOfZone zoneIndex (agents g))) /\
  residentialZones (updateAgents g) = residentialZones g /\
  roadZones (updateAgents g) = roadZones g /\
  roadNetwork (updateAgents g) = roadNetwork g /\
  agentSpawnQueue (updateAgents g) = agentSpawnQueue g.
Proof.
  intros g.
  assert (Hpt : forall (i : nat) (agent : Agent), nth_error (agents g) i = Some agent ->
            exists agent', nth_error (agents (updateAgents g)) i = Some agent' /\
                           sameIdentity agent agent').
  { intros i agent Ha. destruct (updateAgents_pointwise g i agent Ha) as [lotOf H].
    eexists. split; [exact H | apply updateAgent_identity]. }
  split; [exact Hpt|]. split; [apply updateAgents_length|]. split.
  - intros z. rewrite !agentsOfZone_by_targets. f_equal. f_equal.
    apply nth_error_ext_map; [apply updateAgents_length|].
    intros i a Ha. destruct (Hpt i a Ha) as [a' [Ha' Hid]].
    exists a'. split; [exact Ha' | exact (proj1 Hid)].
  - destruct (updateAgents_frame g) as [H1 [H2 [H3 [H4 [H5 [H6 _]]]]]]. tauto.
Qed.

(** X15: a settled agent is left exactly as it is, position and lot
    included, whatever the other agents do in the same pass. *)
Theorem settled_agents_stay : forall (g : Game) (i : nat) (agent : Agent),
  nth_error (agents g) i = Some agent ->
  phase agent = settled ->
  nth_error (agents (updateAgents g)) i = Some agent.
Proof.
  intros g i agent Ha Hs. destruct (updateAgents_pointwise g i agent Ha) as [lotOf H].
  rewrite H. unfold updateAgent. rewrite Hs. reflexivity.
Qed.

(** X16: processAgentSpawnQueue moves at most the head of the queue to the
    end of the live agents. The agents followed by the queue read the same
    before and after; at most one agent comes alive per call; and a call
    that brings no agent alive changes nothing, the time of the last spawn
    included. *)
Theorem processAgentSpawnQueue_moves_the_head : forall (currentTime : num) (g : Game),
  agents (processAgentSpawnQueue currentTime g)
    ++ agentSpawnQueue (processAgentSpawnQueue currentTime g)
    = agents g ++ agentSpawnQueue g /\
  (processAgentSpawnQueue currentTime g = g \/
   exists (agentConfig : Agent) (rest : list Agent),
     agentSpawnQueue g = agentConfig :: rest /\
     agents (processAgentSpawnQueue currentTime g) = agents g ++ [agentConfig] /\
     agentSpawnQueue (processAgentSpawnQueue currentTime g) = rest /\
     lastSpawnTime (processAgentSpawnQueue currentTime g) = currentTime /\
     nleb (spawnDelay g) (nsub currentTime (lastSpawnTime g)) = true).
Proof.
  intros t g. unfold processAgentSpawnQueue.
  destruct (nleb (spawnDelay g) (nsub t (lastSpawnTime g))) eqn:E;
    [|split; [reflexivity | left; reflexivity]].
  destruct (agentSpawnQueue g) as [|a rest] eqn:Eq;
    [split; [rewrite Eq; reflexivity | left; reflexivity]|].
  simpl. split.
  - rewrite <- app_assoc. reflexivity.
  - right. exists a, rest. repeat split; reflexivity.
Qed.

(** X17: removeAgentsFromZone removes the live agents of the zone and only
    them: afterwards no live agent targets the zone, the agents of every
    other zone are the same in the same order, and the spawn queue, with
    any agent still queued for the zone, is as it was. *)
Theorem removeAgentsFromZone_removes_the_zone : forall (zoneIndex : nat) (g : Game),
  agentsOfZone zoneIndex (agents (removeAgentsFromZone zoneIndex g)) = [] /\
  (forall other : nat, other <> zoneIndex ->
     agentsOfZone other (agents (removeAgentsFromZone zoneIndex g))
       = agentsOfZone other (agents g)) /\
  agentSpawnQueue (removeAgentsFromZone zoneIndex g) = agentSpawnQueue g /\
  removeAgentsFromZone zoneIndex (removeAgentsFromZone zoneIndex g)
    = removeAgentsFromZone zoneIndex g.
Proof.
  intros z g. unfold removeAgentsFromZone, agentsOfZone. simpl.
  split; [|split; [|split; [reflexivity|]]].
  - induction (agents g) as [|a l IH]; simpl; [reflexivity|].
    destruct (Nat.eqb (targetZoneIndex a) z) eqn:E; simpl; [exact IH|].
    rewrite E. exact IH.
  - intros other Hne. induction (agents g) as [|a l IH]; simpl; [reflexivity|].
    destruct (Nat.eqb (targetZoneIndex a) z) eqn:E; simpl.
    + apply Nat.eqb_eq in E.
      replace (Nat.eqb (targetZoneIndex a) other) with false
        by (symmetry; apply Nat.eqb_neq; congruence).
      exact IH.
    + destruct (Nat.eqb (targetZoneIndex a) other); [f_equal|]; exact IH.
  - unfold set_agents. simpl. f_equal.
    induction (agents g) as [|a l IH]; simpl; [reflexivity|].
    destruct (Nat.eqb (targetZoneIndex a) z) eqn:E; simpl; [exact IH|].
    rewrite E. simpl. f_equal. exact IH.
Qed.

End PopulationFacts.

Module PopulationMoveRuns.

Import Scenario.
Local Open Scope float_scope.

(** The walker after its four ticks is settled; as the only agent of a new
    game it is the same after one more update. *)
Lemma settled_agents_stay_witness :
  nth_error (agents (set_agents [trajectory noLots walker 4] (newGame []))) 0
    = Some (trajectory noLots walker 4) /\
  phase (trajectory noLots walker 4) = settled /\
  nth_error (agents (@updateAgents F
                       (set_agents [trajectory noLots walker 4] (newGame [])))) 0
    = Some (trajectory noLots walker 4).
Proof.
  split; [reflexivity|]. split; [reflexivity|].
  apply (@settled_agents_stay F (set_agents [trajectory noLots walker 4] (newGame [])) 0
           (trajectory noLots walker 4)); reflexivity.
Defined.

End PopulationMoveRuns.

(* ===================================================================== *)
(** ** The two grid searches *)
(* ===================================================================== *)

Section GridFacts.

Context {A : Arith}.
Local Open Scope num_scope.

Variable g : Game.
Variable targetZone : Zone.

(** The four grid neighbours of a point. *)
Definition fourNeighbors (current : Point) : list Point :=
  [ mkPoint (px current + PATHFINDING_STEP_SIZE) (py current);
    mkPoint (px current - PATHFINDING_STEP_SIZE) (py current);
    mkPoint (px current) (py current + PATHFINDING_STEP_SIZE);
    mkPoint (px current) (py current - PATHFINDING_STEP_SIZE) ].

(** [path] leads from [s] to [p] over the grid: it is [s] alone, or a path
    extended by a grid neighbour of its end that lies in the world and on a
    road or in the target zone. *)
Inductive gridWalk (s : Point) : Point -> list Point -> Prop :=
| gridWalk_start : gridWalk s s [s]
| gridWalk_step : forall (p n : Point) (path : list Point),
    gridWalk s p path ->
    In n (fourNeighbors p) ->
    inWorld n = true ->
    isOnRoad g (px n) (py n) || isPointInZone n targetZone = true ->
    gridWalk s n (path ++ [n]).

Lemma gridWalk_ends : forall (s p : Point) (path : list Point),
  gridWalk s p path -> hd_error path = Some s /\ last path s = p /\ path <> [].
Proof.
  intros s p path H. induction H as [|p n path H [IHh [IHl IHn]] Hn Hw Hr].
  - repeat split; [discriminate].
  - split; [destruct path; [contradiction | exact IHh]|].
    split; [apply last_last|].
    intros E. apply app_eq_nil in E. destruct E as [_ E]. discriminate E.
Qed.

Lemma gridWalk_points : forall (s p : Point) (path : list Point),
  gridWalk s p path ->
  forall q : Point, In q (tl path) ->
    inWorld q = true /\ isOnRoad g (px q) (py q) || isPointInZone q targetZone = true.
Proof.
  intros s p path H. induction H as [|p n path H IH Hn Hw Hr]; intros q Hq.
  - destruct Hq.
  - destruct (gridWalk_ends _ _ _ H) as [_ [_ Hne]].
    destruct path as [|h t]; [contradiction|]. simpl in Hq.
    apply in_app_or in Hq. destruct Hq as [Hq|[<-|[]]].
    + apply IH. exact Hq.
    + split; assumption.
Qed.

Lemma gridWalk_steps : forall (s p : Point) (path : list Point),
  gridWalk s p path ->
  forall (k : nat) (a b : Point),
    nth_error path k = Some a -> nth_error path (S k) = Some b ->
    In b (fourNeighbors a).
Proof.
  intros s p path H. induction H as [|p n path H IH Hn Hw Hr]; intros k a b Ha Hb.
  - destruct k; discriminate Hb.
  - destruct (gridWalk_ends _ _ _ H) as [_ [Hlast Hne]].
    destruct (Nat.lt_ge_cases (S k) (List.length path)) as [Hlt|Hge].
    + rewrite nth_error_app1 in Ha by lia. rewrite nth_error_app1 in Hb by lia.
      exact (IH k a b Ha Hb).
    + assert (Hk : S k = List.length path).
      { assert (Hlen : S k < List.length (path ++ [n]))
          by (apply nth_error_Some; rewrite Hb; discriminate).
        rewrite length_app in Hlen. simpl in Hlen. lia. }
      rewrite nth_error_app2 in Hb by lia. rewrite Hk, Nat.sub_diag in Hb.
      inversion Hb; subst b.
      rewrite nth_error_app1 in Ha by lia.
      assert (Ea : a = p).
      { rewrite <- Hlast. destruct (exists_last Hne) as [front [z Ez]]. subst path.
        rewrite last_last. rewrite length_app in Hk. simpl in Hk.
        rewrite nth_error_app2 in Ha by lia.
        replace (k - List.length front)%nat with 0%nat in Ha by lia.
        inversion Ha. reflexivity. }
      subst a. exact Hn.
Qed.

Lemma gridNeighbors_walk : forall (visited : list (num * num)) (current n : Point),
  In n (gridNeighbors g targetZone visited current) ->
  In n (fourNeighbors current) /\ inWorld n = true /\
  isOnRoad g (px n) (py n) || isPointInZone n targetZone = true.
Proof.
  intros visited current n H. unfold gridNeighbors in H. apply filter_In in H.
  destruct H as [Hin H]. apply andb_true_iff in H. destruct H as [H Hr].
  apply andb_true_iff in H. destruct H as [Hw _].
  split; [exact Hin|]. split; assumption.
Qed.

Lemma gridSearch_walks :
  forall (s : Point) (fuel : nat) (queue : list (Point * list Point))
         (visited : list (num * num)) (path : list Point),
  (forall entry, In entry queue -> gridWalk s (fst entry) (snd entry)) ->
  gridSearch fuel g s targetZone queue visited = Some path ->
  path = [s] \/
  exists (walk : list Point) (arrival : Point),
    path = walk ++ [arrival] /\ gridWalk s arrival walk /\
    isPointInZone arrival targetZone = true.
Proof.
  intros s. induction fuel as [|fuel IH]; intros queue visited path Hq; simpl.
  - discriminate.
  - destruct queue as [|[current p] queue].
    + intros H. inversion H. left. reflexivity.
    + destruct (hasKey (cellKey current) visited).
      * apply IH. intros entry Hin. apply Hq. right. exact Hin.
      * destruct (isPointInZone current targetZone) eqn:Ez.
        -- intros H. inversion H. right. exists p, current.
           split; [reflexivity|]. split; [|exact Ez].
           exact (Hq (current, p) (or_introl eq_refl)).
        -- apply IH. intros entry Hin. apply in_app_or in Hin.
           destruct Hin as [Hin|Hin]; [apply Hq; right; exact Hin|].
           apply in_map_iff in Hin. destruct Hin as [n [<- Hn]]. simpl.
           destruct (gridNeighbors_walk _ _ _ Hn) as [H4 [Hw Hr]].
           exact (gridWalk_step s current n p (Hq (current, p) (or_introl eq_refl)) H4 Hw Hr).
Qed.

(** The two searches take the same turns: the one that keeps no path
    reports [true] exactly when the other returns a path of two points or
    more. *)
Lemma gridReach_agrees :
  forall (s : Point) (fuel : nat) (queue : list (Point * list Point))
         (visited : list (num * num)),
  (forall entry, In entry queue -> snd entry <> []) ->
  gridReach fuel g targetZone (map fst queue) visited
    = option_map (fun path => Nat.ltb 1 (List.length path))
                 (gridSearch fuel g s targetZone queue visited).
Proof.
  intros s. induction fuel as [|fuel IH]; intros queue visited Hq; simpl; [reflexivity|].
  destruct queue as [|[current p] queue]; simpl; [reflexivity|].
  destruct (hasKey (cellKey current) visited).
  - apply IH. intros entry Hin. apply Hq. right. exact Hin.
  - destruct (isPointInZone current targetZone).
    + simpl. rewrite length_app. simpl.
      pose proof (Hq (current, p) (or_introl eq_refl)) as Hp. simpl in Hp.
      destruct p as [|h t]; [contradiction|]. simpl.
      replace (List.length t + 1)%nat with (S (List.length t)) by lia. reflexivity.
    + rewrite <- IH.
      * rewrite map_app, map_map. simpl. rewrite map_id. reflexivity.
      * intros entry Hin. apply in_app_or in Hin.
        destruct Hin as [Hin|Hin]; [apply Hq; right; exact Hin|].
        apply in_map_iff in Hin. destruct Hin as [n [<- _]]. simpl.
        intros E. apply app_eq_nil in E. destruct E as [_ E]. discriminate E.
Qed.

End GridFacts.

Section GridTheorems.

Context {A : Arith}.
Local Open Scope num_scope.

(** X18: the path findPathToZone returns. The game is not changed. The
    path is the start point alone, when the search found no way, or a walk
    followed by its own last point once more: the walk starts at the start
    point, each of its further points is a grid neighbour (25 along one
    axis) of the one before, lies in the world and on a road or in the
    target zone, and its last point is in the target zone. *)
Theorem findPathToZone_walks_the_grid :
  forall (fuel : nat) (startPoint : Point) (targetZone : Zone) (g g' : Game)
         (path : list Point),
  findPathToZone fuel startPoint targetZone g = Ret path g' ->
  g' = g /\
  (path = [startPoint] \/
   exists (walk : list Point) (arrival : Point),
     path = walk ++ [arrival] /\
     hd_error walk = Some startPoint /\
     last walk startPoint = arrival /\
     isPointInZone arrival targetZone = true /\
     (forall q : Point, In q (tl walk) ->
        inWorld q = true /\
        isOnRoad g (px q) (py q) || isPointInZone q targetZone = true) /\
     (forall (k : nat) (a b : Point),
        nth_error walk k = Some a -> nth_error walk (S k) = Some b ->
        In b (fourNeighbors a))).
Proof.
  intros fuel s z g g' path. unfold findPathToZone, bind, get.
  destruct (gridSearch fuel g s z [(s, [s])] []) as [p|] eqn:E; [|discriminate].
  intros H. inversion H; subst p g'. split; [reflexivity|].
  assert (Hq : forall entry, In entry [(s, [s])] -> gridWalk g z s (fst entry) (snd entry))
    by (intros entry [<-|[]]; apply gridWalk_start).
  destruct (gridSearch_walks g z s fuel _ _ _ Hq E)
    as [Hp|[walk [arrival [Hp [Hw Hz]]]]]; [left; exact Hp|].
  right. exists walk, arrival.
  destruct (gridWalk_ends g z _ _ _ Hw) as [Hh [Hl _]].
  split; [exact Hp|]. split; [exact Hh|]. split; [exact Hl|]. split; [exact Hz|].
  split; [exact (gridWalk_points g z _ _ _ Hw) | exact (gridWalk_steps g z _ _ _ Hw)].
Qed.

(** X19: pathExistsToZone and findPathToZone are the same search. From the
    same point, on the same game and with the same fuel, both are still
    running or both return, and pathExistsToZone returns [true] exactly when
    the path of findPathToZone has two points or more, that is, when it
    arrives in the zone. *)
Theorem pathExistsToZone_agrees_with_findPathToZone :
  forall (fuel : nat) (startPoint : Point) (targetZone : Zone) (g : Game),
  pathExistsToZone fuel startPoint targetZone g =
  match findPathToZone fuel startPoint targetZone g with
  | Ret path g' => Ret (Nat.ltb 1 (List.length path)) g'
  | Throw e g' => Throw e g'
  | Spin g' => Spin g'
  end.
Proof.
  intros fuel s z g. unfold pathExistsToZone, findPathToZone, bind, get.
  change [s] with (map fst [(s, [s])]) at 1.
  rewrite (gridReach_agrees g z s fuel [(s, [s])] [])
    by (intros entry [<-|[]]; discriminate).
  destruct (gridSearch fuel g s z [(s, [s])] []); reflexivity.
Qed.

End GridTheorems.

Module GridRuns.

Import Scenario.
Local Open Scope float_scope.

Definition roadEnd : @Point F := @mkPoint F 0 100.
Definition villageHome : @Zone F := zone [circle 110 100 60].

Definition pathOf (o : @Outcome F (list (@Point F))) : list (@Point F) :=
  match o with
  | Ret path _ => path
  | _ => []
  end.

Lemma returned_path : forall o : @Outcome F (list (@Point F)),
  returned o = true -> o = Ret (pathOf o) (gameOf o).
Proof. intros [path g|e g|g] H; [reflexivity | discriminate H | discriminate H]. Qed.

(** From the road end of the village to its home zone: two steps to the
    right, and the arrival point twice. *)
Example village_grid_path :
  positions (@findPathToZone F 50 roadEnd villageHome (village []))
    = Some [(0, 100); (25, 100); (50, 100); (50, 100)].
Proof. vm_compute. reflexivity. Qed.

Lemma findPathToZone_walks_the_grid_witness :
  @findPathToZone F 50 roadEnd villageHome (village [])
    = Ret (pathOf (@findPathToZone F 50 roadEnd villageHome (village [])))
          (gameOf (@findPathToZone F 50 roadEnd villageHome (village []))) /\
  gameOf (@findPathToZone F 50 roadEnd villageHome (village [])) = village [].
Proof.
  assert (H : @findPathToZone F 50 roadEnd villageHome (village [])
              = Ret (pathOf (@findPathToZone F 50 roadEnd villageHome (village [])))
                    (gameOf (@findPathToZone F 50 roadEnd villageHome (village []))))
    by (apply returned_path; vm_compute; reflexivity).
  split; [exact H|].
  exact (proj1 (@findPathToZone_walks_the_grid F 50 roadEnd villageHome (village []) _ _ H)).
Defined.

End GridRuns.

(* ===================================================================== *)
(** ** Capacity and lots, in real arithmetic *)
(* ===================================================================== *)

Section RealCapacityFacts.

Local Open Scope R_scope.

Lemma Int_part_monotone : forall a b : R, a <= b -> (Int_part a <= Int_part b)%Z.
Proof.
  intros a b Hab.
  destruct (base_Int_part a) as [Ha1 Ha2]. destruct (base_Int_part b) as [Hb1 Hb2].
  assert (H : (Int_part a < Int_part b + 1)%Z).
  { apply lt_IZR. rewrite plus_IZR. lra. }
  lia.
Qed.

(** The area calculateMaxAgents sums up. *)
Definition totalArea (circles : list (@Circle RArith)) (start : R) : R :=
  fold_left (fun (totalArea : R) (point : @Circle RArith) =>
               totalArea + PI * radius point * radius point) circles start.

Lemma totalArea_from : forall (circles : list (@Circle RArith)) (start : R),
  start <= totalArea circles start.
Proof.
  induction circles as [|c cs IH]; intros start; simpl; [lra|].
  eapply Rle_trans; [|apply IH].
  assert (0 <= PI * radius c * radius c).
  { rewrite Rmult_assoc. apply Rmult_le_pos; [left; apply PI_RGT_0 | nra]. }
  lra.
Qed.

Lemma totalArea_app : forall (circles more : list (@Circle RArith)) (start : R),
  totalArea (circles ++ more) start = totalArea more (totalArea circles start).
Proof. intros circles more start. unfold totalArea. apply fold_left_app. Qed.

(** The capacity for a given total area. *)
Definition capacityOf (area : R) : R :=
  Rmax 0 (Rmin (RealNum.floor (area / (PI * 50 * 50) * (8 / 10))) 10).

Lemma calculateMaxAgents_capacityOf : forall zone : @Zone RArith,
  calculateMaxAgents zone = capacityOf (totalArea (zpoints zone) 0).
Proof. reflexivity. Qed.

Lemma capacityOf_monotone : forall a b : R, a <= b -> capacityOf a <= capacityOf b.
Proof.
  intros a b Hab. unfold capacityOf, RealNum.floor.
  assert (Hpi : 0 < PI * 50 * 50) by (pose proof PI_RGT_0; lra).
  assert (Hq : a / (PI * 50 * 50) * (8 / 10) <= b / (PI * 50 * 50) * (8 / 10)).
  { apply Rmult_le_compat_r; [lra|]. unfold Rdiv.
    apply Rmult_le_compat_r; [left; apply Rinv_0_lt_compat; exact Hpi | exact Hab]. }
  apply Int_part_monotone in Hq. apply IZR_le in Hq.
  apply Rle_max_compat_l. apply Rle_min_compat_r. exact Hq.
Qed.

(** X20, in real arithmetic: the capacity of a zone is a whole number from
    0 to 10; a zone without circles has capacity 0; and a circle added to a
    zone never lowers its capacity. *)
Theorem calculateMaxAgents_is_a_bounded_count :
  (forall zone : @Zone RArith,
     0 <= calculateMaxAgents zone <= 10 /\
     exists n : Z, calculateMaxAgents zone = IZR n) /\
  @calculateMaxAgents RArith (mkZone []) = 0 /\
  (forall (circles : list (@Circle RArith)) (added : @Circle RArith),
     calculateMaxAgents (mkZone circles) <= calculateMaxAgents (mkZone (circles ++ [added]))).
Proof.
  split; [|split].
  - intros zone. rewrite calculateMaxAgents_capacityOf. unfold capacityOf, RealNum.floor.
    set (k := Int_part _). split.
    + split; [apply Rmax_l|]. apply Rmax_lub; [lra | apply Rmin_r].
    + destruct (Rle_dec (IZR k) 10) as [Hk|Hk].
      * rewrite Rmin_left by exact Hk.
        destruct (Rle_dec 0 (IZR k)) as [H0|H0].
        -- exists k. apply Rmax_right. exact H0.
        -- exists 0%Z. apply Rmax_left. lra.
      * rewrite Rmin_right by lra. exists 10%Z. apply Rmax_right. lra.
  - rewrite calculateMaxAgents_capacityOf. unfold capacityOf, RealNum.floor. simpl.
    replace (0 / (PI * 50 * 50) * (8 / 10)) with (IZR 0)
      by (unfold Rdiv; rewrite Rmult_0_l, Rmult_0_l; reflexivity).
    replace (Int_part (IZR 0)) with 0%Z by (apply Int_part_spec; lra).
    rewrite Rmin_left by lra. apply Rmax_left. lra.
  - intros circles added. rewrite !calculateMaxAgents_capacityOf. simpl.
    apply capacityOf_monotone. rewrite totalArea_app. apply totalArea_from.
Qed.

(** X21, in real arithmetic: the fallback lot is a regular octagon on the
    circle. generateCircularLot returns eight corners, each at distance
    [|radius|] from the centre (x, y), which it records as the centre of the
    lot. *)
Theorem generateCircularLot_corners_on_the_circle : forall x y r : @num RArith,
  List.length (lot_points (generateCircularLot x y r)) = 8%nat /\
  lot_center (generateCircularLot x y r) = mkPoint x y /\
  Forall (fun corner : @Point RArith =>
            RealNum.hypot (px corner - x) (py corner - y) = Rabs r)
         (lot_points (generateCircularLot x y r)).
Proof.
  intros x y r. split; [reflexivity|]. split; [reflexivity|].
  unfold generateCircularLot. cbn [lot_points]. apply Forall_forall.
  intros corner Hc. apply in_map_iff in Hc. destruct Hc as [i [<- _]].
  cbn [px py]. set (angle := (nPI * of_Z 2 * of_nat i / of_nat 8)%num).
  change (RealNum.hypot (x + cos angle * r - x) (y + sin angle * r - y) = Rabs r).
  unfold RealNum.hypot.
  replace ((x + cos angle * r - x) * (x + cos angle * r - x)
           + (y + sin angle * r - y) * (y + sin angle * r - y))
    with (r * r * (Rsqr (sin angle) + Rsqr (cos angle))) by (unfold Rsqr; ring).
  rewrite sin2_cos2, Rmult_1_r. fold (Rsqr r). apply sqrt_Rsqr_abs.
Qed.

(** calculatePerpendicularDirection turns a direction by a quarter: the
    result is at right angles to the direction, as long as it, and turning
    twice gives the opposite direction. *)
Lemma perpendicular_quarter_turn :
  forall roadDirection : @Point RArith,
  px roadDirection * px (calculatePerpendicularDirection roadDirection)
    + py roadDirection * py (calculatePerpendicularDirection roadDirection) = 0 /\
  RealNum.hypot (px (calculatePerpendicularDirection roadDirection))
                (py (calculatePerpendicularDirection roadDirection))
    = RealNum.hypot (px roadDirection) (py roadDirection) /\
  calculatePerpendicularDirection (calculatePerpendicularDirection roadDirection)
    = @mkPoint RArith (- px roadDirection)%R (- py roadDirection)%R.
Proof.
  intros d. unfold calculatePerpendicularDirection. cbn [px py].
  split; [simpl; ring|]. split.
  - simpl. unfold RealNum.hypot. f_equal. ring.
  - simpl. f_equal; ring.
Qed.

(** The direction of the road is a unit vector. *)
Lemma calculateRoadDirection_unit : forall (g : @Game RArith) (x y : @num RArith),
  RealNum.hypot (px (calculateRoadDirection g x y)) (py (calculateRoadDirection g x y)) = 1.
Proof.
  intros g x y. unfold calculateRoadDirection. cbv zeta.
  assert (Hdefault : RealNum.hypot (px (@mkPoint RArith 0 1)) (py (@mkPoint RArith 0 1)) = 1).
  { simpl. unfold RealNum.hypot. replace (0 * 0 + 1 * 1) with 1 by ring. apply sqrt_1. }
  destruct (filter _ _) as [|c cs]; [exact Hdefault|].
  set (sum := fold_left _ _ _).
  change (nltb (of_Z 0) (nhypot (fst sum) (snd sum)))
    with (RealNum.ltb 0 (RealNum.hypot (fst sum) (snd sum))).
  destruct (RealNum.ltb 0 (RealNum.hypot (fst sum) (snd sum))) eqn:E; [|exact Hdefault].
  apply ltb_true in E. cbn [px py].
  set (len := RealNum.hypot (fst sum) (snd sum)) in *.
  change (RealNum.hypot (fst sum / len) (snd sum / len) = 1).
  assert (Hlen : len * len = fst sum * fst sum + snd sum * snd sum) by apply hypot_sqr.
  unfold RealNum.hypot.
  replace (fst sum / len * (fst sum / len) + snd sum / len * (snd sum / len))
    with ((fst sum * fst sum + snd sum * snd sum) / (len * len))
    by (field; lra).
  rewrite <- Hlen. replace (len * len / (len * len)) with 1 by (field; lra).
  apply sqrt_1.
Qed.

(** X22, in real arithmetic: road directions are unit vectors. Whatever
    the roads and the point, calculateRoadDirection returns a vector of
    length 1, the vector (0, 1) when no road circle is within 40 of the
    point (the point itself apart); and calculatePerpendicularDirection
    makes of it a vector of length 1 at right angles to it. *)
Theorem road_direction_is_a_unit_vector : forall (g : @Game RArith) (x y : @num RArith),
  RealNum.hypot (px (calculateRoadDirection g x y)) (py (calculateRoadDirection g x y)) = 1 /\
  RealNum.hypot (px (calculatePerpendicularDirection (calculateRoadDirection g x y)))
                (py (calculatePerpendicularDirection (calculateRoadDirection g x y))) = 1 /\
  px (calculateRoadDirection g x y)
    * px (calculatePerpendicularDirection (calculateRoadDirection g x y))
  + py (calculateRoadDirection g x y)
    * py (calculatePerpendicularDirection (calculateRoadDirection g x y)) = 0 /\
  ((forall point : @Circle RArith, In point (allRoadPoints g) ->
      40 < RealNum.hypot (x - cx point) (y - cy point) \/
      RealNum.hypot (x - cx point) (y - cy point) = 0) ->
   calculateRoadDirection g x y = @mkPoint RArith 0 1).
Proof.
  intros g x y.
  pose proof (calculateRoadDirection_unit g x y) as Hu.
  destruct (perpendicular_quarter_turn (calculateRoadDirection g x y)) as [Hdot [Hlen _]].
  split; [exact Hu|]. split; [rewrite Hlen; exact Hu|]. split; [exact Hdot|].
  intros Hfar. unfold calculateRoadDirection. cbv zeta.
  match goal with
  | |- match filter ?f ?l with _ => _ end = _ =>
      assert (E : filter f l = []); [|rewrite E; reflexivity]
  end.
  induction (allRoadPoints g) as [|point rest IH]; [reflexivity|].
  cbn [filter].
  assert (Hp : 40 < RealNum.hypot (x - cx point) (y - cy point) \/
               RealNum.hypot (x - cx point) (y - cy point) = 0)
    by (apply Hfar; left; reflexivity).
  replace (andb _ _) with false.
  - apply IH. intros q Hq. apply Hfar. right. exact Hq.
  - symmetry. apply andb_false_iff. destruct Hp as [Hp|Hp].
    + left. change (RealNum.leb (RealNum.hypot (x - cx point) (y - cy point)) 40 = false).
      unfold RealNum.leb. destruct (Rle_dec _ _); [lra | reflexivity].
    + right. change (RealNum.ltb 0 (RealNum.hypot (x - cx point) (y - cy point)) = false).
      apply ltb_false. lra.
Qed.

End RealCapacityFacts.

(* ===================================================================== *)
(** ** The adaptive lot, in real arithmetic *)
(* ===================================================================== *)

Section RealLotFacts.

Local Open Scope R_scope.

Lemma hypot_scale : forall k a b : R,
  0 <= k -> RealNum.hypot (a * k) (b * k) = k * RealNum.hypot a b.
Proof.
  intros k a b Hk. unfold RealNum.hypot.
  replace (a * k * (a * k) + b * k * (b * k)) with (Rsqr k * (a * a + b * b))
    by (unfold Rsqr; ring).
  rewrite sqrt_mult; [|apply Rle_0_sqr|apply sum_sqr_nonneg].
  rewrite sqrt_Rsqr by exact Hk. reflexivity.
Qed.

(** The marching loops stop at one of their steps, or at 0. *)
Lemma march_bounds : forall (g : @Game RArith) (startX startY : @num RArith)
    (direction : @Point RArith) (ds : list Z) (reached : @num RArith) (top : R),
  0 <= reached <= top ->
  Forall (fun d => 0 <= IZR d <= top) ds ->
  0 <= march g startX startY direction ds reached <= top.
Proof.
  intros g sx sy dir ds. induction ds as [|d rest IH]; intros reached top Hr Hds; simpl.
  - exact Hr.
  - inversion Hds as [|? ? Hd Hrest]; subst.
    destruct (_ && _); [|exact Hr]. apply IH; [exact Hd | exact Hrest].
Qed.

Lemma closestCircle_keeps : forall (x y : @num RArith) (l : list (@Circle RArith))
    (p : @Circle RArith) (closestDistance : option (@num RArith)),
  closestCircle x y l (Some p) closestDistance <> None.
Proof.
  intros x y l. induction l as [|c cs IH]; intros p cd; simpl; [discriminate|].
  destruct (match cd with Some d => _ | None => _ end); apply IH.
Qed.

Lemma closestCircle_found : forall (x y : @num RArith) (l : list (@Circle RArith)),
  closestCircle x y l None None = None <-> l = [].
Proof.
  intros x y l. destruct l as [|c cs]; simpl.
  - split; reflexivity.
  - split; [|discriminate]. intros H. exfalso.
    exact (closestCircle_keeps x y cs c _ H).
Qed.

(** X23, in real arithmetic: the lot of an agent. Without any road circle
    it is the circular lot of radius 30 around the settle position.
    Otherwise it is a rectangle along the road direction: four corners, the
    front and back sides as long as its width, the left and right sides as
    long as its depth and at right angles to the front, with a width from
    20 to 60, a depth from 25 to 50, and width times depth as its area. *)
Theorem generateAdaptiveLot_is_a_rectangle :
  forall (g : @Game RArith) (agent : @Agent RArith),
  (allRoadPoints g = [] ->
   generateAdaptiveLot g agent
     = generateCircularLot (px (finalPosition agent)) (py (finalPosition agent)) 30) /\
  (allRoadPoints g <> [] ->
   exists (frontLeft frontRight backRight backLeft : @Point RArith) (width depth : R),
     lot_points (generateAdaptiveLot g agent) = [frontLeft; frontRight; backRight; backLeft] /\
     lot_center (generateAdaptiveLot g agent) = finalPosition agent /\
     lot_area (generateAdaptiveLot g agent) = width * depth /\
     20 <= width <= 60 /\ 25 <= depth <= 50 /\
     RealNum.hypot (px frontLeft - px frontRight) (py frontLeft - py frontRight) = width /\
     RealNum.hypot (px backLeft - px backRight) (py backLeft - py backRight) = width /\
     RealNum.hypot (px backLeft - px frontLeft) (py backLeft - py frontLeft) = depth /\
     RealNum.hypot (px backRight - px frontRight) (py backRight - py frontRight) = depth /\
     (px frontRight - px frontLeft) * (px backLeft - px frontLeft)
       + (py frontRight - py frontLeft) * (py backLeft - py frontLeft) = 0).
Proof.
  intros g agent. unfold generateAdaptiveLot, findNearestRoadSegment. cbv zeta.
  set (fx := px (finalPosition agent)). set (fy := py (finalPosition agent)).
  split.
  - intros Hnone. apply (closestCircle_found fx fy) in Hnone. rewrite Hnone. reflexivity.
  - intros Hsome.
    destruct (closestCircle fx fy (allRoadPoints g) None None) as [c|] eqn:Ec;
      [|apply closestCircle_found in Ec; contradiction].
    set (dir := calculateRoadDirection g (cx c) (cy c)).
    assert (Hunit : RealNum.hypot (px dir) (py dir) = 1)
      by apply calculateRoadDirection_unit.
    assert (Hsq : px dir * px dir + py dir * py dir = 1).
    { rewrite <- hypot_sqr. rewrite Hunit. ring. }
    set (perp := calculatePerpendicularDirection dir).
    set (sfx := (fx - px perp * of_Z 5)%num). set (sfy := (fy - py perp * of_Z 5)%num).
    set (ad := calculateAvailableDepth g sfx sfy perp).
    set (aw := calculateAvailableWidth g sfx sfy dir).
    assert (Had : 0 <= ad <= 50).
    { unfold ad, calculateAvailableDepth. apply march_bounds; [simpl; lra|].
      repeat constructor; lra. }
    assert (Haw : 0 <= aw <= 60).
    { unfold aw, calculateAvailableWidth. cbv zeta.
      match goal with
      | |- 0 <= (?l + ?r)%num <= 60 =>
          assert (Hl : 0 <= l <= 30) by (apply march_bounds; [simpl; lra|];
                                          repeat constructor; lra);
          assert (Hr : 0 <= r <= 30) by (apply march_bounds; [simpl; lra|];
                                          repeat constructor; lra);
          change (0 <= l + r <= 60); lra
      end. }
    set (depth := Rmax 25 ad). set (width := Rmax 20 aw).
    assert (Hd : 25 <= depth <= 50).
    { unfold depth. split; [apply Rmax_l | apply Rmax_lub; lra]. }
    assert (Hw : 20 <= width <= 60).
    { unfold width. split; [apply Rmax_l | apply Rmax_lub; lra]. }
    eexists _, _, _, _, width, depth.
    split; [reflexivity|]. split; [reflexivity|]. split; [reflexivity|].
    split; [exact Hw|]. split; [exact Hd|].
    cbn [px py]. fold perp. fold sfx sfy. fold ad aw.
    change (nmax (of_Z 25) ad) with depth. change (nmax (of_Z 20) aw) with width.
    assert (Hperp : px perp = - py dir /\ py perp = px dir).
    { unfold perp, calculatePerpendicularDirection. cbn [px py]. split; [|reflexivity].
      change (@eq R (0 - py dir) (- py dir)). ring. }
    destruct Hperp as [Hpx Hpy].
    assert (Hpunit : RealNum.hypot (- py dir) (px dir) = 1).
    { unfold RealNum.hypot.
      replace (- py dir * - py dir + px dir * px dir) with 1 by lra. apply sqrt_1. }
    assert (Heq : forall a b a' b' : R, a = a' -> b = b' ->
              RealNum.hypot a b = RealNum.hypot a' b') by (intros; subst; reflexivity).
    simpl.
    repeat split.
    + transitivity (RealNum.hypot (px dir * width) (py dir * width));
        [apply Heq; field | rewrite hypot_scale by lra; rewrite Hunit; ring].
    + transitivity (RealNum.hypot (px dir * width) (py dir * width));
        [apply Heq; field | rewrite hypot_scale by lra; rewrite Hunit; ring].
    + transitivity (RealNum.hypot (- py dir * depth) (px dir * depth));
        [apply Heq; ring | rewrite hypot_scale by lra; rewrite Hpunit; ring].
    + transitivity (RealNum.hypot (- py dir * depth) (px dir * depth));
        [apply Heq; ring | rewrite hypot_scale by lra; rewrite Hpunit; ring].
    + field.
Qed.

End RealLotFacts.

(* ===================================================================== *)
(** ** Polygons *)
(* ===================================================================== *)

Section RealPolygonFacts.

Local Open Scope R_scope.

(** The rectangle with the corners (x0, y0) and (x1, y1), sides parallel to
    the axes. *)
Definition rectangle (x0 y0 x1 y1 : R) : list (@Point RArith) :=
  [@mkPoint RArith x0 y0; @mkPoint RArith x1 y0; @mkPoint RArith x1 y1;
   @mkPoint RArith x0 y1].

Lemma rectangle_inside : forall x0 y0 x1 y1 x y : R,
  x0 <= x1 -> y0 < y1 ->
  (@isPointInPolygon RArith x y (rectangle x0 y0 x1 y1) = true <->
   x0 <= x < x1 /\ y0 <= y < y1).
Proof.
  intros x0 y0 x1 y1 x y Hx Hy. unfold isPointInPolygon, rectangle.
  cbn [last crossings px py nltb nsub nmul ndiv nadd RArith].
  replace ((x0 - x0) * (y - y0) / (y1 - y0) + x0) with x0 by (field; lra).
  replace ((x1 - x1) * (y - y1) / (y0 - y1) + x1) with x1 by (field; lra).
  unfold RealNum.ltb.
  destruct (Rlt_dec y y0); destruct (Rlt_dec y y1); destruct (Rlt_dec x x0);
    destruct (Rlt_dec x x1); cbn [Bool.eqb negb andb];
    repeat match goal with
           | |- context [Rlt_dec ?a ?b] => destruct (Rlt_dec a b)
           end; cbn [Bool.eqb negb andb];
    split; intros H; try discriminate H; try reflexivity; lra.
Qed.

(** X24, in real arithmetic: on a rectangle with sides parallel to the axes
    isPointInPolygon is the half-open box: a point is inside exactly when it
    is at or beyond the left and lower sides and before the right and upper
    sides; the rectangle holds its lower left corner and none of the other
    three. *)
Theorem isPointInPolygon_of_a_rectangle : forall x0 y0 x1 y1 x y : R,
  x0 <= x1 -> y0 < y1 ->
  (@isPointInPolygon RArith x y (rectangle x0 y0 x1 y1) = true <->
   x0 <= x < x1 /\ y0 <= y < y1).
Proof. exact rectangle_inside. Qed.

Lemma rectangle_outside : forall x0 y0 x1 y1 x y : R,
  x0 <= x1 -> y0 < y1 ->
  ~ (x0 <= x < x1 /\ y0 <= y < y1) ->
  @isPointInPolygon RArith x y (rectangle x0 y0 x1 y1) = false.
Proof.
  intros x0 y0 x1 y1 x y Hx Hy Hn.
  destruct (@isPointInPolygon RArith x y (rectangle x0 y0 x1 y1)) eqn:E; [|reflexivity].
  apply rectangle_inside in E; [contradiction | exact Hx | exact Hy].
Qed.

(** X25, in real arithmetic: doPolygonsOverlap misses rectangles that
    cross. When an upright rectangle and a lying one cross like a plus sign,
    no corner of one being in the other, the two share the point (a0, d0),
    which isPointInPolygon finds in both, and doPolygonsOverlap answers
    that they do not overlap. *)
Theorem doPolygonsOverlap_misses_crossing_rectangles :
  forall a0 b0 a1 b1 c0 d0 c1 d1 : R,
  c0 < a0 -> a0 < a1 -> a1 < c1 ->
  b0 < d0 -> d0 < d1 -> d1 < b1 ->
  @isPointInPolygon RArith a0 d0 (rectangle a0 b0 a1 b1) = true /\
  @isPointInPolygon RArith a0 d0 (rectangle c0 d0 c1 d1) = true /\
  @doPolygonsOverlap RArith (rectangle a0 b0 a1 b1) (rectangle c0 d0 c1 d1) = false.
Proof.
  intros a0 b0 a1 b1 c0 d0 c1 d1 H1 H2 H3 H4 H5 H6.
  split; [apply rectangle_inside; lra|]. split; [apply rectangle_inside; lra|].
  unfold doPolygonsOverlap.
  assert (HA : forall p, In p (rectangle a0 b0 a1 b1) ->
             @isPointInPolygon RArith (px p) (py p) (rectangle c0 d0 c1 d1) = false).
  { intros p Hp. apply rectangle_outside; [lra | lra|].
    destruct Hp as [<-|[<-|[<-|[<-|[]]]]]; simpl; lra. }
  assert (HB : forall p, In p (rectangle c0 d0 c1 d1) ->
             @isPointInPolygon RArith (px p) (py p) (rectangle a0 b0 a1 b1) = false).
  { intros p Hp. apply rectangle_outside; [lra | lra|].
    destruct Hp as [<-|[<-|[<-|[<-|[]]]]]; simpl; lra. }
  apply orb_false_iff. split.
  - match goal with |- ?e = false => destruct e eqn:E; [|reflexivity] end.
    apply existsb_exists in E. destruct E as [p [Hp E]]. rewrite (HA p Hp) in E.
    discriminate E.
  - match goal with |- ?e = false => destruct e eqn:E; [|reflexivity] end.
    apply existsb_exists in E. destruct E as [p [Hp E]]. rewrite (HB p Hp) in E.
    discriminate E.
Qed.

End RealPolygonFacts.

Module PolygonRuns.

Import Scenario.

Local Open Scope float_scope.

Definition corner (x y : float) : @Point F := @mkPoint F x y.

(** The lot with the corners (0, 0) and (40, 30): its lower left corner is
    inside, the other three are not; the lot with the corners (10, -10) and
    (20, 50) crosses it, and the two are reported apart. *)
Example polygons_on_floats :
  map (fun p => @isPointInPolygon F (px p) (py p)
                  [corner 0 0; corner 40 0; corner 40 30; corner 0 30])
      [corner 0 0; corner 40 0; corner 40 30; corner 0 30; corner 20 15]
    = [true; false; false; false; true] /\
  @doPolygonsOverlap F [corner 0 0; corner 40 0; corner 40 30; corner 0 30]
                       [corner 10 (-10); corner 20 (-10); corner 20 50; corner 10 50]
    = false /\
  @isPointInPolygon F 10 0 [] = false.
Proof. vm_compute. repeat split; reflexivity. Qed.

Local Open Scope R_scope.

Lemma isPointInPolygon_of_a_rectangle_witness :
  @isPointInPolygon RArith 0 0 (rectangle 0 0 40 30) = true.
Proof.
  refine (proj2 (isPointInPolygon_of_a_rectangle 0 0 40 30 0 0 _ _) _);
    [lra | lra | repeat split; lra].
Defined.

Lemma doPolygonsOverlap_misses_crossing_rectangles_witness :
  @doPolygonsOverlap RArith (rectangle 10 (-10) 20 50) (rectangle 0 0 40 30) = false.
Proof.
  refine (proj2 (proj2 (doPolygonsOverlap_misses_crossing_rectangles
                          10 (-10) 20 50 0 0 40 30 _ _ _ _ _ _))); lra.
Defined.

End PolygonRuns.

(* ===================================================================== *)
(** ** Invariants of the tick *)
(* ===================================================================== *)

Section NetworkFrame.

Context {A : Arith}.
Local Open Scope num_scope.

(** A property of the game that does not read the road network nor the id
    counter is kept by the rebuild. *)
Variable I : Game -> Prop.

Hypothesis I_network : forall (g : Game) (rn : RoadNetwork), I g -> I (set_roadNetwork rn g).
Hypothesis I_counter : forall (g : Game) (c : nat), I g -> I (set_pointIdCounter c g).

Lemma frame_pushConnection : forall i j : nat, preserves I (pushConnection i j).
Proof.
  intros i j. unfold pushConnection. pres.
  apply preserves_modify. intros g' H. apply I_network. exact H.
Qed.

Lemma frame_addWaypoint : forall (x y : num) (metadata : Metadata),
  preserves I (addWaypoint x y metadata).
Proof.
  intros x y md g H. unfold addWaypoint.
  destruct (find _ _); [exact H|]. simpl. apply I_network. apply I_counter. exact H.
Qed.

Lemma frame_connectPair : forall i j : nat, preserves I (connectPair i j).
Proof. intros i j. unfold connectPair. pres_by frame_pushConnection. Qed.

Lemma frame_markIntersection : forall i : nat, preserves I (markIntersection i).
Proof.
  intros i. unfold markIntersection. pres.
  apply preserves_modify. intros g' H. apply I_network. exact H.
Qed.

Lemma frame_addApproach : forall i c : nat, preserves I (addApproach i c).
Proof.
  intros i c. unfold addApproach. pres_by frame_pushConnection.
  apply preserves_modify. intros g' H. apply I_network. exact H.
Qed.

Lemma frame_sortConnections : forall i : nat, preserves I (sortConnections i).
Proof.
  intros i. unfold sortConnections. pres.
  apply preserves_modify. intros g' H. apply I_network. exact H.
Qed.

Lemma frame_annotations :
  forall (g : Game) (e : list nat) (z : list (nat * list nat)) (b : bool),
    I g ->
    I (set_roadNetwork
         (mkRoadNetwork (points (roadNetwork g)) (connections (roadNetwork g)) e z b) g).
Proof. intros g e z b H. apply I_network. exact H. Qed.

Lemma frame_buildRoadNetwork : forall fuel : nat, preserves I (buildRoadNetwork fuel).
Proof.
  intros fuel. unfold buildRoadNetwork, buildRoadNetworkWith.
  apply preserves_tryCatch.
  - unfold rebuildSteps. apply preserves_bind.
    + apply preserves_modify. intros g H. apply I_counter. apply I_network. exact H.
    + intros _. apply preserves_bind; [apply preserves_get|]. intros g1.
      apply preserves_bind.
      * apply preserves_forEach. intros zone.
        apply I_extractRoadCenterline. exact frame_addWaypoint.
      * intros _. apply preserves_bind.
        -- apply I_connectNearbyWaypoints.
           ++ exact frame_connectPair.
           ++ exact frame_markIntersection.
           ++ exact frame_addApproach.
           ++ exact frame_sortConnections.
        -- intros _. apply preserves_bind.
           ++ apply I_identifyEdgePoints. exact frame_annotations.
           ++ intros _. apply preserves_bind.
              ** apply I_findZoneEntryPoints. exact frame_annotations.
              ** intros _. apply I_clearNeedsRebuild. exact frame_annotations.
  - intros e. apply I_clearNeedsRebuild. exact frame_annotations.
Qed.

End NetworkFrame.

Section TickInvariant.

Context {A : Arith}.
Local Open Scope num_scope.

(** A property of the game that the rebuild and the writes of the
    connectivity pass, the spawn queue and the agent update keep is kept by
    the tick. *)
Variable I : Game -> Prop.

Hypothesis I_build : forall fuel : nat, preserves I (buildRoadNetwork fuel).
Hypothesis I_randoms : forall (g : Game) (rs : list num), I g -> I (set_randoms rs g).
Hypothesis I_zoneConnections :
  forall (g : Game) (m : list (nat * bool)), I g -> I (set_zoneConnections m g).
Hypothesis I_flag : forall (g : Game) (b : bool), I g -> I (set_needsConnectionUpdate b g).
Hypothesis I_enqueue :
  forall (g : Game) (spawnPoint : Point) (zoneIndex : nat) (finalPosition : Point)
         (closestNode : option nat) (path : list Point),
    I g ->
    I (set_agentSpawnQueue
         (agentSpawnQueue g ++ [newAgent spawnPoint zoneIndex finalPosition closestNode path])
         g).
Hypothesis I_spawn :
  forall (g : Game) (spawnPoint : Point) (zoneIndex : nat) (finalPosition : Point)
         (closestNode : option nat) (path : list Point),
    I g ->
    I (set_agents
         (agents g ++ [newAgent spawnPoint zoneIndex finalPosition closestNode path]) g).
Hypothesis I_remove : forall (g : Game) (zoneIndex : nat),
  I g -> I (removeAgentsFromZone zoneIndex g).
Hypothesis I_process : forall (g : Game) (currentTime : num),
  I g -> I (processAgentSpawnQueue currentTime g).
Hypothesis I_updateAgents : forall g : Game, I g -> I (updateAgents g).

Lemma I_random : preserves I random.
Proof.
  intros g H. unfold random. destruct (randoms g); [exact H|]. simpl. apply I_randoms. exact H.
Qed.

Lemma I_randomElement : forall (X : Type) (arr : list X), preserves I (randomElement arr).
Proof. intros X arr. unfold randomElement. pres_by I_random. Qed.

Lemma I_findFreePositionInZone : forall attempts zone existingAgents,
  preserves I (findFreePositionInZone attempts zone existingAgents).
Proof.
  induction attempts as [|attempts IH]; intros; simpl;
    pres_by IH; pres_by I_randomElement; pres_by I_random.
Qed.

Lemma I_findRandomEdgeConnection : preserves I findRandomEdgeConnection.
Proof. unfold findRandomEdgeConnection. pres_by I_randomElement. Qed.

Lemma I_resolvePath : forall path, preserves I (resolvePath path).
Proof. intros path. unfold resolvePath. pres. Qed.

Lemma I_networkSearch : forall fuel target queue visited,
  preserves I (networkSearch fuel target queue visited).
Proof.
  induction fuel as [|fuel IH]; intros; simpl; pres_by IH; pres_by I_resolvePath.
Qed.

Lemma I_findNetworkPathBetweenNodes : forall fuel s t,
  preserves I (findNetworkPathBetweenNodes fuel s t).
Proof.
  intros. unfold findNetworkPathBetweenNodes.
  pres_by I_resolvePath; pres_by I_networkSearch.
Qed.

Lemma I_findPathToZone : forall fuel startPoint zone,
  preserves I (findPathToZone fuel startPoint zone).
Proof. intros. unfold findPathToZone. pres. Qed.

Lemma I_pathExistsToZone : forall fuel startPoint zone,
  preserves I (pathExistsToZone fuel startPoint zone).
Proof. intros. unfold pathExistsToZone. pres. Qed.

Lemma I_anyPathExists : forall fuel edgeConnections zone,
  preserves I (anyPathExists fuel edgeConnections zone).
Proof.
  intros fuel edgeConnections zone. induction edgeConnections as [|p rest IH]; simpl;
    pres_by IH; pres_by I_pathExistsToZone.
Qed.

Lemma I_checkZoneConnection : forall fuel zoneIndex,
  preserves I (checkZoneConnection fuel zoneIndex).
Proof. intros. unfold checkZoneConnection. pres_by I_anyPathExists. Qed.

Lemma I_spawnLoop :
  forall (commit : Agent -> Game -> Game),
  (forall g spawnPoint zoneIndex finalPosition closestNode path,
     I g -> I (commit (newAgent spawnPoint zoneIndex finalPosition closestNode path) g)) ->
  forall fuel zoneIndex zone agentsToSpawn i existingAgents,
    preserves I (spawnLoop fuel commit zoneIndex zone agentsToSpawn i existingAgents).
Proof.
  intros commit Hc. induction fuel as [|fuel IH]; intros; cbn [spawnLoop];
    [apply preserves_spin|].
  destruct (_ <? _); [|apply preserves_ret].
  apply preserves_bind; [apply I_findFreePositionInZone|]. intros [finalPosition|];
    [|apply preserves_ret].
  apply preserves_bind; [apply I_findRandomEdgeConnection|]. intros [spawnPoint|];
    [|apply preserves_ret].
  apply preserves_bind; [apply preserves_get|]. intros g1.
  apply preserves_bind.
  { destruct (points (roadNetwork g1)); [apply preserves_ret|].
    destruct (findClosestNetworkPoint g1 _ _); [|apply preserves_ret].
    destruct (findClosestNetworkPoint g1 _ _); [|apply preserves_ret].
    apply I_findNetworkPathBetweenNodes. }
  intros pathToNode. apply preserves_bind.
  { destruct pathToNode; [apply I_findPathToZone | apply preserves_ret]. }
  intros pathToNode'. apply preserves_bind.
  - apply preserves_modify. intros g2 H2. apply Hc. exact H2.
  - intros _. apply IH.
Qed.

Lemma I_spawnFor :
  forall (commit : Agent -> Game -> Game),
  (forall g spawnPoint zoneIndex finalPosition closestNode path,
     I g -> I (commit (newAgent spawnPoint zoneIndex finalPosition closestNode path) g)) ->
  forall fuel zoneIndex, preserves I (spawnFor fuel commit zoneIndex).
Proof.
  intros commit Hc fuel zoneIndex. unfold spawnFor.
  apply preserves_bind; [apply preserves_get|]. intros g1.
  apply preserves_bind; [apply preserves_nthOrThrow|]. intros zone.
  apply I_spawnLoop. exact Hc.
Qed.

Lemma I_updateZoneConnection : forall fuel i, preserves I (updateZoneConnection fuel i).
Proof.
  intros fuel i. unfold updateZoneConnection.
  apply preserves_bind; [apply preserves_get|]. intros g1.
  apply preserves_bind; [apply I_checkZoneConnection|]. intros isConnected.
  apply preserves_bind.
  { apply preserves_modify. intros g2 H2. apply I_zoneConnections. exact H2. }
  intros _.
  destruct (_ && _).
  { unfold spawnAgentsForZone. apply I_spawnFor. intros. apply I_enqueue. assumption. }
  destruct (_ && _).
  { apply preserves_modify. intros g2 H2. apply I_remove. exact H2. }
  destruct isConnected; [|apply preserves_ret].
  unfold updateAgentsForZone. apply I_spawnFor. intros. apply I_spawn. assumption.
Qed.

Lemma I_updateAllConnections : forall fuel, preserves I (updateAllConnections fuel).
Proof.
  intros fuel. unfold updateAllConnections.
  apply preserves_bind; [apply preserves_get|]. intros g1.
  apply preserves_forEach. intros i. apply I_updateZoneConnection.
Qed.

Lemma I_gameLoop : forall (fuel : nat) (currentTime : num),
  preserves I (gameLoop fuel currentTime).
Proof.
  intros fuel t. unfold gameLoop. apply preserves_tryCatch; [|intros e; apply preserves_ret].
  apply preserves_bind; [apply preserves_get|]. intros g1.
  apply preserves_bind.
  { destruct (needsRebuild (roadNetwork g1)); [apply I_build | apply preserves_ret]. }
  intros _. apply preserves_bind; [apply preserves_get|]. intros g2.
  apply preserves_bind.
  { destruct (needsConnectionUpdate g2); [|apply preserves_ret].
    apply preserves_bind; [apply I_updateAllConnections|]. intros _.
    apply preserves_modify. intros g3 H3. apply I_flag. exact H3. }
  intros _. apply preserves_bind.
  { apply preserves_modify. intros g3 H3. apply I_process. exact H3. }
  intros _. apply preserves_modify. intros g3 H3. apply I_updateAgents. exact H3.
Qed.

End TickInvariant.

(* ===================================================================== *)
(** ** Smooth strokes *)
(* ===================================================================== *)

Section SmoothFacts.

Context {A : Arith}.
Local Open Scope num_scope.

(** The circles of a game, residential and road. *)
Definition allCircles (g : Game) : list Circle :=
  circlesIn (residentialZones g) ++ circlesIn (roadZones g).

Lemma eraseCircles_circles : forall (x y r : num) (zones : list Zone) (c : Circle),
  In c (circlesIn (eraseCircles x y r zones)) -> In c (circlesIn zones).
Proof.
  intros x y r zones c. induction zones as [|zone zones IH]; [intros []|].
  unfold circlesIn in *. simpl.
  destruct (filter (keepCircle x y r) (zpoints zone)) as [|p l] eqn:E.
  - intros H. apply in_or_app. right. exact (IH H).
  - cbn [flat_map zpoints]. intros H. apply in_app_or in H. apply in_or_app.
    destruct H as [H|H]; [left | right; exact (IH H)].
    rewrite <- E in H. apply filter_In in H. exact (proj1 H).
Qed.

Lemma mergeInto_circles :
  forall (newZonePoint : Circle) (x y mergeDistance : num) (zones : list Zone) (c : Circle),
  In c (circlesIn (mergeInto newZonePoint x y mergeDistance zones)) ->
  c = newZonePoint \/ In c (circlesIn zones).
Proof.
  intros p x y d zones c H.
  destruct (mergeInto_conserves p x y d zones) as [Hp _].
  apply (Permutation_in _ Hp) in H. destruct H as [H|H]; [left; symmetry | right]; exact H.
Qed.

(** A paint call adds no circle but the painted one. *)
Lemma paintZone_circles : forall (x y : num) (forcePaint : bool) (g : Game) (c : Circle),
  In c (allCircles (paintZone x y forcePaint g)) ->
  c = mkCircle x y (brushSize (buildMode g)) \/ In c (allCircles g).
Proof.
  intros x y f g c. unfold paintZone.
  destruct (active (buildMode g)); simpl; [|tauto].
  destruct (selectedType (buildMode g)) as [ty|]; [|tauto].
  destruct (String.eqb ty EmptyString); [tauto|].
  destruct (tooCloseToLast sqrtDist x y f (buildMode g)); [tauto|].
  destruct (isResidentialType ty).
  - destruct (overlapsWithRoad _ _ _ _); [tauto|].
    unfold allCircles. simpl. intros H. apply in_app_or in H. destruct H as [H|H].
    + apply mergeInto_circles in H. destruct H as [H|H]; [left; exact H|].
      right. apply in_or_app. left. exact H.
    + right. apply in_or_app. right. exact H.
  - destruct (isRoadType ty); [|tauto].
    unfold allCircles. simpl. intros H. apply in_app_or in H. destruct H as [H|H].
    + right. apply in_or_app. left. exact (eraseCircles_circles _ _ _ _ _ H).
    + apply mergeInto_circles in H. destruct H as [H|H]; [left; exact H|].
      right. apply in_or_app. right. exact H.
Qed.

Lemma paintZoneAtPoint_circles :
  forall (x y s : num) (g : Game) (c : Circle),
  In c (allCircles (paintZoneAtPoint x y (Some s) g)) ->
  c = mkCircle x y (if truthy s then s else brushSize (buildMode g)) \/ In c (allCircles g).
Proof.
  intros x y s g c. unfold paintZoneAtPoint. cbv zeta.
  destruct (truthy s); intros H.
  - change (In c (allCircles (paintZone x y true
                                (set_buildMode (set_brushSize s (buildMode g)) g)))) in H.
    apply paintZone_circles in H. exact H.
  - change (In c (allCircles (paintZone x y true g))) in H.
    apply paintZone_circles in H. exact H.
Qed.

(** What paintZone and paintZoneAtPoint keep, a smooth stroke keeps,
    wherever it stands. *)
Section SmoothInvariant.

Variable I : Game -> Prop.
Hypothesis I_paintZone : forall (x y : num) (forcePaint : bool) (g : Game),
  I g -> I (paintZone x y forcePaint g).
Hypothesis I_paintZoneAtPoint : forall (x y : num) (customBrushSize : option num) (g : Game),
  I g -> I (paintZoneAtPoint x y customBrushSize g).

Lemma I_strokeLoop : forall (fuel : nat) (p0 p1 p2 : StrokePoint) (velocity steps : num)
    (i : nat),
  preserves I (strokeLoop fuel p0 p1 p2 velocity steps i).
Proof.
  induction fuel as [|fuel IH]; intros p0 p1 p2 v steps i; cbn [strokeLoop].
  - apply preserves_spin.
  - destruct (of_nat i <=? steps); [|apply preserves_ret].
    apply preserves_bind; [apply preserves_get|]. intros g0.
    apply preserves_bind; [|intros; apply IH].
    apply preserves_modify. intros g Hg. apply I_paintZoneAtPoint. exact Hg.
Qed.

Lemma I_paintSmoothStroke : forall (fuel : nat) (history : list StrokePoint),
  preserves I (paintSmoothStroke fuel history).
Proof.
  intros fuel history. unfold paintSmoothStroke. cbv zeta.
  destruct (Nat.ltb (List.length history) 3); [apply preserves_ret|].
  repeat (apply preserves_bind; [first [apply preserves_nthOrThrow | apply preserves_get]|];
          intros).
  apply I_strokeLoop.
Qed.

Lemma I_smoothPaintZone :
  forall (fuel : nat) (x y : num) (forcePaint : bool) (currentTime : num)
         (strokeHistory : list StrokePoint),
  preserves I (smoothPaintZone fuel x y forcePaint currentTime strokeHistory).
Proof.
  intros fuel x y f t h. unfold smoothPaintZone.
  apply preserves_bind; [apply preserves_get|]. intros g0. cbv zeta.
  destruct (negb (active (buildMode g0)) || _); [apply preserves_ret|].
  apply preserves_bind; [|intros; apply preserves_ret].
  destruct (Nat.leb 3 _ && smoothingEnabled).
  - apply I_paintSmoothStroke.
  - apply preserves_modify. intros g Hg. apply I_paintZone. exact Hg.
Qed.

End SmoothInvariant.

(** The history after a call that pushed [newPoint]. *)
Definition pushed (strokeHistory : list StrokePoint) (newPoint : StrokePoint)
    : list StrokePoint :=
  if Nat.ltb maxHistoryLength (List.length (strokeHistory ++ [newPoint]))
  then tl (strokeHistory ++ [newPoint]) else strokeHistory ++ [newPoint].

Lemma pushed_window : forall (h : list StrokePoint) (newPoint : StrokePoint),
  last (pushed h newPoint) newPoint = newPoint /\
  pushed h newPoint <> [] /\
  (exists dropped : list StrokePoint,
     h ++ [newPoint] = dropped ++ pushed h newPoint /\
     List.length dropped <= 1 /\
     (List.length h < maxHistoryLength -> dropped = [])) /\
  (List.length h <= maxHistoryLength -> List.length (pushed h newPoint) <= maxHistoryLength).
Proof.
  intros h p. unfold pushed, maxHistoryLength.
  destruct (Nat.ltb 4 (List.length (h ++ [p]))) eqn:E.
  - apply Nat.ltb_lt in E. rewrite length_app in E. simpl in E.
    destruct h as [|a h]; [simpl in E; lia|]. simpl.
    split; [apply last_last|]. split; [destruct h; discriminate|]. split.
    + exists [a]. split; [reflexivity|]. split; [simpl; lia|]. simpl in *. lia.
    + rewrite length_app. simpl. lia.
  - apply Nat.ltb_ge in E. split; [apply last_last|].
    split; [destruct h; discriminate|]. split.
    + exists []. split; [reflexivity|]. split; [simpl; lia | reflexivity].
    + intros _. exact E.
Qed.

Lemma smoothPaintZone_selected :
  forall (fuel : nat) (x y : num) (forcePaint : bool) (currentTime : num)
         (h : list StrokePoint) (g : Game) (ty : string),
  active (buildMode g) = true -> selectedType (buildMode g) = Some ty ->
  ty <> EmptyString ->
  smoothPaintZone fuel x y forcePaint currentTime h g =
  (let h' := pushed h (mkStrokePoint x y currentTime (brushSize (buildMode g))) in
   bind (if Nat.leb 3 (List.length h') then paintSmoothStroke fuel h'
         else modify (paintZone x y forcePaint))
        (fun _ => ret h') g).
Proof.
  intros fuel x y f t h g ty Ha Ht Hne. unfold smoothPaintZone, bind at 1, get.
  rewrite Ha, Ht. apply String.eqb_neq in Hne. rewrite Hne. simpl negb. cbn [orb]. cbv zeta.
  unfold pushed, smoothingEnabled. rewrite andb_true_r. reflexivity.
Qed.

Lemma smoothPaintZone_idle :
  forall (fuel : nat) (x y : num) (forcePaint : bool) (currentTime : num)
         (h : list StrokePoint) (g : Game),
  active (buildMode g) = false \/ selectedType (buildMode g) = None \/
  selectedType (buildMode g) = Some EmptyString ->
  smoothPaintZone fuel x y forcePaint currentTime h g = Ret h g.
Proof.
  intros fuel x y f t h g H. unfold smoothPaintZone, bind, get.
  destruct H as [H|[H|H]]; rewrite H; simpl.
  - reflexivity.
  - rewrite orb_true_r. reflexivity.
  - rewrite orb_true_r. reflexivity.
Qed.

End SmoothFacts.

Section StrokeFacts.

Context {A : Arith}.
Local Open Scope num_scope.

Lemma last_three : forall (X : Type) (h : list X),
  3 <= List.length h ->
  exists p0 p1 p2 : X,
    skipn (List.length h - 3) h = [p0; p1; p2] /\
    nth_error h (List.length h - 3) = Some p0 /\
    nth_error h (List.length h - 2) = Some p1 /\
    nth_error h (List.length h - 1) = Some p2.
Proof.
  intros X h Hlen.
  pose proof (length_skipn (List.length h - 3) h) as Hs.
  destruct (skipn (List.length h - 3) h) as [|p0 [|p1 [|p2 [|p3 rest]]]] eqn:E;
    simpl in Hs; try lia.
  exists p0, p1, p2. split; [reflexivity|].
  assert (Hn : forall k, nth_error h (List.length h - 3 + k) = nth_error [p0; p1; p2] k).
  { intros k. rewrite <- E. symmetry. apply nth_error_skipn. }
  split; [|split].
  - transitivity (nth_error h (List.length h - 3 + 0)); [f_equal; lia | exact (Hn 0)].
  - transitivity (nth_error h (List.length h - 3 + 1)); [f_equal; lia | exact (Hn 1)].
  - transitivity (nth_error h (List.length h - 3 + 2)); [f_equal; lia | exact (Hn 2)].
Qed.

(** With three points or more in the history, paintSmoothStroke is the
    loop over the curve of the last three. *)
Lemma paintSmoothStroke_loop : forall (fuel : nat) (h : list StrokePoint) (g : Game),
  3 <= List.length h ->
  exists p0 p1 p2 : StrokePoint,
    skipn (List.length h - 3) h = [p0; p1; p2] /\
    paintSmoothStroke fuel h g =
    strokeLoop fuel p0 p1 p2 (calculateVelocity p1 p2)
      (nmax (of_Z 3)
         (nfloor (nceil (nhypot (sx p2 - sx p0) (sy p2 - sy p0)
                         / (brushSize (buildMode g) * dec 3 10))
                  * nmax (dec 1 10) (nmin (of_Z 1) (calculateVelocity p1 p2 / of_Z 100)))))
      0 g.
Proof.
  intros fuel h g Hlen. destruct (last_three _ h Hlen) as [p0 [p1 [p2 [Es [E0 [E1 E2]]]]]].
  exists p0, p1, p2. split; [exact Es|].
  unfold paintSmoothStroke. cbv zeta.
  replace (Nat.ltb (List.length h) 3) with false by (symmetry; apply Nat.ltb_ge; exact Hlen).
  unfold nthOrThrow. rewrite E0, E1, E2. reflexivity.
Qed.

End StrokeFacts.

Section RealSmoothFacts.

Local Open Scope R_scope.

Lemma bezier_between : forall a b c t : R,
  0 <= t <= 1 ->
  Rmin a (Rmin b c) <= (1 - t) * (1 - t) * a + 2 * (1 - t) * t * b + t * t * c
    <= Rmax a (Rmax b c).
Proof.
  intros a b c t [H0 H1].
  set (m := Rmin a (Rmin b c)). set (M := Rmax a (Rmax b c)).
  assert (Ha : m <= a <= M) by (split; [apply Rmin_l | apply Rmax_l]).
  assert (Hb : m <= b <= M).
  { split; [eapply Rle_trans; [apply Rmin_r | apply Rmin_l]
           | eapply Rle_trans; [apply Rmax_l | apply Rmax_r]]. }
  assert (Hc : m <= c <= M).
  { split; [eapply Rle_trans; [apply Rmin_r | apply Rmin_r]
           | eapply Rle_trans; [apply Rmax_r | apply Rmax_r]]. }
  assert (W0 : 0 <= (1 - t) * (1 - t)) by (apply Rmult_le_pos; lra).
  assert (W1 : 0 <= 2 * (1 - t) * t) by (apply Rmult_le_pos; [lra | lra]).
  assert (W2 : 0 <= t * t) by (apply Rmult_le_pos; lra).
  clearbody m M.
  assert (L0 : 0 <= (1 - t) * (1 - t) * (a - m)) by (apply Rmult_le_pos; lra).
  assert (L1 : 0 <= 2 * (1 - t) * t * (b - m)) by (apply Rmult_le_pos; lra).
  assert (L2 : 0 <= t * t * (c - m)) by (apply Rmult_le_pos; lra).
  assert (U0 : 0 <= (1 - t) * (1 - t) * (M - a)) by (apply Rmult_le_pos; lra).
  assert (U1 : 0 <= 2 * (1 - t) * t * (M - b)) by (apply Rmult_le_pos; lra).
  assert (U2 : 0 <= t * t * (M - c)) by (apply Rmult_le_pos; lra).
  split; nra.
Qed.

(** The point lies in the bounding box of the stroke points. *)
Definition strokeBox (pts : list (@StrokePoint RArith)) (x y : R) : Prop :=
  (exists p q, In p pts /\ In q pts /\ sx p <= x <= sx q) /\
  (exists p q, In p pts /\ In q pts /\ sy p <= y <= sy q).

Lemma between_three : forall (X : Type) (f : X -> R) (p0 p1 p2 : X) (v : R),
  Rmin (f p0) (Rmin (f p1) (f p2)) <= v <= Rmax (f p0) (Rmax (f p1) (f p2)) ->
  exists p q, In p [p0; p1; p2] /\ In q [p0; p1; p2] /\ f p <= v <= f q.
Proof.
  intros X f p0 p1 p2 v [Hlo Hhi].
  assert (Hp : exists p, In p [p0; p1; p2] /\ f p <= v).
  { revert Hlo. unfold Rmin. repeat destruct (Rle_dec _ _); intros Hlo;
      first [solve [exists p0; simpl; split; [auto | lra]]
            | solve [exists p1; simpl; split; [auto | lra]]
            | solve [exists p2; simpl; split; [auto | lra]]]. }
  assert (Hq : exists q, In q [p0; p1; p2] /\ v <= f q).
  { revert Hhi. unfold Rmax. repeat destruct (Rle_dec _ _); intros Hhi;
      first [solve [exists p0; simpl; split; [auto | lra]]
            | solve [exists p1; simpl; split; [auto | lra]]
            | solve [exists p2; simpl; split; [auto | lra]]]. }
  destruct Hp as [p [Hp1 Hp2]]. destruct Hq as [q [Hq1 Hq2]].
  exists p, q. split; [exact Hp1|]. split; [exact Hq1 | lra].
Qed.

Lemma bezier_in_box : forall (p0 p1 p2 : @StrokePoint RArith) (t : R),
  0 <= t <= 1 ->
  strokeBox [p0; p1; p2] (px (calculateQuadraticBezier p0 p1 p2 t))
                         (py (calculateQuadraticBezier p0 p1 p2 t)).
Proof.
  intros p0 p1 p2 t Ht. split.
  - apply (between_three (@StrokePoint RArith) (@sx RArith)). exact (bezier_between (sx p0) (sx p1) (sx p2) t Ht).
  - apply (between_three (@StrokePoint RArith) (@sy RArith)). exact (bezier_between (sy p0) (sy p1) (sy p2) t Ht).
Qed.

End RealSmoothFacts.

Section RealStrokeTheorem.

Local Open Scope R_scope.

(** A circle painted by the stroke: its radius is within a tenth of the
    brush size [b] of [b], and its centre is in the bounding box of the
    stroke points. *)
Definition nearStroke (b : R) (pts : list (@StrokePoint RArith)) (c : @Circle RArith) : Prop :=
  Rabs (radius c - b) <= b / 10 /\ strokeBox pts (cx c) (cy c).

Lemma variation_bound : forall b a : R,
  0 < b -> Rabs (b * (1 + sin a * (1 / 10)) - b) <= b / 10.
Proof.
  intros b a Hb. pose proof (SIN_bound a) as [Hlo Hhi].
  apply Rabs_le. split; nra.
Qed.

Lemma strokeLoop_paints :
  forall (p0 p1 p2 : @StrokePoint RArith) (velocity steps b : R) (g0 : @Game RArith),
  3 <= steps -> 0 < b ->
  forall (fuel i : nat) (g : @Game RArith),
  brushSize (buildMode g) = b ->
  (forall c, In c (allCircles g) -> In c (allCircles g0) \/ nearStroke b [p0; p1; p2] c) ->
  brushSize (buildMode (gameOf (@strokeLoop RArith fuel p0 p1 p2 velocity steps i g))) = b /\
  (forall c, In c (allCircles (gameOf (@strokeLoop RArith fuel p0 p1 p2 velocity steps i g))) ->
     In c (allCircles g0) \/ nearStroke b [p0; p1; p2] c).
Proof.
  intros p0 p1 p2 v steps b g0 Hsteps Hb.
  induction fuel as [|fuel IH]; intros i g Hbg Hc; cbn [strokeLoop].
  - split; assumption.
  - destruct (@nleb RArith (of_nat i) steps) eqn:E; [|split; assumption].
    apply leb_true in E.
    unfold bind at 1, get at 1. unfold bind at 1, modify at 1.
    apply IH.
    + rewrite (proj1 (paintZoneAtPoint_buildMode _ _ _ g)). exact Hbg.
    + intros c Hin. apply paintZoneAtPoint_circles in Hin.
      destruct Hin as [->|Hin]; [right | exact (Hc c Hin)].
      split.
      * cbn [radius]. rewrite Hbg. destruct (truthy _).
        -- apply variation_bound. exact Hb.
        -- replace (b - b) with 0 by ring. rewrite Rabs_R0. lra.
      * cbn [cx cy]. apply bezier_in_box.
        assert (H0 : 0 <= @of_nat RArith i) by (apply IZR_le; lia).
        change (0 <= @of_nat RArith i / steps <= 1). split.
        -- apply Rmult_le_pos; [exact H0|]. apply Rlt_le, Rinv_0_lt_compat. lra.
        -- apply (Rmult_le_reg_r steps); [lra|]. unfold Rdiv.
           rewrite Rmult_assoc, Rinv_l by lra. lra.
Qed.

Lemma strokeLoop_returns :
  forall (p0 p1 p2 : @StrokePoint RArith) (velocity steps : R) (fuel i : nat)
         (g : @Game RArith),
  IZR (Z.of_nat i) <= steps + 1 ->
  steps + 1 < IZR (Z.of_nat (i + fuel)) ->
  exists g', @strokeLoop RArith fuel p0 p1 p2 velocity steps i g = Ret tt g'.
Proof.
  intros p0 p1 p2 v steps. induction fuel as [|fuel IH]; intros i g Hi Hf.
  - rewrite Nat.add_0_r in Hf. lra.
  - cbn [strokeLoop].
    destruct (@nleb RArith (of_nat i) steps) eqn:E; [|exists g; reflexivity].
    apply leb_true in E. unfold bind at 1, get at 1. unfold bind at 1, modify at 1.
    apply IH.
    + change (@of_nat RArith i) with (IZR (Z.of_nat i)) in E.
      rewrite Nat2Z.inj_succ, succ_IZR. lra.
    + replace (S i + fuel)%nat with (i + S fuel)%nat by lia. exact Hf.
Qed.

(** X26, in real arithmetic: a smooth stroke paints along the stroke. With
    a positive brush size, smoothPaintZone returns, given fuel enough; it
    leaves the brush size as it was; and every circle of the game afterwards
    was there before or has a radius within a tenth of the brush size of the
    brush size and its centre in the bounding box of the last three points
    of the stroke. *)
Theorem smooth_stroke_paints_along_the_stroke :
  forall (x y : R) (forcePaint : bool) (currentTime : R)
         (h : list (@StrokePoint RArith)) (g : @Game RArith),
  0 < brushSize (buildMode g) ->
  (exists enough : nat, forall fuel : nat, (enough <= fuel)%nat ->
     exists h' g', @smoothPaintZone RArith fuel x y forcePaint currentTime h g = Ret h' g') /\
  (forall (fuel : nat) (h' : list (@StrokePoint RArith)) (g' : @Game RArith),
     @smoothPaintZone RArith fuel x y forcePaint currentTime h g = Ret h' g' ->
     brushSize (buildMode g') = brushSize (buildMode g) /\
     forall c : @Circle RArith, In c (allCircles g') ->
       In c (allCircles g) \/
       nearStroke (brushSize (buildMode g)) (skipn (List.length h' - 3) h') c).
Proof.
  intros x y f t h g Hb.
  assert (Hidle : active (buildMode g) = false \/ selectedType (buildMode g) = None \/
                  selectedType (buildMode g) = Some EmptyString ->
                  (exists enough : nat, forall fuel : nat, (enough <= fuel)%nat ->
                     exists h' g',
                       @smoothPaintZone RArith fuel x y f t h g = Ret h' g') /\
                  (forall (fuel : nat) (h' : list (@StrokePoint RArith)) (g' : @Game RArith),
                     @smoothPaintZone RArith fuel x y f t h g = Ret h' g' ->
                     brushSize (buildMode g') = brushSize (buildMode g) /\
                     forall c : @Circle RArith, In c (allCircles g') ->
                       In c (allCircles g) \/
                       nearStroke (brushSize (buildMode g))
                                  (skipn (List.length h' - 3) h') c)).
  { intros Hc. split.
    - exists 0%nat. intros fuel _. exists h, g.
      exact (@smoothPaintZone_idle RArith fuel x y f t h g Hc).
    - intros fuel h' g' H. rewrite (@smoothPaintZone_idle RArith fuel x y f t h g Hc) in H.
      inversion H; subst. split; [reflexivity | auto]. }
  destruct (active (buildMode g)) eqn:Ea; [|apply Hidle; left; reflexivity].
  destruct (selectedType (buildMode g)) as [ty|] eqn:Et;
    [|apply Hidle; right; left; reflexivity].
  destruct (String.eqb ty EmptyString) eqn:Ee.
  { apply String.eqb_eq in Ee. subst ty. apply Hidle. right. right. reflexivity. }
  clear Hidle.
  apply String.eqb_neq in Ee.
  set (newPoint := @mkStrokePoint RArith x y t (brushSize (buildMode g))).
  assert (Hrun : forall fuel,
            @smoothPaintZone RArith fuel x y f t h g =
            @bind RArith _ _ (if Nat.leb 3 (List.length (@pushed RArith h newPoint))
                  then @paintSmoothStroke RArith fuel (@pushed RArith h newPoint)
                  else @modify RArith (@paintZone RArith x y f))
                 (fun _ => @ret RArith _ (@pushed RArith h newPoint)) g)
    by (intros fuel; exact (@smoothPaintZone_selected RArith fuel x y f t h g ty Ea Et Ee)).
  destruct (@pushed_window RArith h newPoint) as [Hlast [Hne _]].
  destruct (Nat.leb 3 (List.length (@pushed RArith h newPoint))) eqn:El.
  - apply Nat.leb_le in El.
    destruct (@paintSmoothStroke_loop RArith 0 (@pushed RArith h newPoint) g El) as [p0 [p1 [p2 [Es _]]]].
    set (velocity := @calculateVelocity RArith p1 p2).
    set (steps := Rmax 3
                    (RealNum.floor
                       (RealNum.ceil (RealNum.hypot (sx p2 - sx p0) (sy p2 - sy p0)
                                      / (brushSize (buildMode g) * (3 / 10)))
                        * Rmax (1 / 10) (Rmin 1 (velocity / 100))))).
    assert (Hloop : forall fuel,
              @paintSmoothStroke RArith fuel (@pushed RArith h newPoint) g
              = @strokeLoop RArith fuel p0 p1 p2 velocity steps 0 g).
    { intros fuel.
      destruct (@paintSmoothStroke_loop RArith fuel (@pushed RArith h newPoint) g El)
        as [q0 [q1 [q2 [Es' E]]]].
      rewrite Es in Es'. inversion Es'; subst q0 q1 q2. exact E. }
    assert (Hsteps : 3 <= steps) by apply Rmax_l.
    split.
    + destruct (archimed (steps + 1)) as [Hup _].
      exists (Z.to_nat (up (steps + 1))). intros fuel Hf.
      destruct (strokeLoop_returns p0 p1 p2 velocity steps fuel 0 g) as [g' Hg'].
      * simpl. lra.
      * simpl. eapply Rlt_le_trans; [apply Rgt_lt; exact Hup|]. apply IZR_le.
        assert (0 < up (steps + 1))%Z by (apply lt_IZR; lra). lia.
      * exists (@pushed RArith h newPoint), g'. rewrite Hrun. unfold bind. rewrite Hloop, Hg'.
        reflexivity.
    + intros fuel h' g' H. rewrite Hrun in H.
      apply bind_returns in H. destruct H as [[] [g1 [H1 H2]]].
      inversion H2; subst h' g1. rewrite Hloop in H1.
      destruct (strokeLoop_paints p0 p1 p2 velocity steps (brushSize (buildMode g)) g
                  Hsteps Hb fuel 0%nat g eq_refl (fun c Hc => or_introl Hc)) as [K1 K2].
      rewrite H1 in K1, K2. simpl in K1, K2. rewrite Es. split; [exact K1 | exact K2].
  - apply Nat.leb_gt in El. split.
    + exists 0%nat. intros fuel _. exists (@pushed RArith h newPoint), (@paintZone RArith x y f g).
      rewrite Hrun. reflexivity.
    + intros fuel h' g' H. rewrite Hrun in H. inversion H; subst h' g'.
      split; [exact (proj2 (proj2 (@paintZone_buildMode RArith x y f g)))|].
      intros c Hc. apply (@paintZone_circles RArith) in Hc.
      destruct Hc as [->|Hc]; [right | left; exact Hc].
      replace (List.length (@pushed RArith h newPoint) - 3)%nat with 0%nat by lia.
      cbn [skipn].
      assert (Hin : In newPoint (@pushed RArith h newPoint)).
      { destruct (exists_last Hne) as [front [z Ez]]. rewrite Ez in Hlast |- *.
        rewrite last_last in Hlast. subst z. apply in_or_app. right. left. reflexivity. }
      split.
      * cbn [radius]. replace (brushSize (buildMode g) - brushSize (buildMode g)) with 0 by ring.
        rewrite Rabs_R0. lra.
      * split; exists newPoint, newPoint; (split; [exact Hin|]); (split; [exact Hin|]);
          simpl; lra.
Qed.

End RealStrokeTheorem.

Section StrokeWindow.

Context {A : Arith}.
Local Open Scope num_scope.

(** The build mode is on and a build item is selected. *)
Definition painting (g : Game) : bool :=
  active (buildMode g) &&
  match selectedType (buildMode g) with
  | Some ty => negb (String.eqb ty EmptyString)
  | None => false
  end.

Lemma smoothPaintZone_buildMode :
  forall (fuel : nat) (x y : num) (forcePaint : bool) (currentTime : num)
         (h : list StrokePoint) (g : Game),
  active (buildMode (gameOf (smoothPaintZone fuel x y forcePaint currentTime h g)))
    = active (buildMode g) /\
  selectedType (buildMode (gameOf (smoothPaintZone fuel x y forcePaint currentTime h g)))
    = selectedType (buildMode g) /\
  brushSize (buildMode (gameOf (smoothPaintZone fuel x y forcePaint currentTime h g)))
    = brushSize (buildMode g).
Proof.
  intros fuel x y f t h g.
  apply (I_smoothPaintZone
           (fun g' => active (buildMode g') = active (buildMode g) /\
                      selectedType (buildMode g') = selectedType (buildMode g) /\
                      brushSize (buildMode g') = brushSize (buildMode g))).
  - intros x0 y0 f0 g0 [H1 [H2 H3]].
    destruct (paintZone_buildMode x0 y0 f0 g0) as [K1 [K2 K3]].
    repeat split; congruence.
  - intros x0 y0 c0 g0 [H1 [H2 H3]].
    destruct (paintZoneAtPoint_buildMode x0 y0 c0 g0) as [K3 [K2 K1]].
    repeat split; congruence.
  - repeat split; reflexivity.
Qed.

(** X27: smoothPaintZone keeps a window of the stroke. Outside the build
    mode, or with no item selected, it changes neither history nor game.
    Otherwise the point of the call ends the history, which drops its oldest
    point when it had four already and so stays within four; the first two
    points of a stroke are painted by paintZone as called; and, however the
    stroke is painted, the build mode has its brush size, type and activity
    back. *)
Theorem smoothPaintZone_keeps_a_window :
  forall (fuel : nat) (x y : num) (forcePaint : bool) (currentTime : num)
         (h h' : list StrokePoint) (g g' : Game),
  smoothPaintZone fuel x y forcePaint currentTime h g = Ret h' g' ->
  (painting g = false -> h' = h /\ g' = g) /\
  (painting g = true ->
   last h' (mkStrokePoint x y currentTime (brushSize (buildMode g)))
     = mkStrokePoint x y currentTime (brushSize (buildMode g)) /\
   (exists dropped : list StrokePoint,
      h ++ [mkStrokePoint x y currentTime (brushSize (buildMode g))] = dropped ++ h' /\
      List.length dropped <= 1 /\
      (List.length h < maxHistoryLength -> dropped = [])) /\
   (List.length h <= maxHistoryLength -> List.length h' <= maxHistoryLength) /\
   (List.length h < 2 -> g' = paintZone x y forcePaint g)) /\
  active (buildMode g') = active (buildMode g) /\
  selectedType (buildMode g') = selectedType (buildMode g) /\
  brushSize (buildMode g') = brushSize (buildMode g).
Proof.
  intros fuel x y f t h h' g g' H.
  pose proof (smoothPaintZone_buildMode fuel x y f t h g) as Hb. rewrite H in Hb.
  split; [|split; [|exact Hb]].
  - intros Hp. unfold painting in Hp.
    assert (Hidle : active (buildMode g) = false \/ selectedType (buildMode g) = None \/
                    selectedType (buildMode g) = Some EmptyString).
    { destruct (active (buildMode g)); [|left; reflexivity]. right.
      destruct (selectedType (buildMode g)) as [ty|]; [|left; reflexivity]. right.
      simpl in Hp. apply negb_false_iff, String.eqb_eq in Hp. rewrite Hp. reflexivity. }
    rewrite (smoothPaintZone_idle fuel x y f t h g Hidle) in H.
    inversion H. split; reflexivity.
  - intros Hp. unfold painting in Hp. apply andb_prop in Hp. destruct Hp as [Ha Ht].
    destruct (selectedType (buildMode g)) as [ty|] eqn:Et; [|discriminate Ht].
    apply negb_true_iff, String.eqb_neq in Ht.
    rewrite (smoothPaintZone_selected fuel x y f t h g ty Ha Et Ht) in H. cbv zeta in H.
    apply bind_returns in H. destruct H as [[] [g1 [H1 H2]]].
    inversion H2; subst h' g1.
    destruct (pushed_window h (mkStrokePoint x y t (brushSize (buildMode g))))
      as [Hlast [_ [Hdrop Hlen]]].
    split; [exact Hlast|]. split; [exact Hdrop|]. split; [exact Hlen|].
    intros Hshort.
    assert (El : Nat.leb 3 (List.length (pushed h (mkStrokePoint x y t (brushSize (buildMode g)))))
                 = false).
    { apply Nat.leb_gt. unfold pushed, maxHistoryLength.
      rewrite length_app. simpl.
      replace (Nat.ltb 4 (List.length h + 1)) with false
        by (symmetry; apply Nat.ltb_ge; lia).
      rewrite length_app. simpl. lia. }
    rewrite El in H1. inversion H1. reflexivity.
Qed.

End StrokeWindow.

Module SmoothRuns.

Import Scenario.

Local Open Scope float_scope.

Definition strokePoint (x y t b : float) : @StrokePoint F := @mkStrokePoint F x y t b.

(** A road stroke of brush size 40 from (1000, 1000) over (1030, 1000), 16
    ms later, to (1060, 1010). *)
Definition strokeStart : @Game F := select "road" 40 (newGame []).
Definition stroke1 : @Outcome F (list (@StrokePoint F)) :=
  @smoothPaintZone F 20 1000 1000 true 0 [] strokeStart.
Definition historyOf (o : @Outcome F (list (@StrokePoint F))) : list (@StrokePoint F) :=
  match o with
  | Ret h _ => h
  | _ => []
  end.
Definition stroke2 : @Outcome F (list (@StrokePoint F)) :=
  @smoothPaintZone F 20 1030 1000 false 16 (historyOf stroke1) (gameOf stroke1).
Definition stroke3 : @Outcome F (list (@StrokePoint F)) :=
  @smoothPaintZone F 20 1060 1010 false 32 (historyOf stroke2) (gameOf stroke2).

Lemma returned_history : forall o : @Outcome F (list (@StrokePoint F)),
  returned o = true -> o = Ret (historyOf o) (gameOf o).
Proof. intros [h g|e g|g] H; [reflexivity | discriminate H | discriminate H]. Qed.

(** The first two calls paint their own point; the third paints seven
    circles along the curve, the first and the last on its ends. *)
Example smooth_road_stroke :
  circlesOf (roadZones (gameOf stroke2))
    = [[(1000, 1000, 40); (1030, 1000, 40)]] /\
  returned stroke3 = true /\
  List.length (historyOf stroke3) = 3%nat /\
  map (fun c => (cx c, cy c)) (firstn 1 (skipn 2 (circlesIn (roadZones (gameOf stroke3)))))
    = [(1000, 1000)] /\
  map (fun c => (cx c, cy c)) (skipn 8 (circlesIn (roadZones (gameOf stroke3))))
    = [(1060, 1010)] /\
  List.length (circlesIn (roadZones (gameOf stroke3))) = 9%nat.
Proof. vm_compute. repeat split; reflexivity. Qed.

(** The third call of the stroke. *)
Lemma smoothPaintZone_keeps_a_window_witness :
  @smoothPaintZone F 20 1060 1010 false 32 (historyOf stroke2) (gameOf stroke2)
    = Ret (historyOf (@smoothPaintZone F 20 1060 1010 false 32
                        (historyOf stroke2) (gameOf stroke2)))
          (gameOf (@smoothPaintZone F 20 1060 1010 false 32
                     (historyOf stroke2) (gameOf stroke2))) /\
  List.length (historyOf (@smoothPaintZone F 20 1060 1010 false 32
                            (historyOf stroke2) (gameOf stroke2)))
    <= @maxHistoryLength /\
  @brushSize F (buildMode (gameOf (@smoothPaintZone F 20 1060 1010 false 32
                                     (historyOf stroke2) (gameOf stroke2))))
    = @brushSize F (buildMode (gameOf stroke2)).
Proof.
  assert (H : @smoothPaintZone F 20 1060 1010 false 32 (historyOf stroke2) (gameOf stroke2)
              = Ret (historyOf (@smoothPaintZone F 20 1060 1010 false 32
                                  (historyOf stroke2) (gameOf stroke2)))
                    (gameOf (@smoothPaintZone F 20 1060 1010 false 32
                               (historyOf stroke2) (gameOf stroke2))))
    by (apply returned_history; vm_compute; reflexivity).
  split; [exact H|].
  destruct (@smoothPaintZone_keeps_a_window F 20 1060 1010 false 32
              (historyOf stroke2) _ (gameOf stroke2) _ H)
    as [_ [T1 [_ [_ T2]]]].
  split; [|exact T2].
  apply T1; [vm_compute; reflexivity | vm_compute; lia].
Defined.

Local Open Scope R_scope.

Lemma smooth_stroke_paints_along_the_stroke_witness :
  0 < brushSize (buildMode (newGameR "road" 50)) /\
  exists enough : nat, forall fuel : nat, (enough <= fuel)%nat ->
    exists h' g',
      @smoothPaintZone RArith fuel 60 10 false 32
        [@mkStrokePoint RArith 0 0 0 50; @mkStrokePoint RArith 30 0 16 50]
        (newGameR "road" 50) = Ret h' g'.
Proof.
  assert (H : 0 < brushSize (buildMode (newGameR "road" 50))) by (simpl; lra).
  split; [exact H|].
  exact (proj1 (smooth_stroke_paints_along_the_stroke 60 10 false 32
                  [@mkStrokePoint RArith 0 0 0 50; @mkStrokePoint RArith 30 0 16 50]
                  (newGameR "road" 50) H)).
Defined.

End SmoothRuns.

(* ===================================================================== *)
(** ** The games the engine can reach *)
(* ===================================================================== *)

Section ReachableFacts.

Context {A : Arith}.
Local Open Scope num_scope.

(** The games reached from the new game by selecting and deselecting a build
    item, by an event handler writing the build mode (the brush size keys,
    the end of a stroke), by painting, directly or in a smooth stroke, by
    erasing and by ticking; a call counts wherever it stands. *)
Inductive reachable : Game -> Prop :=
| reach_initial : forall rs : list num, reachable (initialGame rs)
| reach_select : forall (g : Game) (buildType : string) (size : num),
    reachable g -> reachable (activateBuildMode buildType size g)
| reach_deselect : forall g : Game,
    reachable g -> reachable (deactivateBuildMode g)
| reach_buildMode : forall (g : Game) (b : BuildMode),
    reachable g -> reachable (set_buildMode b g)
| reach_smooth : forall (g : Game) (fuel : nat) (x y : num) (forcePaint : bool)
                        (currentTime : num) (strokeHistory : list StrokePoint),
    reachable g ->
    reachable (gameOf (smoothPaintZone fuel x y forcePaint currentTime strokeHistory g))
| reach_paint : forall (g : Game) (x y : num) (forcePaint : bool),
    reachable g -> reachable (paintZone x y forcePaint g)
| reach_paintAt : forall (g : Game) (x y : num) (customBrushSize : option num),
    reachable g -> reachable (paintZoneAtPoint x y customBrushSize g)
| reach_erase : forall (g : Game) (x y : num) (forceErase : bool),
    reachable g -> reachable (eraseZone x y forceErase g)
| reach_tick : forall (g : Game) (fuel : nat) (currentTime : num),
    reachable g -> reachable (gameOf (gameLoop fuel currentTime g)).

(** What both spawn procedures give every agent. *)
Definition engineMade (agent : Agent) : Prop :=
  speed agent = of_Z 2 /\ aradius agent = of_Z 10.

Definition wellFormed (g : Game) : Prop :=
  noEmptyZone (residentialZones g) /\ noEmptyZone (roadZones g) /\
  graphShape g /\ idsAreIndices g /\
  Forall engineMade (agents g) /\ Forall engineMade (agentSpawnQueue g).

(** What the zone edits leave alone. *)
Definition sameBeyondZones (g g' : Game) : Prop :=
  points (roadNetwork g') = points (roadNetwork g) /\
  connections (roadNetwork g') = connections (roadNetwork g) /\
  agents g' = agents g /\ agentSpawnQueue g' = agentSpawnQueue g /\
  zoneConnections g' = zoneConnections g /\ randoms g' = randoms g.

Lemma paintZone_sameBeyondZones : forall (x y : num) (forcePaint : bool) (g : Game),
  sameBeyondZones g (paintZone x y forcePaint g).
Proof.
  intros x y f g. unfold paintZone, sameBeyondZones.
  destruct (active (buildMode g)); simpl; [|tauto].
  destruct (selectedType (buildMode g)) as [ty|]; [|tauto].
  destruct (String.eqb ty EmptyString); [tauto|].
  destruct (tooCloseToLast sqrtDist x y f (buildMode g)); [tauto|].
  destruct (isResidentialType ty).
  - destruct (overlapsWithRoad _ _ _ _); simpl; tauto.
  - destruct (isRoadType ty); simpl; tauto.
Qed.

Lemma eraseZone_sameBeyondZones : forall (x y : num) (forceErase : bool) (g : Game),
  sameBeyondZones g (eraseZone x y forceErase g).
Proof.
  intros x y f g. unfold eraseZone, sameBeyondZones.
  destruct (active (buildMode g)); simpl; [|tauto].
  destruct (tooCloseToLast nhypot x y f (buildMode g)); simpl; tauto.
Qed.

Lemma wellFormed_beyond : forall g g' : Game,
  sameBeyondZones g g' ->
  noEmptyZone (residentialZones g') -> noEmptyZone (roadZones g') ->
  wellFormed g -> wellFormed g'.
Proof.
  intros g g' [Hp [Hc [Ha [Hq _]]]] Hres Hroad [_ [_ [[Hlen Hsym] [Hid [Hag Hqu]]]]].
  split; [exact Hres|]. split; [exact Hroad|]. split; [|split; [|split]].
  - unfold graphShape. rewrite Hp, Hc. split; assumption.
  - unfold idsAreIndices. rewrite Hp. exact Hid.
  - rewrite Ha. exact Hag.
  - rewrite Hq. exact Hqu.
Qed.

Lemma processAgentSpawnQueue_frame : forall (currentTime : num) (g : Game),
  residentialZones (processAgentSpawnQueue currentTime g) = residentialZones g /\
  roadZones (processAgentSpawnQueue currentTime g) = roadZones g /\
  buildMode (processAgentSpawnQueue currentTime g) = buildMode g /\
  roadNetwork (processAgentSpawnQueue currentTime g) = roadNetwork g /\
  spawnDelay (processAgentSpawnQueue currentTime g) = spawnDelay g.
Proof.
  intros t g. unfold processAgentSpawnQueue.
  destruct (_ >=? _); [|tauto]. destruct (agentSpawnQueue g); simpl; tauto.
Qed.

Lemma updateAgents_spawnDelay : forall g : Game,
  spawnDelay (updateAgents g) = spawnDelay g.
Proof.
  intros g. unfold updateAgents. generalize (seq 0 (List.length (agents g))).
  intros l. revert g. induction l as [|i l IH]; intros g; simpl; [reflexivity|].
  rewrite IH. unfold updateAgentAt. destruct (nth_error (agents g) i); reflexivity.
Qed.

(** The tick writes neither the zones nor the build mode. *)
Lemma gameLoop_frame : forall (fuel : nat) (currentTime : num) (g : Game),
  residentialZones (gameOf (gameLoop fuel currentTime g)) = residentialZones g /\
  roadZones (gameOf (gameLoop fuel currentTime g)) = roadZones g /\
  buildMode (gameOf (gameLoop fuel currentTime g)) = buildMode g /\
  spawnDelay (gameOf (gameLoop fuel currentTime g)) = spawnDelay g.
Proof.
  intros fuel t g.
  set (I := fun g' : Game =>
              residentialZones g' = residentialZones g /\ roadZones g' = roadZones g /\
              buildMode g' = buildMode g /\ spawnDelay g' = spawnDelay g).
  assert (H : preserves I (gameLoop fuel t)).
  { apply I_gameLoop.
    - intros fuel'. apply frame_buildRoadNetwork; intros g0 ? H; exact H.
    - intros g0 rs H. exact H.
    - intros g0 m H. exact H.
    - intros g0 b H. exact H.
    - intros g0 ? ? ? ? ? H. exact H.
    - intros g0 ? ? ? ? ? H. exact H.
    - intros g0 z H. exact H.
    - intros g0 t0 [H1 [H2 [H3 H4]]].
      destruct (processAgentSpawnQueue_frame t0 g0) as [K1 [K2 [K3 [_ K5]]]].
      unfold I. repeat split; congruence.
    - intros g0 [H1 [H2 [H3 H4]]].
      destruct (updateAgents_frame g0) as [K1 [K2 [K3 _]]].
      pose proof (updateAgents_spawnDelay g0) as K4.
      unfold I. repeat split; congruence. }
  apply (H g). unfold I. repeat split; reflexivity.
Qed.

Lemma gameLoop_never_throws : forall (fuel : nat) (currentTime : num) (g : Game)
    (e : string) (g' : Game),
  gameLoop fuel currentTime g <> Throw e g'.
Proof.
  intros fuel t g e g'. unfold gameLoop, tryCatch.
  match goal with |- match ?body with _ => _ end <> _ => destruct body end;
    unfold ret; discriminate.
Qed.

(** The statements of the [try] block of gameLoop. *)
Definition gameLoopSteps (fuel : nat) (currentTime : num) : M unit :=
  bind get (fun g =>
  bind (if needsRebuild (roadNetwork g) then buildRoadNetwork fuel else ret tt) (fun _ =>
  bind get (fun g =>
  bind (if needsConnectionUpdate g
        then bind (updateAllConnections fuel)
                  (fun _ => modify (set_needsConnectionUpdate false))
        else ret tt) (fun _ =>
  bind (modify (processAgentSpawnQueue currentTime)) (fun _ =>
  modify updateAgents))))).

Lemma gameLoop_steps : forall (fuel : nat) (currentTime : num),
  gameLoop fuel currentTime = tryCatch (gameLoopSteps fuel currentTime) (fun _ => ret tt).
Proof. reflexivity. Qed.

(** X28: the tick is fail-soft and never paints. gameLoop is its try block
    with every throw turned into a return: when the statements of the block
    throw, in the connectivity pass or in spawning, the tick returns, leaving
    the game as the throw left it; when they return, the tick returns with
    their result; so no exception gets out of gameLoop. And whatever way the
    tick ends, the residential zones, the road zones, the build mode and the
    spawn delay are what they were. *)
Theorem gameLoop_is_fail_soft_and_leaves_the_map :
  forall (fuel : nat) (currentTime : num) (g : Game),
  gameLoop fuel currentTime g
    = match gameLoopSteps fuel currentTime g with
      | Ret x g' => Ret x g'
      | Throw _ g' => Ret tt g'
      | Spin g' => Spin g'
      end /\
  (forall (e : string) (g' : Game),
     gameLoopSteps fuel currentTime g = Throw e g' -> gameLoop fuel currentTime g = Ret tt g') /\
  (forall (e : string) (g' : Game), gameLoop fuel currentTime g <> Throw e g') /\
  residentialZones (gameOf (gameLoop fuel currentTime g)) = residentialZones g /\
  roadZones (gameOf (gameLoop fuel currentTime g)) = roadZones g /\
  buildMode (gameOf (gameLoop fuel currentTime g)) = buildMode g /\
  spawnDelay (gameOf (gameLoop fuel currentTime g)) = spawnDelay g.
Proof.
  intros fuel t g.
  assert (E : gameLoop fuel t g
              = match gameLoopSteps fuel t g with
                | Ret x g' => Ret x g'
                | Throw _ g' => Ret tt g'
                | Spin g' => Spin g'
                end).
  { rewrite gameLoop_steps. unfold tryCatch.
    destruct (gameLoopSteps fuel t g); reflexivity. }
  split; [exact E|]. split.
  - intros e g' H. rewrite E, H. reflexivity.
  - split; [apply gameLoop_never_throws | apply gameLoop_frame].
Qed.

Lemma engineMade_updateAgents : forall g : Game,
  Forall engineMade (agents g) -> Forall engineMade (agents (updateAgents g)).
Proof.
  intros g H. apply Forall_forall. intros a' Ha'.
  apply In_nth_error in Ha'. destruct Ha' as [i Hi].
  assert (Hlt : i < List.length (agents g)).
  { rewrite <- updateAgents_length. apply nth_error_Some. rewrite Hi. discriminate. }
  apply nth_error_Some in Hlt.
  destruct (nth_error (agents g) i) as [a|] eqn:Ea; [|contradiction].
  destruct (updateAgents_pointwise g i a Ea) as [lotOf Hu].
  rewrite Hu in Hi. inversion Hi; subst a'.
  destruct (updateAgent_identity lotOf a) as [_ [_ [_ [_ [Hs Hr]]]]].
  rewrite Forall_forall in H. destruct (H a (nth_error_In _ _ Ea)) as [H1 H2].
  split; congruence.
Qed.

Lemma wellFormed_gameLoop : forall (fuel : nat) (currentTime : num) (g : Game),
  wellFormed g -> wellFormed (gameOf (gameLoop fuel currentTime g)).
Proof.
  intros fuel t g [Hres [Hroad [Hshape [Hids [Hag Hqu]]]]].
  destruct (gameLoop_frame fuel t g) as [F1 [F2 _]].
  split; [rewrite F1; exact Hres|]. split; [rewrite F2; exact Hroad|].
  set (N := fun g' : Game => graphShape g' /\ idsAreIndices g').
  assert (HN : preserves N (gameLoop fuel t)).
  { assert (Hext : forall g0 g1 : Game, roadNetwork g1 = roadNetwork g0 -> N g0 -> N g1).
    { intros g0 g1 E [[Hl Hs] Hi]. unfold N, graphShape, idsAreIndices. rewrite E.
      repeat split; assumption. }
    apply I_gameLoop.
    - intros fuel' g0 _. split; [apply graphShape_rebuilt | apply idsAreIndices_rebuilt].
    - intros g0 rs H. exact H.
    - intros g0 m H. exact H.
    - intros g0 b H. exact H.
    - intros g0 ? ? ? ? ? H. exact H.
    - intros g0 ? ? ? ? ? H. exact H.
    - intros g0 z H. exact H.
    - intros g0 t0 H. apply (Hext g0); [|exact H].
      exact (proj1 (proj2 (proj2 (proj2 (processAgentSpawnQueue_frame t0 g0))))).
    - intros g0 H. apply (Hext g0); [|exact H].
      exact (proj1 (proj2 (proj2 (proj2 (updateAgents_frame g0))))). }
  set (E := fun g' : Game =>
              Forall engineMade (agents g') /\ Forall engineMade (agentSpawnQueue g')).
  assert (HE : preserves E (gameLoop fuel t)).
  { apply I_gameLoop.
    - intros fuel'. apply frame_buildRoadNetwork; intros g0 ? H; exact H.
    - intros g0 rs H. exact H.
    - intros g0 m H. exact H.
    - intros g0 b H. exact H.
    - intros g0 ? ? ? ? ? [H1 H2]. split; [exact H1|]. simpl.
      apply Forall_app. split; [exact H2|]. repeat constructor.
    - intros g0 ? ? ? ? ? [H1 H2]. split; [|exact H2]. simpl.
      apply Forall_app. split; [exact H1|]. repeat constructor.
    - intros g0 z [H1 H2]. split; [|exact H2]. simpl.
      apply Forall_forall. intros a Ha. apply filter_In in Ha.
      rewrite Forall_forall in H1. exact (H1 a (proj1 Ha)).
    - intros g0 t0 [H1 H2]. unfold E, processAgentSpawnQueue.
      destruct (_ >=? _); [|split; assumption].
      destruct (agentSpawnQueue g0) as [|a rest] eqn:Eq; [rewrite Eq; split; assumption|].
      simpl. inversion H2; subst. split; [|assumption].
      apply Forall_app. split; [exact H1|]. constructor; [assumption | constructor].
    - intros g0 [H1 H2]. split; [apply engineMade_updateAgents; exact H1|].
      rewrite (proj1 (proj2 (proj2 (proj2 (proj2 (proj2 (updateAgents_frame g0))))))).
      exact H2. }
  destruct (HN g (conj Hshape Hids)) as [N1 N2].
  destruct (HE g (conj Hag Hqu)) as [E1 E2].
  split; [exact N1|]. split; [exact N2|]. split; [exact E1 | exact E2].
Qed.

Lemma wellFormed_paintZone : forall (x y : num) (forcePaint : bool) (g : Game),
  wellFormed g -> wellFormed (paintZone x y forcePaint g).
Proof.
  intros x y f g IH.
  destruct (noEmptyZone_paintZone x y f g (proj1 IH) (proj1 (proj2 IH))) as [H1 H2].
  exact (wellFormed_beyond g _ (paintZone_sameBeyondZones x y f g) H1 H2 IH).
Qed.

Lemma wellFormed_paintZoneAtPoint :
  forall (x y : num) (customBrushSize : option num) (g : Game),
  wellFormed g -> wellFormed (paintZoneAtPoint x y customBrushSize g).
Proof.
  intros x y c g IH. unfold paintZoneAtPoint. cbv zeta.
  set (g1 := match c with
             | Some s => if truthy s then set_buildMode (set_brushSize s (buildMode g)) g
                         else g
             | None => g
             end).
  assert (IH1 : wellFormed g1).
  { unfold g1. destruct c as [s|]; [destruct (truthy s)|]; exact IH. }
  exact (wellFormed_paintZone x y true g1 IH1).
Qed.

Lemma wellFormed_reachable : forall g : Game, reachable g -> wellFormed g.
Proof.
  intros g H. induction H as [rs|g ty size H IH|g H IH|g b H IH|g fuel x y f t h H IH
                               |g x y f H IH|g x y c H IH|g x y f H IH|g fuel t H IH].
  - split; [intros zone []|]. split; [intros zone []|].
    split; [split; [reflexivity|]; intros i j [ci [Hi _]]; destruct i; discriminate Hi|].
    split; [intros i w Hi; destruct i; discriminate Hi|].
    split; constructor.
  - exact IH.
  - exact IH.
  - exact IH.
  - apply (I_smoothPaintZone wellFormed wellFormed_paintZone wellFormed_paintZoneAtPoint).
    exact IH.
  - apply wellFormed_paintZone. exact IH.
  - apply wellFormed_paintZoneAtPoint. exact IH.
  - destruct (noEmptyZone_eraseZone x y f g (proj1 IH) (proj1 (proj2 IH))) as [H1 H2].
    exact (wellFormed_beyond g _ (eraseZone_sameBeyondZones x y f g) H1 H2 IH).
  - apply wellFormed_gameLoop. exact IH.
Qed.

(** X29: every game the engine reaches from the new game by selecting and
    deselecting a build item, painting, smooth strokes included, erasing and
    ticking, in any order and whatever the ticks throw, is well formed: no
    zone is without circles; [points] and [connections] are parallel and the
    adjacency is symmetric; the id of every waypoint is its index; and every
    agent, alive or queued, has speed 2 and radius 10. *)
Theorem reachable_games_are_well_formed : forall g : Game,
  reachable g ->
  noEmptyZone (residentialZones g) /\ noEmptyZone (roadZones g) /\
  List.length (connections (roadNetwork g)) = List.length (points (roadNetwork g)) /\
  (forall i j : nat, adjacent (connections (roadNetwork g)) i j ->
                     adjacent (connections (roadNetwork g)) j i) /\
  (forall (i : nat) (w : Waypoint),
     nth_error (points (roadNetwork g)) i = Some w -> id w = i) /\
  (forall agent : Agent, In agent (agents g ++ agentSpawnQueue g) ->
     speed agent = of_Z 2 /\ aradius agent = of_Z 10).
Proof.
  intros g H.
  destruct (wellFormed_reachable g H) as [H1 [H2 [[H3 H4] [H5 [H6 H7]]]]].
  split; [exact H1|]. split; [exact H2|]. split; [exact H3|]. split; [exact H4|].
  split; [exact H5|].
  intros agent Hin. apply in_app_or in Hin. rewrite Forall_forall in H6, H7.
  destruct Hin as [Hin|Hin]; [exact (H6 agent Hin) | exact (H7 agent Hin)].
Qed.

End ReachableFacts.


Module ReachRuns.

Import Scenario.

(** What a call threw, when it threw. *)
Definition thrown {X : Type} (o : @Outcome F X) : option string :=
  match o with
  | Throw e _ => Some e
  | _ => None
  end.

Lemma thrown_with : forall (o : @Outcome F unit) (e : string),
  thrown o = Some e -> o = Throw e (gameOf o).
Proof.
  intros [x g|e' g|g] e H; try discriminate H. inversion H. reflexivity.
Qed.

(** A tick whose statements throw. The stream of random numbers holds 1, a
    value Math.random() itself never returns: in the first tick of the
    village findFreePositionInZone then reads [zone.points[1]] of a zone of
    one circle, which is undefined, and the tick returns. *)
Lemma gameLoop_is_fail_soft_and_leaves_the_map_witness :
  @gameLoopSteps F 400 500%float (village [1%float])
    = Throw TypeError (gameOf (@gameLoopSteps F 400 500%float (village [1%float]))) /\
  @gameLoop F 400 500%float (village [1%float])
    = Ret tt (gameOf (@gameLoopSteps F 400 500%float (village [1%float]))).
Proof.
  assert (H : @gameLoopSteps F 400 500%float (village [1%float])
              = Throw TypeError (gameOf (@gameLoopSteps F 400 500%float (village [1%float])))).
  { apply thrown_with. vm_compute. reflexivity. }
  split; [exact H|].
  exact (proj1 (proj2 (@gameLoop_is_fail_soft_and_leaves_the_map F 400 500%float
                         (village [1%float])))
               TypeError _ H).
Defined.

Lemma villageTick3_reachable : @reachable F (gameOf villageTick3).
Proof.
  unfold villageTick3, villageTick2, villageEdited, villageTick1, village, paint, select.
  apply reach_tick. apply reach_tick. apply reach_erase. apply reach_tick.
  apply reach_paint. apply reach_select. apply reach_paint. apply reach_select.
  exact (@reach_initial F villageRandoms).
Qed.

(** The village after its third tick: one road, one home zone, a rebuilt
    network and the agents the ticks spawned. *)
Lemma reachable_games_are_well_formed_witness :
  @reachable F (gameOf villageTick3) /\
  (forall agent : @Agent F,
     In agent (agents (gameOf villageTick3) ++ agentSpawnQueue (gameOf villageTick3)) ->
     speed agent = @of_Z F 2 /\ aradius agent = @of_Z F 10).
Proof.
  split; [exact villageTick3_reachable|].
  exact (proj2 (proj2 (proj2 (proj2 (proj2
           (@reachable_games_are_well_formed F _ villageTick3_reachable)))))).
Defined.


End ReachRuns.
